(** * Fixturer: the YAML fixture import engine (fixturer.go)

    A shallow embedding of the second generation of the package
    (the one with [ImportFixtures], [loadParsedData] and
    [pushInsertQueriesFromYmlToChannel]) and the properties of its
    import pipeline.

    Layout:
    - [GoStrings]   the two functions of package strings the code calls;
    - [Squirrel]    the insert builder the code drives;
    - [GoMap]       iteration over a Go map (order chosen by the runtime);
    - [Fixturer]    the package itself, over an explicit process state;
    - [ParseTasks]  the goroutines of the parse phase and their join, as a
                    step relation. *)

From Stdlib Require Import Ascii String.
From stdpp Require Import gmap strings list fin_maps.


Local Open Scope string_scope.
Local Open Scope list_scope.
Local Open Scope stdpp_scope.

(* ===================================================================== *)
(** ** Package strings *)
(* ===================================================================== *)

Module GoStrings.

(** strings.HasSuffix *)
Definition HasSuffix (s suffix : string) : bool :=
  let n := String.length s in
  let k := String.length suffix in
  if (k <=? n)%nat then String.eqb (String.substring (n - k) k s) suffix else false.

(** strings.TrimSuffix *)
Definition TrimSuffix (s suffix : string) : string :=
  if HasSuffix s suffix
  then String.substring 0 (String.length s - String.length suffix) s
  else s.

(** strings.Split with a one-character separator: the pieces between
    the separators, at least one piece. *)
Fixpoint Split (s : string) (sep : ascii) : list string :=
  match s with
  | EmptyString => [EmptyString]
  | String c s' =>
      if Ascii.eqb c sep then EmptyString :: Split s' sep
      else match Split s' sep with
           | piece :: pieces => String c piece :: pieces
           | [] => [String c EmptyString]
           end
  end.

(** White space as strings.TrimSpace sees it.  A Go string is a sequence
    of bytes; TrimSpace reads it as UTF-8 and takes off the runes for
    which unicode.IsSpace holds.  Below utf8.RuneSelf these are the
    bytes of the table [asciiSpace]: tab, line feed, vertical tab, form
    feed, carriage return and space. *)
Definition is_space (c : ascii) : bool :=
  let n := nat_of_ascii c in
  (n =? 32)%nat || ((9 <=? n)%nat && (n <=? 13)%nat).

(** The white-space runes of two bytes, by their encoding: U+0085 (C2 85)
    and U+00A0 (C2 A0). *)
Definition is_space2 (c1 c2 : ascii) : bool :=
  let b1 := nat_of_ascii c1 in
  let b2 := nat_of_ascii c2 in
  (b1 =? 194)%nat && ((b2 =? 133)%nat || (b2 =? 160)%nat).

(** The white-space runes of three bytes: U+1680 (E1 9A 80), U+2000 to
    U+200A (E2 80 80 to E2 80 8A), U+2028 and U+2029 (E2 80 A8, A9),
    U+202F (E2 80 AF), U+205F (E2 81 9F) and U+3000 (E3 80 80).  No rune
    of four bytes is white space. *)
Definition is_space3 (c1 c2 c3 : ascii) : bool :=
  let b1 := nat_of_ascii c1 in
  let b2 := nat_of_ascii c2 in
  let b3 := nat_of_ascii c3 in
  ((b1 =? 225)%nat && (b2 =? 154)%nat && (b3 =? 128)%nat)
  || ((b1 =? 226)%nat && (b2 =? 128)%nat
      && (((128 <=? b3)%nat && (b3 <=? 138)%nat)
          || (b3 =? 168)%nat || (b3 =? 169)%nat || (b3 =? 175)%nat))
  || ((b1 =? 226)%nat && (b2 =? 129)%nat && (b3 =? 159)%nat)
  || ((b1 =? 227)%nat && (b2 =? 128)%nat && (b3 =? 128)%nat).

Section Runes.

(** The tests for a white-space rune of one, two and three bytes, the
    bytes in the order in which the text is gone through. *)
Variable sp1 : ascii -> bool.
Variable sp2 : ascii -> ascii -> bool.
Variable sp3 : ascii -> ascii -> ascii -> bool.

(** The bytes begin with a white-space rune. *)
Definition space_front (l : list ascii) : bool :=
  match l with
  | [] => false
  | c1 :: l1 =>
      sp1 c1
      || match l1 with
         | [] => false
         | c2 :: l2 =>
             sp2 c1 c2
             || match l2 with
                | [] => false
                | c3 :: _ => sp3 c1 c2 c3
                end
         end
  end.

(** The white-space runes at the front taken off, rune by rune, up to
    the first rune that is none (a byte that begins no valid encoding
    decodes to utf8.RuneError, which is none). *)
Fixpoint trim_runes (l : list ascii) : list ascii :=
  match l with
  | [] => []
  | c1 :: l1 =>
      if sp1 c1 then trim_runes l1
      else match l1 with
           | [] => l
           | c2 :: l2 =>
               if sp2 c1 c2 then trim_runes l2
               else match l2 with
                    | [] => l
                    | c3 :: l3 => if sp3 c1 c2 c3 then trim_runes l3 else l
                    end
           end
  end.

End Runes.

(** strings.TrimLeftFunc(s, unicode.IsSpace) *)
Definition trim_left (l : list ascii) : list ascii :=
  trim_runes is_space is_space2 is_space3 l.

(** strings.TrimRightFunc(s, unicode.IsSpace): the same from the end.
    utf8.DecodeLastRuneInString finds a rune at the end exactly when
    the text ends with the encoding of that rune, so the bytes are gone
    through in reverse order. *)
Definition trim_right (l : list ascii) : list ascii :=
  rev (trim_runes is_space (fun c2 c1 => is_space2 c1 c2)
                  (fun c3 c2 c1 => is_space3 c1 c2 c3) (rev l)).

(** strings.TrimSpace *)
Definition TrimSpace (s : string) : string :=
  string_of_list_ascii (trim_right (trim_left (list_ascii_of_string s))).

End GoStrings.

(* ===================================================================== *)
(** ** YAML values and records *)
(* ===================================================================== *)

(** A decoded scalar ([interface{}] in the Go code).  [VAbsent] is not a
    YAML value: it is the marker a row holds for a column its record does
    not mention. *)
Inductive value : Type :=
  | VAbsent
  | VNull
  | VBool (b : bool)
  | VInt (z : Z)
  | VStr (s : string).

#[global] Instance value_eq_dec : EqDecision value.
Proof. solve_decision. Defined.

(** One fixture entry: [map[string]interface{}]. *)
Abbreviation item := (gmap string value).

(* ===================================================================== *)
(** ** Iteration over a Go map *)
(* ===================================================================== *)

Module GoMap.

(** The runtime picks the order in which [range] visits a map.  The
    choice is an input of the model: a list of picks, each naming (modulo
    the number of keys left) the next key to visit.  With no picks left
    the remaining keys come in the order of the representation. *)
Fixpoint shuffle {A} (picks : list nat) (l : list A) : list A :=
  match picks with
  | [] => l
  | n :: picks' =>
      match l !! (n mod length l)%nat with
      | Some x => x :: shuffle picks' (delete (n mod length l)%nat l)
      | None => l
      end
  end.

(** [for k := range m] over a set-like map [map[string]struct{}]. *)
Definition range_keys (picks : list nat) (m : gset string) : list string :=
  shuffle picks (elements m).

(** [for _, v := range m]. *)
Definition range_values {V} (picks : list nat) (m : gmap string V) : list V :=
  shuffle picks (snd <$> map_to_list m).

End GoMap.

(* ===================================================================== *)
(** ** The insert builder (package squirrel) *)
(* ===================================================================== *)

Module Squirrel.

(** [*squirrel.InsertBuilder]: the table, the column list and the rows
    added so far. *)
Record InsertBuilder : Type := mkInsertBuilder {
  ib_table : string;
  ib_columns : list string;
  ib_rows : list (list value)
}.

#[global] Instance InsertBuilder_eq_dec : EqDecision InsertBuilder.
Proof. solve_decision. Defined.

(** squirrel.Insert(table) *)
Definition Insert (table : string) : InsertBuilder :=
  mkInsertBuilder table [] [].

(** qb.Columns(cols...) *)
Definition Columns (cols : list string) (qb : InsertBuilder) : InsertBuilder :=
  mkInsertBuilder (ib_table qb) (ib_columns qb ++ cols) (ib_rows qb).

(** Modelled from the spec: [AddMap] belongs to the squirrel fork the
    package imports, which is not part of the repository.  The spec's
    words for it: one value tuple per record, aligned to the column
    list, with an explicit marker for every column the record leaves
    out. *)
Definition AddMap (it : item) (qb : InsertBuilder) : InsertBuilder :=
  mkInsertBuilder (ib_table qb) (ib_columns qb)
    (ib_rows qb ++ [(fun c => default VAbsent (it !! c)) <$> ib_columns qb]).

End Squirrel.

Import GoStrings GoMap Squirrel.

(* ===================================================================== *)
(** ** The batch of one fixture file
       (the body of the goroutine, lines "allKeysMap := ..." onwards) *)
(* ===================================================================== *)

(** The two nested loops filling [allKeysMap]: every key of every record
    is put into the set. *)
Definition allKeysMap_of (data : list item) : gset string :=
  foldl (fun acc it => acc ∪ dom it) ∅ data.

(** [allKeys]: the keys of [allKeysMap] in the order [range] yields them. *)
Definition allKeys_of (picks : list nat) (data : list item) : list string :=
  range_keys picks (allKeysMap_of data).

(** [qb := squirrel.Insert(tableName).Columns(allKeys...)] followed by
    [qb.AddMap(item)] for every record. *)
Definition build_batch (picks : list nat) (tableName : string)
    (data : list item) : InsertBuilder :=
  foldl (fun qb it => AddMap it qb)
        (Columns (allKeys_of picks data) (Insert tableName)) data.

(** [ToSql]: the statement a builder stands for.  squirrel refuses a
    builder without a table or without rows and hands back an error and
    an empty query text. *)
Inductive stmt : Type :=
  | SetForeignKeyChecks (on : bool)      (* "SET FOREIGN_KEY_CHECKS=0" / "=1" *)
  | Truncate (table : string)            (* "TRUNCATE " + tableName *)
  | DropDatabaseIfExists (name : string) (* "DROP DATABASE IF EXISTS " + dbName *)
  | CreateDatabase (name : string)       (* "CREATE DATABASE " + dbName *)
  | InsertInto (table : string) (columns : list string) (rows : list (list value))
  | Sql (text : string).                 (* any other text: a schema statement, the empty query *)

#[global] Instance stmt_eq_dec : EqDecision stmt.
Proof. solve_decision. Defined.

Inductive error : Type :=
  | ErrIO (msg : string)      (* ioutil.ReadDir, ioutil.ReadFile *)
  | ErrDecode (msg : string)  (* yaml.Unmarshal *)
  | ErrBuild (msg : string)   (* squirrel's ToSql *)
  | ErrDb (msg : string)      (* the driver or the server *)
  | ErrTxDone.                (* sql.ErrTxDone: the transaction is finished *)

#[global] Instance error_eq_dec : EqDecision error.
Proof. solve_decision. Defined.

Definition ToSql (qb : InsertBuilder) : stmt * option error :=
  if decide (ib_table qb = "")
  then (Sql "", Some (ErrBuild "insert statements must specify a table"))
  else if decide (ib_rows qb = [])
  then (Sql "", Some (ErrBuild "insert statements must have at least one set of values"))
  else (InsertInto (ib_table qb) (ib_columns qb) (ib_rows qb), None).

(* ===================================================================== *)
(** ** The database server *)
(* ===================================================================== *)

(** A stored row: the columns of the statement paired with the values. *)
Abbreviation row := (list (string * value)).

(** The contents of the target database, table by table.  A table that
    holds no row and a table that was never filled look the same; whether
    a table exists is the server's business and shows as a failing call. *)
Abbreviation tables := (gmap string (list row)).

Definition rows_of (db : tables) (t : string) : list row := default [] (db !! t).

Definition row_count (db : tables) (t : string) : nat := length (rows_of db t).

(** What a statement does to the stored rows once the server accepted it. *)
Definition apply_stmt (db : tables) (q : stmt) : tables :=
  match q with
  | Truncate t => <[t := []]> db
  | InsertInto t cols rows => <[t := rows_of db t ++ (zip cols <$> rows)]> db
  | DropDatabaseIfExists _ => ∅
  | SetForeignKeyChecks _ | CreateDatabase _ | Sql _ => db
  end.

(** The calls into database/sql that can fail. *)
Inductive dbcall : Type :=
  | Open (dsn : string)
  | Ping
  | Close
  | Exec (q : stmt)
  | Begin
  | TxExec (q : stmt)
  | Commit
  | Rollback.

#[global] Instance dbcall_eq_dec : EqDecision dbcall.
Proof. solve_decision. Defined.

(* ===================================================================== *)
(** ** What a run can be observed to do *)
(* ===================================================================== *)

Inductive logline : Type :=
  | LogText (text : string)
  | LogErr (e : error)                            (* fmt.Println(err) *)
  | LogCantRead (filename : string) (e : error).  (* "Cant't read fixture %q. Origin error: %v" *)

Inductive event : Type :=
  | EvReadDir (path : string)
  | EvReadFile (path : string)
  | EvLog (l : logline)
  | EvGo (filename : string)             (* go func(f os.FileInfo) {...}(f) *)
  | EvSetMaxOpenConns (n : Z)
  | EvSetMaxIdleConns (n : Z)
  | EvDb (c : dbcall) (res : option error).

#[global] Instance logline_eq_dec : EqDecision logline.
Proof. solve_decision. Defined.
#[global] Instance event_eq_dec : EqDecision event.
Proof. solve_decision. Defined.

(** os.FileInfo, as far as the code looks at it. *)
Record FileInfo : Type := mkFileInfo { Name : string; IsDir : bool }.

(** Everything the process does not decide itself. *)
Record Env : Type := mkEnv {
  (** ioutil.ReadDir *)
  env_ReadDir : string -> list FileInfo + string;
  (** ioutil.ReadFile: the bytes, or the message of the error *)
  env_ReadFile : string -> string + string;
  (** the bytes ioutil.ReadFile hands back together with an error: what
      it had read when the error came (nothing when the file could not
      be opened) *)
  env_ReadSoFar : string -> string;
  (** yaml.Unmarshal(y, &data): what [data] holds afterwards, and the error *)
  env_Unmarshal : string -> list item * option string;
  (** the failure, if any, of the n-th call into the driver *)
  env_fault : nat -> dbcall -> option string;
  (** the order of the n-th [range] over a map *)
  env_picks : nat -> list nat;
  (** the order in which the goroutines of the n-th parse phase get to run *)
  env_sched : nat -> list nat
}.

(** What [y, _ := ioutil.ReadFile(path)] leaves in [y]: the error is
    dropped, the bytes that came with it are kept. *)
Definition bytes_read (env : Env) (path : string) : string :=
  match env_ReadFile env path with
  | inl bytes => bytes
  | inr _ => env_ReadSoFar env path
  end.

(** The process: the package-level variables, the server behind the
    connection, the open transaction, and the observations so far. *)
Record State : Type := mkState {
  finishedTablseNames : list string;
  finishedParsedDirs : gset string;
  insertMap : gmap string InsertBuilder;
  server : tables;
  (** statements the open transaction has accepted; [None]: no open transaction *)
  pending : option (list stmt);
  clock : nat;
  rng : nat;
  parses : nat;
  trace : list event
}.

Definition set_finishedTablseNames (v : list string) (s : State) : State :=
  mkState v (finishedParsedDirs s) (insertMap s) (server s) (pending s)
          (clock s) (rng s) (parses s) (trace s).
Definition set_finishedParsedDirs (v : gset string) (s : State) : State :=
  mkState (finishedTablseNames s) v (insertMap s) (server s) (pending s)
          (clock s) (rng s) (parses s) (trace s).
Definition set_insertMap (v : gmap string InsertBuilder) (s : State) : State :=
  mkState (finishedTablseNames s) (finishedParsedDirs s) v (server s) (pending s)
          (clock s) (rng s) (parses s) (trace s).
Definition set_server (v : tables) (s : State) : State :=
  mkState (finishedTablseNames s) (finishedParsedDirs s) (insertMap s) v (pending s)
          (clock s) (rng s) (parses s) (trace s).
Definition set_pending (v : option (list stmt)) (s : State) : State :=
  mkState (finishedTablseNames s) (finishedParsedDirs s) (insertMap s) (server s) v
          (clock s) (rng s) (parses s) (trace s).
Definition set_clock (v : nat) (s : State) : State :=
  mkState (finishedTablseNames s) (finishedParsedDirs s) (insertMap s) (server s)
          (pending s) v (rng s) (parses s) (trace s).
Definition set_rng (v : nat) (s : State) : State :=
  mkState (finishedTablseNames s) (finishedParsedDirs s) (insertMap s) (server s)
          (pending s) (clock s) v (parses s) (trace s).
Definition set_parses (v : nat) (s : State) : State :=
  mkState (finishedTablseNames s) (finishedParsedDirs s) (insertMap s) (server s)
          (pending s) (clock s) (rng s) v (trace s).
Definition set_trace (v : list event) (s : State) : State :=
  mkState (finishedTablseNames s) (finishedParsedDirs s) (insertMap s) (server s)
          (pending s) (clock s) (rng s) (parses s) v.

(** A process that has just started: the package variables as declared. *)
Definition init_State (db : tables) : State :=
  mkState [] ∅ ∅ db None 0 0 0 [].

(** *** The state monad the operations live in *)

Definition M (A : Type) : Type := State -> A * State.

Definition ret {A} (a : A) : M A := fun s => (a, s).

Definition bind {A B} (m : M A) (k : A -> M B) : M B :=
  fun s => let (a, s') := m s in k a s'.

Notation "x <- m ;; k" := (bind m (fun x => k))
  (at level 100, m at next level, right associativity).
Notation "m ;;; k" := (bind m (fun _ => k))
  (at level 100, right associativity).

Definition get : M State := fun s => (s, s).
Definition modify (f : State -> State) : M unit := fun s => (tt, f s).
Definition emit (e : event) : M unit :=
  modify (fun s => set_trace (trace s ++ [e]) s).
Definition log (l : logline) : M unit := emit (EvLog l).

(* ===================================================================== *)
(** ** The package *)
(* ===================================================================== *)

(** [*sql.DB] as the package configures it. *)
Record DB : Type := mkDB {
  db_dsn : string;
  db_maxOpenConns : Z;
  db_maxIdleConns : Z
}.

Record Fixturer : Type := mkFixturer {
  db : option DB;
  dbConf : string;
  schema : string;
  fixturesPathYml : string;
  recreateDatabase : bool;
  dbName : string;
  dbParams : string;
  insertGoroutinesCnt : Z
}.

Definition set_db (v : option DB) (this : Fixturer) : Fixturer :=
  mkFixturer v (dbConf this) (schema this) (fixturesPathYml this)
             (recreateDatabase this) (dbName this) (dbParams this)
             (insertGoroutinesCnt this).
Definition set_insertGoroutinesCnt (v : Z) (this : Fixturer) : Fixturer :=
  mkFixturer (db this) (dbConf this) (schema this) (fixturesPathYml this)
             (recreateDatabase this) (dbName this) (dbParams this) v.

Definition InsertChannelCapacity : Z := 1000.
Definition InsertGoroutinesDefaultCnt : Z := 20.

(** [NewFixturer]; [flag_recreateDatabase] is the value of the command
    line flag "recreateDatabase" when the constructor runs. *)
Definition NewFixturer (flag_recreateDatabase : bool)
    (dbConf schema fixturesPathYml dbName dbParams : string) : Fixturer :=
  mkFixturer None dbConf schema fixturesPathYml flag_recreateDatabase
             dbName dbParams InsertGoroutinesDefaultCnt.

(** A call either returns or panics. *)
Inductive outcome (A : Type) : Type :=
  | Returned (a : A)
  | Panicked (msg : string).
Arguments Returned {A} a.
Arguments Panicked {A} msg.

(** [SetInsertGoroutinesCnt] *)
Definition SetInsertGoroutinesCnt (this : Fixturer) (cnt : Z) : M (outcome Fixturer) :=
  if (cnt <? 1)%Z
  then ret (Panicked "Insert goroutines count must be > 1.")
  else ret (Returned (set_insertGoroutinesCnt cnt this)).

Section Operations.

Variable env : Env.

(** *** database/sql *)

(** A call that reaches the driver: it takes the next outcome the
    environment holds and is recorded with it. *)
Definition driver (c : dbcall) : M (option error) := fun s =>
  let r := ErrDb <$> env_fault env (clock s) c in
  (r, set_trace (trace s ++ [EvDb c r]) (set_clock (S (clock s)) s)).

(** A call on a transaction that is already committed or rolled back:
    database/sql answers [ErrTxDone] itself. *)
Definition on_finished_tx (c : dbcall) : M (option error) :=
  emit (EvDb c (Some ErrTxDone)) ;;; ret (Some ErrTxDone).

(** [this.db.Exec(q)]: outside any transaction, in effect at once. *)
Definition db_Exec (q : stmt) : M (option error) :=
  r <- driver (Exec q) ;;
  match r with
  | None => modify (fun s => set_server (apply_stmt (server s) q) s) ;;; ret None
  | Some e => ret (Some e)
  end.

(** [this.db.Begin()] *)
Definition db_Begin : M (option error) :=
  r <- driver Begin ;;
  match r with
  | None => modify (set_pending (Some [])) ;;; ret None
  | Some e => ret (Some e)
  end.

(** [tx.Exec(q)]: held back until the commit. *)
Definition tx_Exec (q : stmt) : M (option error) :=
  s <- get ;;
  match pending s with
  | None => on_finished_tx (TxExec q)
  | Some qs =>
      r <- driver (TxExec q) ;;
      match r with
      | None => modify (set_pending (Some (qs ++ [q]))) ;;; ret None
      | Some e => ret (Some e)
      end
  end.

(** [tx.Commit()]: the held statements take effect together, or, when
    the commit fails, not at all; either way the transaction is over. *)
Definition tx_Commit : M (option error) :=
  s <- get ;;
  match pending s with
  | None => on_finished_tx Commit
  | Some qs =>
      r <- driver Commit ;;
      modify (set_pending None) ;;;
      match r with
      | None =>
          modify (fun s => set_server (foldl apply_stmt (server s) qs) s) ;;;
          ret None
      | Some e => ret (Some e)
      end
  end.

(** [tx.Rollback()]: the held statements are dropped. *)
Definition tx_Rollback : M (option error) :=
  s <- get ;;
  match pending s with
  | None => on_finished_tx Rollback
  | Some _ => r <- driver Rollback ;; modify (set_pending None) ;;; ret r
  end.

(** *** Connection *)

(** [ensureDbConnected] *)
Definition ensureDbConnected (this : Fixturer) : M (option error * Fixturer) :=
  match db this with
  | Some _ => ret (None, this)
  | None =>
      let dsn := dbConf this +:+ dbName this in
      let dsn := if decide (dbParams this = "") then dsn
                 else dsn +:+ "?" +:+ dbParams this in
      r <- driver (Open dsn) ;;
      match r with
      | Some e => ret (Some e, this)
      | None =>
          emit (EvSetMaxOpenConns (insertGoroutinesCnt this)) ;;;
          emit (EvSetMaxIdleConns (insertGoroutinesCnt this)) ;;;
          r <- driver Ping ;;
          match r with
          | Some e => ret (Some e, this)
          | None =>
              ret (None, set_db (Some (mkDB dsn (insertGoroutinesCnt this)
                                            (insertGoroutinesCnt this))) this)
          end
      end
  end.

(** [ensureDbDisconnected] *)
Definition ensureDbDisconnected (this : Fixturer) : M Fixturer :=
  driver Close ;;; ret (set_db None this).

(** [RecreateDatabase] *)
Definition RecreateDatabase (this : Fixturer) : M (option error) :=
  r <- driver (Open (dbConf this)) ;;
  match r with
  | Some e => ret (Some e)
  | None =>
      log (LogText ("Drop database " +:+ dbName this)) ;;;
      r <- db_Exec (DropDatabaseIfExists (dbName this)) ;;
      match r with
      | Some e => ret (Some e)
      | None =>
          log (LogText ("Create database " +:+ dbName this)) ;;;
          r <- db_Exec (CreateDatabase (dbName this)) ;;
          match r with
          | Some e => ret (Some e)
          | None => driver Close ;;; ret None
          end
      end
  end.

(** *** Discovery *)

(** [getYmlFilesList]; the parameter [path] is not used by the code,
    which lists [this.fixturesPathYml]. *)
Definition getYmlFilesList (this : Fixturer) (path : string)
    : M (list FileInfo + error) :=
  emit (EvReadDir (fixturesPathYml this)) ;;;
  match env_ReadDir env (fixturesPathYml this) with
  | inr msg => ret (inr (ErrIO msg))
  | inl files =>
      ret (inl (List.filter
                  (fun file => negb (IsDir file || negb (HasSuffix (Name file) ".yml")))
                  files))
  end.

(** *** The parse phase *)

(** The body of the goroutine started for one file, run from its first
    statement to its last; [tablesNames] is the slice the goroutines of
    one phase share. *)
Definition parse_task (this : Fixturer) (f : FileInfo)
    (tablesNames : list string) : M (list string) :=
  let filename := Name f in
  if negb (HasSuffix filename ".yml") then ret tablesNames
  else
    let path := fixturesPathYml this +:+ "/" +:+ filename in
    emit (EvReadFile path) ;;;
    let y := bytes_read env path in
    let '(data, err) := env_Unmarshal env y in
    match err with
    | Some msg => log (LogCantRead filename (ErrDecode msg))
    | None => ret tt
    end ;;;
    let tableName := TrimSuffix filename ".yml" in
    s <- get ;;
    let qb := build_batch (env_picks env (rng s)) tableName data in
    modify (set_rng (S (rng s))) ;;;
    modify (fun s => set_insertMap (<[filename := qb]> (insertMap s)) s) ;;;
    ret (tablesNames ++ [tableName]).

Fixpoint run_tasks (this : Fixturer) (order : list FileInfo)
    (tablesNames : list string) : M (list string) :=
  match order with
  | [] => ret tablesNames
  | f :: rest =>
      tablesNames <- parse_task this f tablesNames ;;
      run_tasks this rest tablesNames
  end.

Fixpoint launch (files : list FileInfo) : M unit :=
  match files with
  | [] => ret tt
  | f :: rest => emit (EvGo (Name f)) ;;; launch rest
  end.

(** [pushInsertQueriesFromYmlToChannel]: one goroutine per file, a wait
    for all of them, then the table names of this phase are published.
    Here the goroutines run one after the other in the order the
    scheduler picked; [ParseTasks] below has them interleaved. *)
Definition pushInsertQueriesFromYmlToChannel (this : Fixturer)
    (files : list FileInfo) : M unit :=
  launch files ;;;
  s <- get ;;
  let order := shuffle (env_sched env (parses s)) files in
  modify (set_parses (S (parses s))) ;;;
  tablesNames <- run_tasks this order [] ;;
  modify (set_finishedTablseNames tablesNames).

(** *** The load phase *)

Fixpoint truncate_loop (names : list string) : M (option error) :=
  match names with
  | [] => ret None
  | tableName :: rest =>
      r <- db_Exec (Truncate tableName) ;;
      match r with
      | Some e => log (LogErr e) ;;; ret (Some e)
      | None => truncate_loop rest
      end
  end.

Definition log_if_err (r : option error) : M unit :=
  match r with
  | Some e => log (LogErr e)
  | None => ret tt
  end.

Fixpoint insert_loop (queries : list InsertBuilder) : M unit :=
  match queries with
  | [] => ret tt
  | query :: rest =>
      log_if_err (snd (ToSql query)) ;;;
      r <- tx_Exec (fst (ToSql query)) ;;
      log_if_err r ;;;
      insert_loop rest
  end.

(** [loadParsedData].  The deferred calls are written out at each
    return that comes after their [defer] statement, last deferred
    first. *)
Definition loadParsedData (this : Fixturer) : M (option error) :=
  r <- db_Exec (SetForeignKeyChecks false) ;;
  match r with
  | Some e => ret (Some e)
  | None =>
      (* defer this.db.Exec("SET FOREIGN_KEY_CHECKS=1") *)
      s <- get ;;
      r <- truncate_loop (finishedTablseNames s) ;;
      match r with
      | Some e => db_Exec (SetForeignKeyChecks true) ;;; ret (Some e)
      | None =>
          r <- db_Begin ;;
          match r with
          | Some e => db_Exec (SetForeignKeyChecks true) ;;; ret (Some e)
          | None =>
              (* defer tx.Rollback() *)
              s <- get ;;
              let queries := range_values (env_picks env (rng s)) (insertMap s) in
              modify (set_rng (S (rng s))) ;;;
              insert_loop queries ;;;
              r <- tx_Commit ;;
              log_if_err r ;;;
              tx_Rollback ;;;
              db_Exec (SetForeignKeyChecks true) ;;;
              ret r
          end
      end
  end.

(** [importYmlFixtures] *)
Definition importYmlFixtures (this : Fixturer) (files : list FileInfo)
    : M (option error) :=
  log (LogText "Import YML fixtures") ;;;
  s <- get ;;
  if decide (fixturesPathYml this ∈ finishedParsedDirs s) then
    loadParsedData this ;;; ret None
  else
    pushInsertQueriesFromYmlToChannel this files ;;;
    modify (fun s => set_finishedParsedDirs
                       ({[fixturesPathYml this]} ∪ finishedParsedDirs s) s) ;;;
    loadParsedData this.

(** [ImportFixtures] *)
Definition ImportFixtures (this : Fixturer) : M (option error * Fixturer) :=
  listed <- getYmlFilesList this (fixturesPathYml this) ;;
  match listed with
  | inr e => ret (Some e, this)
  | inl files =>
      connected <- ensureDbConnected this ;;
      match fst connected with
      | Some e => ret (Some e, snd connected)
      | None =>
          (* defer this.ensureDbDisconnected() *)
          r <- importYmlFixtures (snd connected) files ;;
          this' <- ensureDbDisconnected (snd connected) ;;
          ret (r, this')
      end
  end.

(** *** The schema *)

Fixpoint schema_loop (queries : list string) : M (option error) :=
  match queries with
  | [] => ret None
  | q :: rest =>
      let query := TrimSpace q in
      if decide (String.length query = 0) then schema_loop rest
      else
        r <- tx_Exec (Sql query) ;;
        match r with
        | Some e => ret (Some e)
        | None => schema_loop rest
        end
  end.

(** [LoadDbSchema]; the deferred calls as in [loadParsedData]. *)
Definition LoadDbSchema (this : Fixturer) : M (option error * Fixturer) :=
  log (LogText "Load database schema") ;;;
  connected <- ensureDbConnected this ;;
  match fst connected with
  | Some e => ret (Some e, snd connected)
  | None =>
      r <- db_Begin ;;
      match r with
      | Some e => ret (Some e, snd connected)
      | None =>
          (* defer tx.Rollback() *)
          r <- tx_Exec (SetForeignKeyChecks false) ;;
          match r with
          | Some e => tx_Rollback ;;; ret (Some e, snd connected)
          | None =>
              (* defer tx.Exec("SET FOREIGN_KEY_CHECKS=1") *)
              emit (EvReadFile (schema this)) ;;;
              r <- match env_ReadFile env (schema this) with
                   | inl file =>
                       r <- schema_loop (Split file ";"%char) ;;
                       match r with
                       | Some e => ret (Some e)
                       | None => tx_Commit
                       end
                   | inr msg => ret (Some (ErrIO msg))
                   end ;;
              tx_Exec (SetForeignKeyChecks true) ;;;
              tx_Rollback ;;;
              ret (r, snd connected)
          end
      end
  end.

(** [RecreateDatabaseWithSchemaAndImportFixtures] *)
Definition RecreateDatabaseWithSchemaAndImportFixtures (this : Fixturer)
    : M (option error * Fixturer) :=
  if recreateDatabase this then
    r <- RecreateDatabase this ;;
    match r with
    | Some e => ret (Some e, this)
    | None =>
        loaded <- LoadDbSchema this ;;
        match fst loaded with
        | Some e => ret (Some e, snd loaded)
        | None => ImportFixtures (snd loaded)
        end
    end
  else ImportFixtures this.

End Operations.

(* ===================================================================== *)
(** ** The goroutines of the parse phase, interleaved *)
(* ===================================================================== *)

Module ParseTasks.

(** Where one goroutine of [pushInsertQueriesFromYmlToChannel] stands.
    Its [defer wg.Done()] runs when the body is left, at [AtDone]. *)
Inductive task_pc : Type :=
  | NotLaunched                       (* the go statement is still ahead *)
  | AtEntry                           (* filename := f.Name(); suffix test *)
  | AtRead                            (* ReadFile, Unmarshal, log *)
  | AtLock1 (data : list item)        (* mutex.Lock() *)
  | AtAppend (data : list item)       (* tablesNames = append(...) *)
  | AtUnlock1 (data : list item)      (* mutex.Unlock() *)
  | AtBuild (data : list item)        (* allKeysMap ... qb.AddMap(item) *)
  | AtLock2 (qb : InsertBuilder)      (* mutex.Lock() *)
  | AtStore (qb : InsertBuilder)      (* insertMap[filename] = qb *)
  | AtUnlock2                         (* mutex.Unlock() *)
  | AtDone                            (* the deferred wg.Done() *)
  | Finished.

#[global] Instance task_pc_eq_dec : EqDecision task_pc.
Proof. solve_decision. Defined.

(** Where the calling goroutine stands. *)
Inductive main_pc : Type :=
  | MAdd                 (* wg.Add(len(files)) *)
  | MLaunch (i : nat)    (* the loop of go statements, at files[i] *)
  | MWait                (* wg.Wait() *)
  | MLock                (* mutex.Lock() *)
  | MPublish             (* finishedTablseNames = tablesNames *)
  | MUnlock              (* mutex.Unlock() *)
  | MReturned.

#[global] Instance main_pc_eq_dec : EqDecision main_pc.
Proof. solve_decision. Defined.

Record Config : Type := mkConfig {
  c_main : main_pc;
  c_tasks : list task_pc;
  c_wg : Z;                                   (* the WaitGroup counter *)
  c_mutex : bool;                             (* the mutex is held *)
  c_tablesNames : list string;                (* the local slice *)
  c_insertMap : gmap string InsertBuilder;    (* the package variable *)
  c_finished : list string                    (* finishedTablseNames *)
}.

Definition set_main v c :=
  mkConfig v (c_tasks c) (c_wg c) (c_mutex c) (c_tablesNames c) (c_insertMap c) (c_finished c).
Definition set_task i v c :=
  mkConfig (c_main c) (<[i := v]> (c_tasks c)) (c_wg c) (c_mutex c) (c_tablesNames c)
           (c_insertMap c) (c_finished c).
Definition set_wg v c :=
  mkConfig (c_main c) (c_tasks c) v (c_mutex c) (c_tablesNames c) (c_insertMap c) (c_finished c).
Definition set_mutex v c :=
  mkConfig (c_main c) (c_tasks c) (c_wg c) v (c_tablesNames c) (c_insertMap c) (c_finished c).
Definition set_tablesNames v c :=
  mkConfig (c_main c) (c_tasks c) (c_wg c) (c_mutex c) v (c_insertMap c) (c_finished c).
Definition set_insertMap v c :=
  mkConfig (c_main c) (c_tasks c) (c_wg c) (c_mutex c) (c_tablesNames c) v (c_finished c).
Definition set_finished v c :=
  mkConfig (c_main c) (c_tasks c) (c_wg c) (c_mutex c) (c_tablesNames c) (c_insertMap c) v.

Section Machine.

Variable env : Env.
Variable this : Fixturer.
Variable files : list FileInfo.

(** What [data] holds after ReadFile and Unmarshal of one file. *)
Definition decoded (filename : string) : list item :=
  let path := fixturesPathYml this +:+ "/" +:+ filename in
  fst (env_Unmarshal env (bytes_read env path)).

Definition table_of (filename : string) : string := TrimSuffix filename ".yml".

(** One step of goroutine [i]; [picks] is the order its [range] over
    [allKeysMap] takes.  [None]: the goroutine cannot move (not
    launched, finished, or waiting for the mutex). *)
Definition step_task (i : nat) (picks : list nat) (c : Config) : option Config :=
  match files !! i, c_tasks c !! i with
  | Some f, Some pc =>
      let filename := Name f in
      match pc with
      | NotLaunched | Finished => None
      | AtEntry =>
          Some (set_task i (if HasSuffix filename ".yml" then AtRead else AtDone) c)
      | AtRead => Some (set_task i (AtLock1 (decoded filename)) c)
      | AtLock1 data =>
          if c_mutex c then None
          else Some (set_task i (AtAppend data) (set_mutex true c))
      | AtAppend data =>
          Some (set_task i (AtUnlock1 data)
                  (set_tablesNames (c_tablesNames c ++ [table_of filename]) c))
      | AtUnlock1 data => Some (set_task i (AtBuild data) (set_mutex false c))
      | AtBuild data =>
          Some (set_task i (AtLock2 (build_batch picks (table_of filename) data)) c)
      | AtLock2 qb =>
          if c_mutex c then None
          else Some (set_task i (AtStore qb) (set_mutex true c))
      | AtStore qb =>
          Some (set_task i AtUnlock2
                  (set_insertMap (<[filename := qb]> (c_insertMap c)) c))
      | AtUnlock2 => Some (set_task i AtDone (set_mutex false c))
      | AtDone => Some (set_task i Finished (set_wg (c_wg c - 1)%Z c))
      end
  | _, _ => None
  end.

(** One step of the calling goroutine; [None]: it waits or has
    returned. *)
Definition step_main (c : Config) : option Config :=
  match c_main c with
  | MAdd => Some (set_main (MLaunch 0) (set_wg (c_wg c + Z.of_nat (length files))%Z c))
  | MLaunch i =>
      if (i <? length files)%nat
      then Some (set_main (MLaunch (S i)) (set_task i AtEntry c))
      else Some (set_main MWait c)
  | MWait => if (c_wg c =? 0)%Z then Some (set_main MLock c) else None
  | MLock => if c_mutex c then None else Some (set_main MPublish (set_mutex true c))
  | MPublish => Some (set_main MUnlock (set_finished (c_tablesNames c) c))
  | MUnlock => Some (set_main MReturned (set_mutex false c))
  | MReturned => None
  end.

(** The scheduler's choice of who moves next. *)
Inductive choice : Type :=
  | Caller
  | Goroutine (i : nat) (picks : list nat).

Definition step (ch : choice) (c : Config) : option Config :=
  match ch with
  | Caller => step_main c
  | Goroutine i picks => step_task i picks c
  end.

(** A run under a schedule; a choice that cannot move is passed over. *)
Definition run (sched : list choice) (c : Config) : Config :=
  foldl (fun c ch => default c (step ch c)) c sched.

(** The call is entered with the package variables as they are. *)
Definition entry (im : gmap string InsertBuilder) (fin : list string) : Config :=
  mkConfig MAdd (replicate (length files) NotLaunched) 0 false [] im fin.

Definition reachable (im : gmap string InsertBuilder) (fin : list string)
    (c : Config) : Prop :=
  exists sched, c = run sched (entry im fin).

(** The caller is past [wg.Wait()]. *)
Definition past_wait (m : main_pc) : bool :=
  match m with
  | MLock | MPublish | MUnlock | MReturned => true
  | MAdd | MLaunch _ | MWait => false
  end.

End Machine.

End ParseTasks.

(* ===================================================================== *)
(** ** Reading a run *)
(* ===================================================================== *)

(** What was observed between two states of one run. *)
Definition events_since (s s' : State) : list event :=
  drop (length (trace s)) (trace s').

Definition is_ReadDir (e : event) : bool :=
  match e with EvReadDir _ => true | _ => false end.
Definition is_ReadFile (e : event) : bool :=
  match e with EvReadFile _ => true | _ => false end.
Definition is_Go (e : event) : bool :=
  match e with EvGo _ => true | _ => false end.

(** The statement went out through [db.Exec] / through [tx.Exec]. *)
Definition issued (q : stmt) (evs : list event) : Prop :=
  exists r, In (EvDb (Exec q) r) evs.
Definition issued_tx (q : stmt) (evs : list event) : Prop :=
  exists r, In (EvDb (TxExec q) r) evs.

(** The tables a TRUNCATE went out for, in order. *)
Definition truncated (evs : list event) : list string :=
  omap (fun e => match e with
                 | EvDb (Exec (Truncate t)) _ => Some t
                 | _ => None
                 end) evs.

(** The statements the open transaction accepted, in order. *)
Definition accepted (evs : list event) : list stmt :=
  omap (fun e => match e with
                 | EvDb (TxExec q) None => Some q
                 | _ => None
                 end) evs.

(** The database answers a call the same way whenever it is made. *)
Definition time_invariant (env : Env) : Prop :=
  forall n c, env_fault env n c = env_fault env 0 c.

(** The spec's column order: every field name at the place of its first
    occurrence, reading the records of the file from top to bottom. *)
Definition first_occurrence_order (records : list (list string)) : list string :=
  foldl (fun seen k => if decide (k ∈ seen) then seen else seen ++ [k])
        [] (concat records).

(** The fixture of the spec's scenario, users.yml, as text order and as
    decoded records. *)
Definition users_yml_fields : list (list string) :=
  [["id"; "name"]; ["id"; "name"; "note"]].
Definition users_yml : list item :=
  [ {[ "id" := VInt 1; "name" := VStr "a" ]};
    {[ "id" := VInt 2; "name" := VStr "a"; "note" := VStr "x" ]} ].

(* ===================================================================== *)
(** ** Vocabulary of the statements *)
(* ===================================================================== *)

(* ===================================================================== *)
(** *** Calls into the database, one at a time *)
(* ===================================================================== *)

(** The package variables and the parse counter are left alone. *)
Definition same_process (s s' : State) : Prop :=
  finishedTablseNames s' = finishedTablseNames s
  ∧ finishedParsedDirs s' = finishedParsedDirs s
  ∧ insertMap s' = insertMap s
  ∧ parses s' = parses s.

(** The database lets a call through at some time / refuses it at some
    time. *)
Definition passes (env : Env) (c : dbcall) : Prop := ∃ n, env_fault env n c = None.
Definition fails (env : Env) (c : dbcall) : Prop := ∃ n, is_Some (env_fault env n c).

(** The kinds of event the two loops of the load phase leave behind. *)
Definition truncate_or_log (e : event) : Prop :=
  (∃ t r, e = EvDb (Exec (Truncate t)) r) ∨ (∃ l, e = EvLog l).
Definition insert_or_log (e : event) : Prop :=
  (∃ qb r, e = EvDb (TxExec (fst (ToSql qb))) r) ∨ (∃ l, e = EvLog l).

Definition ok_truncate (t : string) : event := EvDb (Exec (Truncate t)) None.

(** The statements of a list of builders the server lets through. *)
Definition lets_through (env : Env) (qs : list InsertBuilder) : list stmt :=
  filter (fun q => env_fault env 0 (TxExec q) = None) (fst ∘ ToSql <$> qs).

(* ===================================================================== *)
(** *** The load phase, path by path *)
(* ===================================================================== *)

(** The stored rows once every table of the truncation list is emptied. *)
Definition cleared (s : State) : tables :=
  foldl apply_stmt (server s) (Truncate <$> finishedTablseNames s).

Definition fk_off : event := EvDb (Exec (SetForeignKeyChecks false)) None.
Definition fk_on (r : option error) : event := EvDb (Exec (SetForeignKeyChecks true)) r.

(** The four ways through [loadParsedData], told by what happened since
    the call: the constraint switch fails; a TRUNCATE fails; the
    transaction cannot be begun; the commit is reached. *)
Inductive load_path (env : Env) (s s' : State) (r : option error)
    : list event → Prop :=
  | load_switch_failed e :
      r = Some e → server s' = server s →
      fails env (Exec (SetForeignKeyChecks false)) →
      load_path env s s' r [EvDb (Exec (SetForeignKeyChecks false)) (Some e)]
  | load_truncate_failed e tevs r1 :
      r = Some e → Forall truncate_or_log tevs →
      truncated tevs `prefix_of` finishedTablseNames s →
      (∃ t, t ∈ finishedTablseNames s ∧ fails env (Exec (Truncate t))) →
      load_path env s s' r (fk_off :: tevs ++ [fk_on r1])
  | load_begin_failed e r1 :
      r = Some e → server s' = cleared s →
      fails env Begin →
      load_path env s s' r
        (fk_off :: (ok_truncate <$> finishedTablseNames s)
           ++ [EvDb Begin (Some e); fk_on r1])
  | load_commit_reached ins r1 :
      passes env (Exec (SetForeignKeyChecks false)) →
      (∀ t, t ∈ finishedTablseNames s → passes env (Exec (Truncate t))) →
      passes env Begin →
      (∃ n, r = ErrDb <$> env_fault env n Commit) →
      Forall insert_or_log ins →
      (∀ k qb, insertMap s !! k = Some qb → issued_tx (fst (ToSql qb)) ins) →
      server s' = (if r is None then foldl apply_stmt (cleared s) (accepted ins)
                   else cleared s) →
      (time_invariant env →
       ∃ qs, qs ≡ₚ (snd <$> map_to_list (insertMap s))
             ∧ accepted ins = lets_through env qs) →
      load_path env s s' r
        (fk_off :: (ok_truncate <$> finishedTablseNames s)
           ++ EvDb Begin None :: ins
           ++ EvDb Commit r :: (if r is Some e then [EvLog (LogErr e)] else [])
           ++ [EvDb Rollback (Some ErrTxDone); fk_on r1]).

(* ===================================================================== *)
(** *** Connection and schema, path by path *)
(* ===================================================================== *)

(** Events of opening, sizing, probing and closing a connection. *)
Definition connection_event (e : event) : bool :=
  match e with
  | EvDb (Open _) _ | EvDb Ping _ | EvDb Close _
  | EvSetMaxOpenConns _ | EvSetMaxIdleConns _ => true
  | _ => false
  end.

(** Events that touch the file system or start a goroutine. *)
Definition file_event (e : event) : bool :=
  is_ReadDir e || is_ReadFile e || is_Go e.

(** Statements that leave the stored rows as they are. *)
Definition inert (q : stmt) : bool :=
  match q with
  | SetForeignKeyChecks _ | CreateDatabase _ | Sql _ => true
  | _ => false
  end.

Definition dsn_of (this : Fixturer) : string :=
  if decide (dbParams this = "") then dbConf this +:+ dbName this
  else (dbConf this +:+ dbName this) +:+ "?" +:+ dbParams this.

Definition schema_event (e : event) : Prop := ∃ text r, e = EvDb (TxExec (Sql text)) r.

Definition tx_fk_off (r : option error) : event :=
  EvDb (TxExec (SetForeignKeyChecks false)) r.
Definition tx_fk_on (r : option error) : event :=
  EvDb (TxExec (SetForeignKeyChecks true)) r.

Definition schema_or_commit (e : event) : Prop :=
  schema_event e ∨ ∃ r, e = EvDb Commit r.

(** The ways through [LoadDbSchema] after its log line and the events of
    connecting: no connection; no transaction; the constraint switch
    fails; the body runs (schema file, statements, commit). *)
Inductive schema_path (this : Fixturer) (r : option error) : list event → Prop :=
  | schema_not_connected e :
      r = Some e → schema_path this r []
  | schema_not_begun e :
      r = Some e → schema_path this r [EvDb Begin (Some e)]
  | schema_switch_failed e r2 :
      r = Some e →
      schema_path this r [EvDb Begin None; tx_fk_off (Some e); EvDb Rollback r2]
  | schema_body mid r1 r2 :
      Forall schema_or_commit mid →
      (r = None → In (EvDb Commit None) mid ∧ r1 = Some ErrTxDone) →
      schema_path this r
        ([EvDb Begin None; tx_fk_off None; EvReadFile (schema this)]
           ++ mid ++ [tx_fk_on r1; EvDb Rollback r2]).

(* ===================================================================== *)
(** *** Scenarios *)
(* ===================================================================== *)

(** An environment with one fixture directory "fx" (users.yml of the
    spec's scenario, a file bad.yml that does not decode, a sub-directory
    and a text file), and a database that fails where [fault] says. *)
Definition scenario_env (fault : nat → dbcall → option string) : Env :=
  mkEnv
    (fun path =>
       if decide (path = "fx")
       then inl [mkFileInfo "users.yml" false; mkFileInfo "more.yml" true;
                 mkFileInfo "readme.txt" false; mkFileInfo "bad.yml" false]
       else if decide (path = "fy")
       then inl [mkFileInfo "orders.yml" false]
       else inr "open: no such file or directory")
    (fun path => inl path)
    (fun _ => "")
    (fun bytes =>
       if decide (bytes = "fx/users.yml") then (users_yml, None)
       else if decide (bytes = "fy/orders.yml") then ([ {[ "id" := VInt 7 ]} ], None)
       else ([], Some "yaml: did not find expected key"))
    fault
    (fun _ => [])
    (fun _ => []).

Definition no_fault : nat → dbcall → option string := fun _ _ => None.

(** The constraint switch is refused. *)
Definition switch_fault : nat → dbcall → option string :=
  fun _ c =>
    match c with
    | Exec (SetForeignKeyChecks false) | TxExec (SetForeignKeyChecks false) =>
        Some "server has gone away"
    | _ => None
    end.

(** Every commit is refused. *)
Definition commit_fault : nat → dbcall → option string :=
  fun _ c => match c with Commit => Some "deadlock found" | _ => None end.

Definition fixturer_fx : Fixturer :=
  NewFixturer false "root@tcp(127.0.0.1:3306)/" "schema.sql" "fx" "testdb" "".
Definition fixturer_fy : Fixturer :=
  NewFixturer false "root@tcp(127.0.0.1:3306)/" "schema.sql" "fy" "testdb" "".

(** The same fixturer with the recreate flag set. *)
Definition fixturer_recreate : Fixturer :=
  NewFixturer true "root@tcp(127.0.0.1:3306)/" "schema.sql" "fx" "testdb" "".

(** The server refuses to create a database. *)
Definition create_fault : nat → dbcall → option string :=
  fun _ c =>
    match c with Exec (CreateDatabase _) => Some "access denied" | _ => None end.

(** A database in which table users already holds one row. *)
Definition one_user : tables := {[ "users" := [[("id", VInt 9)]] ]}.

(* ===================================================================== *)
(** *** The parse phase *)
(* ===================================================================== *)

Import ParseTasks.

Definition has_yml (f : FileInfo) : bool := HasSuffix (Name f) ".yml".

Definition path_of (this : Fixturer) (filename : string) : string :=
  fixturesPathYml this +:+ "/" +:+ filename.

(** yaml.Unmarshal's error for one file of the directory. *)
Definition decode_error (env : Env) (this : Fixturer) (filename : string)
    : option string :=
  snd (env_Unmarshal env (bytes_read env (path_of this filename))).

(** Events of a goroutine of the parse phase. *)
Definition parse_event (e : event) : Prop :=
  (∃ path, e = EvReadFile path) ∨ (∃ filename msg, e = EvLog (LogCantRead filename (ErrDecode msg))).

(** The database and the other package variables are left alone. *)
Definition same_database (s s' : State) : Prop :=
  server s' = server s ∧ pending s' = pending s ∧ clock s' = clock s
  ∧ finishedParsedDirs s' = finishedParsedDirs s.

(** The table names a parse phase over [files] records, in the order in
    which its goroutines got to append them. *)
Definition tables_of_phase (env : Env) (n : nat) (files : list FileInfo) : list string :=
  table_of ∘ Name <$> List.filter has_yml (shuffle (env_sched env n) files).

(* ===================================================================== *)
(** *** The import, step by step *)
(* ===================================================================== *)

(** The entries [getYmlFilesList] keeps. *)
Definition yml_files (entries : list FileInfo) : list FileInfo :=
  List.filter (fun file => negb (IsDir file || negb (HasSuffix (Name file) ".yml")))
              entries.

Definition logged (l : logline) (s : State) : State :=
  set_trace (trace s ++ [EvLog l]) s.

Definition listed (this : Fixturer) (s : State) : State :=
  set_trace (trace s ++ [EvReadDir (fixturesPathYml this)]) s.

Definition dir_parsed (this : Fixturer) (s : State) : State :=
  set_finishedParsedDirs ({[fixturesPathYml this]} ∪ finishedParsedDirs s) s.

(* ===================================================================== *)
(** *** Row counts after a load *)
(* ===================================================================== *)

(** Rows a statement adds to table [t]. *)
Definition rows_into (t : string) (q : stmt) : nat :=
  match q with
  | InsertInto t' _ rows => if decide (t' = t) then length rows else 0
  | _ => 0
  end.

(** Statements that remove no row. *)
Definition adds_rows_only (q : stmt) : bool :=
  match q with
  | InsertInto _ _ _ | Sql _ | SetForeignKeyChecks _ | CreateDatabase _ => true
  | _ => false
  end.

(** The database, asked at any time, lets the whole load through. *)
Definition load_ok (env : Env) (names : list string) : Prop :=
  env_fault env 0 (Exec (SetForeignKeyChecks false)) = None
  ∧ (∀ t, t ∈ names → env_fault env 0 (Exec (Truncate t)) = None)
  ∧ env_fault env 0 Begin = None
  ∧ env_fault env 0 Commit = None.

(** A state of the process after some import of "fx": table users is in
    the truncation list and its batch is in the map. *)
Definition loaded_state : State :=
  mkState ["users"] {["fx"]} {["users.yml" := build_batch [] "users" users_yml]}
          one_user None 0 0 1 [].

(* ===================================================================== *)
(** *** Events before the load *)
(* ===================================================================== *)

(** Events that are neither a statement nor a transaction call. *)
Definition statement_free (e : event) : bool :=
  match e with
  | EvDb (Exec _) _ | EvDb (TxExec _) _ | EvDb Begin _ | EvDb Commit _
  | EvDb Rollback _ => false
  | _ => true
  end.

(* ===================================================================== *)
(** *** What the transaction of the load covers *)
(* ===================================================================== *)

(** The events of a load that got to its commit. *)
Definition committing_load (s : State) (ins : list event) (rc r1 : option error)
    : list event :=
  fk_off :: (ok_truncate <$> finishedTablseNames s)
    ++ EvDb Begin None :: ins
    ++ EvDb Commit rc :: (if rc is Some e then [EvLog (LogErr e)] else [])
    ++ [EvDb Rollback (Some ErrTxDone); fk_on r1].

(* ===================================================================== *)
(** *** Recreate, schema, import *)
(* ===================================================================== *)

(** Events of [RecreateDatabase]. *)
Definition recreate_event (e : event) : bool :=
  match e with
  | EvDb (Open _) _ | EvDb Close _ | EvLog _
  | EvDb (Exec (DropDatabaseIfExists _)) _ | EvDb (Exec (CreateDatabase _)) _ => true
  | _ => false
  end.

(** What [RecreateDatabase] leaves in the trace when it succeeds. *)
Definition recreated (this : Fixturer) (rc : option error) : list event :=
  [EvDb (Open (dbConf this)) None;
   EvLog (LogText ("Drop database " +:+ dbName this));
   EvDb (Exec (DropDatabaseIfExists (dbName this))) None;
   EvLog (LogText ("Create database " +:+ dbName this));
   EvDb (Exec (CreateDatabase (dbName this))) None;
   EvDb Close rc].

(* ===================================================================== *)
(** *** The join of the parse phase *)
(* ===================================================================== *)

Section JoinVocabulary.

Variable env : Env.
Variable this : Fixturer.
Variable files : list FileInfo.

(** The batch goroutine code builds for a file, for some order of its
    iteration over [allKeysMap]. *)
Definition batch_of (filename : string) (qb : InsertBuilder) : Prop :=
  ∃ picks, qb = build_batch picks (table_of filename) (decoded env this filename).

(** Goroutines that have not yet called [wg.Done()]. *)
Definition unfinished (tasks : list task_pc) : nat :=
  sum_list_with (fun pc => if decide (pc = Finished) then 0 else 1) tasks.

(** The counter of the WaitGroup counts the goroutines that have not yet
    called [wg.Done()], those not yet started among them; the caller gets
    past [wg.Wait()] only when all have. *)
Definition counter_inv (c : Config) : Prop :=
  length (c_tasks c) = length files
  ∧ match c_main c with
    | MAdd => c_wg c = 0%Z ∧ Forall (fun pc => pc = NotLaunched) (c_tasks c)
    | MLaunch i =>
        c_wg c = Z.of_nat (unfinished (c_tasks c))
        ∧ ∀ j, (i ≤ j)%nat → (j < length files)%nat →
               c_tasks c !! j = Some NotLaunched
    | MWait => c_wg c = Z.of_nat (unfinished (c_tasks c))
    | MLock | MPublish | MUnlock | MReturned =>
        Forall (fun pc => pc = Finished) (c_tasks c)
    end.

(** What a goroutine for a fixture file has done by the time it stands at
    [pc]: from [AtUnlock1] on its table name is in [tablesNames]; from
    [AtUnlock2] on its batch is in [insertMap]. *)
Definition published (c : Config) (f : FileInfo) : Prop :=
  table_of (Name f) ∈ c_tablesNames c
  ∧ ∃ qb, c_insertMap c !! Name f = Some qb ∧ batch_of (Name f) qb.

Definition task_inv (c : Config) (f : FileInfo) (pc : task_pc) : Prop :=
  match pc with
  | NotLaunched | AtEntry => True
  | AtRead => has_yml f = true
  | AtLock1 data | AtAppend data =>
      has_yml f = true ∧ data = decoded env this (Name f)
  | AtUnlock1 data | AtBuild data =>
      has_yml f = true ∧ data = decoded env this (Name f)
      ∧ table_of (Name f) ∈ c_tablesNames c
  | AtLock2 qb | AtStore qb =>
      has_yml f = true ∧ batch_of (Name f) qb ∧ table_of (Name f) ∈ c_tablesNames c
  | AtUnlock2 => has_yml f = true ∧ published c f
  | AtDone | Finished => has_yml f = true → published c f
  end.

Definition data_inv (c : Config) : Prop :=
  ∀ i f pc, files !! i = Some f → c_tasks c !! i = Some pc → task_inv c f pc.

(** Once published, the package variable holds the local slice. *)
Definition publish_inv (c : Config) : Prop :=
  match c_main c with
  | MUnlock | MReturned => c_finished c = c_tablesNames c
  | _ => True
  end.

(** The shared variables only gain: names are appended, and an entry of
    the map that is the batch of its file is at most replaced by another
    batch of that file. *)
Definition grows (c c' : Config) : Prop :=
  (∀ t, t ∈ c_tablesNames c → t ∈ c_tablesNames c')
  ∧ (∀ k qb, c_insertMap c !! k = Some qb → batch_of k qb →
             ∃ qb', c_insertMap c' !! k = Some qb' ∧ batch_of k qb').

End JoinVocabulary.

Arguments unfinished : simpl never.

(* ===================================================================== *)
(** *** What the shared variables hold during the parse phase *)
(* ===================================================================== *)

(** The goroutine has appended its table name. *)
Definition appended (pc : task_pc) : bool :=
  match pc with
  | AtUnlock1 _ | AtBuild _ | AtLock2 _ | AtStore _ | AtUnlock2 | AtDone | Finished => true
  | _ => false
  end.

(** The table name a goroutine at [pc] has put into [tablesNames]. *)
Definition contribution (pc : task_pc) (f : FileInfo) : list string :=
  if appended pc && has_yml f then [table_of (Name f)] else [].

Definition names_of (tasks : list task_pc) (files : list FileInfo) : list string :=
  concat (zip_with contribution tasks files).

Arguments names_of : simpl never.

(** [tablesNames] holds what the goroutines have put there. *)
Definition names_inv (files : list FileInfo) (c : Config) : Prop :=
  c_tablesNames c ≡ₚ names_of (c_tasks c) files.

(** Entries of the map under other names than those of the files of the
    phase are as they were on entry. *)
Definition frame_inv (files : list FileInfo) (im : gmap string InsertBuilder)
    (c : Config) : Prop :=
  ∀ k, (∀ f, f ∈ files → has_yml f = true → Name f ≠ k) →
       c_insertMap c !! k = im !! k.

(** A schedule for two files: both goroutines are started, the first
    runs up to its first [mutex.Lock()], the caller tries to get past
    [wg.Wait()], the second goroutine runs to its end, then the first,
    and only then the caller moves on. *)
Definition join_schedule : list (choice) :=
  replicate 4 Caller ++ replicate 2 (Goroutine 0 [1]) ++ [Caller]
    ++ replicate 10 (Goroutine 1 []) ++ [Caller]
    ++ replicate 8 (Goroutine 0 [1]) ++ replicate 4 Caller.

(* ===================================================================== *)
(** *** The parse phase returns *)
(* ===================================================================== *)

(** The goroutine / the caller stands between [mutex.Lock()] and
    [mutex.Unlock()]. *)
Definition holds (pc : task_pc) : bool :=
  match pc with
  | AtAppend _ | AtUnlock1 _ | AtStore _ | AtUnlock2 => true
  | _ => false
  end.
Definition main_holds (m : main_pc) : bool :=
  match m with MPublish | MUnlock => true | _ => false end.

(** A held mutex has a holder. *)
Definition mutex_inv (c : Config) : Prop :=
  c_mutex c = true →
  (∃ i pc, c_tasks c !! i = Some pc ∧ holds pc = true) ∨ main_holds (c_main c) = true.

(** The goroutines the loop of go statements has passed are started. *)
Definition launch_inv (c : Config) : Prop :=
  match c_main c with
  | MAdd => True
  | MLaunch i => ∀ j pc, (j < i)%nat → c_tasks c !! j = Some pc → pc ≠ NotLaunched
  | _ => Forall (fun pc => pc ≠ NotLaunched) (c_tasks c)
  end.

(** Steps a goroutine / the caller has ahead at most. *)
Definition task_left (pc : task_pc) : nat :=
  match pc with
  | NotLaunched => 11 | AtEntry => 10 | AtRead => 9 | AtLock1 _ => 8 | AtAppend _ => 7
  | AtUnlock1 _ => 6 | AtBuild _ => 5 | AtLock2 _ => 4 | AtStore _ => 3
  | AtUnlock2 => 2 | AtDone => 1 | Finished => 0
  end.
Definition main_left (n : nat) (m : main_pc) : nat :=
  match m with
  | MAdd => n + 6 | MLaunch i => (n - i) + 5 | MWait => 4 | MLock => 3
  | MPublish => 2 | MUnlock => 1 | MReturned => 0
  end.
Definition steps_left (n : nat) (c : Config) : nat :=
  main_left n (c_main c) + sum_list_with task_left (c_tasks c).

(* ===================================================================== *)
(** *** Connections, the schema and recreate, call by call *)
(* ===================================================================== *)

(** Calls that open / close a handle of database/sql. *)
Definition is_Open (e : event) : bool :=
  match e with EvDb (Open _) _ => true | _ => false end.
Definition is_Close (e : event) : bool :=
  match e with EvDb Close _ => true | _ => false end.

(** What [ensureDbConnected] leaves in the trace when it has to connect
    and every call succeeds. *)
Definition connected (this : Fixturer) : list event :=
  [EvDb (Open (dsn_of this)) None;
   EvSetMaxOpenConns (insertGoroutinesCnt this);
   EvSetMaxIdleConns (insertGoroutinesCnt this);
   EvDb Ping None].

(** The statements the loop of [LoadDbSchema] makes of the pieces of the
    schema file: each piece trimmed, the empty ones passed over. *)
Definition schema_pieces (queries : list string) : list string :=
  filter (fun query => String.length query ≠ 0) (TrimSpace <$> queries).
Definition schema_statements (file : string) : list string :=
  schema_pieces (Split file ";"%char).

(** A schema statement the transaction accepted. *)
Definition sent_ok (query : string) : event := EvDb (TxExec (Sql query)) None.

(** The ways through [LoadDbSchema] once it is connected, event by
    event: the transaction cannot be begun; the constraint switch is
    refused; the schema file cannot be read; a statement is refused; the
    commit is reached. *)
Inductive schema_run (env : Env) (this : Fixturer) (r : option error)
    : list event → Prop :=
  | run_not_begun msg :
      r = Some (ErrDb msg) → schema_run env this r [EvDb Begin r]
  | run_switch_refused msg r2 :
      r = Some (ErrDb msg) →
      schema_run env this r [EvDb Begin None; tx_fk_off r; EvDb Rollback r2]
  | run_file_unread msg r1 r2 :
      env_ReadFile env (schema this) = inr msg → r = Some (ErrIO msg) →
      r1 ≠ Some ErrTxDone →
      schema_run env this r
        [EvDb Begin None; tx_fk_off None; EvReadFile (schema this);
         tx_fk_on r1; EvDb Rollback r2]
  | run_statement_refused file sent query msg r1 r2 :
      env_ReadFile env (schema this) = inl file →
      (sent ++ [query]) `prefix_of` schema_statements file →
      r = Some (ErrDb msg) →
      r1 ≠ Some ErrTxDone →
      schema_run env this r
        ([EvDb Begin None; tx_fk_off None; EvReadFile (schema this)]
           ++ (sent_ok <$> sent)
           ++ [EvDb (TxExec (Sql query)) r; tx_fk_on r1; EvDb Rollback r2])
  | run_commit_reached file :
      env_ReadFile env (schema this) = inl file →
      (∀ e, r = Some e → ∃ msg, e = ErrDb msg) →
      schema_run env this r
        ([EvDb Begin None; tx_fk_off None; EvReadFile (schema this)]
           ++ (sent_ok <$> schema_statements file)
           ++ [EvDb Commit r; tx_fk_on (Some ErrTxDone);
               EvDb Rollback (Some ErrTxDone)]).

(** The text begins, ends with a white-space rune. *)
Definition begins_with_space (s : string) : bool :=
  space_front is_space is_space2 is_space3 (list_ascii_of_string s).
Definition ends_with_space (s : string) : bool :=
  space_front is_space (fun c2 c1 => is_space2 c1 c2)
              (fun c3 c2 c1 => is_space3 c1 c2 c3) (rev (list_ascii_of_string s)).

(** A statement as [LoadDbSchema] sends it: not empty, no semicolon in
    it, no white space at either end. *)
Definition trimmed_statement (query : string) : Prop :=
  query ≠ ""
  ∧ (";"%char ∉ list_ascii_of_string query)
  ∧ begins_with_space query = false
  ∧ ends_with_space query = false.

(** The texts that went out through [tx.Exec] as schema statements, in
    order. *)
Definition schema_sent (evs : list event) : list string :=
  omap (fun e => match e with
                 | EvDb (TxExec (Sql query)) _ => Some query
                 | _ => None
                 end) evs.

Definition is_Commit (e : event) : bool :=
  match e with EvDb Commit _ => true | _ => false end.

(** A schema file of two statements, with an empty piece and white
    space around the pieces. *)
Definition schema_text : string :=
  " CREATE TABLE users (id INT) ;;   CREATE TABLE orders (id INT);  ".

(** The scenario with that schema file under the name the fixturers of
    the scenario carry. *)
Definition schema_env (fault : nat → dbcall → option string) : Env :=
  mkEnv (env_ReadDir (scenario_env fault))
        (fun path => if decide (path = "schema.sql") then inl schema_text
                     else env_ReadFile (scenario_env fault) path)
        (fun _ => "")
        (env_Unmarshal (scenario_env fault))
        fault (fun _ => []) (fun _ => []).

(** The server refuses the second table. *)
Definition orders_fault : nat → dbcall → option string :=
  fun _ c =>
    match c with
    | TxExec (Sql "CREATE TABLE orders (id INT)") => Some "table exists"
    | _ => None
    end.

(* ===================================================================== *)
(** *** The load and the parse phase, event by event *)
(* ===================================================================== *)

(** What [fmt.Println(err)] leaves behind when there is an error. *)
Definition logged_error (r : option error) : list event :=
  if r is Some e then [EvLog (LogErr e)] else [].

(** One turn of the loop over [insertMap] in [loadParsedData]: the
    builder's error, if any, is printed; the query text goes to the
    transaction all the same; the answer, if an error, is printed. *)
Definition insertion (query : InsertBuilder) (r : option error) : list event :=
  logged_error (snd (ToSql query))
    ++ [EvDb (TxExec (fst (ToSql query))) r] ++ logged_error r.

(** Some insertion is refused, the commit is not. *)
Definition insert_fault : nat → dbcall → option string :=
  fun _ c =>
    match c with
    | TxExec (InsertInto _ _ _) => Some "duplicate entry"
    | _ => None
    end.

(** What the goroutine of one fixture file leaves in the trace: the
    read, and the line about a decoding error if there is one. *)
Definition parse_events_of (env : Env) (this : Fixturer) (f : FileInfo) : list event :=
  EvReadFile (path_of this (Name f))
    :: (if decode_error env this (Name f) is Some msg
        then [EvLog (LogCantRead (Name f) (ErrDecode msg))] else []).

(** The same for the goroutines of a phase, in the order they ran. *)
Definition parse_events (env : Env) (this : Fixturer) (order : list FileInfo)
    : list event :=
  concat (parse_events_of env this <$> List.filter has_yml order).

(** The scenario with a fixture file users.yml whose read breaks off
    after the first record: ReadFile hands back the front part of the
    file together with its error, and the decoder makes one record of
    that part. *)
Definition unreadable_env : Env :=
  mkEnv (env_ReadDir (scenario_env no_fault))
        (fun path => if decide (path = "fx/users.yml") then inr "read: input/output error"
                     else inl path)
        (fun path => if decide (path = "fx/users.yml") then "- id: 1" else "")
        (fun bytes => if decide (bytes = "- id: 1") then ([ {[ "id" := VInt 1 ]} ], None)
                      else env_Unmarshal (scenario_env no_fault) bytes)
        no_fault (fun _ => []) (fun _ => []).


(* ===================================================================== *)
(** *** The mutex, the counter and the steps of the parse phase *)
(* ===================================================================== *)

(** How many stand between [mutex.Lock()] and [mutex.Unlock()]. *)
Definition holders (c : Config) : nat :=
  (if main_holds (c_main c) then 1 else 0)
  + sum_list_with (fun pc => if holds pc then 1 else 0) (c_tasks c).

(** The mutex is held by exactly one, or it is free and nobody is
    inside. *)
Definition exclusion_inv (c : Config) : Prop :=
  holders c = if c_mutex c then 1 else 0.

(** The counter of the WaitGroup once [wg.Add] has run: the goroutines
    that have not yet called [wg.Done()]. *)
Definition wg_inv (c : Config) : Prop :=
  match c_main c with
  | MAdd => c_wg c = 0%Z
  | _ => c_wg c = Z.of_nat (unfinished (c_tasks c))
  end.

(** The steps a schedule really takes from a configuration, the choices
    that cannot move left out. *)
Fixpoint moves (env : Env) (this : Fixturer) (files : list FileInfo)
    (sched : list choice) (c : Config) : nat :=
  match sched with
  | [] => 0
  | ch :: rest =>
      match step env this files ch c with
      | Some c' => S (moves env this files rest c')
      | None => moves env this files rest c
      end
  end.

(** The two goroutines of the scenario one after the other. *)
Definition sequential_schedule : list choice :=
  replicate 4 Caller ++ replicate 10 (Goroutine 0 []) ++ replicate 10 (Goroutine 1 [])
    ++ replicate 4 Caller.

(* ===================================================================== *)
(** ** The first generation of the package *)
(* ===================================================================== *)

Module Legacy.

(** The first generation of the package, in the same file: a fixturer
    that holds its handle from the constructor on, [InitFixtures] with
    its helpers, and [LoadCsvFixtures].  The calls work on the handle
    directly; there are no package variables. *)

(** What a run of this generation can be observed to do. *)
Inductive call : Type :=
  | CPrint (text : string)                  (* log.Printf, fmt.Println of a text *)
  | CPrintErr (e : error)                   (* fmt.Println(err), log.Println(err) *)
  | CPrintDb                                (* fmt.Printf("#%v\n", this.db) *)
  | CCantRead (filename : string) (e : error)
  | CDb (c : dbcall) (res : option error)
  | CQueryDatabase (res : string + error)   (* QueryRow("select database() as dbName").Scan *)
  | CReadDir (path : string)
  | CReadFile (path : string)
  | CStat (path : string)
  | CRemoveAll (path : string)
  | CMkdirAll (path : string) (res : option error)
  | CChmod (path : string) (res : option error).

#[global] Instance call_eq_dec : EqDecision call.
Proof. solve_decision. Defined.

(** What this generation asks of the system besides what [Env] holds. *)
Record Sys : Type := mkSys {
  (** the answer to "select database()" asked as the n-th call *)
  sys_database : nat -> string + string;
  (** os.Stat finds the path *)
  sys_stat : string -> bool;
  (** os.MkdirAll, os.Chmod: the message of the error, if any *)
  sys_mkdir : string -> option string;
  sys_chmod : string -> option string;
  (** capacity the slice ioutil.ReadDir returns has beyond its length *)
  sys_slack : string -> nat
}.

Record Fixturer : Type := mkFixturer {
  (** [this.db] is a handle (not nil) *)
  db : bool;
  schema : string;
  fixturesPathYml : string;
  fixturesPathCsv : string;
  databaseSuffix : string
}.

Record LState : Type := mkLState {
  l_clock : nat;
  l_rng : nat;
  l_trace : list call
}.

Definition start : LState := mkLState 0 0 [].

(** A call returns, or panics and takes its callers with it. *)
Definition L (A : Type) : Type := LState -> outcome A * LState.

Definition lret {A} (a : A) : L A := fun s => (Returned a, s).
Definition lpanic {A} (msg : string) : L A := fun s => (Panicked msg, s).
Definition lbind {A B} (m : L A) (k : A -> L B) : L B :=
  fun s => match m s with
           | (Returned a, s') => k a s'
           | (Panicked msg, s') => (Panicked msg, s')
           end.

Notation "x <~ m ;; k" := (lbind m (fun x => k))
  (at level 100, m at next level, right associativity).
Notation "m ~~ k" := (lbind m (fun _ => k))
  (at level 100, right associativity).

Definition lemit (c : call) : L unit :=
  fun s => (Returned tt, mkLState (l_clock s) (l_rng s) (l_trace s ++ [c])).

(** The escape character of the colour codes. *)
Definition esc : string := String (ascii_of_nat 27) EmptyString.

Definition color : list string :=
  [esc +:+ "[0;31m"; esc +:+ "[0;32m"; esc +:+ "[0;33m"; esc +:+ "[0;34m";
   esc +:+ "[0;35m"; esc +:+ "[0;36m"; esc +:+ "[0;37m"; esc +:+ "[0;38m";
   esc +:+ "[0;39m"; esc +:+ "[0;41m"; esc +:+ "[0;42m"].

(** [consoleLog]: indexing the colour table panics outside of it. *)
Definition consoleLog (param : string) (colorNum : Z) : L unit :=
  match (if (0 <=? colorNum)%Z then color !! Z.to_nat colorNum else None) with
  | Some c => lemit (CPrint (c +:+ param +:+ esc +:+ "[0m"))
  | None => lpanic "index out of range"
  end.

(** squirrel's [Values]: one more row. *)
Definition Values (values : list value) (qb : InsertBuilder) : InsertBuilder :=
  mkInsertBuilder (ib_table qb) (ib_columns qb) (ib_rows qb ++ [values]).

(** The builder made of one record: keys and values are collected in
    one and the same iteration over the record. *)
Definition record_query (picks : list nat) (tableName : string) (it : item)
    : InsertBuilder :=
  let pairs := shuffle picks (map_to_list it) in
  Values (snd <$> pairs) (Columns (fst <$> pairs) (Insert tableName)).

Section Operations.

Variable env : Env.
Variable sys : Sys.

(** [NewFixturer]: the error of [sql.Open] is printed and the fixturer
    is returned all the same, with the nil handle [sql.Open] gives then. *)
Definition NewFixturer (dbConf schema fixturesPathYml fixturesPathCsv
                          databaseSuffix : string) : L Fixturer :=
  fun s =>
    let r := ErrDb <$> env_fault env (l_clock s) (Open dbConf) in
    let s1 := mkLState (S (l_clock s)) (l_rng s) (l_trace s ++ [CDb (Open dbConf) r]) in
    (Returned (mkFixturer (if r is None then true else false)
                          schema fixturesPathYml fixturesPathCsv databaseSuffix),
     match r with
     | Some e => mkLState (l_clock s1) (l_rng s1) (l_trace s1 ++ [CPrintErr e])
     | None => s1
     end).

(** [this.db.Exec(q)]; a method of a nil handle panics. *)
Definition db_Exec (this : Fixturer) (q : stmt) : L (option error) :=
  if db this then
    fun s =>
      let r := ErrDb <$> env_fault env (l_clock s) (Exec q) in
      (Returned r,
       mkLState (S (l_clock s)) (l_rng s) (l_trace s ++ [CDb (Exec q) r]))
  else lpanic "invalid memory address or nil pointer dereference".

(** [this.db.QueryRow("select database() as dbName").Scan(&dbName)] *)
Definition query_database (this : Fixturer) : L (string + error) :=
  if db this then
    fun s =>
      let r := match sys_database sys (l_clock s) with
               | inl name => inl name
               | inr msg => inr (ErrDb msg)
               end in
      (Returned r,
       mkLState (S (l_clock s)) (l_rng s) (l_trace s ++ [CQueryDatabase r]))
  else lpanic "invalid memory address or nil pointer dereference".

(** [recreateDatabase] *)
Definition recreateDatabase (this : Fixturer) : L (option error) :=
  r <~ query_database this ;;
  match r with
  | inr e => lret (Some e)
  | inl dbName =>
      lemit (CPrint ("Drop " +:+ dbName)) ~~
      r <~ db_Exec this (DropDatabaseIfExists dbName) ;;
      match r with
      | Some e => lret (Some e)
      | None =>
          lemit (CPrint ("Create " +:+ dbName)) ~~
          r <~ db_Exec this (Sql ("CREATE DATABASE IF NOT EXISTS " +:+ dbName)) ;;
          match r with
          | Some e => lret (Some e)
          | None =>
              lemit (CPrint ("Use " +:+ dbName)) ~~
              r <~ db_Exec this (Sql ("USE " +:+ dbName)) ;;
              match r with
              | Some e => lret (Some e)
              | None => lret None
              end
          end
      end
  end.

Fixpoint createTables_loop (this : Fixturer) (queries : list string)
    : L (option error) :=
  match queries with
  | [] => lret None
  | q :: rest =>
      let query := TrimSpace q in
      if decide (String.length query = 0) then createTables_loop this rest
      else
        r <~ db_Exec this (Sql query) ;;
        match r with
        | Some e => lemit CPrintDb ~~ lret (Some e)
        | None => createTables_loop this rest
        end
  end.

(** [createTables] *)
Definition createTables (this : Fixturer) : L (option error) :=
  consoleLog "createTables" 1 ~~
  lemit (CReadFile (schema this)) ~~
  match env_ReadFile env (schema this) with
  | inl file => createTables_loop this (Split file ";"%char)
  | inr msg => lret (Some (ErrIO msg))
  end.

Fixpoint loadYmlFixtures_loop (this : Fixturer) (tableName : string)
    (data : list item) : L (option error) :=
  match data with
  | [] => lret None
  | it :: rest =>
      fun s =>
        let qb := record_query (env_picks env (l_rng s)) tableName it in
        let s1 := mkLState (l_clock s) (S (l_rng s)) (l_trace s) in
        ((match snd (ToSql qb) with
          | Some e => lemit (CPrintErr e)
          | None => lret tt
          end ~~
          r <~ db_Exec this (fst (ToSql qb)) ;;
          match r with
          | Some e => lret (Some e)
          | None => loadYmlFixtures_loop this tableName rest
          end) s1)
  end.

(** [loadYmlFixtures] *)
Definition loadYmlFixtures (this : Fixturer) (filename : string) : L (option error) :=
  let path := fixturesPathYml this +:+ "/" +:+ filename in
  lemit (CReadFile path) ~~
  let y := bytes_read env path in
  let '(data, err) := env_Unmarshal env y in
  match err with
  | Some msg =>
      lemit (CCantRead filename (ErrDecode msg)) ~~ lret (Some (ErrDecode msg))
  | None => loadYmlFixtures_loop this (TrimSuffix filename ".yml") data
  end.

Fixpoint generate_loop (this : Fixturer) (suiteCsvFixturesPath : string)
    (files : list FileInfo) : L (option error) :=
  match files with
  | [] => lret None
  | f :: rest =>
      let tableName := TrimSuffix (Name f) ".yml" in
      let outFile := suiteCsvFixturesPath +:+ "/" +:+ tableName +:+ ".csv" in
      let query := "SELECT * FROM " +:+ tableName +:+ " INTO OUTFILE '"
                     +:+ outFile +:+ "'" in
      r <~ db_Exec this (Sql query) ;;
      match r with
      | Some e => lret (Some e)
      | None => generate_loop this suiteCsvFixturesPath rest
      end
  end.

(** What [files, _ := ioutil.ReadDir(path)] leaves in [files]. *)
Definition listing (path : string) : list FileInfo :=
  match env_ReadDir env path with inl files => files | inr _ => [] end.

(** [cap(files)] for that slice: nil has none. *)
Definition listing_cap (path : string) : nat :=
  match env_ReadDir env path with
  | inl files => length files + sys_slack sys path
  | inr _ => 0
  end.

(** [generateCsvFixtures] *)
Definition generateCsvFixtures (this : Fixturer) : L (option error) :=
  consoleLog "generateCsvFixtures" 3 ~~
  let suiteCsvFixturesPath := fixturesPathCsv this +:+ "/" +:+ databaseSuffix this in
  lemit (CStat suiteCsvFixturesPath) ~~
  (if sys_stat sys suiteCsvFixturesPath
   then lemit (CRemoveAll suiteCsvFixturesPath) else lret tt) ~~
  let made := ErrIO <$> sys_mkdir sys suiteCsvFixturesPath in
  lemit (CMkdirAll suiteCsvFixturesPath made) ~~
  match made with
  | Some e => lret (Some e)
  | None =>
      let moded := ErrIO <$> sys_chmod sys suiteCsvFixturesPath in
      lemit (CChmod suiteCsvFixturesPath moded) ~~
      match moded with
      | Some e => lret (Some e)
      | None =>
          lemit (CReadDir (fixturesPathYml this)) ~~
          generate_loop this suiteCsvFixturesPath (listing (fixturesPathYml this))
      end
  end.

Fixpoint load_loop (this : Fixturer) (suiteCsvFixturesPath : string)
    (files : list FileInfo) : L (option error) :=
  match files with
  | [] => lret None
  | f :: rest =>
      let filename := Name f in
      if negb (HasSuffix filename ".csv") then load_loop this suiteCsvFixturesPath rest
      else
        let tableName := TrimSuffix filename ".csv" in
        r <~ db_Exec this (Truncate tableName) ;;
        match r with
        | Some e => lemit (CPrintErr e) ~~ lret (Some e)
        | None =>
            let loadQuery := "LOAD DATA INFILE '" +:+ suiteCsvFixturesPath +:+ "/"
                               +:+ filename +:+ "' INTO TABLE " +:+ tableName in
            r <~ db_Exec this (Sql loadQuery) ;;
            match r with
            | Some e => lemit (CPrintErr e) ~~ lret (Some e)
            | None => load_loop this suiteCsvFixturesPath rest
            end
        end
  end.

(** [LoadCsvFixtures]; the deferred statement is written out at the
    returns that come after its [defer]. *)
Definition LoadCsvFixtures (this : Fixturer) : L (option error) :=
  consoleLog "LoadCsvFixtures" 4 ~~
  r <~ db_Exec this (SetForeignKeyChecks false) ;;
  match r with
  | Some e => lret (Some e)
  | None =>
      (* defer this.db.Exec("SET FOREIGN_KEY_CHECKS=1") *)
      let suiteCsvFixturesPath := fixturesPathCsv this +:+ "/" +:+ databaseSuffix this in
      lemit (CReadDir suiteCsvFixturesPath) ~~
      (if decide (listing_cap suiteCsvFixturesPath = 0)
       then consoleLog "Csv Fixtures not load !!!!" 5 else lret tt) ~~
      r <~ load_loop this suiteCsvFixturesPath (listing suiteCsvFixturesPath) ;;
      db_Exec this (SetForeignKeyChecks true) ~~
      lret r
  end.

End Operations.

(** *** [getInsertQueriesFromYml]: the goroutines and the collecting loop *)

(** Where a goroutine stands.  It blocks in a send until the caller's
    [select] takes what it sends: the channels have no buffer. *)
Inductive gather_pc : Type :=
  | GNotLaunched
  | GAtEntry                              (* filename := f.Name(); suffix test *)
  | GAtRead                               (* ReadFile, Unmarshal, the builders *)
  | GSend (queries : list InsertBuilder)  (* chData <- qb, the first of them *)
  | GEnd                                  (* chEnd <- true *)
  | GFinished.

#[global] Instance gather_pc_eq_dec : EqDecision gather_pc.
Proof. solve_decision. Defined.

(** Where the caller stands. *)
Inductive collector_pc : Type :=
  | GLaunch (k : nat)     (* the loop of go statements, at files[k] *)
  | GSelect               (* in the select of the collecting loop *)
  | GReturned.

#[global] Instance collector_pc_eq_dec : EqDecision collector_pc.
Proof. solve_decision. Defined.

Record Gather : Type := mkGather {
  g_main : collector_pc;
  (** every goroutine with the file it was started for *)
  g_tasks : list (FileInfo * gather_pc);
  g_i : nat;                             (* i *)
  g_insertQueries : list InsertBuilder;  (* insertQueries *)
  (** what the goroutines were seen to do *)
  g_trace : list call
}.

Definition set_g_task (i : nat) (pc : gather_pc) (c : Gather) : Gather :=
  mkGather (g_main c)
           (alter (fun t => (fst t, pc)) i (g_tasks c))
           (g_i c) (g_insertQueries c) (g_trace c).

Definition g_log (calls : list call) (c : Gather) : Gather :=
  mkGather (g_main c) (g_tasks c) (g_i c) (g_insertQueries c) (g_trace c ++ calls).

Section Gathering.

Variable env : Env.
Variable sys : Sys.
Variable this : Fixturer.

(** What [data] holds after ReadFile and Unmarshal of one file, and
    the error of Unmarshal. *)
Definition decoded (filename : string) : list item :=
  let path := fixturesPathYml this +:+ "/" +:+ filename in
  fst (env_Unmarshal env (bytes_read env path)).
Definition undecoded (filename : string) : option string :=
  let path := fixturesPathYml this +:+ "/" +:+ filename in
  snd (env_Unmarshal env (bytes_read env path)).

(** [files] and [filesCount := cap(files)] *)
Definition files : list FileInfo := listing env (fixturesPathYml this).
Definition filesCount : nat := listing_cap env sys (fixturesPathYml this).

(** After the loop over the records comes the send on [chEnd]. *)
Definition to_send (queries : list InsertBuilder) : gather_pc :=
  match queries with [] => GEnd | _ => GSend queries end.

(** A step a goroutine takes on its own; [picks k] is the order of the
    iteration over its k-th record. *)
Definition step_goroutine (i : nat) (picks : nat -> list nat) (c : Gather)
    : option Gather :=
  match g_tasks c !! i with
  | Some (f, GAtEntry) =>
      Some (set_g_task i (if HasSuffix (Name f) ".yml" then GAtRead else GFinished) c)
  | Some (f, GAtRead) =>
      let filename := Name f in
      let tableName := TrimSuffix filename ".yml" in
      Some (set_g_task i
              (to_send (imap (fun k it => record_query (picks k) tableName it)
                             (decoded filename)))
              (g_log (CReadFile (fixturesPathYml this +:+ "/" +:+ filename)
                        :: match undecoded filename with
                           | Some msg => [CCantRead filename (ErrDecode msg);
                                          CPrintErr (ErrDecode msg)]
                           | None => []
                           end) c))
  | _ => None
  end.

(** The caller's [select] takes what goroutine [i] sends. *)
Definition step_receive (i : nat) (c : Gather) : option Gather :=
  match g_main c, g_tasks c !! i with
  | GSelect, Some (_, GSend (qb :: rest)) =>
      Some (set_g_task i (to_send rest)
              (mkGather (g_main c) (g_tasks c) (g_i c) (g_insertQueries c ++ [qb])
                        (g_trace c)))
  | GSelect, Some (_, GEnd) =>
      let n := S (g_i c) in
      Some (set_g_task i GFinished
              (mkGather (if decide (n = filesCount) then GReturned else GSelect)
                        (g_tasks c) n (g_insertQueries c) (g_trace c)))
  | _, _ => None
  end.

(** The caller starts the next goroutine, or enters the loop. *)
Definition step_collector (c : Gather) : option Gather :=
  match g_main c with
  | GLaunch k =>
      if (k <? length files)%nat
      then Some (set_g_task k GAtEntry
                   (mkGather (GLaunch (S k)) (g_tasks c) (g_i c) (g_insertQueries c)
                             (g_trace c)))
      else Some (mkGather GSelect (g_tasks c) (g_i c) (g_insertQueries c) (g_trace c))
  | _ => None
  end.

Inductive gather_choice : Type :=
  | GCaller
  | GGoroutine (i : nat) (picks : nat -> list nat)
  | GReceive (i : nat).

Definition gather_step (ch : gather_choice) (c : Gather) : option Gather :=
  match ch with
  | GCaller => step_collector c
  | GGoroutine i picks => step_goroutine i picks c
  | GReceive i => step_receive i c
  end.

Definition gather_run (sched : list gather_choice) (c : Gather) : Gather :=
  foldl (fun c ch => default c (gather_step ch c)) c sched.

Definition gather_entry : Gather :=
  mkGather (GLaunch 0) ((fun f => (f, GNotLaunched)) <$> files) 0 [] [].

Definition gather_reachable (c : Gather) : Prop :=
  exists sched, c = gather_run sched gather_entry.

End Gathering.

(** *** [InitFixtures] *)

(** Where a call that waits for its goroutines stands when their
    schedule is used up. *)
Inductive verdict (A : Type) : Type :=
  | Done (a : A)     (* the call has returned *)
  | Waiting.         (* the caller is in the select of the collecting loop *)
Arguments Done {A} a.
Arguments Waiting {A}.

Section Init.

Variable env : Env.
Variable sys : Sys.

(** [getInsertQueriesFromYml] under a schedule of its goroutines.  The
    [err] it tests and returns is never assigned: when the call returns,
    it returns the builders and nil. *)
Definition getInsertQueriesFromYml (this : Fixturer) (sched : list gather_choice)
    : L (verdict (list InsertBuilder)) :=
  fun s =>
    let c := gather_run env sys this sched (gather_entry env this) in
    (Returned match g_main c with
              | GReturned => Done (g_insertQueries c)
              | _ => Waiting
              end,
     mkLState (l_clock s) (l_rng s)
              (l_trace s ++ CReadDir (fixturesPathYml this) :: g_trace c)).

Fixpoint initYmlFixtures_loop (this : Fixturer) (insertQueries : list InsertBuilder)
    : L (option error) :=
  match insertQueries with
  | [] => lret None
  | insertQuerie :: rest =>
      match snd (ToSql insertQuerie) with
      | Some e => lemit (CPrintErr e)
      | None => lret tt
      end ~~
      r <~ db_Exec env this (fst (ToSql insertQuerie)) ;;
      match r with
      | Some e => lret (Some e)
      | None => initYmlFixtures_loop this rest
      end
  end.

(** [initYmlFixtures]; the deferred statement is written out at the
    returns that come after its [defer]. *)
Definition initYmlFixtures (this : Fixturer) (sched : list gather_choice)
    : L (verdict (option error)) :=
  r <~ db_Exec env this (SetForeignKeyChecks false) ;;
  match r with
  | Some e => lemit (CPrintErr e) ~~ lret (Done (Some e))
  | None =>
      (* defer this.db.Exec("SET FOREIGN_KEY_CHECKS=1") *)
      got <~ getInsertQueriesFromYml this sched ;;
      match got with
      | Waiting => lret Waiting
      | Done insertQueries =>
          r <~ initYmlFixtures_loop this insertQueries ;;
          db_Exec env this (SetForeignKeyChecks true) ~~
          lret (Done r)
      end
  end.

(** [InitFixtures] *)
Definition InitFixtures (this : Fixturer) (sched : list gather_choice)
    : L (verdict (option error)) :=
  consoleLog "InitFixtures" 0 ~~
  r <~ db_Exec env this (SetForeignKeyChecks false) ;;
  match r with
  | Some e => lret (Done (Some e))
  | None =>
      (* defer this.db.Exec("SET FOREIGN_KEY_CHECKS=1") *)
      v <~ (r <~ recreateDatabase env sys this ;;
            match r with
            | Some e => lret (Done (Some e))
            | None =>
                r <~ createTables env this ;;
                match r with
                | Some e => lret (Done (Some e))
                | None =>
                    v <~ initYmlFixtures this sched ;;
                    match v with
                    | Waiting => lret Waiting
                    | Done (Some e) => lret (Done (Some e))
                    | Done None =>
                        r <~ generateCsvFixtures env sys this ;;
                        lret (Done r)
                    end
                end
            end) ;;
      match v with
      | Waiting => lret Waiting
      | Done r => db_Exec env this (SetForeignKeyChecks true) ~~ lret (Done r)
      end
  end.

End Init.

End Legacy.

(* ===================================================================== *)
(** *** Reading a run of the first generation *)
(* ===================================================================== *)

(** What a run of the first generation did since a state. *)
Definition calls_since (s s' : Legacy.LState) : list Legacy.call :=
  drop (length (Legacy.l_trace s)) (Legacy.l_trace s').

(** The statements that went out through [db.Exec], with the answers. *)
Definition executed (tr : list Legacy.call) : list (stmt * option error) :=
  omap (fun c => match c with
                 | Legacy.CDb (Exec q) r => Some (q, r)
                 | _ => None
                 end) tr.

Definition accepted_all (qs : list stmt) : list (stmt * option error) :=
  (fun q => (q, None)) <$> qs.

(** A loop that sends the statements [qs] one by one and stops at the
    first one refused: what was executed when it returned [r]. *)
Definition stops_at_first_refusal (qs : list stmt) (r : option error)
    (ex : list (stmt * option error)) : Prop :=
  match r with
  | None => ex = accepted_all qs
  | Some e =>
      ∃ sent q, (sent ++ [q]) `prefix_of` qs ∧ ex = accepted_all sent ++ [(q, Some e)]
  end.

Arguments stops_at_first_refusal : simpl never.

Definition has_csv (f : FileInfo) : bool := HasSuffix (Name f) ".csv".

(** The two statements [LoadCsvFixtures] has for one .csv file. *)
Definition csv_pair (dir : string) (filename : string) : list stmt :=
  [Truncate (TrimSuffix filename ".csv");
   Sql ("LOAD DATA INFILE '" +:+ dir +:+ "/" +:+ filename +:+ "' INTO TABLE "
          +:+ TrimSuffix filename ".csv")].

Definition csv_statements (dir : string) (files : list FileInfo) : list stmt :=
  concat (csv_pair dir ∘ Name <$> List.filter has_csv files).

(** The file [generateCsvFixtures] has the server write for an entry of
    the fixture directory, and the statement that does it. *)
Definition csv_name (f : FileInfo) : string := TrimSuffix (Name f) ".yml" +:+ ".csv".
Definition select_statement (dir : string) (f : FileInfo) : stmt :=
  Sql ("SELECT * FROM " +:+ TrimSuffix (Name f) ".yml" +:+ " INTO OUTFILE '"
         +:+ (dir +:+ "/" +:+ csv_name f) +:+ "'").

Definition csv_dir (this : Legacy.Fixturer) : string :=
  Legacy.fixturesPathCsv this +:+ "/" +:+ Legacy.databaseSuffix this.

(** A system in which nothing is in the way. *)
Definition plain_sys : Legacy.Sys :=
  Legacy.mkSys (fun _ => inl "testdb") (fun _ => true) (fun _ => None) (fun _ => None)
               (fun _ => 0).

(** The scenario of the first generation: the fixtures of "fx", and a
    directory "csv/suite" with the files written from them. *)
Definition legacy_env (fault : nat → dbcall → option string) : Env :=
  mkEnv (fun path =>
           if decide (path = "csv/suite")
           then inl [mkFileInfo "bad.csv" false; mkFileInfo "notes.txt" false;
                     mkFileInfo "users.csv" false]
           else env_ReadDir (scenario_env fault) path)
        (fun path => if decide (path = "schema.sql") then inl schema_text
                     else env_ReadFile (scenario_env fault) path)
        (fun _ => "")
        (env_Unmarshal (scenario_env fault))
        fault (fun _ => []) (fun _ => []).

Definition legacy_fixturer : Legacy.Fixturer :=
  Legacy.mkFixturer true "schema.sql" "fx" "csv" "suite".

(** The server refuses to load users. *)
Definition load_fault : nat → dbcall → option string :=
  fun _ c =>
    match c with
    | Exec (Sql "LOAD DATA INFILE 'csv/suite/users.csv' INTO TABLE users") =>
        Some "file not found"
    | _ => None
    end.

(** The server refuses the second table of the schema when it comes
    through [db.Exec]. *)
Definition table_fault : nat → dbcall → option string :=
  fun _ c =>
    match c with
    | Exec (Sql "CREATE TABLE orders (id INT)") => Some "table exists"
    | _ => None
    end.

(** Everything a run asked of the database went through [db.Exec]. *)
Definition only_Exec (tr : list Legacy.call) : Prop :=
  ∀ c res, In (Legacy.CDb c res) tr → ∃ q, c = Exec q.

(** The statement [loadYmlFixtures] has for one record: an INSERT of
    one row whose columns, paired with its values, are the record.  With
    no table name squirrel gives the empty query instead. *)
Definition one_record_insert (tableName : string) (it : item) (q : stmt) : Prop :=
  if decide (tableName = "") then q = Sql ""
  else ∃ cols vals, q = InsertInto tableName cols [vals]
                    ∧ length cols = length vals
                    ∧ zip cols vals ≡ₚ map_to_list it.

(** What [loadYmlFixtures] decodes of a file: the records and the error. *)
Definition legacy_decoded (env : Env) (this : Legacy.Fixturer) (filename : string)
    : list item * option string :=
  env_Unmarshal env
    (bytes_read env (Legacy.fixturesPathYml this +:+ "/" +:+ filename)).

(** The server refuses the second record of users. *)
Definition record_fault : nat → dbcall → option string :=
  fun n c =>
    match c with
    | Exec (InsertInto "users" _ _) => if decide (n = 1) then Some "duplicate" else None
    | _ => None
    end.

(** The goroutines of [getInsertQueriesFromYml] that have sent on
    [chEnd] and were heard: the finished ones of the .yml files. *)
Definition finished_yml (t : FileInfo * Legacy.gather_pc) : nat :=
  match t.2 with
  | Legacy.GFinished => if has_yml t.1 then 1 else 0
  | _ => 0
  end.

(** The builders a file gives rise to: one for every record of a .yml
    file. *)
Definition records_of (env : Env) (this : Legacy.Fixturer) (f : FileInfo) : nat :=
  if has_yml f then length (Legacy.decoded env this (Name f)) else 0.

(** The builders a goroutine has still to hand over. *)
Definition to_collect (env : Env) (this : Legacy.Fixturer)
    (t : FileInfo * Legacy.gather_pc) : nat :=
  match t.2 with
  | Legacy.GNotLaunched | Legacy.GAtEntry => records_of env this t.1
  | Legacy.GAtRead => length (Legacy.decoded env this (Name t.1))
  | Legacy.GSend queries => length queries
  | Legacy.GEnd | Legacy.GFinished => 0
  end.

(** What holds in every configuration the collecting loop can reach. *)
Record gather_inv (env : Env) (sys : Legacy.Sys) (this : Legacy.Fixturer)
    (c : Legacy.Gather) : Prop := mk_gather_inv {
  gi_files : (Legacy.g_tasks c).*1 = Legacy.files env this;
  gi_task : ∀ j f pc,
    Legacy.g_tasks c !! j = Some (f, pc) →
    (pc = Legacy.GNotLaunched ↔ ∃ k, Legacy.g_main c = Legacy.GLaunch k ∧ (k ≤ j)%nat)
    ∧ match pc with
      | Legacy.GAtRead | Legacy.GEnd => has_yml f = true
      | Legacy.GSend queries => has_yml f = true ∧ queries ≠ []
      | _ => True
      end;
  gi_count : Legacy.g_i c = sum_list_with finished_yml (Legacy.g_tasks c);
  gi_launch : ∀ k, Legacy.g_main c = Legacy.GLaunch k → Legacy.g_i c = 0%nat;
  gi_returned :
    Legacy.g_main c = Legacy.GReturned →
    Legacy.g_i c = Legacy.filesCount env sys this ∧ (0 < Legacy.g_i c)%nat;
  gi_select :
    Legacy.g_main c = Legacy.GSelect → Legacy.filesCount env sys this ≠ 0%nat →
    Legacy.g_i c ≠ Legacy.filesCount env sys this;
  gi_collected :
    (length (Legacy.g_insertQueries c)
     + sum_list_with (to_collect env this) (Legacy.g_tasks c)
     = sum_list_with (records_of env this) (Legacy.files env this))%nat;
  gi_quiet : ∀ c0 res, ¬ In (Legacy.CDb c0 res) (Legacy.g_trace c)
}.

(** The steps a goroutine and the caller have before them. *)
Definition gather_task_left (env : Env) (this : Legacy.Fixturer)
    (t : FileInfo * Legacy.gather_pc) : nat :=
  match t.2 with
  | Legacy.GNotLaunched | Legacy.GAtEntry =>
      length (Legacy.decoded env this (Name t.1)) + 3
  | Legacy.GAtRead => length (Legacy.decoded env this (Name t.1)) + 2
  | Legacy.GSend queries => length queries + 1
  | Legacy.GEnd => 1
  | Legacy.GFinished => 0
  end.
Definition gather_main_left (n : nat) (m : Legacy.collector_pc) : nat :=
  match m with
  | Legacy.GLaunch k => (n - k) + 1
  | _ => 0
  end.
Definition gather_left (env : Env) (this : Legacy.Fixturer) (c : Legacy.Gather) : nat :=
  gather_main_left (length (Legacy.files env this)) (Legacy.g_main c)
  + sum_list_with (gather_task_left env this) (Legacy.g_tasks c).

(** The steps a schedule really takes, the choices that cannot move
    left out. *)
Fixpoint gather_moves (env : Env) (sys : Legacy.Sys) (this : Legacy.Fixturer)
    (sched : list Legacy.gather_choice) (c : Legacy.Gather) : nat :=
  match sched with
  | [] => 0
  | ch :: rest =>
      match Legacy.gather_step env sys this ch c with
      | Some c' => S (gather_moves env sys this rest c')
      | None => gather_moves env sys this rest c
      end
  end.

(** The directory [getInsertQueriesFromYml] can come back from: not
    empty, nothing but .yml entries, and listed in a slice filled to
    its capacity. *)
Definition collectable (env : Env) (sys : Legacy.Sys) (this : Legacy.Fixturer) : Prop :=
  Legacy.files env this ≠ []
  ∧ Forall (fun f => has_yml f = true) (Legacy.files env this)
  ∧ Legacy.filesCount env sys this = length (Legacy.files env this).

(** A fixturer on the directory "fy" of the scenario, which holds one
    .yml file of one record, and a run of the collecting loop on it. *)
Definition legacy_fixturer_fy : Legacy.Fixturer :=
  Legacy.mkFixturer true "schema.sql" "fy" "csv" "suite".

Definition collecting_schedule : list Legacy.gather_choice :=
  [Legacy.GCaller; Legacy.GCaller;
   Legacy.GGoroutine 0 (fun _ => []); Legacy.GGoroutine 0 (fun _ => []);
   Legacy.GReceive 0; Legacy.GReceive 0].

(** A call that ended in a panic. *)
Definition panicked {A} (out : outcome A * Legacy.LState) : Prop :=
  ∃ msg, fst out = Panicked msg.

(** The three statements of [recreateDatabase] for the database the
    server names. *)
Definition recreate_statements (dbName : string) : list stmt :=
  [DropDatabaseIfExists dbName;
   Sql ("CREATE DATABASE IF NOT EXISTS " +:+ dbName);
   Sql ("USE " +:+ dbName)].

(** The data source name is refused. *)
Definition open_fault : nat → dbcall → option string :=
  fun _ c =>
    match c with
    | Open _ => Some "invalid DSN"
    | _ => None
    end.

(** The server refuses to create the database. *)
Definition create_if_fault : nat → dbcall → option string :=
  fun _ c =>
    match c with
    | Exec (Sql "CREATE DATABASE IF NOT EXISTS testdb") => Some "access denied"
    | _ => None
    end.

(** The configuration the collecting loop is in when a schedule is used
    up, and the statements of the builders it has collected. *)
Definition collected (env : Env) (sys : Legacy.Sys) (this : Legacy.Fixturer)
    (sched : list Legacy.gather_choice) : Legacy.Gather :=
  Legacy.gather_run env sys this sched (Legacy.gather_entry env this).
Definition insert_statements (insertQueries : list InsertBuilder) : list stmt :=
  (fun qb => fst (ToSql qb)) <$> insertQueries.

(** What [InitFixtures] has sent when it comes to the collecting loop:
    the database recreated, the schema created, the constraint checks
    switched off (by [InitFixtures] and again by [initYmlFixtures]). *)
Definition init_prologue (dbName file : string) : list stmt :=
  recreate_statements dbName ++ (Sql <$> schema_statements file)
    ++ [SetForeignKeyChecks false].

(** What [generateCsvFixtures] sent, and returned. *)
Definition generated (env : Env) (sys : Legacy.Sys) (this : Legacy.Fixturer)
    (r : option error) (ex : list (stmt * option error)) : Prop :=
  match Legacy.sys_mkdir sys (csv_dir this), Legacy.sys_chmod sys (csv_dir this) with
  | Some msg, _ => r = Some (ErrIO msg) ∧ ex = []
  | None, Some msg => r = Some (ErrIO msg) ∧ ex = []
  | None, None =>
      stops_at_first_refusal
        (select_statement (csv_dir this)
           <$> Legacy.listing env (Legacy.fixturesPathYml this))
        r ex
  end.

(** The ways through [InitFixtures] between its two switches of the
    constraint checks, statement by statement: recreating fails; the
    schema fails; the switch of [initYmlFixtures] is refused; the
    caller is in the collecting loop; an insertion is refused; the CSV
    files are generated.  [clock] counts the calls before. *)
Inductive init_body (env : Env) (sys : Legacy.Sys) (this : Legacy.Fixturer)
    (sched : list Legacy.gather_choice) (clock : nat)
    : Legacy.verdict (option error) → list (stmt * option error) → Prop :=
  | body_recreate_failed e exR :
      match Legacy.sys_database sys clock with
      | inl dbName => stops_at_first_refusal (recreate_statements dbName) (Some e) exR
      | inr msg => e = ErrDb msg ∧ exR = []
      end →
      init_body env sys this sched clock (Legacy.Done (Some e)) exR
  | body_schema_failed dbName e exC :
      Legacy.sys_database sys clock = inl dbName →
      match env_ReadFile env (Legacy.schema this) with
      | inl file => stops_at_first_refusal (Sql <$> schema_statements file) (Some e) exC
      | inr msg => e = ErrIO msg ∧ exC = []
      end →
      init_body env sys this sched clock (Legacy.Done (Some e))
        (accepted_all (recreate_statements dbName) ++ exC)
  | body_switch_refused dbName file e :
      Legacy.sys_database sys clock = inl dbName →
      env_ReadFile env (Legacy.schema this) = inl file →
      init_body env sys this sched clock (Legacy.Done (Some e))
        (accepted_all (recreate_statements dbName ++ (Sql <$> schema_statements file))
           ++ [(SetForeignKeyChecks false, Some e)])
  | body_waiting dbName file :
      Legacy.sys_database sys clock = inl dbName →
      env_ReadFile env (Legacy.schema this) = inl file →
      Legacy.g_main (collected env sys this sched) ≠ Legacy.GReturned →
      init_body env sys this sched clock Legacy.Waiting
        (accepted_all (init_prologue dbName file))
  | body_insert_refused dbName file e exI r1 :
      Legacy.sys_database sys clock = inl dbName →
      env_ReadFile env (Legacy.schema this) = inl file →
      Legacy.g_main (collected env sys this sched) = Legacy.GReturned →
      stops_at_first_refusal
        (insert_statements (Legacy.g_insertQueries (collected env sys this sched)))
        (Some e) exI →
      init_body env sys this sched clock (Legacy.Done (Some e))
        (accepted_all (init_prologue dbName file) ++ exI
           ++ [(SetForeignKeyChecks true, r1)])
  | body_generated dbName file r exG r1 :
      Legacy.sys_database sys clock = inl dbName →
      env_ReadFile env (Legacy.schema this) = inl file →
      Legacy.g_main (collected env sys this sched) = Legacy.GReturned →
      generated env sys this r exG →
      init_body env sys this sched clock (Legacy.Done r)
        (accepted_all
           (init_prologue dbName file
              ++ insert_statements (Legacy.g_insertQueries (collected env sys this sched)))
           ++ [(SetForeignKeyChecks true, r1)] ++ exG).

(* ===================================================================== *)
(** * Properties *)
(* ===================================================================== *)

(* ===================================================================== *)
(** ** Column union and row alignment *)
(* ===================================================================== *)

Section ColumnUnion.

Lemma shuffle_Permutation {A} (picks : list nat) (l : list A) :
  shuffle picks l ≡ₚ l.
Proof.
  revert l. induction picks as [|n picks IH]; intros l; simpl; [done|].
  destruct (l !! (n mod length l)%nat) as [x|] eqn:Hx; [|done].
  rewrite IH. symmetry. by apply delete_Permutation.
Qed.

Lemma elem_of_foldl_union (data : list item) (acc : gset string) (k : string) :
  k ∈ foldl (fun acc it => acc ∪ dom it) acc data
  ↔ k ∈ acc ∨ ∃ it, it ∈ data ∧ is_Some (it !! k).
Proof.
  revert acc. induction data as [|it data IH]; intros acc; simpl.
  - split; [by left|]. intros [?|(it & Hit & _)]; [done|]. by apply elem_of_nil in Hit.
  - rewrite IH, elem_of_union, elem_of_dom. split.
    + intros [[?|?]|(it' & ? & ?)]; [by left| |].
      * right. exists it. split; [left|done].
      * right. exists it'. split; [by right|done].
    + intros [?|(it' & Hin & ?)]; [by left; left|].
      apply elem_of_cons in Hin as [->|?]; [by left; right|].
      right. by exists it'.
Qed.

Lemma elem_of_allKeysMap_of (data : list item) (k : string) :
  k ∈ allKeysMap_of data ↔ ∃ it, it ∈ data ∧ is_Some (it !! k).
Proof.
  unfold allKeysMap_of. rewrite elem_of_foldl_union.
  split; [|by right]. intros [H|H]; [|done]. by apply not_elem_of_empty in H.
Qed.

Lemma allKeys_of_NoDup picks data : NoDup (allKeys_of picks data).
Proof.
  unfold allKeys_of, range_keys. rewrite shuffle_Permutation. apply NoDup_elements.
Qed.

Lemma elem_of_allKeys_of picks data k :
  k ∈ allKeys_of picks data ↔ ∃ it, it ∈ data ∧ is_Some (it !! k).
Proof.
  unfold allKeys_of, range_keys.
  rewrite shuffle_Permutation, elem_of_elements. apply elem_of_allKeysMap_of.
Qed.

Lemma foldl_AddMap (data : list item) (qb : InsertBuilder) :
  foldl (fun qb it => AddMap it qb) qb data
  = mkInsertBuilder (ib_table qb) (ib_columns qb)
      (ib_rows qb
         ++ ((fun it => (fun c => default VAbsent (it !! c)) <$> ib_columns qb) <$> data)).
Proof.
  revert qb. induction data as [|it data IH]; intros [t cols rows]; simpl.
  - by rewrite app_nil_r.
  - rewrite IH. simpl. by rewrite <- app_assoc.
Qed.

Lemma build_batch_unfold picks tableName data :
  build_batch picks tableName data
  = mkInsertBuilder tableName (allKeys_of picks data)
      ((fun it => (fun c => default VAbsent (it !! c)) <$> allKeys_of picks data) <$> data).
Proof. unfold build_batch. by rewrite foldl_AddMap. Qed.

Lemma build_batch_nil picks tableName :
  ib_rows (build_batch picks tableName []) = [].
Proof. by rewrite build_batch_unfold. Qed.

End ColumnUnion.

(** C3 (as amended).  The batch built for one fixture file: its column
    list holds every field name that occurs in some record of the file,
    each once, in the order the runtime's iteration over [allKeysMap]
    yields (any order can come out); it has one tuple per record, in
    record order, each as long as the column list, holding at every
    column the record's value for it, or the absent marker when the
    record leaves the field out. *)
Theorem batch_columns_are_the_union_and_rows_are_aligned
    (picks : list nat) (tableName : string) (data : list item) :
  let qb := build_batch picks tableName data in
  ib_table qb = tableName
  ∧ NoDup (ib_columns qb)
  ∧ (∀ k, k ∈ ib_columns qb ↔ ∃ it, it ∈ data ∧ is_Some (it !! k))
  ∧ ib_columns qb ≡ₚ elements (allKeysMap_of data)
  ∧ length (ib_rows qb) = length data
  ∧ (∀ i it, data !! i = Some it →
       ∃ tuple, ib_rows qb !! i = Some tuple
                ∧ length tuple = length (ib_columns qb)
                ∧ (∀ j c, ib_columns qb !! j = Some c →
                     (it !! c = None → tuple !! j = Some VAbsent)
                     ∧ (∀ v, it !! c = Some v → tuple !! j = Some v))).
Proof.
  intros qb. subst qb. rewrite build_batch_unfold. simpl.
  split; [done|]. split; [apply allKeys_of_NoDup|].
  split; [apply elem_of_allKeys_of|].
  split; [apply shuffle_Permutation|].
  split; [by rewrite length_fmap|].
  intros i it Hi.
  exists ((fun c => default VAbsent (it !! c)) <$> allKeys_of picks data).
  split; [by rewrite list_lookup_fmap, Hi|].
  split; [by rewrite length_fmap|].
  intros j c Hj. rewrite list_lookup_fmap, Hj. simpl.
  split; [by intros ->|]. by intros v ->.
Qed.

(** C3, as stated, fails: for users.yml of the spec's scenario the
    iteration over [allKeysMap] can yield note, id, name, and that is the
    column list then, not the first-occurrence order id, name, note. *)
Lemma batch_columns_not_in_first_occurrence_order :
  ib_columns (build_batch [1] "users" users_yml) = ["note"; "id"; "name"]
  ∧ first_occurrence_order users_yml_fields = ["id"; "name"; "note"]
  ∧ ib_columns (build_batch [1] "users" users_yml)
    ≠ first_occurrence_order users_yml_fields.
Proof.
  assert (H1 : ib_columns (build_batch [1] "users" users_yml) = ["note"; "id"; "name"])
    by (vm_compute; reflexivity).
  assert (H2 : first_occurrence_order users_yml_fields = ["id"; "name"; "note"])
    by (vm_compute; reflexivity).
  rewrite H1, H2. repeat split; discriminate.
Qed.

(* ===================================================================== *)
(** ** Calls into the database, one at a time *)
(* ===================================================================== *)

Lemma same_process_refl s : same_process s s.
Proof. by repeat split. Qed.

Lemma same_process_trans s1 s2 s3 :
  same_process s1 s2 → same_process s2 s3 → same_process s1 s3.
Proof.
  intros (?&?&?&?) (?&?&?&?). repeat split; congruence.
Qed.

Ltac run_calls :=
  unfold db_Exec, db_Begin, tx_Exec, tx_Commit, tx_Rollback, on_finished_tx,
         driver, log_if_err, log, emit, modify, get, bind, ret in *;
  cbn in *.

Lemma events_since_app s s' evs :
  trace s' = trace s ++ evs → events_since s s' = evs.
Proof. unfold events_since. intros ->. by rewrite drop_app_length. Qed.

Lemma db_Exec_spec env q s r s' :
  db_Exec env q s = (r, s') →
  r = ErrDb <$> env_fault env (clock s) (Exec q)
  ∧ trace s' = trace s ++ [EvDb (Exec q) r]
  ∧ server s' = (if r is None then apply_stmt (server s) q else server s)
  ∧ pending s' = pending s
  ∧ clock s' = S (clock s)
  ∧ rng s' = rng s
  ∧ same_process s s'.
Proof.
  run_calls. destruct (env_fault env (clock s) (Exec q)); cbn;
    intros [= <- <-]; by repeat split.
Qed.

Lemma truncated_app evs1 evs2 :
  truncated (evs1 ++ evs2) = truncated evs1 ++ truncated evs2.
Proof. unfold truncated. apply omap_app. Qed.

Lemma accepted_app evs1 evs2 :
  accepted (evs1 ++ evs2) = accepted evs1 ++ accepted evs2.
Proof. unfold accepted. apply omap_app. Qed.

Lemma truncated_ok_truncate names : truncated (ok_truncate <$> names) = names.
Proof.
  unfold truncated. induction names as [|t names IH]; [done|].
  cbn. by rewrite IH.
Qed.

Lemma truncate_loop_spec env names s r s' :
  truncate_loop env names s = (r, s') →
  ∃ evs, trace s' = trace s ++ evs
    ∧ Forall truncate_or_log evs
    ∧ truncated evs `prefix_of` names
    ∧ (r = None → evs = ok_truncate <$> names
                  ∧ server s' = foldl apply_stmt (server s) (Truncate <$> names)
                  ∧ ∀ t, t ∈ names → passes env (Exec (Truncate t)))
    ∧ (is_Some r → ∃ t, t ∈ names ∧ fails env (Exec (Truncate t)))
    ∧ pending s' = pending s
    ∧ rng s' = rng s
    ∧ same_process s s'.
Proof.
  revert s r s'. induction names as [|t names IH]; intros s r s'; cbn.
  - intros [= <- <-]. exists []. rewrite app_nil_r.
    do 3 (split; [done|]).
    split; [intros _; do 2 (split; [done|]); intros t Ht; by apply elem_of_nil in Ht|].
    split; [by intros [? [=]]|]. by repeat split.
  - unfold bind at 1.
    destruct (db_Exec env (Truncate t) s) as [r1 s1] eqn:E1.
    apply db_Exec_spec in E1 as (Hr & Htr & Hsrv & Hp & _ & Hrng & Hsame).
    destruct r1 as [e|].
    + run_calls. intros [= <- <-]. cbn.
      exists [EvDb (Exec (Truncate t)) (Some e); EvLog (LogErr e)].
      rewrite Htr, <- app_assoc. split; [done|].
      split; [constructor; [left; by eexists _, _|];
              constructor; [right; by eexists|constructor]|].
      split; [cbn; by apply prefix_cons, prefix_nil|].
      split; [done|].
      split.
      { intros _. exists t. split; [by left|]. exists (clock s).
        destruct (env_fault env (clock s) (Exec (Truncate t))); [by eexists|done]. }
      do 2 (split; [done|]).
      destruct Hsame as (?&?&?&?). by repeat split.
    + intros E2.
      apply IH in E2 as (evs & Htr' & Hall & Hpre & Hok & Hfail & Hp' & Hrng' & Hsame').
      exists (ok_truncate t :: evs).
      rewrite Htr', Htr, <- app_assoc. split; [done|].
      split; [constructor; [left; by eexists _, _|done]|].
      split; [cbn; by apply prefix_cons|].
      split.
      { intros Hnone. destruct (Hok Hnone) as (-> & -> & Hpass).
        split; [done|]. split; [by rewrite Hsrv|].
        intros t' Ht'. apply elem_of_cons in Ht' as [->|Ht']; [|by apply Hpass].
        exists (clock s). by destruct (env_fault env (clock s) (Exec (Truncate t))). }
      split.
      { intros Hsome. destruct (Hfail Hsome) as (t' & Ht' & Hf).
        exists t'. split; [by right|done]. }
      rewrite Hp', Hrng', Hp, Hrng. split; [done|]. split; [done|].
      by eapply same_process_trans.
Qed.

Lemma db_Begin_spec env s r s' :
  db_Begin env s = (r, s') →
  r = ErrDb <$> env_fault env (clock s) Begin
  ∧ trace s' = trace s ++ [EvDb Begin r]
  ∧ server s' = server s
  ∧ pending s' = (if r is None then Some [] else pending s)
  ∧ rng s' = rng s
  ∧ same_process s s'.
Proof.
  run_calls. destruct (env_fault env (clock s) Begin); cbn;
    intros [= <- <-]; by repeat split.
Qed.

Lemma tx_Exec_spec env q s r s' :
  tx_Exec env q s = (r, s') →
  trace s' = trace s ++ [EvDb (TxExec q) r]
  ∧ server s' = server s
  ∧ rng s' = rng s
  ∧ same_process s s'
  ∧ match pending s with
    | None => r = Some ErrTxDone ∧ pending s' = None
    | Some qs =>
        r = ErrDb <$> env_fault env (clock s) (TxExec q)
        ∧ pending s' = Some (if r is None then qs ++ [q] else qs)
    end.
Proof.
  run_calls. destruct (pending s) as [qs|] eqn:Hp; cbn.
  - destruct (env_fault env (clock s) (TxExec q)); cbn;
      intros [= <- <-]; by repeat split.
  - intros [= <- <-]. by repeat split.
Qed.

Lemma tx_Commit_spec env s r s' :
  tx_Commit env s = (r, s') →
  trace s' = trace s ++ [EvDb Commit r]
  ∧ pending s' = None
  ∧ rng s' = rng s
  ∧ same_process s s'
  ∧ match pending s with
    | None => r = Some ErrTxDone ∧ server s' = server s
    | Some qs =>
        r = ErrDb <$> env_fault env (clock s) Commit
        ∧ server s' = (if r is None then foldl apply_stmt (server s) qs else server s)
    end.
Proof.
  run_calls. destruct (pending s) as [qs|] eqn:Hp; cbn.
  - destruct (env_fault env (clock s) Commit); cbn;
      intros [= <- <-]; by repeat split.
  - intros [= <- <-]. by repeat split.
Qed.

Lemma tx_Rollback_spec env s r s' :
  tx_Rollback env s = (r, s') →
  trace s' = trace s ++ [EvDb Rollback r]
  ∧ pending s' = None
  ∧ server s' = server s
  ∧ rng s' = rng s
  ∧ same_process s s'
  ∧ (pending s = None → r = Some ErrTxDone).
Proof.
  run_calls. destruct (pending s) as [qs|] eqn:Hp; cbn.
  - intros [= <- <-]. by repeat split.
  - intros [= <- <-]. by repeat split.
Qed.

Lemma log_if_err_spec r s u s' :
  log_if_err r s = (u, s') →
  trace s' = trace s ++ (if r is Some e then [EvLog (LogErr e)] else [])
  ∧ server s' = server s
  ∧ pending s' = pending s
  ∧ rng s' = rng s
  ∧ clock s' = clock s
  ∧ same_process s s'.
Proof.
  run_calls. destruct r; cbn; intros [= <- <-]; rewrite ?app_nil_r; by repeat split.
Qed.

Lemma insert_or_log_log_if (r : option error) :
  Forall insert_or_log (if r is Some e then [EvLog (LogErr e)] else []).
Proof.
  destruct r; [|constructor]. apply Forall_singleton. right. by eexists.
Qed.

Lemma insert_loop_spec env qs s u s' acc :
  insert_loop env qs s = (u, s') →
  pending s = Some acc →
  ∃ evs, trace s' = trace s ++ evs
    ∧ Forall insert_or_log evs
    ∧ pending s' = Some (acc ++ accepted evs)
    ∧ server s' = server s
    ∧ rng s' = rng s
    ∧ same_process s s'
    ∧ (∀ qb, qb ∈ qs → issued_tx (fst (ToSql qb)) evs)
    ∧ (time_invariant env → accepted evs = lets_through env qs).
Proof.
  revert s u s' acc. induction qs as [|qb qs IH]; intros s u s' acc; cbn.
  - intros [= <- <-] Hp. exists []. rewrite !app_nil_r.
    repeat split; try done. intros qb Hin. by apply elem_of_nil in Hin.
  - unfold bind at 1.
    destruct (log_if_err (ToSql qb).2 s) as [u1 s1] eqn:E1.
    apply log_if_err_spec in E1 as (Htr1 & Hsrv1 & Hp1 & Hrng1 & Hck1 & Hsame1).
    unfold bind at 1.
    destruct (tx_Exec env (ToSql qb).1 s1) as [r2 s2] eqn:E2.
    apply tx_Exec_spec in E2 as (Htr2 & Hsrv2 & Hrng2 & Hsame2 & Hpend2).
    unfold bind at 1.
    destruct (log_if_err r2 s2) as [u3 s3] eqn:E3.
    apply log_if_err_spec in E3 as (Htr3 & Hsrv3 & Hp3 & Hrng3 & _ & Hsame3).
    intros E4 Hp. rewrite Hp1, Hp in Hpend2. destruct Hpend2 as [Hr2 Hp2].
    apply (IH _ _ _ (if r2 is None then acc ++ [(ToSql qb).1] else acc)) in E4
      as (evs & Htr & Hall & Hpend & Hsrv & Hrng & Hsame & Hiss & Hacc);
      [|by rewrite Hp3, Hp2; destruct r2].
    exists ((if (ToSql qb).2 is Some e then [EvLog (LogErr e)] else [])
            ++ [EvDb (TxExec (ToSql qb).1) r2]
            ++ (if r2 is Some e then [EvLog (LogErr e)] else []) ++ evs).
    split; [by rewrite Htr, Htr3, Htr2, Htr1, <- !app_assoc|].
    split.
    { apply Forall_app. split; [apply insert_or_log_log_if|].
      constructor; [left; by eexists _, _|].
      apply Forall_app. split; [apply insert_or_log_log_if|done]. }
    split.
    { rewrite Hpend. f_equal. rewrite !accepted_app.
      destruct (ToSql qb).2, r2; cbn; by rewrite <- ?app_assoc. }
    split; [congruence|]. split; [congruence|].
    split; [eauto using same_process_trans|].
    split.
    { intros qb' Hin. apply elem_of_cons in Hin as [->|Hin].
      - exists r2. rewrite !in_app_iff. right. left. by left.
      - destruct (Hiss _ Hin) as [r Hr]. exists r.
        rewrite !in_app_iff. right. right. by right. }
    intros Hti. rewrite !accepted_app, (Hacc Hti).
    unfold lets_through.
    rewrite Hck1, Hti in Hr2. subst r2.
    destruct (ToSql qb).2; destruct (env_fault env 0 (TxExec (ToSql qb).1)) eqn:Hf;
      cbn; case_decide; done.
Qed.

(* ===================================================================== *)
(** ** The load phase, path by path *)
(* ===================================================================== *)

Lemma apply_stmt_switch db on : apply_stmt db (SetForeignKeyChecks on) = db.
Proof. done. Qed.

Lemma elem_of_range_values {V} picks (m : gmap string V) (v : V) :
  v ∈ range_values picks m ↔ ∃ k, m !! k = Some v.
Proof.
  unfold range_values. rewrite shuffle_Permutation, list_elem_of_fmap. split.
  - intros ([k v'] & -> & Hin). exists k. by apply elem_of_map_to_list.
  - intros [k Hk]. exists (k, v). split; [done|]. by apply elem_of_map_to_list.
Qed.

Lemma loadParsedData_spec env this s r s' :
  loadParsedData env this s = (r, s') →
  same_process s s'
  ∧ ∃ evs, trace s' = trace s ++ evs ∧ load_path env s s' r evs.
Proof.
  unfold loadParsedData. unfold bind at 1.
  destruct (db_Exec env (SetForeignKeyChecks false) s) as [r0 s0] eqn:E0.
  apply db_Exec_spec in E0 as (Hr0 & Htr0 & Hsrv0 & Hp0 & _ & Hrng0 & Hsame0).
  destruct r0 as [e0|].
  { intros [= <- <-]. split; [done|]. eexists. split; [done|].
    eapply load_switch_failed; [done..|]. exists (clock s).
    destruct (env_fault env (clock s) (Exec (SetForeignKeyChecks false))); [by eexists|done]. }
  assert (Hpass0 : passes env (Exec (SetForeignKeyChecks false))).
  { exists (clock s).
    by destruct (env_fault env (clock s) (Exec (SetForeignKeyChecks false))). }
  cbn in Hsrv0.
  unfold bind at 1, get at 1. unfold bind at 1.
  destruct (truncate_loop env (finishedTablseNames s0) s0) as [r1 s1] eqn:E1.
  apply truncate_loop_spec in E1
    as (tevs & Htr1 & Hall1 & Hpre1 & Hok1 & Hfail1 & Hp1 & Hrng1 & Hsame1).
  assert (Hnames : finishedTablseNames s0 = finishedTablseNames s) by apply Hsame0.
  rewrite Hnames in *.
  destruct r1 as [e1|].
  { unfold bind at 1.
    destruct (db_Exec env (SetForeignKeyChecks true) s1) as [r2 s2] eqn:E2.
    apply db_Exec_spec in E2 as (_ & Htr2 & _ & _ & _ & _ & Hsame2).
    intros [= <- <-]. split; [eauto using same_process_trans|].
    exists (fk_off :: tevs ++ [fk_on r2]). split.
    - rewrite Htr2, Htr1, Htr0. by rewrite <- !app_assoc.
    - eapply load_truncate_failed; [done..|]. apply Hfail1. by eexists. }
  destruct (Hok1 eq_refl) as (-> & Hsrv1 & Hpass1). rewrite Hsrv0 in Hsrv1.
  unfold bind at 1.
  destruct (db_Begin env s1) as [r2 s2] eqn:E2.
  apply db_Begin_spec in E2 as (Hr2 & Htr2 & Hsrv2 & Hp2 & Hrng2 & Hsame2).
  destruct r2 as [e2|].
  { unfold bind at 1.
    destruct (db_Exec env (SetForeignKeyChecks true) s2) as [r3 s3] eqn:E3.
    apply db_Exec_spec in E3 as (_ & Htr3 & Hsrv3 & _ & _ & _ & Hsame3).
    intros [= <- <-]. split; [eauto using same_process_trans|].
    eexists. split.
    - rewrite Htr3, Htr2, Htr1, Htr0. rewrite <- !app_assoc. reflexivity.
    - eapply (load_begin_failed _ _ _ _ e2 r3); [done| |].
      + unfold cleared. rewrite Hsrv3. destruct r3; cbn; congruence.
      + exists (clock s1). destruct (env_fault env (clock s1) Begin); [by eexists|done]. }
  assert (Hpass2 : passes env Begin).
  { exists (clock s1). by destruct (env_fault env (clock s1) Begin). }
  unfold bind at 1, get at 1. unfold bind at 1, modify at 1. unfold bind at 1.
  set (s2' := set_rng (S (rng s2)) s2).
  destruct (insert_loop env (range_values (env_picks env (rng s2)) (insertMap s2)) s2')
    as [u3 s3] eqn:E3.
  apply (insert_loop_spec _ _ _ _ _ []) in E3
    as (ins & Htr3 & Hall3 & Hp3 & Hsrv3 & Hrng3 & Hsame3 & Hiss3 & Hacc3);
    [|by subst s2'; cbn].
  unfold bind at 1.
  destruct (tx_Commit env s3) as [r4 s4] eqn:E4.
  apply tx_Commit_spec in E4 as (Htr4 & Hp4 & Hrng4 & Hsame4 & Hc4).
  rewrite Hp3 in Hc4. destruct Hc4 as [Hr4 Hsrv4].
  unfold bind at 1.
  destruct (log_if_err r4 s4) as [u5 s5] eqn:E5.
  apply log_if_err_spec in E5 as (Htr5 & Hsrv5 & Hp5 & Hrng5 & _ & Hsame5).
  unfold bind at 1.
  destruct (tx_Rollback env s5) as [r6 s6] eqn:E6.
  apply tx_Rollback_spec in E6 as (Htr6 & Hp6 & Hsrv6 & Hrng6 & Hsame6 & Hr6).
  rewrite (Hr6 ltac:(congruence)) in Htr6.
  unfold bind at 1.
  destruct (db_Exec env (SetForeignKeyChecks true) s6) as [r7 s7] eqn:E7.
  apply db_Exec_spec in E7 as (_ & Htr7 & Hsrv7 & _ & _ & _ & Hsame7).
  intros [= <- <-].
  assert (Hmap : insertMap s2 = insertMap s).
  { transitivity (insertMap s1); [apply Hsame2|].
    transitivity (insertMap s0); [apply Hsame1|apply Hsame0]. }
  assert (Hs2' : same_process s2 s2') by (subst s2'; by repeat split).
  split; [eauto 10 using same_process_trans|].
  eexists. split.
  - rewrite Htr7, Htr6, Htr5, Htr4, Htr3. subst s2'. cbn.
    rewrite Htr2, Htr1, Htr0. rewrite <- !app_assoc. reflexivity.
  - eapply (load_commit_reached _ _ _ _ ins r7); [done|done|done|by eexists|done| | |].
    + intros k qb Hk. apply Hiss3, elem_of_range_values. exists k. by rewrite Hmap.
    + assert (server s7 = server s4) as ->.
      { destruct r7; cbn in Hsrv7; congruence. }
      rewrite Hsrv4, Hsrv3. subst s2'. cbn. rewrite Hsrv2, Hsrv1.
      unfold cleared. by destruct r4.
    + intros Hti. eexists. split; [|by apply Hacc3].
      unfold range_values. by rewrite shuffle_Permutation, Hmap.
Qed.

(* ===================================================================== *)
(** ** Connection and schema, path by path *)
(* ===================================================================== *)

Lemma foldl_apply_inert db qs :
  Forall (fun q => inert q = true) qs → foldl apply_stmt db qs = db.
Proof.
  induction 1 as [|q qs Hq _ IH]; [done|]. cbn. rewrite <- IH at 2.
  f_equal. by destruct q.
Qed.

Lemma ensureDbConnected_spec env this s r this' s' :
  ensureDbConnected env this s = ((r, this'), s') →
  same_process s s' ∧ server s' = server s ∧ pending s' = pending s ∧ rng s' = rng s
  ∧ this' = (if r is None
             then (if db this is None
                   then set_db (Some (mkDB (dsn_of this) (insertGoroutinesCnt this)
                                           (insertGoroutinesCnt this))) this
                   else this)
             else this)
  ∧ ∃ evs, trace s' = trace s ++ evs
      ∧ Forall (fun e => connection_event e = true) evs
      ∧ (r = None → db this = None →
         evs = [EvDb (Open (dsn_of this)) None;
                EvSetMaxOpenConns (insertGoroutinesCnt this);
                EvSetMaxIdleConns (insertGoroutinesCnt this);
                EvDb Ping None])
      ∧ (∀ e, r = Some e → ∃ msg, e = ErrDb msg).
Proof.
  unfold ensureDbConnected, dsn_of. destruct (db this) as [h|] eqn:Hdb.
  { intros [= <- <- <-]. repeat split; try done. exists [].
    rewrite app_nil_r. by repeat split. }
  run_calls.
  destruct (env_fault env (clock s) (Open _)) as [m1|] eqn:F1; cbn.
  { intros [= <- <- <-]. cbn. repeat split; try done.
    eexists. split; [done|]. split; [by repeat constructor|].
    split; [done|]. intros e [= <-]. by eexists. }
  destruct (env_fault env (S (clock s)) Ping) as [m2|] eqn:F2; cbn.
  { intros [= <- <- <-]. cbn. repeat split; try done.
    eexists. split; [by rewrite <- !app_assoc|]. split; [by repeat constructor|].
    split; [done|]. intros e [= <-]. by eexists. }
  intros [= <- <- <-]. cbn. repeat split; try done.
  eexists. split; [by rewrite <- !app_assoc|]. split; [by repeat constructor|].
  split; [|done]. intros _ _. cbn. by case_decide.
Qed.

Lemma ensureDbDisconnected_spec env this s this' s' :
  ensureDbDisconnected env this s = (this', s') →
  same_process s s' ∧ server s' = server s ∧ pending s' = pending s ∧ rng s' = rng s
  ∧ this' = set_db None this
  ∧ ∃ r, trace s' = trace s ++ [EvDb Close r].
Proof.
  unfold ensureDbDisconnected. run_calls. intros [= <- <-]. cbn.
  repeat split; try done. by eexists.
Qed.

Lemma schema_loop_spec env queries s r s' acc :
  schema_loop env queries s = (r, s') →
  pending s = Some acc →
  same_process s s' ∧ server s' = server s ∧ rng s' = rng s
  ∧ (∀ e, r = Some e → ∃ msg, e = ErrDb msg)
  ∧ ∃ evs qs, trace s' = trace s ++ evs ∧ Forall schema_event evs
      ∧ pending s' = Some (acc ++ qs) ∧ Forall (fun q => inert q = true) qs.
Proof.
  revert s r s' acc. induction queries as [|q queries IH]; intros s r s' acc; cbn.
  - intros [= <- <-] Hp. repeat split; try done.
    exists [], []. rewrite !app_nil_r. by repeat split.
  - case_decide as Hlen; [apply IH|].
    unfold bind at 1.
    destruct (tx_Exec env (Sql (TrimSpace q)) s) as [r1 s1] eqn:E1.
    apply tx_Exec_spec in E1 as (Htr1 & Hsrv1 & Hrng1 & Hsame1 & Hpend1).
    intros E2 Hp. rewrite Hp in Hpend1. destruct Hpend1 as [Hr1 Hp1].
    destruct r1 as [e1|].
    + injection E2 as <- <-. repeat split; try done; try apply Hsame1.
      { intros e [= <-]. destruct (env_fault _ _ _); [|done].
        injection Hr1 as ->. by eexists. }
      exists [EvDb (TxExec (Sql (TrimSpace q))) (Some e1)], [].
      rewrite app_nil_r. repeat split; try done.
      apply Forall_singleton. by eexists _, _.
    + apply (IH _ _ _ (acc ++ [Sql (TrimSpace q)])) in E2
        as (Hsame & Hsrv & Hrng & Herr & evs & qs & Htr & Hall & Hp' & Hin); [|done].
      split; [eauto using same_process_trans|].
      split; [congruence|]. split; [congruence|]. split; [done|].
      exists (EvDb (TxExec (Sql (TrimSpace q))) None :: evs), (Sql (TrimSpace q) :: qs).
      split; [by rewrite Htr, Htr1, <- app_assoc|].
      split; [constructor; [by eexists _, _|done]|].
      split; [by rewrite Hp', <- app_assoc|]. by constructor.
Qed.

Lemma LoadDbSchema_spec env this s r this' s' :
  LoadDbSchema env this s = ((r, this'), s') →
  same_process s s' ∧ server s' = server s ∧ rng s' = rng s
  ∧ (∃ r0 s0, ensureDbConnected env this
                (set_trace (trace s ++ [EvLog (LogText "Load database schema")]) s)
              = ((r0, this'), s0))
  ∧ ∃ cevs tail,
      trace s' = trace s ++ EvLog (LogText "Load database schema") :: cevs ++ tail
      ∧ Forall (fun e => connection_event e = true) cevs
      ∧ schema_path this r tail.
Proof.
  unfold LoadDbSchema. unfold bind at 1, log at 1, emit at 1, modify at 1.
  set (sl := set_trace _ s). unfold bind at 1.
  destruct (ensureDbConnected env this sl) as [[r0 this0] s0] eqn:E0.
  pose proof E0 as E0'.
  apply ensureDbConnected_spec in E0
    as (Hsame0 & Hsrv0 & Hp0 & Hrng0 & Hthis0 & cevs & Htr0 & Hall0 & _ & _).
  assert (Hsl : same_process s sl) by (subst sl; by repeat split).
  assert (Hsl_srv : server sl = server s) by done.
  assert (Hsl_rng : rng sl = rng s) by done.
  cbn [fst snd].
  destruct r0 as [e0|].
  { intros [= <- <- <-]. repeat split; try done; try apply Hsame0; [by eexists _, _|].
    exists cevs, []. rewrite app_nil_r.
    split; [rewrite Htr0; subst sl; cbn; by rewrite <- app_assoc|].
    split; [done|]. by eapply schema_not_connected. }
  unfold bind at 1.
  destruct (db_Begin env s0) as [r1 s1] eqn:E1.
  apply db_Begin_spec in E1 as (Hr1 & Htr1 & Hsrv1 & Hp1 & Hrng1 & Hsame1).
  destruct r1 as [e1|].
  { intros [= <- <- <-].
    split; [eauto using same_process_trans|].
    split; [congruence|]. split; [congruence|]. split; [by eexists _, _|].
    exists cevs, [EvDb Begin (Some e1)].
    split; [rewrite Htr1, Htr0; subst sl; cbn; by rewrite <- !app_assoc|].
    split; [done|]. by eapply schema_not_begun. }
  unfold bind at 1.
  destruct (tx_Exec env (SetForeignKeyChecks false) s1) as [r2 s2] eqn:E2.
  apply tx_Exec_spec in E2 as (Htr2 & Hsrv2 & Hrng2 & Hsame2 & Hpend2).
  rewrite Hp1 in Hpend2. destruct Hpend2 as [Hr2 Hp2].
  destruct r2 as [e2|].
  { unfold bind at 1.
    destruct (tx_Rollback env s2) as [r3 s3] eqn:E3.
    apply tx_Rollback_spec in E3 as (Htr3 & Hp3 & Hsrv3 & Hrng3 & Hsame3 & _).
    intros [= <- <- <-].
    split; [eauto 10 using same_process_trans|].
    split; [congruence|]. split; [congruence|]. split; [by eexists _, _|].
    exists cevs, [EvDb Begin None; tx_fk_off (Some e2); EvDb Rollback r3].
    split; [rewrite Htr3, Htr2, Htr1, Htr0; subst sl; cbn; by rewrite <- !app_assoc|].
    split; [done|]. by eapply schema_switch_failed. }
  cbn in Hp2.
  unfold bind at 1, emit at 1, modify at 1.
  set (s2r := set_trace _ s2). unfold bind at 1.
  assert (Hs2r_srv : server s2r = server s2) by done.
  assert (Hs2r_rng : rng s2r = rng s2) by done.
  assert (∃ r3 s3 mid,
    (match env_ReadFile env (schema this) with
     | inl file =>
         r <- schema_loop env (Split file ";"%char) ;;
         match r with
         | Some e => ret (Some e)
         | None => tx_Commit env
         end
     | inr msg => ret (Some (ErrIO msg))
     end) s2r = (r3, s3)
    ∧ same_process s2r s3 ∧ server s3 = server s2r ∧ rng s3 = rng s2r
    ∧ trace s3 = trace s2r ++ mid ∧ Forall schema_or_commit mid
    ∧ (r3 = None → In (EvDb Commit None) mid ∧ pending s3 = None))
    as (r3 & s3 & mid & -> & Hsame3 & Hsrv3 & Hrng3 & Htr3 & Hall3 & Hok3).
  { destruct (env_ReadFile env (schema this)) as [file|msg].
    - unfold bind at 1.
      destruct (schema_loop env (Split file ";"%char) s2r) as [r3 s3] eqn:E3.
      apply (schema_loop_spec _ _ _ _ _ [SetForeignKeyChecks false]) in E3
        as (Hsame3 & Hsrv3 & Hrng3 & _ & evs & qs & Htr3 & Hall3 & Hp3 & Hin3);
        [|by subst s2r].
      destruct r3 as [e3|].
      + exists (Some e3), s3, evs. repeat split; try done; try apply Hsame3.
        eapply Forall_impl; [done|]. by left.
      + destruct (tx_Commit env s3) as [r4 s4] eqn:E4.
        apply tx_Commit_spec in E4 as (Htr4 & Hp4 & Hrng4 & Hsame4 & Hc4).
        rewrite Hp3 in Hc4. destruct Hc4 as [Hr4 Hsrv4].
        exists r4, s4, (evs ++ [EvDb Commit r4]). unfold ret.
        split; [done|]. split; [eauto using same_process_trans|].
        split.
        { rewrite Hsrv4, Hsrv3. destruct r4; [done|].
          apply foldl_apply_inert. by constructor. }
        split; [congruence|].
        split; [by rewrite Htr4, Htr3, <- app_assoc|].
        split.
        { apply Forall_app. split; [eapply Forall_impl; [done|]; by left|].
          apply Forall_singleton. right. by eexists. }
        intros ->. split; [|done]. apply in_or_app. right. by left.
    - exists (Some (ErrIO msg)), s2r, []. unfold ret. rewrite app_nil_r.
      by repeat split. }
  unfold bind at 1.
  destruct (tx_Exec env (SetForeignKeyChecks true) s3) as [r4 s4] eqn:E4.
  apply tx_Exec_spec in E4 as (Htr4 & Hsrv4 & Hrng4 & Hsame4 & Hpend4).
  unfold bind at 1.
  destruct (tx_Rollback env s4) as [r5 s5] eqn:E5.
  apply tx_Rollback_spec in E5 as (Htr5 & Hp5 & Hsrv5 & Hrng5 & Hsame5 & _).
  intros [= <- <- <-].
  assert (Hs2r : same_process s2 s2r) by (subst s2r; by repeat split).
  split; [eauto 12 using same_process_trans|].
  split; [congruence|].
  split; [congruence|].
  split; [by eexists _, _|].
  exists cevs, ([EvDb Begin None; tx_fk_off None; EvReadFile (schema this)]
                  ++ mid ++ [tx_fk_on r4; EvDb Rollback r5]).
  split.
  { rewrite Htr5, Htr4, Htr3. subst s2r sl. cbn.
    rewrite Htr2, Htr1, Htr0. cbn. by rewrite <- !app_assoc. }
  split; [done|]. eapply schema_body; [done|].
  intros ->. destruct (Hok3 eq_refl) as [Hin Hpn]. split; [done|].
  rewrite Hpn in Hpend4. apply Hpend4.
Qed.

(* ===================================================================== *)
(** ** Constraint checking is switched back on *)
(* ===================================================================== *)

Lemma connection_event_not_tx cevs q r :
  Forall (fun e => connection_event e = true) cevs → ¬ In (EvDb (TxExec q) r) cevs.
Proof.
  intros Hall Hin. rewrite Forall_forall in Hall.
  apply list_elem_of_In, Hall in Hin. discriminate.
Qed.

Lemma truncate_or_log_not_switch tevs on r :
  Forall truncate_or_log tevs → ¬ In (EvDb (Exec (SetForeignKeyChecks on)) r) tevs.
Proof.
  intros Hall Hin. rewrite Forall_forall in Hall.
  apply list_elem_of_In, Hall in Hin. unfold truncate_or_log in Hin.
  destruct Hin as [(?&?&H)|(?&H)]; discriminate H.
Qed.

Ltac in_list :=
  repeat match goal with H : In _ _ |- _ => apply list_elem_of_In in H end;
  apply list_elem_of_In;
  repeat (rewrite elem_of_cons || rewrite elem_of_app);
  solve [auto 20].

Lemma load_path_switch env s s' r evs :
  load_path env s s' r evs →
  issued (SetForeignKeyChecks true) evs ↔ In fk_off evs.
Proof.
  unfold issued.
  destruct 1 as [e -> _ _|e tevs r1 -> Hall _ _|e r1 -> _ _|ins r1 _ _ _ _ _ _ _ _].
  - split.
    + intros [r [[=]|[]]].
    + intros [[=]|[]].
  - split; [intros _; by left|]. intros _. exists r1. unfold fk_on. in_list.
  - split; [intros _; by left|]. intros _. exists r1. unfold fk_on. in_list.
  - split; [intros _; by left|]. intros _. exists r1. unfold fk_on. in_list.
Qed.

Lemma schema_or_commit_not_switch mid on r :
  Forall schema_or_commit mid → ¬ In (EvDb (TxExec (SetForeignKeyChecks on)) r) mid.
Proof.
  intros Hall Hin. rewrite Forall_forall in Hall.
  apply list_elem_of_In, Hall in Hin. unfold schema_or_commit, schema_event in Hin.
  destruct Hin as [(?&?&H)|(?&H)]; discriminate H.
Qed.

(** C8, as stated, fails: when the server refuses the switching-off
    statement, [loadParsedData] returns that error and no statement
    switching the checks back on goes out. *)
Lemma load_returns_without_reenabling :
  let s := init_State ∅ in
  let s' := snd (loadParsedData (scenario_env switch_fault) fixturer_fx s) in
  fst (loadParsedData (scenario_env switch_fault) fixturer_fx s)
    = Some (ErrDb "server has gone away")
  ∧ ¬ issued (SetForeignKeyChecks true) (events_since s s').
Proof.
  split; [by vm_compute|].
  intros [r Hin]. vm_compute in Hin. destruct Hin as [[=]|[]].
Qed.

(* ===================================================================== *)
(** ** The parse phase *)
(* ===================================================================== *)

Lemma parse_task_spec env this f tn s tn' s' :
  parse_task env this f tn s = (tn', s') →
  if has_yml f then
    tn' = tn ++ [table_of (Name f)]
    ∧ insertMap s'
      = <[Name f := build_batch (env_picks env (rng s)) (table_of (Name f))
                      (decoded env this (Name f))]> (insertMap s)
    ∧ trace s' = trace s ++ EvReadFile (path_of this (Name f))
                   :: (if decode_error env this (Name f) is Some msg
                       then [EvLog (LogCantRead (Name f) (ErrDecode msg))] else [])
    ∧ same_database s s' ∧ parses s' = parses s
    ∧ finishedTablseNames s' = finishedTablseNames s
  else tn' = tn ∧ s' = s.
Proof.
  unfold parse_task, has_yml, decoded, decode_error, path_of, table_of.
  destruct (HasSuffix (Name f) ".yml"); cbn; [|by intros [= <- <-]].
  destruct (env_Unmarshal env _) as [data err]. run_calls.
  destruct err; cbn; intros [= <- <-]; cbn; rewrite <- ?app_assoc; by repeat split.
Qed.

Lemma run_tasks_spec env this order tn s tn' s' :
  run_tasks env this order tn s = (tn', s') →
  tn' = tn ++ (table_of ∘ Name <$> List.filter has_yml order)
  ∧ same_database s s' ∧ parses s' = parses s
  ∧ finishedTablseNames s' = finishedTablseNames s
  ∧ (∀ k, (∀ f, f ∈ order → has_yml f = true → Name f ≠ k) →
          insertMap s' !! k = insertMap s !! k)
  ∧ (∀ f, f ∈ order → has_yml f = true →
          ∃ picks, insertMap s' !! Name f
                   = Some (build_batch picks (table_of (Name f))
                             (decoded env this (Name f))))
  ∧ ∃ evs, trace s' = trace s ++ evs
      ∧ Forall parse_event evs
      ∧ (∀ f, f ∈ order → has_yml f = true →
              In (EvReadFile (path_of this (Name f))) evs
              ∧ ∀ msg, decode_error env this (Name f) = Some msg →
                       In (EvLog (LogCantRead (Name f) (ErrDecode msg))) evs)
      ∧ length (List.filter is_ReadFile evs) = length (List.filter has_yml order).
Proof.
  revert tn s tn' s'. induction order as [|f order IH]; intros tn s tn' s'; cbn.
  - intros [= <- <-]. rewrite app_nil_r.
    do 5 (split; [done|]).
    split; [intros f0 Hf0; by apply elem_of_nil in Hf0|].
    exists []. rewrite app_nil_r. do 2 (split; [done|]). split; [|done].
    intros f0 Hf0. by apply elem_of_nil in Hf0.
  - unfold bind at 1.
    destruct (parse_task env this f tn s) as [tn1 s1] eqn:E1.
    apply parse_task_spec in E1. intros E2.
    apply IH in E2 as (Htn & Hdb & Hparses & Hfin & Hother & Hmine & evs & Htr & Hall & Hev & Hlen).
    destruct (has_yml f) eqn:Hyml.
    + destruct E1 as (-> & Hmap1 & Htr1 & Hdb1 & Hparses1 & Hfin1).
      split; [by rewrite Htn, <- app_assoc|].
      split; [destruct Hdb as (?&?&?&?), Hdb1 as (?&?&?&?); repeat split; congruence|].
      split; [congruence|]. split; [congruence|].
      split.
      { intros k Hk. rewrite Hother.
        - rewrite Hmap1. apply lookup_insert_ne. apply Hk; [by left|done].
        - intros f' Hf'. apply Hk. by right. }
      split.
      { intros f' Hf' Hy'. apply elem_of_cons in Hf' as [->|Hf']; [|by apply Hmine].
        destruct (decide (Name f ∈ (Name <$> List.filter has_yml order))) as [Hin|Hnin].
        - apply list_elem_of_fmap in Hin as (f2 & Hname & Hf2).
          apply list_elem_of_In, filter_In in Hf2 as [Hf2 Hy2].
          apply list_elem_of_In in Hf2.
          destruct (Hmine f2 Hf2 Hy2) as [picks Hp]. exists picks.
          by rewrite Hname, Hp.
        - eexists. rewrite Hother; [rewrite Hmap1; apply lookup_insert_eq|].
          intros f2 Hf2 Hy2 Heq. apply Hnin. rewrite <- Heq.
          apply list_elem_of_fmap. exists f2. split; [done|].
          apply list_elem_of_In, filter_In. split; [by apply list_elem_of_In|done]. }
      eexists. split; [rewrite Htr, Htr1, <- app_assoc; reflexivity|].
      split.
      { constructor; [left; by eexists|]. apply Forall_app. split; [|done].
        destruct (decode_error env this (Name f)); [|constructor].
        apply Forall_singleton. right. by eexists _, _. }
      split.
      { intros f' Hf' Hy'. apply elem_of_cons in Hf' as [->|Hf'].
        - split; [by left|]. intros msg ->. in_list.
        - destruct (Hev f' Hf' Hy') as [H1 H2]. split.
          + right. apply in_or_app. by right.
          + intros msg Hmsg. right. apply in_or_app. right. by apply H2. }
      cbn. rewrite List.filter_app, length_app, Hlen.
      by destruct (decode_error env this (Name f)).
    + destruct E1 as [-> ->].
      split; [done|]. split; [done|]. split; [done|]. split; [done|].
      split.
      { intros k Hk. apply Hother. intros f' Hf'. apply Hk. by right. }
      split.
      { intros f' Hf' Hy'. apply elem_of_cons in Hf' as [->|Hf']; [congruence|].
        by apply Hmine. }
      exists evs. split; [done|]. split; [done|]. split; [|done].
      intros f' Hf' Hy'. apply elem_of_cons in Hf' as [->|Hf']; [congruence|].
      by apply Hev.
Qed.

Lemma launch_spec files s u s' :
  launch files s = (u, s') → s' = set_trace (trace s ++ (EvGo ∘ Name <$> files)) s.
Proof.
  revert s u s'. induction files as [|f files IH]; intros s u s'; cbn.
  - intros [= <- <-]. rewrite app_nil_r. by destruct s.
  - run_calls. intros E. apply IH in E as ->. cbn. by rewrite <- app_assoc.
Qed.

Lemma filter_length_Permutation {A} (p : A → bool) (l l' : list A) :
  l ≡ₚ l' → length (List.filter p l) = length (List.filter p l').
Proof.
  induction 1 as [|x l l' _ IH|x y l|l1 l2 l3 _ IH1 _ IH2]; cbn.
  - done.
  - destruct (p x); cbn; congruence.
  - by destruct (p x), (p y).
  - congruence.
Qed.

Lemma elem_of_shuffle {A} picks (l : list A) (x : A) : x ∈ shuffle picks l ↔ x ∈ l.
Proof. by rewrite shuffle_Permutation. Qed.

Lemma pushInsertQueriesFromYmlToChannel_spec env this files s u s' :
  pushInsertQueriesFromYmlToChannel env this files s = (u, s') →
  finishedTablseNames s' = tables_of_phase env (parses s) files
  ∧ same_database s s' ∧ parses s' = S (parses s)
  ∧ (∀ k, (∀ f, f ∈ files → has_yml f = true → Name f ≠ k) →
          insertMap s' !! k = insertMap s !! k)
  ∧ (∀ f, f ∈ files → has_yml f = true →
          ∃ picks, insertMap s' !! Name f
                   = Some (build_batch picks (table_of (Name f))
                             (decoded env this (Name f))))
  ∧ ∃ pevs, trace s' = trace s ++ (EvGo ∘ Name <$> files) ++ pevs
      ∧ Forall parse_event pevs
      ∧ (∀ f, f ∈ files → has_yml f = true →
              In (EvReadFile (path_of this (Name f))) pevs
              ∧ ∀ msg, decode_error env this (Name f) = Some msg →
                       In (EvLog (LogCantRead (Name f) (ErrDecode msg))) pevs)
      ∧ length (List.filter is_ReadFile pevs) = length (List.filter has_yml files).
Proof.
  unfold pushInsertQueriesFromYmlToChannel. unfold bind at 1.
  destruct (launch files s) as [u0 s0] eqn:E0. apply launch_spec in E0 as ->.
  unfold bind at 1, get at 1. unfold bind at 1, modify at 1. cbn [parses set_trace].
  set (s1 := set_parses _ _). unfold bind at 1.
  destruct (run_tasks env this (shuffle (env_sched env (parses s)) files) [] s1)
    as [tn s2] eqn:E2.
  apply run_tasks_spec in E2
    as (-> & Hdb & Hparses & Hfin & Hother & Hmine & evs & Htr & Hall & Hev & Hlen).
  unfold modify. intros [= <- <-]. cbn.
  split; [done|].
  split; [destruct Hdb as (?&?&?&?); by repeat split|].
  split; [by rewrite Hparses|].
  split.
  { intros k Hk. rewrite Hother; [done|]. intros f Hf. apply Hk.
    by apply elem_of_shuffle in Hf. }
  split.
  { intros f Hf. apply Hmine. by apply elem_of_shuffle. }
  exists evs. split; [rewrite Htr; subst s1; cbn; by rewrite <- app_assoc|].
  split; [done|].
  split.
  { intros f Hf. apply Hev. by apply elem_of_shuffle. }
  rewrite Hlen. apply filter_length_Permutation, shuffle_Permutation.
Qed.

(* ===================================================================== *)
(** ** The import, step by step *)
(* ===================================================================== *)

Lemma yml_files_has_yml entries f : f ∈ yml_files entries → has_yml f = true.
Proof.
  unfold yml_files, has_yml. intros Hf.
  apply list_elem_of_In, filter_In in Hf as [_ Hf].
  destruct (IsDir f), (HasSuffix (Name f) ".yml"); done.
Qed.

Lemma importYmlFixtures_spec env this files s r s' :
  importYmlFixtures env this files s = (r, s') →
  let sl := logged (LogText "Import YML fixtures") s in
  if decide (fixturesPathYml this ∈ finishedParsedDirs s) then
    r = None ∧ ∃ r0, loadParsedData env this sl = (r0, s')
  else
    ∃ u s1, pushInsertQueriesFromYmlToChannel env this files sl = (u, s1)
            ∧ loadParsedData env this (dir_parsed this s1) = (r, s').
Proof.
  unfold importYmlFixtures. unfold bind at 1, log at 1, emit at 1, modify at 1.
  unfold bind at 1, get at 1. cbn [finishedParsedDirs set_trace].
  intros E.
  change (set_trace _ s) with (logged (LogText "Import YML fixtures") s) in E.
  set (sl := logged _ s) in *.
  case_decide as Hin.
  - unfold bind at 1 in E. destruct (loadParsedData env this sl) as [r0 s0] eqn:E0.
    injection E as <- <-. split; [done|]. by eexists.
  - unfold bind at 1 in E.
    destruct (pushInsertQueriesFromYmlToChannel env this files sl) as [u s1] eqn:E1.
    unfold bind at 1, modify at 1 in E. exists u, s1. by split.
Qed.

Lemma ImportFixtures_spec env this s r this' s' :
  ImportFixtures env this s = ((r, this'), s') →
  match env_ReadDir env (fixturesPathYml this) with
  | inr msg => r = Some (ErrIO msg) ∧ this' = this ∧ s' = listed this s
  | inl entries =>
      ∃ rc thisc sc,
        ensureDbConnected env this (listed this s) = ((rc, thisc), sc)
        ∧ match rc with
          | Some e => r = Some e ∧ this' = thisc ∧ s' = sc
          | None =>
              ∃ si, importYmlFixtures env thisc (yml_files entries) sc = (r, si)
                    ∧ ensureDbDisconnected env thisc si = (this', s')
          end
  end.
Proof.
  unfold ImportFixtures, getYmlFilesList.
  unfold bind at 1. unfold bind at 1, emit at 1, modify at 1.
  fold (listed this s).
  destruct (env_ReadDir env (fixturesPathYml this)) as [entries|msg]; cbn [ret].
  2:{ by intros [= <- <- <-]. }
  unfold bind at 1.
  destruct (ensureDbConnected env this (listed this s)) as [[rc thisc] sc] eqn:Ec.
  cbn [fst snd]. intros E. exists rc, thisc, sc. split; [done|].
  destruct rc as [e|].
  { by injection E as <- <- <-. }
  change (List.filter _ entries) with (yml_files entries) in E.
  unfold bind at 1 in E.
  destruct (importYmlFixtures env thisc (yml_files entries) sc) as [r1 si] eqn:Ei.
  unfold bind at 1 in E.
  destruct (ensureDbDisconnected env thisc si) as [this2 s2] eqn:Ed.
  unfold ret in E. injection E as <- <- <-. by exists si.
Qed.

(* ===================================================================== *)
(** ** Row counts after a load *)
(* ===================================================================== *)

Lemma ToSql_adds_rows_only qb : adds_rows_only (fst (ToSql qb)) = true.
Proof. unfold ToSql. by repeat case_decide. Qed.

Lemma rows_of_insert db t t' (l : list row) :
  rows_of (<[t' := l]> db) t = if decide (t' = t) then l else rows_of db t.
Proof.
  unfold rows_of. case_decide as Heq.
  - subst. by rewrite lookup_insert_eq.
  - by rewrite lookup_insert_ne.
Qed.

Lemma row_count_apply db q t :
  adds_rows_only q = true →
  row_count (apply_stmt db q) t = row_count db t + rows_into t q.
Proof.
  unfold row_count. destruct q; try done; cbn; intros _; try lia.
  rewrite rows_of_insert. case_decide as Heq; [|lia].
  subst. by rewrite length_app, length_fmap.
Qed.

Lemma row_count_foldl db qs t :
  Forall (fun q => adds_rows_only q = true) qs →
  row_count (foldl apply_stmt db qs) t = row_count db t + sum_list_with (rows_into t) qs.
Proof.
  intros Hall. revert db. induction Hall as [|q qs Hq _ IH]; intros db; cbn; [lia|].
  rewrite IH, row_count_apply by done. lia.
Qed.

Lemma rows_of_truncated db names t :
  rows_of (foldl apply_stmt db (Truncate <$> names)) t
  = if decide (t ∈ names) then [] else rows_of db t.
Proof.
  revert db. induction names as [|t' names IH]; intros db; cbn.
  - case_decide as Hin; [by apply elem_of_nil in Hin|done].
  - rewrite IH. rewrite rows_of_insert.
    destruct (decide (t ∈ names)) as [Hin|Hnin].
    + rewrite decide_True; [done|by right].
    + case_decide as Heq.
      * subst. rewrite decide_True; [done|by left].
      * rewrite decide_False; [done|]. intros Hin.
        apply elem_of_cons in Hin as [->|?]; done.
Qed.

Lemma lets_through_adds_rows_only env qs :
  Forall (fun q => adds_rows_only q = true) (lets_through env qs).
Proof.
  unfold lets_through. apply Forall_forall. intros q Hq.
  apply list_elem_of_filter in Hq as [_ Hq].
  apply list_elem_of_fmap in Hq as (qb & -> & _). apply ToSql_adds_rows_only.
Qed.

Lemma passes_time_invariant env c :
  time_invariant env → passes env c → env_fault env 0 c = None.
Proof. intros Hti [n Hn]. by rewrite <- Hti with (n := n). Qed.

Lemma fails_time_invariant env c :
  time_invariant env → fails env c → is_Some (env_fault env 0 c).
Proof. intros Hti [n Hn]. by rewrite <- Hti with (n := n). Qed.

Lemma load_path_result env s s' r evs :
  time_invariant env →
  load_path env s s' r evs →
  r = None ↔ load_ok env (finishedTablseNames s).
Proof.
  intros Hti Hpath. unfold load_ok.
  destruct Hpath as [e -> _ Hf|e tevs r1 -> _ _ (t & Ht & Hf)|e r1 -> _ Hf
                    |ins r1 Hp0 Hp1 Hp2 [n Hr] _ _ _ _].
  - split; [done|]. intros (H0 & _).
    apply fails_time_invariant in Hf; [|done]. rewrite H0 in Hf. by destruct Hf.
  - split; [done|]. intros (_ & H1 & _).
    apply fails_time_invariant in Hf; [|done]. rewrite (H1 t Ht) in Hf. by destruct Hf.
  - split; [done|]. intros (_ & _ & H2 & _).
    apply fails_time_invariant in Hf; [|done]. rewrite H2 in Hf. by destruct Hf.
  - rewrite Hti in Hr. split.
    + intros ->. split; [by apply passes_time_invariant|].
      split; [intros t Ht; by apply passes_time_invariant, Hp1|].
      split; [by apply passes_time_invariant|].
      by destruct (env_fault env 0 Commit).
    + intros (_ & _ & _ & H3). by rewrite Hr, H3.
Qed.

Lemma load_path_row_count env s s' evs t :
  time_invariant env →
  load_path env s s' None evs →
  t ∈ finishedTablseNames s →
  row_count (server s') t
  = sum_list_with (rows_into t) (lets_through env (snd <$> map_to_list (insertMap s))).
Proof.
  intros Hti Hpath Ht.
  inversion Hpath as [| | |ins r1 _ _ _ _ _ _ Hsrv Hacc]; try discriminate.
  destruct (Hacc Hti) as (qs & Hperm & Hqs).
  rewrite Hsrv, Hqs, row_count_foldl by apply lets_through_adds_rows_only.
  unfold row_count at 1, cleared. rewrite rows_of_truncated, decide_True by done.
  cbn. unfold lets_through. by rewrite Hperm.
Qed.

Lemma set_db_fixturesPathYml v this : fixturesPathYml (set_db v this) = fixturesPathYml this.
Proof. done. Qed.

Lemma ImportFixtures_shape env this s r this' s' :
  ImportFixtures env this s = ((r, this'), s') →
  fixturesPathYml this' = fixturesPathYml this
  ∧ ((∃ e, r = Some e ∧ (∀ msg, e ≠ ErrDecode msg)
           ∧ same_process s s' ∧ server s' = server s
           ∧ ∃ cevs, trace s' = trace s ++ EvReadDir (fixturesPathYml this) :: cevs
                     ∧ Forall (fun e => connection_event e = true) cevs)
     ∨ (∃ entries cevs thisc sc si rc,
          env_ReadDir env (fixturesPathYml this) = inl entries
          ∧ fixturesPathYml thisc = fixturesPathYml this
          ∧ insertGoroutinesCnt thisc = insertGoroutinesCnt this
          ∧ same_process s sc ∧ server sc = server s
          ∧ trace sc = trace s ++ EvReadDir (fixturesPathYml this) :: cevs
          ∧ Forall (fun e => connection_event e = true) cevs
          ∧ importYmlFixtures env thisc (yml_files entries) sc = (r, si)
          ∧ trace s' = trace si ++ [EvDb Close rc]
          ∧ same_process si s' ∧ server s' = server si)).
Proof.
  intros E. apply ImportFixtures_spec in E.
  assert (Hl : same_process s (listed this s)) by by repeat split.
  destruct (env_ReadDir env (fixturesPathYml this)) as [entries|msg].
  2:{ destruct E as (-> & -> & ->). split; [done|]. left.
      exists (ErrIO msg). repeat split; try done. exists []. by split. }
  destruct E as (rc & thisc & sc & Ec & E).
  apply ensureDbConnected_spec in Ec
    as (Hsame & Hsrv & Hp & Hrng & Hthis & cevs & Htr & Hall & _ & Herr).
  assert (Hpath : fixturesPathYml thisc = fixturesPathYml this
                  ∧ insertGoroutinesCnt thisc = insertGoroutinesCnt this).
  { rewrite Hthis. destruct rc; [done|]. by destruct (db this). }
  destruct Hpath as [Hpath Hcnt].
  assert (Htr0 : trace sc = trace s ++ EvReadDir (fixturesPathYml this) :: cevs)
    by (rewrite Htr; cbn; by rewrite <- app_assoc).
  clear Htr. cbn in Hsrv.
  destruct rc as [e|].
  - destruct E as (-> & -> & ->). split; [done|]. left.
    exists e. split; [done|].
    split; [intros msg ->; by destruct (Herr _ eq_refl)|].
    split; [eauto using same_process_trans|]. split; [done|]. by exists cevs.
  - destruct E as (si & Ei & Ed).
    apply ensureDbDisconnected_spec in Ed as (Hsame' & Hsrv' & _ & _ & -> & rc & Htr').
    split; [done|]. right. exists entries, cevs, thisc, sc, si, rc.
    split; [done|]. split; [done|]. split; [done|].
    split; [by apply (same_process_trans _ _ _ Hl Hsame)|].
    do 5 (split; [done|]). by split.
Qed.

Lemma truncate_or_log_no_file e : truncate_or_log e → file_event e = false.
Proof. by intros [(?&?&->)|(?&->)]. Qed.

Lemma insert_or_log_no_file e : insert_or_log e → file_event e = false.
Proof. by intros [(?&?&->)|(?&->)]. Qed.

Lemma connection_event_no_file e : connection_event e = true → file_event e = false.
Proof. by destruct e as [| | | | | |[]]. Qed.

Lemma filter_none {A} (p : A → bool) (l : list A) :
  Forall (fun x => p x = false) l → List.filter p l = [].
Proof. induction 1 as [|x l Hx _ IH]; cbn; [done|]. by rewrite Hx. Qed.

Lemma load_path_no_file env s s' r evs :
  load_path env s s' r evs → List.filter file_event evs = [].
Proof.
  intros Hpath. apply filter_none.
  destruct Hpath as [e _ _ _|e tevs r1 _ Hall _ _|e r1 _ _ _|ins r1 _ _ _ _ Hall _ _ _].
  - by repeat constructor.
  - constructor; [done|]. apply Forall_app. split; [|by repeat constructor].
    eapply Forall_impl; [done|]. apply truncate_or_log_no_file.
  - constructor; [done|]. apply Forall_app. split; [|by repeat constructor].
    apply Forall_fmap, Forall_true. done.
  - constructor; [done|]. apply Forall_app. split.
    { apply Forall_fmap, Forall_true. done. }
    constructor; [done|]. apply Forall_app. split.
    { eapply Forall_impl; [done|]. apply insert_or_log_no_file. }
    constructor; [done|]. apply Forall_app. split; [by destruct r; repeat constructor|].
    by repeat constructor.
Qed.

Lemma load_path_truncated env s s' r evs :
  load_path env s s' r evs →
  truncated evs `prefix_of` finishedTablseNames s
  ∧ (∀ rb, In (EvDb Begin rb) evs → truncated evs = finishedTablseNames s).
Proof.
  assert (Hins : ∀ ins, Forall insert_or_log ins → truncated ins = []).
  { induction 1 as [|e ins He _ IH]; [done|].
    unfold truncated in *. cbn. rewrite IH. by destruct He as [(?&?&->)|(?&->)]. }
  assert (Hnb : ∀ tevs rb, Forall truncate_or_log tevs → ¬ In (EvDb Begin rb) tevs).
  { intros tevs rb Hall Hin. rewrite Forall_forall in Hall.
    apply list_elem_of_In, Hall in Hin. unfold truncate_or_log in Hin.
    destruct Hin as [(?&?&H)|(?&H)]; discriminate H. }
  destruct 1 as [e _ _ _|e tevs r1 _ Hall Hpre _|e r1 _ _ _|ins r1 _ _ _ _ Hall _ _ _].
  - split; [apply prefix_nil|]. intros rb [[=]|[]].
  - change (fk_off :: tevs ++ [fk_on r1]) with ([fk_off] ++ tevs ++ [fk_on r1]).
    rewrite !truncated_app. cbn. rewrite app_nil_r. split; [done|].
    intros rb Hin. exfalso. destruct Hin as [[=]|Hin].
    apply in_app_or in Hin as [Hin|[[=]|[]]]. by apply Hnb in Hin.
  - change (fk_off :: ?l) with ([fk_off] ++ l).
    rewrite !truncated_app, truncated_ok_truncate. cbn. by rewrite app_nil_r.
  - change (fk_off :: ?l) with ([fk_off] ++ l).
    change (EvDb Begin None :: ins ++ ?l) with ([EvDb Begin None] ++ ins ++ l).
    change (EvDb Commit r :: ?l) with ([EvDb Commit r] ++ l).
    rewrite !truncated_app, truncated_ok_truncate, (Hins _ Hall). cbn.
    assert (truncated (if r is Some e then [EvLog (LogErr e)] else []) = []) as ->
      by by destruct r.
    cbn. by rewrite app_nil_r.
Qed.

Lemma load_path_begun env s s' r evs :
  load_path env s s' r evs →
  In (EvDb Begin None) evs →
  ∀ k qb, insertMap s !! k = Some qb → issued_tx (fst (ToSql qb)) evs.
Proof.
  destruct 1 as [e _ _ _|e tevs r1 _ Hall _ _|e r1 _ _ _|ins r1 _ _ _ _ _ Hiss _ _].
  - intros [[=]|[]].
  - intros [[=]|Hin]. apply in_app_or in Hin as [Hin|[[=]|[]]].
    rewrite Forall_forall in Hall. apply list_elem_of_In, Hall in Hin.
    unfold truncate_or_log in Hin. destruct Hin as [(?&?&H)|(?&H)]; discriminate H.
  - intros [[=]|Hin]. apply in_app_or in Hin as [Hin|[[=]|[[=]|[]]]].
    apply list_elem_of_In, list_elem_of_fmap in Hin as (t & [=] & _).
  - intros _ k qb Hk. destruct (Hiss k qb Hk) as [rq Hq]. exists rq. in_list.
Qed.

Lemma import_ok_parsed env this s this1 s1 :
  ImportFixtures env this s = ((None, this1), s1) →
  fixturesPathYml this ∈ finishedParsedDirs s1.
Proof.
  intros E. apply ImportFixtures_shape in E as [_ [(e & [=] & _)|H]].
  destruct H as (entries & cevs & thisc & sc & si & rc & _ & Hpath & _ & Hsame & _
                 & _ & _ & Ei & _ & Hsame' & _).
  apply importYmlFixtures_spec in Ei. rewrite Hpath in Ei. cbn in Ei.
  destruct Hsame' as (_ & -> & _).
  case_decide as Hin.
  - destruct Ei as (_ & r0 & El). apply loadParsedData_spec in El as [(_ & -> & _) _].
    done.
  - destruct Ei as (u & s2 & _ & El).
    apply loadParsedData_spec in El as [(_ & -> & _) _].
    unfold dir_parsed. cbn. rewrite Hpath. set_solver.
Qed.

Lemma cached_import env this s r this' s' :
  fixturesPathYml this ∈ finishedParsedDirs s →
  ImportFixtures env this s = ((r, this'), s') →
  same_process s s'
  ∧ List.filter file_event (events_since s s') = [EvReadDir (fixturesPathYml this)]
  ∧ (∀ k qb, insertMap s !! k = Some qb →
             In (EvDb Begin None) (events_since s s') →
             issued_tx (fst (ToSql qb)) (events_since s s'))
  ∧ (server s' = server s
     ∨ ∃ sl r0 si evs, same_process s sl ∧ server sl = server s
                       ∧ load_path env sl si r0 evs ∧ server s' = server si).
Proof.
  intros Hin E. apply ImportFixtures_shape in E as [_ [H|H]].
  - destruct H as (e & _ & _ & Hsame & Hsrv & cevs & Htr & Hall).
    rewrite (events_since_app _ _ _ Htr). split; [done|]. split.
    { change (EvReadDir ?d :: ?l) with ([EvReadDir d] ++ l).
      rewrite List.filter_app, (filter_none _ cevs); [done|].
      eapply Forall_impl; [done|]. apply connection_event_no_file. }
    split; [|by left].
    intros k qb _ [[=]|Hb]. rewrite Forall_forall in Hall.
    apply list_elem_of_In, Hall in Hb. discriminate.
  - destruct H as (entries & cevs & thisc & sc & si & rc & _ & Hpath & _ & Hsame & Hsrv
                   & Htr & Hall & Ei & Htr' & Hsame' & Hsrv').
    apply importYmlFixtures_spec in Ei. rewrite Hpath in Ei. cbn in Ei.
    assert (Hin' : fixturesPathYml this ∈ finishedParsedDirs sc).
    { destruct Hsame as (_ & -> & _). done. }
    rewrite decide_True in Ei by done. destruct Ei as (_ & r0 & El).
    set (sl := logged (LogText "Import YML fixtures") sc) in *.
    assert (Hsl : same_process sc sl) by by repeat split.
    apply loadParsedData_spec in El as (Hsame2 & evs & Htr2 & Hpath2).
    assert (Hall_tr : trace s' = trace s ++ EvReadDir (fixturesPathYml this)
                        :: cevs ++ [EvLog (LogText "Import YML fixtures")]
                        ++ evs ++ [EvDb Close rc]).
    { rewrite Htr', Htr2. subst sl. cbn. rewrite Htr. by rewrite <- !app_assoc. }
    rewrite (events_since_app _ _ _ Hall_tr).
    split.
    { eapply same_process_trans; [exact Hsame|].
      eapply same_process_trans; [exact Hsl|].
      eapply same_process_trans; [exact Hsame2|exact Hsame']. }
    split.
    { change (EvReadDir ?d :: ?l) with ([EvReadDir d] ++ l).
      rewrite !List.filter_app, (load_path_no_file _ _ _ _ _ Hpath2).
      rewrite (filter_none _ cevs); [done|].
      eapply Forall_impl; [done|]. apply connection_event_no_file. }
    split.
    { intros k qb Hk Hb. apply list_elem_of_In in Hb.
      rewrite elem_of_cons, !elem_of_app in Hb.
      destruct Hb as [[=]|[Hb|[Hb|[Hb|Hb]]]].
      { rewrite Forall_forall in Hall. apply Hall in Hb. discriminate. }
      { apply list_elem_of_singleton in Hb. discriminate. }
      2:{ apply list_elem_of_singleton in Hb. discriminate. }
      apply list_elem_of_In in Hb.
      assert (Hk' : insertMap sl !! k = Some qb).
      { destruct Hsl as (_ & _ & -> & _), Hsame as (_ & _ & -> & _). done. }
      destruct (load_path_begun _ _ _ _ _ Hpath2 Hb k qb Hk') as [rq Hq].
      exists rq. in_list. }
    right. exists sl, r0, si, evs.
    split; [by eapply same_process_trans|]. by repeat split.
Qed.

(** An import of a directory that was not parsed before, once the
    directory is listed and the connection stands: the parse phase, the
    mark in [finishedParsedDirs], the load, the disconnect. *)
Lemma fresh_import env this s r this' s' :
  fixturesPathYml this ∉ finishedParsedDirs s →
  ImportFixtures env this s = ((r, this'), s') →
  (∃ e, r = Some e ∧ (∀ msg, e ≠ ErrDecode msg) ∧ same_process s s' ∧ server s' = server s
        ∧ ∃ cevs, trace s' = trace s ++ EvReadDir (fixturesPathYml this) :: cevs
                  ∧ Forall (fun e => connection_event e = true) cevs)
  ∨ (∃ entries cevs thisc sc u s_p si evs rc,
       env_ReadDir env (fixturesPathYml this) = inl entries
       ∧ fixturesPathYml thisc = fixturesPathYml this
       ∧ insertGoroutinesCnt thisc = insertGoroutinesCnt this
       ∧ same_process s sc ∧ server sc = server s
       ∧ trace sc = trace s ++ EvReadDir (fixturesPathYml this) :: cevs
       ∧ Forall (fun e => connection_event e = true) cevs
       ∧ pushInsertQueriesFromYmlToChannel env thisc (yml_files entries)
           (logged (LogText "Import YML fixtures") sc) = (u, s_p)
       ∧ load_path env (dir_parsed thisc s_p) si r evs
       ∧ trace si = trace s_p ++ evs
       ∧ same_process (dir_parsed thisc s_p) s'
       ∧ server s' = server si
       ∧ trace s' = trace si ++ [EvDb Close rc]).
Proof.
  intros Hnin E. apply ImportFixtures_shape in E as [_ [H|H]]; [by left|right].
  destruct H as (entries & cevs & thisc & sc & si & rc & Hdir & Hpath & Hcnt & Hsame & Hsrv
                 & Htr & Hall & Ei & Htr' & Hsame' & Hsrv').
  apply importYmlFixtures_spec in Ei. rewrite Hpath in Ei. cbn in Ei.
  assert (Hnin' : fixturesPathYml this ∉ finishedParsedDirs sc).
  { destruct Hsame as (_ & -> & _). done. }
  rewrite decide_False in Ei by done. destruct Ei as (u & s_p & Ep & El).
  apply loadParsedData_spec in El as (Hsame2 & evs & Htr2 & Hpath2).
  exists entries, cevs, thisc, sc, u, s_p, si, evs, rc.
  do 8 (split; [done|]). split; [done|]. split; [done|].
  split; [by eapply same_process_trans|]. by split.
Qed.

(** C2 (as amended).  After an import of a directory has returned nil, a
    second import of the same directory lists the directory once more
    and does nothing else with the file system: no fixture file is read
    and no parse goroutine is started, whatever the files hold by then.
    It leaves the batch map and the truncation list as they are, and when
    its transaction is begun it executes the insertion of every batch of
    the map.  When the database answers every call the same way at all
    times and the first import had to parse the directory, every table
    of the truncation list has the same row count after the second
    import as after the first. *)
Theorem second_import_reuses_the_parsed_batches
    (env env2 : Env) (this : Fixturer) (s : State) :
  let first := ImportFixtures env this s in
  let s1 := snd first in
  let second := ImportFixtures env2 (snd (fst first)) s1 in
  let s2 := snd second in
  fst (fst first) = None →
  List.filter file_event (events_since s1 s2) = [EvReadDir (fixturesPathYml this)]
  ∧ insertMap s2 = insertMap s1
  ∧ finishedTablseNames s2 = finishedTablseNames s1
  ∧ (∀ k qb, insertMap s1 !! k = Some qb →
             In (EvDb Begin None) (events_since s1 s2) →
             issued_tx (fst (ToSql qb)) (events_since s1 s2))
  ∧ (env2 = env → time_invariant env →
     fixturesPathYml this ∉ finishedParsedDirs s →
     ∀ t, t ∈ finishedTablseNames s1 →
          row_count (server s2) t = row_count (server s1) t).
Proof.
  intros first s1 second s2 Hr1.
  destruct (ImportFixtures env this s) as [[r1 this1] s1'] eqn:E1.
  cbn in first, s1, Hr1. subst first s1 r1. cbn in second.
  destruct (ImportFixtures env2 this1 s1') as [[r2 this2] s2'] eqn:E2.
  cbn in second, s2. subst second s2.
  pose proof (import_ok_parsed _ _ _ _ _ E1) as Hin.
  assert (Hpath : fixturesPathYml this1 = fixturesPathYml this)
    by (by apply ImportFixtures_shape in E1 as [? _]).
  rewrite <- Hpath in Hin |- *.
  pose proof (cached_import _ _ _ _ _ _ Hin E2) as (Hsame & Hfiles & Hiss & Hload).
  split; [done|]. split; [apply Hsame|]. split; [apply Hsame|]. split; [done|].
  intros -> Hti Hnin t Ht. rewrite Hpath in Hnin.
  destruct Hload as [->|(sl & r0 & si2 & evs2 & Hsl & Hsrvl & Hpath2 & ->)]; [done|].
  apply fresh_import in E1 as [(e & [=] & _)|H]; [|done].
  destruct H as (entries & cevs & thisc & sc & u & s_p & si & evs & rc & _ & _ & _ & _ & _
                 & _ & _ & _ & Hpath1 & _ & Hsame1 & -> & _).
  assert (Hnames : finishedTablseNames sl = finishedTablseNames (dir_parsed thisc s_p)).
  { destruct Hsl as (-> & _), Hsame1 as (-> & _). done. }
  assert (Hmap : insertMap sl = insertMap (dir_parsed thisc s_p)).
  { destruct Hsl as (_ & _ & -> & _), Hsame1 as (_ & _ & -> & _). done. }
  assert (Ht1 : t ∈ finishedTablseNames (dir_parsed thisc s_p)).
  { destruct Hsame1 as (<- & _). done. }
  assert (r0 = None) as ->.
  { apply (load_path_result _ _ _ _ _ Hti Hpath2). rewrite Hnames.
    by apply (load_path_result _ _ _ _ _ Hti Hpath1). }
  rewrite (load_path_row_count _ _ _ _ t Hti Hpath2) by by rewrite Hnames.
  rewrite (load_path_row_count _ _ _ _ t Hti Hpath1) by done.
  by rewrite Hmap.
Qed.

Lemma second_import_reuses_the_parsed_batches_witness :
  let env := scenario_env no_fault in
  let first := ImportFixtures env fixturer_fx (init_State one_user) in
  let s1 := snd first in
  let second := ImportFixtures env (snd (fst first)) s1 in
  let s2 := snd second in
  fst (fst first) = None
  ∧ List.filter file_event (events_since s1 s2) = [EvReadDir "fx"]
  ∧ insertMap s2 = insertMap s1
  ∧ row_count (server s2) "users" = row_count (server s1) "users".
Proof.
  intros env first s1 second s2.
  assert (H1 : fst (fst first) = None) by (vm_compute; reflexivity).
  pose proof (second_import_reuses_the_parsed_batches env env fixturer_fx
                (init_State one_user) H1) as (Hfiles & Hmap & _ & _ & Hrows).
  split; [exact H1|]. split; [exact Hfiles|]. split; [exact Hmap|].
  apply Hrows.
  - reflexivity.
  - intros n c. reflexivity.
  - cbn. apply not_elem_of_empty.
  - vm_compute. left.
Defined.

(** C2, as stated, fails: the second import of "fx" lists the directory
    again. *)
Lemma second_import_lists_the_directory_again :
  let env := scenario_env no_fault in
  let first := ImportFixtures env fixturer_fx (init_State one_user) in
  let s1 := snd first in
  let s2 := snd (ImportFixtures env (snd (fst first)) s1) in
  fst (fst first) = None
  ∧ List.filter is_ReadDir (events_since s1 s2) = [EvReadDir "fx"]
  ∧ List.filter is_ReadFile (events_since s1 s2) = [].
Proof. vm_compute. by repeat split. Qed.

(* ===================================================================== *)
(** ** Events before the load *)
(* ===================================================================== *)

Lemma connection_event_statement_free e :
  connection_event e = true → statement_free e = true.
Proof. by destruct e as [| | | | | |[]]. Qed.

Lemma parse_event_statement_free e : parse_event e → statement_free e = true.
Proof. by intros [(?&->)|(?&?&->)]. Qed.

Lemma statement_free_truncated evs :
  Forall (fun e => statement_free e = true) evs → truncated evs = [].
Proof.
  induction 1 as [|e evs He _ IH]; [done|]. unfold truncated in *. cbn. rewrite IH.
  by destruct e as [| | | | | |[]].
Qed.

Lemma statement_free_not_in evs e :
  Forall (fun e => statement_free e = true) evs → statement_free e = false → ¬ In e evs.
Proof.
  intros Hall He Hin. rewrite Forall_forall in Hall.
  apply list_elem_of_In, Hall in Hin. congruence.
Qed.

Lemma Forall_Go (files : list FileInfo) :
  Forall (fun e => statement_free e = true) (EvGo ∘ Name <$> files).
Proof. apply Forall_fmap, Forall_true. done. Qed.

(** The events of a fresh import that got to its parse phase: what comes
    before the load holds no statement; then the load; then the close. *)
Lemma fresh_import_events env this s r this' s' :
  fixturesPathYml this ∉ finishedParsedDirs s →
  ImportFixtures env this s = ((r, this'), s') →
  (∃ cevs, events_since s s' = EvReadDir (fixturesPathYml this) :: cevs
           ∧ Forall (fun e => connection_event e = true) cevs
           ∧ is_Some r ∧ server s' = server s)
  ∨ (∃ entries thisc sl s_p si pre pevs evs rc,
       env_ReadDir env (fixturesPathYml this) = inl entries
       ∧ fixturesPathYml thisc = fixturesPathYml this
       ∧ insertGoroutinesCnt thisc = insertGoroutinesCnt this
       ∧ same_process s sl ∧ server sl = server s
       ∧ pushInsertQueriesFromYmlToChannel env thisc (yml_files entries) sl = (tt, s_p)
       ∧ load_path env (dir_parsed thisc s_p) si r evs
       ∧ same_process (dir_parsed thisc s_p) s'
       ∧ server s' = server si
       ∧ events_since s s' = pre ++ (EvGo ∘ Name <$> yml_files entries) ++ pevs
                               ++ evs ++ [EvDb Close rc]
       ∧ Forall (fun e => statement_free e = true) pre
       ∧ List.filter is_Go pre = []
       ∧ Forall parse_event pevs
       ∧ trace s_p = trace sl ++ (EvGo ∘ Name <$> yml_files entries) ++ pevs).
Proof.
  intros Hnin E. destruct (fresh_import _ _ _ _ _ _ Hnin E) as [H|H].
  - destruct H as (e & -> & _ & _ & Hsrv & cevs & Htr & Hall). left.
    exists cevs. rewrite (events_since_app _ _ _ Htr). by repeat split.
  - destruct H as (entries & cevs & thisc & sc & u & s_p & si & evs & rc & Hdir & Hpath
                   & Hcnt & Hsame & Hsrv & Htr & Hall & Ep & Hload & Htr2 & Hsame2
                   & Hsrv2 & Htr3).
    right. destruct u.
    set (sl := logged (LogText "Import YML fixtures") sc) in *.
    pose proof Ep as Ep'.
    apply pushInsertQueriesFromYmlToChannel_spec in Ep'
      as (_ & _ & _ & _ & _ & pevs & Htrp & Hallp & _ & _).
    exists entries, thisc, sl, s_p, si,
      (EvReadDir (fixturesPathYml this) :: cevs ++ [EvLog (LogText "Import YML fixtures")]),
      pevs, evs, rc.
    do 3 (split; [done|]).
    split; [eapply same_process_trans; [exact Hsame|]; by repeat split|].
    split; [done|]. do 4 (split; [done|]).
    split.
    { apply events_since_app. rewrite Htr3, Htr2, Htrp. subst sl. cbn. rewrite Htr.
      cbn. by rewrite <- !app_assoc. }
    split.
    { constructor; [done|]. apply Forall_app. split; [|by repeat constructor].
      eapply Forall_impl; [done|]. apply connection_event_statement_free. }
    split; [|by split].
    change (EvReadDir ?d :: ?l) with ([EvReadDir d] ++ l).
    rewrite !List.filter_app. cbn. rewrite app_nil_r. apply filter_none.
    eapply Forall_impl; [done|]. by intros [| | | | | |[]].
Qed.

(* ===================================================================== *)
(** ** What the transaction of the load covers *)
(* ===================================================================== *)

Lemma insert_or_log_not_commit ins rc :
  Forall insert_or_log ins → ¬ In (EvDb Commit rc) ins.
Proof.
  intros Hall Hin. rewrite Forall_forall in Hall.
  apply list_elem_of_In, Hall in Hin. unfold insert_or_log in Hin.
  destruct Hin as [(?&?&H)|(?&H)]; discriminate H.
Qed.

Lemma load_path_commit env s s' r evs rc :
  load_path env s s' r evs →
  In (EvDb Commit rc) evs →
  r = rc
  ∧ ∃ ins r1, evs = committing_load s ins rc r1
      ∧ Forall insert_or_log ins
      ∧ (∀ k qb, insertMap s !! k = Some qb → issued_tx (fst (ToSql qb)) ins)
      ∧ server s' = (if rc is None then foldl apply_stmt (cleared s) (accepted ins)
                     else cleared s).
Proof.
  destruct 1 as [e _ _ _|e tevs r1 _ Hall _ _|e r1 _ _ _|ins r1 _ _ _ _ Hall Hiss Hsrv _].
  - intros [[=]|[]].
  - intros [[=]|Hin]. apply in_app_or in Hin as [Hin|[[=]|[]]].
    rewrite Forall_forall in Hall. apply list_elem_of_In, Hall in Hin.
    unfold truncate_or_log in Hin. destruct Hin as [(?&?&H)|(?&H)]; discriminate H.
  - intros [[=]|Hin]. apply in_app_or in Hin as [Hin|[[=]|[[=]|[]]]].
    apply list_elem_of_In, list_elem_of_fmap in Hin as (t & [=] & _).
  - intros Hin. assert (r = rc) as <-.
    { apply list_elem_of_In in Hin.
      rewrite elem_of_cons, elem_of_app, elem_of_cons, elem_of_app, elem_of_cons,
        elem_of_app in Hin.
      destruct Hin as [[=]|[Hin|[[=]|[Hin|[[= <-]|[Hin|Hin]]]]]]; [| |done| |].
      - apply list_elem_of_fmap in Hin as (t & [=] & _).
      - apply list_elem_of_In in Hin. by apply insert_or_log_not_commit in Hin.
      - destruct r; [apply list_elem_of_singleton in Hin; discriminate|].
        by apply elem_of_nil in Hin.
      - apply elem_of_cons in Hin as [[=]|Hin].
        apply list_elem_of_singleton in Hin. discriminate. }
    split; [done|]. by exists ins, r1.
Qed.

(** C1 (as amended).  Whenever a load gets to its commit, its TRUNCATE
    statements went out on the connection itself before the transaction
    was begun and are in effect; the insertions of all batches of the map,
    and nothing else, went out inside the one transaction.  When the
    commit fails none of the insertions is in effect: the tables of the
    truncation list are empty and the other tables are as before the
    load.  The deferred rollback is called after the commit (and answered
    ErrTxDone), and [loadParsedData] returns what the commit returned; an
    import that had to parse its directory returns a failing commit's
    error to its caller. *)
Theorem insertions_are_one_transaction_truncations_are_not
    (env : Env) (this : Fixturer) (s : State) (rc : option error) :
  let r := fst (loadParsedData env this s) in
  let s' := snd (loadParsedData env this s) in
  In (EvDb Commit rc) (events_since s s') →
  r = rc
  ∧ (∃ ins r1,
       events_since s s' = committing_load s ins rc r1
       ∧ Forall insert_or_log ins
       ∧ (∀ k qb, insertMap s !! k = Some qb → issued_tx (fst (ToSql qb)) ins)
       ∧ server s' = (if rc is None then foldl apply_stmt (cleared s) (accepted ins)
                      else cleared s))
  ∧ (is_Some rc →
     ∀ t, rows_of (server s') t
          = if decide (t ∈ finishedTablseNames s) then [] else rows_of (server s) t)
  ∧ (∀ this0 s0 e,
       fixturesPathYml this0 ∉ finishedParsedDirs s0 →
       In (EvDb Commit (Some e))
          (events_since s0 (snd (ImportFixtures env this0 s0))) →
       fst (fst (ImportFixtures env this0 s0)) = Some e).
Proof.
  intros r s' Hin. subst r s'.
  destruct (loadParsedData env this s) as [r s'] eqn:E. cbn in *.
  apply loadParsedData_spec in E as (_ & evs & Htr & Hpath).
  rewrite (events_since_app _ _ _ Htr) in *.
  destruct (load_path_commit _ _ _ _ _ _ Hpath Hin)
    as (-> & ins & r1 & -> & Hall & Hiss & Hsrv).
  split; [done|]. split; [by exists ins, r1|]. split.
  { intros [e ->] t. rewrite Hsrv. apply rows_of_truncated. }
  clear. intros this0 s0 e Hnin Hin.
  destruct (ImportFixtures env this0 s0) as [[r0 this1] s1] eqn:E0. cbn in *.
  destruct (fresh_import_events _ _ _ _ _ _ Hnin E0) as [H|H].
  - destruct H as (cevs & Hevs & Hall & _). rewrite Hevs in Hin.
    destruct Hin as [[=]|Hin]. exfalso. revert Hin. apply statement_free_not_in; [|done].
    eapply Forall_impl; [done|]. apply connection_event_statement_free.
  - destruct H as (entries & thisc & sl & s_p & si & pre & pevs & evs & rc & _ & _ & _ & _
                   & _ & _ & Hpath & _ & _ & Hevs & Hpre & _ & Hpevs & _).
    rewrite Hevs in Hin. apply list_elem_of_In in Hin. rewrite !elem_of_app in Hin.
    destruct Hin as [Hin|[Hin|[Hin|[Hin|Hin]]]].
    + exfalso. apply list_elem_of_In in Hin. revert Hin.
      by apply statement_free_not_in.
    + exfalso. apply list_elem_of_In in Hin. revert Hin.
      apply statement_free_not_in; [apply Forall_Go|done].
    + exfalso. apply list_elem_of_In in Hin. revert Hin.
      apply statement_free_not_in; [|done].
      eapply Forall_impl; [done|]. apply parse_event_statement_free.
    + apply list_elem_of_In in Hin.
      by destruct (load_path_commit _ _ _ _ _ _ Hpath Hin) as [-> _].
    + apply list_elem_of_singleton in Hin. discriminate.
Qed.

Lemma insertions_are_one_transaction_truncations_are_not_witness :
  let env := scenario_env commit_fault in
  let r := fst (loadParsedData env fixturer_fx loaded_state) in
  let s' := snd (loadParsedData env fixturer_fx loaded_state) in
  In (EvDb Commit (Some (ErrDb "deadlock found"))) (events_since loaded_state s')
  ∧ r = Some (ErrDb "deadlock found")
  ∧ rows_of (server s') "users" = [].
Proof.
  intros env r s'.
  assert (Hin : In (EvDb Commit (Some (ErrDb "deadlock found")))
                   (events_since loaded_state s')).
  { vm_compute. right. right. right. right. left. reflexivity. }
  destruct (insertions_are_one_transaction_truncations_are_not
              env fixturer_fx loaded_state _ Hin) as (Hr & _ & Hrows & _).
  split; [exact Hin|]. split; [exact Hr|].
  subst s'. rewrite (Hrows (ex_intro _ _ eq_refl) "users"). reflexivity.
Defined.

(** C1, as stated, fails: table users holds one row before the import;
    the commit of the import fails and its error is returned; the table
    is empty afterwards, since its TRUNCATE was not part of the
    transaction. *)
Lemma failed_commit_leaves_tables_truncated :
  let env := scenario_env commit_fault in
  let out := ImportFixtures env fixturer_fx (init_State one_user) in
  fst (fst out) = Some (ErrDb "deadlock found")
  ∧ row_count one_user "users" = 1
  ∧ row_count (server (snd out)) "users" = 0
  ∧ row_count (server (snd out)) "users" ≠ row_count one_user "users".
Proof. vm_compute. repeat split; discriminate. Qed.

(* ===================================================================== *)
(** ** Which tables a load truncates *)
(* ===================================================================== *)






(* ===================================================================== *)
(** ** Batches outlive the directory they came from *)
(* ===================================================================== *)

Lemma decoded_path env this this' filename :
  fixturesPathYml this' = fixturesPathYml this →
  decoded env this' filename = decoded env this filename.
Proof. unfold decoded. by intros ->. Qed.

Lemma fresh_import_ok env this s this' s' :
  fixturesPathYml this ∉ finishedParsedDirs s →
  ImportFixtures env this s = ((None, this'), s') →
  ∃ entries, env_ReadDir env (fixturesPathYml this) = inl entries
    ∧ ∀ f, f ∈ yml_files entries →
           ∃ picks, insertMap s' !! Name f
                    = Some (build_batch picks (table_of (Name f))
                              (decoded env this (Name f))).
Proof.
  intros Hnin E. destruct (fresh_import_events _ _ _ _ _ _ Hnin E) as [H|H].
  { destruct H as (_ & _ & _ & [? [=]] & _). }
  destruct H as (entries & thisc & sl & s_p & si & pre & pevs & evs & rc & Hdir & Hpath & _
                 & _ & _ & Ep & _ & Hsame & _).
  exists entries. split; [done|]. intros f Hf.
  apply pushInsertQueriesFromYmlToChannel_spec in Ep as (_ & _ & _ & _ & Hmine & _).
  destruct (Hmine f Hf (yml_files_has_yml _ _ Hf)) as [picks Hp].
  exists picks. destruct Hsame as (_ & _ & -> & _). cbn.
  by rewrite Hp, (decoded_path _ _ _ _ Hpath).
Qed.

(** C10.  After an import of directory A that had to parse it and
    returned nil, an import of a directory B not parsed before, none of
    whose fixture files has the name of A's file [f], executes (once its
    transaction is begun) the insertion of the batch built from [f] as
    well: the batch is still in [insertMap] under the file's name.  The
    tables it truncates beforehand are those of B's parse phase alone. *)
Theorem batches_of_an_earlier_directory_are_executed_again
    (env : Env) (thisA thisB : Fixturer) (s : State)
    (entriesA entriesB : list FileInfo) (f : FileInfo) :
  let firstA := ImportFixtures env thisA s in
  let sA := snd firstA in
  let evsB := events_since sA (snd (ImportFixtures env thisB sA)) in
  fixturesPathYml thisA ∉ finishedParsedDirs s →
  fst (fst firstA) = None →
  env_ReadDir env (fixturesPathYml thisA) = inl entriesA →
  f ∈ yml_files entriesA →
  fixturesPathYml thisB ∉ finishedParsedDirs sA →
  env_ReadDir env (fixturesPathYml thisB) = inl entriesB →
  (∀ g, g ∈ yml_files entriesB → Name g ≠ Name f) →
  In (EvDb Begin None) evsB →
  (∃ picks,
     let qb := build_batch picks (table_of (Name f)) (decoded env thisA (Name f)) in
     insertMap sA !! Name f = Some qb ∧ issued_tx (fst (ToSql qb)) evsB)
  ∧ truncated evsB = tables_of_phase env (parses sA) (yml_files entriesB).
Proof.
  intros firstA sA evsB HninA HrA HdirA Hf HninB HdirB Hnames Hbegin.
  subst firstA sA evsB.
  destruct (ImportFixtures env thisA s) as [[rA thisA'] sA] eqn:EA. cbn in *. subst rA.
  destruct (fresh_import_ok _ _ _ _ _ HninA EA) as (entries & Hdir & Hbatch).
  rewrite HdirA in Hdir. injection Hdir as <-.
  destruct (Hbatch f Hf) as [picks Hqb].
  destruct (ImportFixtures env thisB sA) as [[rB thisB'] sB] eqn:EB. cbn in *.
  destruct (fresh_import_events _ _ _ _ _ _ HninB EB) as [H|H].
  { destruct H as (cevs & Hevs & Hall & _). rewrite Hevs in Hbegin.
    destruct Hbegin as [[=]|Hin]. exfalso. revert Hin.
    apply statement_free_not_in; [|done].
    eapply Forall_impl; [done|]. apply connection_event_statement_free. }
  destruct H as (entries & thisc & sl & s_p & si & pre & pevs & evs & rc & Hdir & Hpath & _
                 & Hsame & _ & Ep & Hload & _ & _ & Hevs & Hpre & _ & Hpevs & _).
  rewrite HdirB in Hdir. injection Hdir as <-.
  apply pushInsertQueriesFromYmlToChannel_spec in Ep
    as (Hfin & _ & _ & Hother & _).
  assert (Hpevs' : Forall (fun e => statement_free e = true) pevs).
  { eapply Forall_impl; [done|]. apply parse_event_statement_free. }
  assert (Hin : In (EvDb Begin None) evs).
  { rewrite Hevs in Hbegin. apply list_elem_of_In in Hbegin.
    rewrite !elem_of_app in Hbegin.
    destruct Hbegin as [Hin|[Hin|[Hin|[Hin|Hin]]]].
    - exfalso. apply list_elem_of_In in Hin. revert Hin.
      by apply statement_free_not_in.
    - exfalso. apply list_elem_of_In in Hin. revert Hin.
      apply statement_free_not_in; [apply Forall_Go|done].
    - exfalso. apply list_elem_of_In in Hin. revert Hin.
      by apply statement_free_not_in.
    - by apply list_elem_of_In.
    - apply list_elem_of_singleton in Hin. discriminate. }
  split.
  - exists picks. cbn. split; [done|].
    assert (Hk : insertMap (dir_parsed thisc s_p) !! Name f
                 = Some (build_batch picks (table_of (Name f))
                           (decoded env thisA (Name f)))).
    { cbn. rewrite Hother.
      - destruct Hsame as (_ & _ & -> & _). done.
      - intros g Hg _. by apply Hnames. }
    destruct (load_path_begun _ _ _ _ _ Hload Hin _ _ Hk) as [rq Hq].
    exists rq. rewrite Hevs. in_list.
  - rewrite Hevs, !truncated_app.
    rewrite (statement_free_truncated pre), (statement_free_truncated pevs),
      (statement_free_truncated (EvGo ∘ Name <$> _)) by (done || apply Forall_Go).
    cbn. rewrite app_nil_r.
    destruct (load_path_truncated _ _ _ _ _ Hload) as [_ Htr].
    rewrite (Htr _ Hin). cbn. rewrite Hfin.
    destruct Hsame as (_ & _ & _ & ->). done.
Qed.

Lemma batches_of_an_earlier_directory_are_executed_again_witness :
  let env := scenario_env no_fault in
  let f := mkFileInfo "users.yml" false in
  let entriesB := [mkFileInfo "orders.yml" false] in
  let sA := snd (ImportFixtures env fixturer_fx (init_State ∅)) in
  let evsB := events_since sA (snd (ImportFixtures env fixturer_fy sA)) in
  (∃ picks,
     let qb := build_batch picks (table_of (Name f)) (decoded env fixturer_fx (Name f)) in
     insertMap sA !! Name f = Some qb ∧ issued_tx (fst (ToSql qb)) evsB)
  ∧ truncated evsB = tables_of_phase env (parses sA) (yml_files entriesB).
Proof.
  intros env f entriesB sA evsB.
  apply (batches_of_an_earlier_directory_are_executed_again
           env fixturer_fx fixturer_fy (init_State ∅)
           [mkFileInfo "users.yml" false; mkFileInfo "more.yml" true;
            mkFileInfo "readme.txt" false; mkFileInfo "bad.yml" false]
           entriesB f).
  - cbn. apply not_elem_of_empty.
  - vm_compute. reflexivity.
  - reflexivity.
  - vm_compute. left.
  - vm_compute. intros Hin. discriminate Hin.
  - reflexivity.
  - intros g Hg. vm_compute in Hg. apply list_elem_of_singleton in Hg. by subst g.
  - vm_compute. do 10 right. left. reflexivity.
Defined.

(* ===================================================================== *)
(** ** A file that does not decode *)
(* ===================================================================== *)

Lemma truncate_loop_error env names s e s' :
  truncate_loop env names s = (Some e, s') → ∃ msg, e = ErrDb msg.
Proof.
  revert s. induction names as [|t names IH]; intros s; cbn; [by intros [=]|].
  unfold bind at 1.
  destruct (db_Exec env (Truncate t) s) as [r1 s1] eqn:E1.
  apply db_Exec_spec in E1 as (Hr & _).
  destruct r1 as [e1|]; [|apply IH].
  run_calls. intros [= <- _].
  destruct (env_fault env (clock s) (Exec (Truncate t))) as [msg|]; [|done].
  injection Hr as ->. by eexists.
Qed.

Lemma loadParsedData_error env this s e s' :
  loadParsedData env this s = (Some e, s') → ∃ msg, e = ErrDb msg.
Proof.
  unfold loadParsedData. unfold bind at 1.
  destruct (db_Exec env (SetForeignKeyChecks false) s) as [r0 s0] eqn:E0.
  apply db_Exec_spec in E0 as (Hr0 & _).
  destruct r0 as [e0|].
  { intros [= <- _]. destruct (env_fault env (clock s) _) as [msg|]; [|done].
    injection Hr0 as ->. by eexists. }
  unfold bind at 1, get at 1. unfold bind at 1.
  destruct (truncate_loop env (finishedTablseNames s0) s0) as [r1 s1] eqn:E1.
  destruct r1 as [e1|].
  { apply truncate_loop_error in E1. unfold bind at 1.
    destruct (db_Exec env (SetForeignKeyChecks true) s1) as [r2 s2].
    by intros [= <- _]. }
  unfold bind at 1.
  destruct (db_Begin env s1) as [r2 s2] eqn:E2.
  apply db_Begin_spec in E2 as (Hr2 & _ & _ & Hp2 & _).
  destruct r2 as [e2|].
  { unfold bind at 1.
    destruct (db_Exec env (SetForeignKeyChecks true) s2) as [r3 s3].
    intros [= <- _]. destruct (env_fault env (clock s1) Begin) as [msg|]; [|done].
    injection Hr2 as ->. by eexists. }
  unfold bind at 1, get at 1. unfold bind at 1, modify at 1. unfold bind at 1.
  destruct (insert_loop env _ (set_rng (S (rng s2)) s2)) as [u3 s3] eqn:E3.
  apply (insert_loop_spec _ _ _ _ _ []) in E3 as (ins & _ & _ & Hp3 & _); [|done].
  unfold bind at 1.
  destruct (tx_Commit env s3) as [r4 s4] eqn:E4.
  apply tx_Commit_spec in E4 as (_ & _ & _ & _ & Hc4).
  rewrite Hp3 in Hc4. destruct Hc4 as [Hr4 _].
  unfold bind at 1. destruct (log_if_err r4 s4) as [u5 s5].
  unfold bind at 1. destruct (tx_Rollback env s5) as [r6 s6].
  unfold bind at 1. destruct (db_Exec env (SetForeignKeyChecks true) s6) as [r7 s7].
  intros [= -> _]. destruct (env_fault env (clock s3) Commit) as [msg|]; [|done].
  injection Hr4 as ->. by eexists.
Qed.





(* ===================================================================== *)
(** ** The count of insert goroutines *)
(* ===================================================================== *)

Lemma parse_event_not_Go pevs : Forall parse_event pevs → List.filter is_Go pevs = [].
Proof.
  intros Hall. apply filter_none. eapply Forall_impl; [done|].
  by intros e [(?&->)|(?&?&->)].
Qed.

Lemma filter_Go_launched (files : list FileInfo) :
  List.filter is_Go (EvGo ∘ Name <$> files) = EvGo ∘ Name <$> files.
Proof. induction files as [|f files IH]; [done|]. cbn. by rewrite IH. Qed.

(** C7.  [SetInsertGoroutinesCnt] with a count below 1 panics and leaves
    the process as it was: nothing is read, nothing is sent to the
    database.  With a count of at least 1 it returns the receiver with the
    count stored.  The stored count is what a new connection gets as its
    limit of open and of idle connections; the parse phase starts one
    goroutine per file it is given, whatever the count is. *)
Theorem insert_goroutines_count_sizes_the_connection_pool
    (env : Env) (this : Fixturer) (cnt : Z) (s : State) (files : list FileInfo) :
  ((cnt < 1)%Z → ∃ msg, SetInsertGoroutinesCnt this cnt s = (Panicked msg, s))
  ∧ ((1 ≤ cnt)%Z →
     SetInsertGoroutinesCnt this cnt s = (Returned (set_insertGoroutinesCnt cnt this), s))
  ∧ (let this' := set_insertGoroutinesCnt cnt this in
     let connected := ensureDbConnected env this' s in
     db this = None → fst (fst connected) = None →
     db (snd (fst connected)) = Some (mkDB (dsn_of this) cnt cnt)
     ∧ events_since s (snd connected)
       = [EvDb (Open (dsn_of this)) None; EvSetMaxOpenConns cnt;
          EvSetMaxIdleConns cnt; EvDb Ping None])
  ∧ (let this' := set_insertGoroutinesCnt cnt this in
     let s' := snd (pushInsertQueriesFromYmlToChannel env this' files s) in
     List.filter is_Go (events_since s s') = EvGo ∘ Name <$> files).
Proof.
  split; [|split; [|split]].
  - intros Hlt. unfold SetInsertGoroutinesCnt.
    destruct (Z.ltb_spec cnt 1) as [_|Hge]; [by eexists|lia].
  - intros Hge. unfold SetInsertGoroutinesCnt.
    destruct (Z.ltb_spec cnt 1) as [Hlt|_]; [lia|done].
  - intros this' connected Hdb Hr. subst connected.
    destruct (ensureDbConnected env this' s) as [[r this''] s'] eqn:E. cbn in *. subst r.
    apply ensureDbConnected_spec in E as (_ & _ & _ & _ & -> & evs & Htr & _ & Hevs & _).
    assert (Hdb' : db this' = None) by done.
    rewrite (events_since_app _ _ _ Htr), Hdb'. split; [done|].
    by rewrite (Hevs eq_refl Hdb').
  - intros this' s'. subst s'.
    destruct (pushInsertQueriesFromYmlToChannel env this' files s) as [u s'] eqn:E. cbn.
    apply pushInsertQueriesFromYmlToChannel_spec in E
      as (_ & _ & _ & _ & _ & pevs & Htr & Hall & _).
    rewrite (events_since_app _ _ _ Htr), List.filter_app, filter_Go_launched.
    by rewrite (parse_event_not_Go _ Hall), app_nil_r.
Qed.

Lemma insert_goroutines_count_sizes_the_connection_pool_witness :
  let env := scenario_env no_fault in
  let s := init_State ∅ in
  let files := [mkFileInfo "users.yml" false; mkFileInfo "bad.yml" false] in
  (∃ msg, SetInsertGoroutinesCnt fixturer_fx 0 s = (Panicked msg, s))
  ∧ SetInsertGoroutinesCnt fixturer_fx 1 s
    = (Returned (set_insertGoroutinesCnt 1 fixturer_fx), s)
  ∧ db (snd (fst (ensureDbConnected env (set_insertGoroutinesCnt 1 fixturer_fx) s)))
    = Some (mkDB (dsn_of fixturer_fx) 1 1)
  ∧ List.filter is_Go
      (events_since s
         (snd (pushInsertQueriesFromYmlToChannel env
                 (set_insertGoroutinesCnt 1 fixturer_fx) files s)))
    = EvGo ∘ Name <$> files.
Proof.
  intros env s files.
  split; [apply (insert_goroutines_count_sizes_the_connection_pool
                   env fixturer_fx 0 s files); lia|].
  destruct (insert_goroutines_count_sizes_the_connection_pool
              env fixturer_fx 1 s files) as (_ & H2 & H3 & H4).
  split; [apply H2; lia|]. split; [|exact H4].
  apply H3; reflexivity.
Defined.

(* ===================================================================== *)
(** ** Recreate, schema, import *)
(* ===================================================================== *)

Lemma RecreateDatabase_spec env this s r s' :
  RecreateDatabase env this s = (r, s') →
  same_process s s'
  ∧ ∃ evs, trace s' = trace s ++ evs
      ∧ Forall (fun e => recreate_event e = true) evs
      ∧ (r = None → server s' = ∅ ∧ ∃ rc, evs = recreated this rc).
Proof.
  unfold RecreateDatabase, recreated. run_calls.
  destruct (env_fault env (clock s) (Open (dbConf this))) as [m0|]; cbn.
  { intros [= <- <-]. split; [done|]. eexists. split; [done|].
    split; [by repeat constructor|done]. }
  destruct (env_fault env (S (clock s)) (Exec (DropDatabaseIfExists (dbName this))))
    as [m1|]; cbn.
  { intros [= <- <-]. split; [done|]. eexists. split; [by rewrite <- !app_assoc|].
    split; [by repeat constructor|done]. }
  destruct (env_fault env (S (S (clock s))) (Exec (CreateDatabase (dbName this))))
    as [m2|]; cbn.
  { intros [= <- <-]. split; [done|]. eexists. split; [by rewrite <- !app_assoc|].
    split; [by repeat constructor|done]. }
  intros [= <- <-]. split; [done|]. eexists. split; [by rewrite <- !app_assoc|].
  split; [by repeat constructor|]. intros _. cbn. split; [done|]. by eexists.
Qed.

Lemma recreate_event_alone evs e :
  Forall (fun e => recreate_event e = true) evs → recreate_event e = false → ¬ In e evs.
Proof.
  intros Hall He Hin. rewrite Forall_forall in Hall.
  apply list_elem_of_In, Hall in Hin. congruence.
Qed.

Lemma composed_unfold env this s :
  RecreateDatabaseWithSchemaAndImportFixtures env this s
  = if recreateDatabase this then
      let rec := RecreateDatabase env this s in
      match fst rec with
      | Some e => ((Some e, this), snd rec)
      | None =>
          let sch := LoadDbSchema env this (snd rec) in
          match fst (fst sch) with
          | Some e => ((Some e, snd (fst sch)), snd sch)
          | None => ImportFixtures env (snd (fst sch)) (snd sch)
          end
      end
    else ImportFixtures env this s.
Proof.
  unfold RecreateDatabaseWithSchemaAndImportFixtures.
  destruct (recreateDatabase this); [|done]. unfold bind at 1.
  destruct (RecreateDatabase env this s) as [[e|] s1]; cbn [fst snd]; [done|].
  unfold bind at 1.
  by destruct (LoadDbSchema env this s1) as [[[e|] t] s2].
Qed.

(** C6.  With the recreate flag set, the composed operation runs
    [RecreateDatabase], then [LoadDbSchema] on what that left, then
    [ImportFixtures] on what that left; when one of them returns an error
    it returns that error and leaves the process exactly as the failing
    step left it: nothing of a later step has run (no transaction is begun
    and nothing is read after a failed recreate; no directory is listed
    after a failed schema load) and nothing of an earlier step is undone
    (after a failed schema load the drop and the create are still on
    record as executed and the database is as the drop left it).  With
    the flag clear it is [ImportFixtures]. *)
Theorem recreate_schema_import_stop_at_first_error
    (env : Env) (this : Fixturer) (s : State) :
  let out := RecreateDatabaseWithSchemaAndImportFixtures env this s in
  let rec := RecreateDatabase env this s in
  let sch := LoadDbSchema env this (snd rec) in
  (recreateDatabase this = false → out = ImportFixtures env this s)
  ∧ (recreateDatabase this = true →
     match fst rec with
     | Some e =>
         out = ((Some e, this), snd rec)
         ∧ (∀ rb, ¬ In (EvDb Begin rb) (events_since s (snd out)))
         ∧ List.filter file_event (events_since s (snd out)) = []
     | None =>
         match fst (fst sch) with
         | Some e =>
             out = ((Some e, snd (fst sch)), snd sch)
             ∧ List.filter is_ReadDir (events_since s (snd out)) = []
             ∧ (∃ rc, recreated this rc `prefix_of` events_since s (snd out))
             ∧ server (snd out) = ∅
         | None => out = ImportFixtures env (snd (fst sch)) (snd sch)
         end
     end).
Proof.
  intros out rec sch. subst out rec sch.
  rewrite composed_unfold.
  split; [by intros ->|]. intros ->. cbn zeta.
  destruct (RecreateDatabase env this s) as [r1 s1] eqn:E1. cbn [fst snd].
  apply RecreateDatabase_spec in E1 as (Hsame1 & evs1 & Htr1 & Hall1 & Hok1).
  destruct r1 as [e1|].
  { cbn. split; [done|]. rewrite (events_since_app _ _ _ Htr1). split.
    - intros rb. by apply recreate_event_alone.
    - apply filter_none. eapply Forall_impl; [done|].
      by intros [| |[]| | | |[| | |[]| | | |]]. }
  destruct (Hok1 eq_refl) as (Hsrv1 & rc & ->).
  destruct (LoadDbSchema env this s1) as [[r2 this2] s2] eqn:E2. cbn [fst snd].
  destruct r2 as [e2|]; [|done].
  cbn. split; [done|].
  apply LoadDbSchema_spec in E2 as (_ & Hsrv2 & _ & _ & cevs & tail & Htr2 & Hc & Hpath).
  assert (Htr : trace s2 = trace s ++ recreated this rc
                  ++ EvLog (LogText "Load database schema") :: cevs ++ tail).
  { rewrite Htr2, Htr1. by rewrite <- app_assoc. }
  rewrite (events_since_app _ _ _ Htr).
  split; [|split; [|congruence]].
  - rewrite List.filter_app. cbn.
    rewrite List.filter_app, (filter_none is_ReadDir cevs).
    2:{ eapply Forall_impl; [done|]. by intros [| | | | | |[]]. }
    cbn. apply filter_none.
    destruct Hpath as [? _|? _|e r3 _|mid r3 r4 Hmid _]; try by repeat constructor.
    repeat constructor. apply Forall_app. split; [|by repeat constructor].
    eapply Forall_impl; [done|]. by intros e [(?&?&->)|(?&->)].
  - exists rc. by apply prefix_app_r.
Qed.

(** With the flag clear the composed call is the import; with the flag
    set and a server that refuses CREATE DATABASE it returns that error
    and nothing has touched the file system. *)
Lemma recreate_schema_import_stop_at_first_error_witness :
  let env := scenario_env create_fault in
  let s := init_State one_user in
  let out := RecreateDatabaseWithSchemaAndImportFixtures env fixturer_recreate s in
  RecreateDatabaseWithSchemaAndImportFixtures env fixturer_fx s
  = ImportFixtures env fixturer_fx s
  ∧ fst (fst out) = Some (ErrDb "access denied")
  ∧ List.filter file_event (events_since s (snd out)) = [].
Proof.
  intros env s out. split.
  - by apply (recreate_schema_import_stop_at_first_error env fixturer_fx s).
  - destruct (recreate_schema_import_stop_at_first_error env fixturer_recreate s)
      as [_ H].
    specialize (H eq_refl). vm_compute in H. destruct H as (Hout & _ & Hfiles).
    vm_compute. split; [exact (f_equal (fun o => fst (fst o)) Hout)|exact Hfiles].
Defined.

(* ===================================================================== *)
(** ** The join of the parse phase *)
(* ===================================================================== *)

Section Join.

Variable env : Env.
Variable this : Fixturer.
Variable files : list FileInfo.

Lemma grows_refl_on c c' :
  c_tablesNames c' = c_tablesNames c → c_insertMap c' = c_insertMap c → grows env this c c'.
Proof. intros Hn Hm. split; [by rewrite Hn|]. intros k qb Hk Hb. rewrite Hm. eauto. Qed.

Lemma published_grows c c' f :
  grows env this c c' → published env this c f → published env this c' f.
Proof. intros [Hn Hm] (? & qb & ? & ?). split; eauto. Qed.

Lemma task_inv_grows c c' f pc :
  grows env this c c' → task_inv env this c f pc → task_inv env this c' f pc.
Proof.
  intros Hg Hinv. pose proof (published_grows _ _ f Hg) as Hp. destruct Hg as [Hn Hm].
  destruct pc; cbn in *; try done.
  - destruct Hinv as (? & ? & ?). auto.
  - destruct Hinv as (? & ? & ?). auto.
  - destruct Hinv as (? & ? & ?). auto.
  - destruct Hinv as (? & ? & ?). auto.
  - destruct Hinv. auto.
  - auto.
  - auto.
Qed.

Lemma unfinished_insert tasks i pc pc' :
  tasks !! i = Some pc →
  unfinished (<[i := pc']> tasks) + (if decide (pc = Finished) then 0 else 1)
  = unfinished tasks + (if decide (pc' = Finished) then 0 else 1).
Proof.
  unfold unfinished. revert i. induction tasks as [|x tasks IH]; intros [|i]; cbn; try done.
  - intros [= ->]. lia.
  - intros Hi. specialize (IH _ Hi). cbn in IH.
    rewrite <- !Nat.add_assoc. f_equal. exact IH.
Qed.

Lemma unfinished_zero tasks :
  unfinished tasks = 0 → Forall (fun pc => pc = Finished) tasks.
Proof.
  unfold unfinished. induction tasks as [|x tasks IH]; cbn; [done|].
  case_decide; [|lia]. intros H0. constructor; auto.
Qed.

Lemma unfinished_not_launched tasks :
  Forall (fun pc => pc = NotLaunched) tasks → unfinished tasks = length tasks.
Proof.
  unfold unfinished. induction 1 as [|x tasks -> _ IH]; cbn; [done|]. by rewrite IH.
Qed.

End Join.

Section JoinSteps.

Variable env : Env.
Variable this : Fixturer.
Variable files : list FileInfo.

(** What one step of a goroutine changes. *)
Lemma step_task_effect i picks c c' :
  step_task env this files i picks c = Some c' →
  ∃ f pc pc',
    files !! i = Some f ∧ c_tasks c !! i = Some pc
    ∧ pc ≠ NotLaunched ∧ pc ≠ Finished ∧ pc' ≠ NotLaunched
    ∧ c_tasks c' = <[i := pc']> (c_tasks c)
    ∧ c_main c' = c_main c ∧ c_finished c' = c_finished c
    ∧ c_wg c' = (if decide (pc' = Finished) then c_wg c - 1 else c_wg c)%Z
    ∧ (task_inv env this c f pc → grows env this c c' ∧ task_inv env this c' f pc').
Proof.
  unfold step_task.
  destruct (files !! i) as [f|] eqn:Hf; [|done].
  destruct (c_tasks c !! i) as [pc|] eqn:Hpc; [|done].
  assert (Hsame : ∀ c1, c_tablesNames c1 = c_tablesNames c →
                        c_insertMap c1 = c_insertMap c → grows env this c c1)
    by (intros; by apply grows_refl_on).
  destruct pc as [| | |data|data|data|data|qb|qb| | |]; try done.
  - (* AtEntry *)
    intros [= <-]. exists f, AtEntry, (if HasSuffix (Name f) ".yml" then AtRead else AtDone).
    do 4 (split; [done|]). split; [by destruct (HasSuffix _ _)|].
    do 3 (split; [done|]). split; [by destruct (HasSuffix _ _)|].
    intros _. split; [by apply Hsame|].
    unfold task_inv, has_yml. destruct (HasSuffix (Name f) ".yml"); done.
  - (* AtRead *)
    intros [= <-]. exists f, AtRead, (AtLock1 (decoded env this (Name f))).
    do 9 (split; [done|]). intros Hinv. split; [by apply Hsame|]. by split.
  - (* AtLock1 *)
    destruct (c_mutex c); [done|]. intros [= <-]. exists f, (AtLock1 data), (AtAppend data).
    do 9 (split; [done|]). intros Hinv. split; [by apply Hsame|]. done.
  - (* AtAppend *)
    intros [= <-]. exists f, (AtAppend data), (AtUnlock1 data).
    do 9 (split; [done|]). intros [Hy Hd]. split.
    + split; cbn; [intros t Ht; apply elem_of_app; by left|eauto].
    + cbn. do 2 (split; [done|]). apply elem_of_app. right. by left.
  - (* AtUnlock1 *)
    intros [= <-]. exists f, (AtUnlock1 data), (AtBuild data).
    do 9 (split; [done|]). intros Hinv. split; [by apply Hsame|]. done.
  - (* AtBuild *)
    intros [= <-]. exists f, (AtBuild data), (AtLock2 (build_batch picks (table_of (Name f)) data)).
    do 9 (split; [done|]). intros (Hy & -> & Hin). split; [by apply Hsame|].
    cbn. split; [done|]. split; [by exists picks|done].
  - (* AtLock2 *)
    destruct (c_mutex c); [done|]. intros [= <-]. exists f, (AtLock2 qb), (AtStore qb).
    do 9 (split; [done|]). intros Hinv. split; [by apply Hsame|]. done.
  - (* AtStore *)
    intros [= <-]. exists f, (AtStore qb), AtUnlock2.
    do 9 (split; [done|]). intros (Hy & Hb & Hin). split.
    + split; cbn; [done|]. intros k qb' Hk Hb'.
      destruct (decide (k = Name f)) as [->|Hne].
      * exists qb. by rewrite lookup_insert_eq.
      * exists qb'. by rewrite lookup_insert_ne.
    + cbn. split; [done|]. split; [done|]. exists qb. cbn.
      by rewrite lookup_insert_eq.
  - (* AtUnlock2 *)
    intros [= <-]. exists f, AtUnlock2, AtDone.
    do 9 (split; [done|]). intros [Hy Hp]. split; [by apply Hsame|]. by intros _.
  - (* AtDone *)
    intros [= <-]. exists f, AtDone, Finished.
    do 9 (split; [done|]). intros Hinv. split; [by apply Hsame|]. done.
Qed.

Lemma step_task_counter i picks c c' :
  step_task env this files i picks c = Some c' →
  counter_inv files c → counter_inv files c'.
Proof.
  intros Hstep [Hlen Hmain].
  apply step_task_effect in Hstep
    as (f & pc & pc' & Hf & Hpc & Hnl & Hnf & Hnl' & Htasks & Hm & _ & Hwg & _).
  unfold counter_inv. rewrite Htasks, Hm, Hwg, length_insert. split; [done|].
  pose proof (unfinished_insert _ _ _ pc' Hpc) as Hcount.
  rewrite (decide_False (P := pc = Finished)) in Hcount by done.
  assert (Hwg' : c_wg c = Z.of_nat (unfinished (c_tasks c)) →
                 (if decide (pc' = Finished) then (c_wg c - 1)%Z else c_wg c)
                 = Z.of_nat (unfinished (<[i:=pc']> (c_tasks c)))).
  { intros ->. destruct (decide (pc' = Finished)); lia. }
  destruct (c_main c) as [|k| | | | |].
  - destruct Hmain as [_ Hall]. rewrite Forall_lookup in Hall. by apply Hall in Hpc.
  - destruct Hmain as [Hw Hfront]. split; [by apply Hwg'|].
    intros j Hj Hjn. destruct (decide (i = j)) as [->|Hne].
    + specialize (Hfront j Hj Hjn). congruence.
    + rewrite list_lookup_insert_ne by done. by apply Hfront.
  - by apply Hwg'.
  - rewrite Forall_lookup in Hmain. by apply Hmain in Hpc.
  - rewrite Forall_lookup in Hmain. by apply Hmain in Hpc.
  - rewrite Forall_lookup in Hmain. by apply Hmain in Hpc.
  - rewrite Forall_lookup in Hmain. by apply Hmain in Hpc.
Qed.

Lemma step_task_data i picks c c' :
  step_task env this files i picks c = Some c' →
  data_inv env this files c → data_inv env this files c'.
Proof.
  intros Hstep Hdata.
  apply step_task_effect in Hstep
    as (f & pc & pc' & Hf & Hpc & _ & _ & _ & Htasks & _ & _ & _ & Hinv).
  destruct (Hinv (Hdata _ _ _ Hf Hpc)) as [Hg Hnew].
  intros j fj pcj Hfj Hpcj. rewrite Htasks in Hpcj.
  destruct (decide (i = j)) as [->|Hne].
  - rewrite list_lookup_insert_eq in Hpcj by by eapply lookup_lt_Some.
    injection Hpcj as <-. rewrite Hf in Hfj. by injection Hfj as <-.
  - rewrite list_lookup_insert_ne in Hpcj by done.
    eapply task_inv_grows; [done|]. by eapply Hdata.
Qed.

Lemma step_task_publish i picks c c' :
  step_task env this files i picks c = Some c' →
  counter_inv files c → publish_inv c → publish_inv c'.
Proof.
  intros Hstep [_ Hmain] Hpub.
  apply step_task_effect in Hstep
    as (f & pc & pc' & Hf & Hpc & _ & Hnf & _ & _ & Hm & _ & _ & _).
  unfold publish_inv in *. rewrite Hm.
  destruct (c_main c); try done;
    rewrite Forall_lookup in Hmain; by apply Hmain in Hpc.
Qed.

Lemma step_main_invs c c' :
  step_main files c = Some c' →
  counter_inv files c → data_inv env this files c → publish_inv c →
  counter_inv files c' ∧ data_inv env this files c' ∧ publish_inv c'.
Proof.
  unfold step_main. intros Hstep [Hlen Hmain] Hdata Hpub.
  assert (Hkeep : ∀ c1, c_tasks c1 = c_tasks c → c_tablesNames c1 = c_tablesNames c →
                        c_insertMap c1 = c_insertMap c → data_inv env this files c1).
  { intros c1 Ht Hn Hmp j fj pcj Hfj Hpcj. rewrite Ht in Hpcj.
    eapply task_inv_grows; [by apply grows_refl_on|]. by eapply Hdata. }
  destruct (c_main c) as [|k| | | | |] eqn:Hm.
  - injection Hstep as <-. destruct Hmain as [Hw Hall].
    split; [|split; [by apply Hkeep|done]].
    split; [done|]. cbn. split.
    + rewrite Hw, (unfinished_not_launched _ Hall), Hlen. lia.
    + intros j _ Hj. rewrite Forall_lookup in Hall.
      destruct (c_tasks c !! j) as [pc|] eqn:Hpc.
      * by rewrite (Hall _ _ Hpc).
      * apply lookup_ge_None in Hpc. lia.
  - destruct Hmain as [Hw Hfront].
    destruct (Nat.ltb_spec k (length files)) as [Hlt|Hge]; injection Hstep as <-.
    + pose proof (Hfront k (le_n _) Hlt) as Hk.
      split; [|split; [|done]].
      * split; [cbn; by rewrite length_insert|]. cbn. split.
        -- pose proof (unfinished_insert _ _ _ AtEntry Hk) as Hc.
           rewrite !decide_False in Hc by done. rewrite Hw. lia.
        -- intros j Hj Hjn. rewrite list_lookup_insert_ne by lia. apply Hfront; lia.
      * intros j fj pcj Hfj Hpcj. cbn in Hpcj.
        destruct (decide (k = j)) as [->|Hne].
        -- rewrite list_lookup_insert_eq in Hpcj by lia. by injection Hpcj as <-.
        -- rewrite list_lookup_insert_ne in Hpcj by done.
           eapply task_inv_grows; [by apply grows_refl_on|]. by eapply Hdata.
    + split; [by split|]. split; [by apply Hkeep|done].
  - destruct (Z.eqb_spec (c_wg c) 0) as [H0|]; [|done]. injection Hstep as <-.
    split; [|split; [by apply Hkeep|done]].
    split; [done|]. cbn. apply unfinished_zero. lia.
  - destruct (c_mutex c); [done|]. injection Hstep as <-.
    split; [by split|]. split; [by apply Hkeep|done].
  - injection Hstep as <-. split; [by split|]. split; [by apply Hkeep|done].
  - injection Hstep as <-. split; [by split|]. split; [by apply Hkeep|].
    unfold publish_inv in *. by rewrite Hm in Hpub.
  - done.
Qed.

Lemma entry_invs im fin :
  counter_inv files (entry files im fin)
  ∧ data_inv env this files (entry files im fin)
  ∧ publish_inv (entry files im fin).
Proof.
  split; [|split; [|done]].
  - split; [apply length_replicate|]. cbn. split; [done|].
    apply Forall_replicate. done.
  - intros j fj pcj _ Hpcj. cbn in Hpcj.
    apply lookup_replicate in Hpcj as [-> _]. done.
Qed.

Lemma reachable_invs im fin c :
  reachable env this files im fin c →
  counter_inv files c ∧ data_inv env this files c ∧ publish_inv c.
Proof.
  intros [sched ->]. unfold run.
  induction sched as [|ch sched IH] using rev_ind; [apply entry_invs|].
  rewrite foldl_app. cbn.
  destruct IH as (Hc & Hd & Hp).
  destruct (step env this files ch _) as [c'|] eqn:Hstep; cbn; [|done].
  destruct ch as [|i picks]; cbn in Hstep.
  - by apply step_main_invs in Hstep.
  - split; [by eapply step_task_counter|].
    split; [by eapply step_task_data|by eapply step_task_publish].
Qed.

End JoinSteps.

(* ===================================================================== *)
(** ** What the shared variables hold during the parse phase *)
(* ===================================================================== *)

Lemma names_of_insert tasks files i pc pc' f :
  tasks !! i = Some pc → files !! i = Some f →
  (contribution pc' f = contribution pc f →
   names_of (<[i := pc']> tasks) files = names_of tasks files)
  ∧ (contribution pc f = [] →
     names_of (<[i := pc']> tasks) files ≡ₚ names_of tasks files ++ contribution pc' f).
Proof.
  unfold names_of. revert files i.
  induction tasks as [|x tasks IH]; intros [|g files] [|i]; cbn; try done.
  - intros [= ->] [= ->]. split.
    + by intros ->.
    + intros ->. cbn. by rewrite Permutation_app_comm.
  - intros Hi Hf. destruct (IH _ _ Hi Hf) as [IH1 IH2]. split.
    + intros Heq. f_equal. by apply IH1.
    + intros Hnil. rewrite <- app_assoc. apply Permutation_app_head. by apply IH2.
Qed.

Lemma names_of_finished tasks files :
  length tasks = length files →
  Forall (fun pc => pc = Finished) tasks →
  names_of tasks files = table_of ∘ Name <$> List.filter has_yml files.
Proof.
  unfold names_of. intros Hlen Hall. revert files Hlen.
  induction Hall as [|x tasks -> _ IH]; intros [|g files]; cbn; try done.
  intros [= Hlen]. rewrite (IH _ Hlen). unfold contribution. cbn.
  by destruct (has_yml g).
Qed.

Section JoinShared.

Variable env : Env.
Variable this : Fixturer.
Variable files : list FileInfo.

Lemma step_task_shared i picks c c' :
  step_task env this files i picks c = Some c' →
  ∃ f pc pc',
    files !! i = Some f ∧ c_tasks c !! i = Some pc
    ∧ c_tasks c' = <[i := pc']> (c_tasks c)
    ∧ (task_inv env this c f pc →
       (c_insertMap c' = c_insertMap c
        ∨ ∃ qb, has_yml f = true ∧ c_insertMap c' = <[Name f := qb]> (c_insertMap c))
       ∧ (contribution pc' f = contribution pc f ∧ c_tablesNames c' = c_tablesNames c
          ∨ contribution pc f = []
            ∧ c_tablesNames c' = c_tablesNames c ++ contribution pc' f)).
Proof.
  unfold step_task.
  destruct (files !! i) as [f|] eqn:Hf; [|done].
  destruct (c_tasks c !! i) as [pc|] eqn:Hpc; [|done].
  destruct pc as [| | |data|data|data|data|qb|qb| | |]; try done.
  - intros [= <-]. exists f, AtEntry, (if HasSuffix (Name f) ".yml" then AtRead else AtDone).
    do 3 (split; [done|]). intros _. split; [by left|]. left. split; [|done].
    unfold contribution, has_yml. by destruct (HasSuffix (Name f) ".yml").
  - intros [= <-]. exists f, AtRead, (AtLock1 (decoded env this (Name f))).
    do 3 (split; [done|]). intros _. split; [by left|]. by left.
  - destruct (c_mutex c); [done|]. intros [= <-].
    exists f, (AtLock1 data), (AtAppend data).
    do 3 (split; [done|]). intros _. split; [by left|]. by left.
  - intros [= <-]. exists f, (AtAppend data), (AtUnlock1 data).
    do 3 (split; [done|]). intros [Hy _]. split; [by left|]. right. split; [done|].
    unfold contribution. by rewrite Hy.
  - intros [= <-]. exists f, (AtUnlock1 data), (AtBuild data).
    do 3 (split; [done|]). intros _. split; [by left|]. by left.
  - intros [= <-].
    exists f, (AtBuild data), (AtLock2 (build_batch picks (table_of (Name f)) data)).
    do 3 (split; [done|]). intros _. split; [by left|]. by left.
  - destruct (c_mutex c); [done|]. intros [= <-].
    exists f, (AtLock2 qb), (AtStore qb).
    do 3 (split; [done|]). intros _. split; [by left|]. by left.
  - intros [= <-]. exists f, (AtStore qb), AtUnlock2.
    do 3 (split; [done|]). intros [Hy _]. split; [right; by exists qb|]. by left.
  - intros [= <-]. exists f, AtUnlock2, AtDone.
    do 3 (split; [done|]). intros _. split; [by left|]. by left.
  - intros [= <-]. exists f, AtDone, Finished.
    do 3 (split; [done|]). intros _. split; [by left|]. by left.
Qed.

Lemma step_shared_invs im ch c c' :
  step env this files ch c = Some c' →
  counter_inv files c → data_inv env this files c →
  names_inv files c → frame_inv files im c →
  names_inv files c' ∧ frame_inv files im c'.
Proof.
  intros Hstep [Hlen Hmain] Hdata Hnames Hframe.
  destruct ch as [|i picks]; cbn in Hstep.
  - unfold step_main in Hstep.
    destruct (c_main c) as [|k| | | | |]; try (injection Hstep as <-; by split).
    + destruct Hmain as [_ Hfront].
      destruct (Nat.ltb_spec k (length files)) as [Hlt|Hge]; injection Hstep as <-;
        [|by split].
      split; [|done]. unfold names_inv in *. cbn.
      pose proof (Hfront k (le_n _) Hlt) as Hk.
      destruct (lookup_lt_is_Some_2 files k Hlt) as [f Hf].
      destruct (names_of_insert _ _ _ _ AtEntry _ Hk Hf) as [Heq _].
      by rewrite Heq.
    + destruct (c_wg c =? 0)%Z; [|done]. injection Hstep as <-. by split.
    + destruct (c_mutex c); [done|]. injection Hstep as <-. by split.
    + done.
  - apply step_task_shared in Hstep as (f & pc & pc' & Hf & Hpc & Htasks & Hshared).
    destruct (Hshared (Hdata _ _ _ Hf Hpc)) as [Hmap Hn].
    destruct (names_of_insert _ _ _ _ pc' _ Hpc Hf) as [Heq Hperm].
    split.
    + unfold names_inv in *. rewrite Htasks.
      destruct Hn as [[Hc ->]|[Hc ->]].
      * by rewrite (Heq Hc).
      * by rewrite (Hperm Hc), Hnames.
    + intros k Hk. destruct Hmap as [->|(qb & Hy & ->)]; [by apply Hframe|].
      rewrite lookup_insert_ne; [by apply Hframe|].
      apply Hk; [|done]. by eapply list_elem_of_lookup_2.
Qed.

Lemma reachable_shared_invs im fin c :
  reachable env this files im fin c → names_inv files c ∧ frame_inv files im c.
Proof.
  intros [sched ->]. unfold run.
  induction sched as [|ch sched IH] using rev_ind.
  - split; [|done]. unfold names_inv, names_of. cbn.
    generalize files. intros l. induction l as [|g l IHl]; [done|]. cbn. by rewrite <- IHl.
  - rewrite foldl_app. cbn.
    pose proof (reachable_invs env this files im fin _ (ex_intro _ sched eq_refl))
      as (Hc & Hd & _).
    destruct (step env this files ch _) as [c'|] eqn:Hstep; cbn; [|done].
    destruct IH as [Hn Hfr]. by eapply step_shared_invs.
Qed.

End JoinShared.

(** C9.  In every interleaving of the caller and the goroutines of
    [pushInsertQueriesFromYmlToChannel], once the caller is past
    [wg.Wait()] every goroutine it started, one per file, has run its
    deferred [wg.Done()], that is, has finished; by then the table name of
    every fixture file is in the slice and the batch of every fixture file
    is in [insertMap] under the file's name, entries under other names
    being as before, so no batch is missing when the caller returns and
    the load begins.  On return the published truncation list holds the
    table names of the fixture files, each once per file. *)
Theorem caller_passes_wait_after_every_goroutine_is_done
    (env : Env) (this : Fixturer) (files : list FileInfo)
    (im : gmap string InsertBuilder) (fin : list string) (c : Config) :
  reachable env this files im fin c →
  past_wait (c_main c) = true →
  length (c_tasks c) = length files
  ∧ Forall (fun pc => pc = Finished) (c_tasks c)
  ∧ (∀ f, f ∈ files → has_yml f = true →
          table_of (Name f) ∈ c_tablesNames c
          ∧ ∃ picks, c_insertMap c !! Name f
                     = Some (build_batch picks (table_of (Name f))
                               (decoded env this (Name f))))
  ∧ (∀ k, (∀ f, f ∈ files → has_yml f = true → Name f ≠ k) →
          c_insertMap c !! k = im !! k)
  ∧ c_tablesNames c ≡ₚ table_of ∘ Name <$> List.filter has_yml files
  ∧ (c_main c = MReturned → c_finished c = c_tablesNames c).
Proof.
  intros Hreach Hpast.
  pose proof (reachable_invs _ _ _ _ _ _ Hreach) as ([Hlen Hmain] & Hdata & Hpub).
  pose proof (reachable_shared_invs _ _ _ _ _ _ Hreach) as [Hnames Hframe].
  assert (Hall : Forall (fun pc => pc = Finished) (c_tasks c)).
  { by destruct (c_main c). }
  split; [done|]. split; [done|]. split.
  { intros f Hf Hy. apply list_elem_of_lookup in Hf as [i Hi].
    destruct (lookup_lt_is_Some_2 (c_tasks c) i) as [pc Hpc].
    { rewrite Hlen. by eapply lookup_lt_Some. }
    pose proof (Hdata _ _ _ Hi Hpc) as Hinv.
    rewrite Forall_lookup in Hall. rewrite (Hall _ _ Hpc) in Hinv.
    destruct (Hinv Hy) as (Hin & qb & Hqb & picks & ->). split; [done|]. by exists picks. }
  split; [done|]. split.
  { unfold names_inv in Hnames. by rewrite Hnames, (names_of_finished _ _ Hlen Hall). }
  intros Hret. unfold publish_inv in Hpub. by rewrite Hret in Hpub.
Qed.

Lemma caller_passes_wait_after_every_goroutine_is_done_witness :
  let env := scenario_env no_fault in
  let files := [mkFileInfo "users.yml" false; mkFileInfo "bad.yml" false] in
  let c := run env fixturer_fx files join_schedule (entry files ∅ []) in
  c_main c = MReturned
  ∧ c_finished c = ["bad"; "users"]
  ∧ length (c_tasks c) = length files
  ∧ Forall (fun pc => pc = Finished) (c_tasks c)
  ∧ (∀ f, f ∈ files → has_yml f = true →
          table_of (Name f) ∈ c_tablesNames c
          ∧ ∃ picks, c_insertMap c !! Name f
                     = Some (build_batch picks (table_of (Name f))
                               (decoded env fixturer_fx (Name f))))
  ∧ (∀ k, (∀ f, f ∈ files → has_yml f = true → Name f ≠ k) →
          c_insertMap c !! k = (∅ : gmap string InsertBuilder) !! k)
  ∧ c_tablesNames c ≡ₚ table_of ∘ Name <$> List.filter has_yml files
  ∧ (c_main c = MReturned → c_finished c = c_tablesNames c).
Proof.
  intros env files c.
  split; [vm_compute; reflexivity|]. split; [vm_compute; reflexivity|].
  apply (caller_passes_wait_after_every_goroutine_is_done env fixturer_fx files ∅ [] c).
  - exists join_schedule. reflexivity.
  - vm_compute. reflexivity.
Defined.

(* ===================================================================== *)
(** ** The sequential reading of the parse phase and its interleavings *)
(* ===================================================================== *)

(** [pushInsertQueriesFromYmlToChannel] as the operations above use it
    (one goroutine after the other) and any interleaved run of the same
    call that has returned agree on everything the load phase looks at:
    the truncation lists are permutations of one another, every fixture
    file has its batch in both maps (the order of the columns being the
    runtime's choice in each), and every other entry is the same. *)
Lemma sequential_reading_agrees_with_interleavings
    (env : Env) (this : Fixturer) (files : list FileInfo) (s : State) (c : Config) :
  let s' := snd (pushInsertQueriesFromYmlToChannel env this files s) in
  reachable env this files (insertMap s) (finishedTablseNames s) c →
  c_main c = MReturned →
  c_finished c ≡ₚ finishedTablseNames s'
  ∧ (∀ f, f ∈ files → has_yml f = true →
          ∃ picks picks',
            c_insertMap c !! Name f
            = Some (build_batch picks (table_of (Name f)) (decoded env this (Name f)))
            ∧ insertMap s' !! Name f
              = Some (build_batch picks' (table_of (Name f)) (decoded env this (Name f))))
  ∧ (∀ k, (∀ f, f ∈ files → has_yml f = true → Name f ≠ k) →
          c_insertMap c !! k = insertMap s' !! k).
Proof.
  intros s' Hreach Hret. subst s'.
  destruct (pushInsertQueriesFromYmlToChannel env this files s) as [u s'] eqn:E. cbn.
  apply pushInsertQueriesFromYmlToChannel_spec in E as (Hfin & _ & _ & Hother & Hmine & _).
  pose proof (reachable_invs _ _ _ _ _ _ Hreach) as ([Hlen Hmain] & Hdata & Hpub).
  pose proof (reachable_shared_invs _ _ _ _ _ _ Hreach) as [Hnames Hframe].
  unfold publish_inv in Hpub. rewrite Hret in Hmain, Hpub.
  assert (Hbatch : ∀ f, f ∈ files → has_yml f = true → published env this c f).
  { intros f Hf Hy. apply list_elem_of_lookup in Hf as [i Hi].
    destruct (lookup_lt_is_Some_2 (c_tasks c) i) as [pc Hpc].
    { rewrite Hlen. by eapply lookup_lt_Some. }
    pose proof (Hdata _ _ _ Hi Hpc) as Hinv.
    rewrite Forall_lookup in Hmain. rewrite (Hmain _ _ Hpc) in Hinv. by apply Hinv. }
  split.
  { unfold names_inv in Hnames.
    rewrite Hpub, Hnames, (names_of_finished _ _ Hlen Hmain), Hfin.
    unfold tables_of_phase.
    apply fmap_Permutation.
    assert (Hf : ∀ l l' : list FileInfo, l ≡ₚ l' →
                 List.filter has_yml l ≡ₚ List.filter has_yml l').
    { induction 1 as [|x l l' _ IH|x y l|l1 l2 l3 _ IH1 _ IH2]; cbn.
      - done.
      - destruct (has_yml x); by rewrite IH.
      - destruct (has_yml x), (has_yml y); try done. apply perm_swap.
      - by etrans. }
    symmetry. apply Hf, shuffle_Permutation. }
  split.
  { intros f Hf Hy. destruct (Hbatch f Hf Hy) as (_ & qb & Hqb & picks & ->).
    destruct (Hmine f Hf Hy) as [picks' Hp']. by exists picks, picks'. }
  intros k Hk. by rewrite Hframe, Hother.
Qed.

(* ===================================================================== *)
(** ** The parse phase returns *)
(* ===================================================================== *)

Lemma sum_list_with_insert {A} (g : A → nat) (l : list A) i x y :
  l !! i = Some x →
  sum_list_with g (<[i := y]> l) + g x = sum_list_with g l + g y.
Proof.
  revert i. induction l as [|z l IH]; intros [|i]; cbn; try done.
  - intros [= ->]. lia.
  - intros Hi. specialize (IH _ Hi). cbn in IH.
    rewrite <- !Nat.add_assoc. f_equal. exact IH.
Qed.

Section JoinReturns.

Variable env : Env.
Variable this : Fixturer.
Variable files : list FileInfo.

Lemma step_task_ctrl i picks c c' :
  step_task env this files i picks c = Some c' →
  ∃ f pc pc',
    files !! i = Some f ∧ c_tasks c !! i = Some pc
    ∧ c_tasks c' = <[i := pc']> (c_tasks c)
    ∧ c_main c' = c_main c
    ∧ pc' ≠ NotLaunched
    ∧ (task_left pc' < task_left pc)%nat
    ∧ (c_mutex c' = true → holds pc' = true ∨ c_mutex c = true ∧ holds pc = false).
Proof.
  unfold step_task.
  destruct (files !! i) as [f|] eqn:Hf; [|done].
  destruct (c_tasks c !! i) as [pc|] eqn:Hpc; [|done].
  destruct pc as [| | |data|data|data|data|qb|qb| | |]; try done.
  - intros [= <-]. exists f, AtEntry, (if HasSuffix (Name f) ".yml" then AtRead else AtDone).
    do 4 (split; [done|]). split; [by destruct (HasSuffix _ _)|].
    split; [destruct (HasSuffix _ _); cbn; lia|]. cbn. intros Hmu. by right.
  - intros [= <-]. exists f, AtRead, (AtLock1 (decoded env this (Name f))).
    do 5 (split; [done|]). split; [cbn; lia|]. cbn. intros Hmu. by right.
  - destruct (c_mutex c); [done|]. intros [= <-].
    exists f, (AtLock1 data), (AtAppend data).
    do 5 (split; [done|]). split; [cbn; lia|]. by left.
  - intros [= <-]. exists f, (AtAppend data), (AtUnlock1 data).
    do 5 (split; [done|]). split; [cbn; lia|]. by left.
  - intros [= <-]. exists f, (AtUnlock1 data), (AtBuild data).
    do 5 (split; [done|]). split; [cbn; lia|]. done.
  - intros [= <-].
    exists f, (AtBuild data), (AtLock2 (build_batch picks (table_of (Name f)) data)).
    do 5 (split; [done|]). split; [cbn; lia|]. cbn. intros Hmu. by right.
  - destruct (c_mutex c); [done|]. intros [= <-].
    exists f, (AtLock2 qb), (AtStore qb).
    do 5 (split; [done|]). split; [cbn; lia|]. by left.
  - intros [= <-]. exists f, (AtStore qb), AtUnlock2.
    do 5 (split; [done|]). split; [cbn; lia|]. by left.
  - intros [= <-]. exists f, AtUnlock2, AtDone.
    do 5 (split; [done|]). split; [cbn; lia|]. done.
  - intros [= <-]. exists f, AtDone, Finished.
    do 5 (split; [done|]). split; [cbn; lia|]. cbn. intros Hmu. by right.
Qed.

Lemma step_task_mutex i picks c c' :
  step_task env this files i picks c = Some c' →
  mutex_inv c → launch_inv c →
  mutex_inv c' ∧ launch_inv c'
  ∧ (steps_left (length files) c' < steps_left (length files) c)%nat.
Proof.
  intros Hstep Hmx Hl.
  apply step_task_ctrl in Hstep
    as (f & pc & pc' & Hf & Hpc & Htasks & Hm & Hnl' & Hdec & Hmu').
  assert (Hlt : (i < length (c_tasks c))%nat) by by eapply lookup_lt_Some.
  split; [|split].
  - intros Hmu. destruct (Hmu' Hmu) as [Hh|[Hmu0 Hh0]].
    + left. exists i, pc'. split; [|done]. rewrite Htasks.
      by apply list_lookup_insert_eq.
    + destruct (Hmx Hmu0) as [(j & pcj & Hj & Hhj)|Hmain]; [|right; by rewrite Hm].
      left. exists j, pcj. split; [|done]. rewrite Htasks.
      rewrite list_lookup_insert_ne; [done|]. intros ->. congruence.
  - unfold launch_inv in *. rewrite Hm, Htasks. destruct (c_main c) as [|k| | | | |].
    + done.
    + intros j pcj Hj Hpcj. destruct (decide (i = j)) as [->|Hne].
      * rewrite list_lookup_insert_eq in Hpcj by done. by injection Hpcj as <-.
      * rewrite list_lookup_insert_ne in Hpcj by done. by eapply Hl.
    + by apply Forall_insert.
    + by apply Forall_insert.
    + by apply Forall_insert.
    + by apply Forall_insert.
    + by apply Forall_insert.
  - unfold steps_left. rewrite Hm, Htasks.
    pose proof (sum_list_with_insert task_left _ _ _ pc' Hpc). lia.
Qed.

Lemma step_main_mutex c c' :
  step_main files c = Some c' →
  counter_inv files c → mutex_inv c → launch_inv c →
  mutex_inv c' ∧ launch_inv c'
  ∧ (steps_left (length files) c' < steps_left (length files) c)%nat.
Proof.
  unfold step_main. intros Hstep [Hlen Hmain] Hmx Hl.
  unfold mutex_inv, launch_inv, steps_left in *.
  destruct (c_main c) as [|k| | | | |] eqn:Hm.
  - injection Hstep as <-. cbn. split; [|split; [|lia]].
    + intros Hmu. destruct (Hmx Hmu) as [H|H]; [by left|done].
    + intros j pc Hj. lia.
  - destruct Hmain as [_ Hfront].
    destruct (Nat.ltb_spec k (length files)) as [Hlt|Hge]; injection Hstep as <-; cbn.
    + pose proof (Hfront k (le_n _) Hlt) as Hk.
      split; [|split].
      * intros Hmu. destruct (Hmx Hmu) as [(j & pcj & Hj & Hh)|H]; [|done].
        left. exists j, pcj. split; [|done].
        rewrite list_lookup_insert_ne; [done|]. intros ->.
        rewrite Hk in Hj. by injection Hj as <-.
      * intros j pc Hj Hpc. destruct (decide (k = j)) as [->|Hne].
        -- rewrite list_lookup_insert_eq in Hpc by lia. by injection Hpc as <-.
        -- rewrite list_lookup_insert_ne in Hpc by done. apply (Hl j); [lia|done].
      * pose proof (sum_list_with_insert task_left _ _ _ AtEntry Hk) as Hsum.
        cbn in Hsum. lia.
    + split; [|split; [|lia]].
      * intros Hmu. destruct (Hmx Hmu) as [H|H]; [by left|done].
      * apply Forall_lookup. intros j pc Hpc. apply (Hl j); [|done].
        apply lookup_lt_Some in Hpc. lia.
  - destruct (c_wg c =? 0)%Z; [|done]. injection Hstep as <-. cbn.
    split; [|split; [done|lia]].
    intros Hmu. destruct (Hmx Hmu) as [H|H]; [by left|done].
  - destruct (c_mutex c); [done|]. injection Hstep as <-. cbn.
    split; [by right|]. split; [done|lia].
  - injection Hstep as <-. cbn. split; [by right|]. split; [done|lia].
  - injection Hstep as <-. cbn. split; [done|]. split; [done|lia].
  - done.
Qed.

(** Every reachable state that has not returned yet can move. *)
Lemma join_progress c :
  counter_inv files c → mutex_inv c → launch_inv c →
  c_main c ≠ MReturned →
  ∃ ch c', step env this files ch c = Some c'.
Proof.
  intros [Hlen Hmain] Hmx Hl Hnr.
  assert (Hholder : c_mutex c = true → main_holds (c_main c) = false →
                    ∃ ch c', step env this files ch c = Some c').
  { intros Hmu Hmh. destruct (Hmx Hmu) as [(j & pcj & Hj & Hh)|H]; [|congruence].
    assert (Hjf : (j < length files)%nat).
    { rewrite <- Hlen. by eapply lookup_lt_Some. }
    destruct (lookup_lt_is_Some_2 files j Hjf) as [f Hf].
    exists (Goroutine j []). cbn. unfold step_task. rewrite Hf, Hj.
    destruct pcj; try done; by eexists. }
  destruct (c_main c) as [|k| | | | |] eqn:Hm; try done.
  - exists Caller. cbn. unfold step_main. rewrite Hm. by eexists.
  - exists Caller. cbn. unfold step_main. rewrite Hm.
    destruct (k <? length files)%nat; by eexists.
  - destruct (Z.eqb_spec (c_wg c) 0) as [H0|Hne].
    { exists Caller. cbn. unfold step_main. rewrite Hm.
      destruct (Z.eqb_spec (c_wg c) 0); [by eexists|done]. }
    assert (Hex : ∃ j pcj, c_tasks c !! j = Some pcj ∧ pcj ≠ Finished).
    { destruct (decide (Forall (fun pc => pc = Finished) (c_tasks c))) as [Hall|Hnall].
      - exfalso. apply Hne. rewrite Hmain.
        assert (unfinished (c_tasks c) = 0) as ->; [|done].
        unfold unfinished. clear -Hall.
        induction Hall as [|x l -> _ IH]; [done|]. cbn. by rewrite IH.
      - apply not_Forall_Exists, Exists_exists in Hnall as (pcj & Hin & Hnf); [|apply _].
        apply list_elem_of_lookup in Hin as [j Hj]. by exists j, pcj. }
    destruct Hex as (j & pcj & Hj & Hnf).
    assert (Hnl : pcj ≠ NotLaunched).
    { unfold launch_inv in Hl. rewrite Hm in Hl. rewrite Forall_lookup in Hl.
      by eapply Hl. }
    assert (Hjf : (j < length files)%nat).
    { rewrite <- Hlen. by eapply lookup_lt_Some. }
    destruct (lookup_lt_is_Some_2 files j Hjf) as [f Hf].
    destruct (c_mutex c) eqn:Hmu.
    { by apply Hholder. }
    exists (Goroutine j []). cbn. unfold step_task. rewrite Hf, Hj, Hmu.
    destruct pcj; try done; by eexists.
  - destruct (c_mutex c) eqn:Hmu.
    { by apply Hholder. }
    exists Caller. cbn. unfold step_main. rewrite Hm, Hmu. by eexists.
  - exists Caller. cbn. unfold step_main. rewrite Hm. by eexists.
  - exists Caller. cbn. unfold step_main. rewrite Hm. by eexists.
Qed.

Lemma reachable_step im fin c ch c' :
  reachable env this files im fin c →
  step env this files ch c = Some c' →
  reachable env this files im fin c'.
Proof.
  intros [sched ->] Hstep. exists (sched ++ [ch]).
  unfold run. rewrite foldl_app. cbn. fold (run env this files sched (entry files im fin)).
  by rewrite Hstep.
Qed.

Lemma reachable_ctrl_invs im fin c :
  reachable env this files im fin c → mutex_inv c ∧ launch_inv c.
Proof.
  intros [sched ->]. unfold run.
  induction sched as [|ch sched IH] using rev_ind; [done|].
  rewrite foldl_app. cbn.
  pose proof (reachable_invs env this files im fin _ (ex_intro _ sched eq_refl))
    as (Hc & _ & _).
  destruct IH as [Hmx Hl].
  destruct (step env this files ch _) as [c'|] eqn:Hstep; cbn; [|done].
  destruct ch as [|i picks]; cbn in Hstep.
  - by apply step_main_mutex in Hstep as (? & ? & _).
  - by apply step_task_mutex in Hstep as (? & ? & _).
Qed.

(** From every reachable state of the call some schedule brings the
    caller to its return: no interleaving of the parse phase can get
    stuck, and every step uses up one of finitely many. *)
Lemma join_returns im fin c :
  reachable env this files im fin c →
  ∃ sched, c_main (run env this files sched c) = MReturned.
Proof.
  remember (steps_left (length files) c) as n eqn:Hn. revert c Hn.
  induction n as [n IH] using lt_wf_ind. intros c -> Hreach.
  destruct (decide (c_main c = MReturned)) as [Hret|Hnr]; [by exists []|].
  pose proof (reachable_invs _ _ _ _ _ _ Hreach) as (Hc & _ & _).
  pose proof (reachable_ctrl_invs _ _ _ Hreach) as [Hmx Hl].
  destruct (join_progress c Hc Hmx Hl Hnr) as (ch & c' & Hstep).
  assert (Hlt : (steps_left (length files) c' < steps_left (length files) c)%nat).
  { destruct ch as [|i picks]; cbn in Hstep.
    - by apply step_main_mutex in Hstep as (_ & _ & ?).
    - by apply step_task_mutex in Hstep as (_ & _ & ?). }
  destruct (IH _ Hlt c' eq_refl (reachable_step _ _ _ _ _ Hreach Hstep)) as [sched Hs].
  exists (ch :: sched). unfold run in *. cbn. by rewrite Hstep.
Qed.

End JoinReturns.

(* ===================================================================== *)
(** ** Connections, the schema and recreate *)
(* ===================================================================== *)

(** The three ways through [ensureDbConnected] when there is no handle
    yet, and the one when there is. *)
Lemma ensureDbConnected_cases env this s r this' s' :
  ensureDbConnected env this s = ((r, this'), s') →
  (is_Some (db this) ∧ r = None ∧ this' = this ∧ s' = s)
  ∨ (db this = None
     ∧ ∃ evs, trace s' = trace s ++ evs
        ∧ ((∃ e, r = Some e ∧ this' = this
                 ∧ evs = [EvDb (Open (dsn_of this)) (Some e)])
           ∨ (∃ e, r = Some e ∧ this' = this
                   ∧ evs = [EvDb (Open (dsn_of this)) None;
                            EvSetMaxOpenConns (insertGoroutinesCnt this);
                            EvSetMaxIdleConns (insertGoroutinesCnt this);
                            EvDb Ping (Some e)])
           ∨ (r = None
              ∧ this' = set_db (Some (mkDB (dsn_of this) (insertGoroutinesCnt this)
                                           (insertGoroutinesCnt this))) this
              ∧ evs = connected this))).
Proof.
  unfold ensureDbConnected, connected, dsn_of. destruct (db this) as [h|] eqn:Hdb.
  { intros [= <- <- <-]. by left. }
  intros E. right. split; [done|]. revert E. run_calls.
  destruct (env_fault env (clock s) (Open _)) as [m1|] eqn:F1; cbn.
  { intros [= <- <- <-]. cbn. eexists. split; [done|]. left.
    eexists. split; [done|]. split; [done|]. by case_decide. }
  destruct (env_fault env (S (clock s)) Ping) as [m2|] eqn:F2; cbn.
  { intros [= <- <- <-]. cbn. eexists. split; [by rewrite <- !app_assoc|].
    right; left. eexists. split; [done|]. split; [done|]. by case_decide. }
  intros [= <- <- <-]. cbn. eexists. split; [by rewrite <- !app_assoc|].
  right; right. split; [done|]. by case_decide.
Qed.

Lemma truncate_or_log_not_connection e : truncate_or_log e → connection_event e = false.
Proof. by intros [(?&?&->)|(?&->)]. Qed.

Lemma insert_or_log_not_connection e : insert_or_log e → connection_event e = false.
Proof. by intros [(?&?&->)|(?&->)]. Qed.

Lemma parse_event_not_connection e : parse_event e → connection_event e = false.
Proof. by intros [(?&->)|(?&?&->)]. Qed.

Lemma load_path_not_connection env s s' r evs :
  load_path env s s' r evs → Forall (fun e => connection_event e = false) evs.
Proof.
  intros Hpath.
  destruct Hpath as [e _ _ _|e tevs r1 _ Hall _ _|e r1 _ _ _|ins r1 _ _ _ _ Hall _ _ _].
  - by repeat constructor.
  - constructor; [done|]. apply Forall_app. split; [|by repeat constructor].
    eapply Forall_impl; [done|]. apply truncate_or_log_not_connection.
  - constructor; [done|]. apply Forall_app. split; [|by repeat constructor].
    apply Forall_fmap, Forall_true. done.
  - constructor; [done|]. apply Forall_app. split.
    { apply Forall_fmap, Forall_true. done. }
    constructor; [done|]. apply Forall_app. split.
    { eapply Forall_impl; [done|]. apply insert_or_log_not_connection. }
    constructor; [done|]. apply Forall_app. split; [by destruct r; repeat constructor|].
    by repeat constructor.
Qed.

(** [importYmlFixtures] works on the connection it is given: it opens
    none and closes none. *)
Lemma importYmlFixtures_not_connection env this files s r s' :
  importYmlFixtures env this files s = (r, s') →
  ∃ evs, trace s' = trace s ++ evs
    ∧ Forall (fun e => connection_event e = false) evs.
Proof.
  intros E. apply importYmlFixtures_spec in E. cbn zeta in E.
  case_decide as Hin.
  - destruct E as (_ & r0 & E).
    apply loadParsedData_spec in E as (_ & evs & Htr & Hpath).
    exists (EvLog (LogText "Import YML fixtures") :: evs).
    split; [by rewrite Htr; cbn; rewrite <- app_assoc|].
    constructor; [done|]. by eapply load_path_not_connection.
  - destruct E as (u & s1 & Ep & E).
    apply pushInsertQueriesFromYmlToChannel_spec in Ep
      as (_ & _ & _ & _ & _ & pevs & Htr1 & Hall & _).
    apply loadParsedData_spec in E as (_ & evs & Htr & Hpath).
    exists (EvLog (LogText "Import YML fixtures") :: (EvGo ∘ Name <$> files) ++ pevs ++ evs).
    split.
    { rewrite Htr. cbn. rewrite Htr1. cbn. by rewrite <- !app_assoc. }
    constructor; [done|]. apply Forall_app. split.
    { apply Forall_fmap, Forall_true. done. }
    apply Forall_app. split.
    { eapply Forall_impl; [done|]. apply parse_event_not_connection. }
    by eapply load_path_not_connection.
Qed.

Lemma filter_app_none {A} (p : A → bool) (l1 l2 : list A) :
  Forall (fun x => p x = false) l2 → List.filter p (l1 ++ l2) = List.filter p l1.
Proof. intros H. by rewrite List.filter_app, (filter_none p l2), app_nil_r. Qed.

Lemma not_connection_not_Close e : connection_event e = false → is_Close e = false.
Proof. by destruct e as [| | | | | |[]]. Qed.

Lemma not_connection_not_Open e : connection_event e = false → is_Open e = false.
Proof. by destruct e as [| | | | | |[]]. Qed.

(** The connection events of [ImportFixtures]. *)
Lemma ImportFixtures_connection env this s r this' s' :
  ImportFixtures env this s = ((r, this'), s') →
  match env_ReadDir env (fixturesPathYml this) with
  | inr msg =>
      r = Some (ErrIO msg) ∧ this' = this
      ∧ events_since s s' = [EvReadDir (fixturesPathYml this)]
  | inl _ =>
      db this' = None
      ∧ ((∃ ievs rc,
            events_since s s'
            = EvReadDir (fixturesPathYml this)
                :: (if db this is None then connected this else [])
                ++ ievs ++ [EvDb Close rc]
            ∧ Forall (fun e => connection_event e = false) ievs)
         ∨ (db this = None
            ∧ ∃ e, r = Some e
                ∧ (events_since s s'
                   = [EvReadDir (fixturesPathYml this);
                      EvDb (Open (dsn_of this)) (Some e)]
                   ∨ events_since s s'
                     = [EvReadDir (fixturesPathYml this);
                        EvDb (Open (dsn_of this)) None;
                        EvSetMaxOpenConns (insertGoroutinesCnt this);
                        EvSetMaxIdleConns (insertGoroutinesCnt this);
                        EvDb Ping (Some e)])))
  end.
Proof.
  intros E. apply ImportFixtures_spec in E.
  destruct (env_ReadDir env (fixturesPathYml this)) as [entries|msg].
  2:{ destruct E as (-> & -> & ->). split; [done|]. split; [done|].
      by apply events_since_app. }
  destruct E as (rc & thisc & sc & Ec & E).
  apply ensureDbConnected_cases in Ec
    as [(Hdb & -> & -> & ->)|(Hdb & cevs & Htr & Hc)].
  - destruct E as (si & Ei & Ed).
    apply importYmlFixtures_not_connection in Ei as (ievs & Hti & Hall).
    apply ensureDbDisconnected_spec in Ed as (_ & _ & _ & _ & -> & rc & Htr').
    split; [done|]. left. exists ievs, rc.
    destruct Hdb as [h Hdb]. rewrite Hdb. split; [|done].
    apply events_since_app. rewrite Htr', Hti. cbn. by rewrite <- !app_assoc.
  - destruct Hc as [(e & -> & -> & ->)|[(e & -> & -> & ->)|(-> & -> & ->)]].
    + destruct E as (-> & -> & ->). split; [done|]. right. split; [done|].
      exists e. split; [done|]. left.
      apply events_since_app. rewrite Htr. cbn. by rewrite <- app_assoc.
    + destruct E as (-> & -> & ->). split; [done|]. right. split; [done|].
      exists e. split; [done|]. right.
      apply events_since_app. rewrite Htr. cbn. by rewrite <- app_assoc.
    + destruct E as (si & Ei & Ed).
      apply importYmlFixtures_not_connection in Ei as (ievs & Hti & Hall).
      apply ensureDbDisconnected_spec in Ed as (_ & _ & _ & _ & -> & rc & Htr').
      split; [done|]. left. exists ievs, rc. rewrite Hdb. split; [|done].
      apply events_since_app. rewrite Htr', Hti, Htr. cbn. by rewrite <- !app_assoc.
Qed.

(** X1.  [ImportFixtures] closes the connection it worked on and leaves
    the receiver without one.  When the directory cannot be listed nothing
    but the listing happens.  Otherwise the receiver's handle is nil on
    return; the call closes the handle as its last act, having opened it
    itself (once) when the receiver had none and opened nothing when it
    had one; only when opening or pinging failed is there no Close: the
    call returns the error and a handle whose ping failed is dropped as
    it is. *)
Theorem import_closes_the_connection_it_used
    (env : Env) (this : Fixturer) (s : State) :
  let out := ImportFixtures env this s in
  let this' := snd (fst out) in
  let evs := events_since s (snd out) in
  match env_ReadDir env (fixturesPathYml this) with
  | inr msg => this' = this ∧ evs = [EvReadDir (fixturesPathYml this)]
  | inl _ =>
      db this' = None
      ∧ ((∃ pre rc, evs = pre ++ [EvDb Close rc]
            ∧ List.filter is_Close pre = []
            ∧ List.filter is_Open pre
              = (if db this is None then [EvDb (Open (dsn_of this)) None] else []))
         ∨ (db this = None ∧ is_Some (fst (fst out))
            ∧ List.filter is_Close evs = [] ∧ ¬ In (EvDb Ping None) evs))
  end.
Proof.
  intros out this' evs. subst out this' evs.
  destruct (ImportFixtures env this s) as [[r this1] s1] eqn:E. cbn [fst snd].
  apply ImportFixtures_connection in E.
  destruct (env_ReadDir env (fixturesPathYml this)) as [entries|msg];
    [|by destruct E as (_ & -> & ->)].
  destruct E as [Hdb [(ievs & rc & -> & Hall)|(Hn & e & -> & [->| ->])]].
  - split; [done|]. left.
    exists (EvReadDir (fixturesPathYml this)
              :: (if db this is None then connected this else []) ++ ievs), rc.
    split; [cbn; by rewrite <- !app_assoc|].
    assert (Hc : List.filter is_Close ievs = [])
      by (apply filter_none; eapply Forall_impl; [done|]; apply not_connection_not_Close).
    assert (Ho : List.filter is_Open ievs = [])
      by (apply filter_none; eapply Forall_impl; [done|]; apply not_connection_not_Open).
    destruct (db this); cbn; by rewrite ?Hc, ?Ho.
  - split; [done|]. right. do 3 (split; [done|]).
    intros [H|[H|[]]]; discriminate H.
  - split; [done|]. right. do 3 (split; [done|]).
    intros H. cbn in H. intuition discriminate.
Qed.

(** ** The schema, statement by statement *)

Lemma schema_pieces_cons q queries :
  schema_pieces (q :: queries)
  = if decide (String.length (TrimSpace q) = 0) then schema_pieces queries
    else TrimSpace q :: schema_pieces queries.
Proof.
  unfold schema_pieces. rewrite fmap_cons, filter_cons.
  destruct (decide (String.length (TrimSpace q) = 0)); by case_decide.
Qed.

Lemma ErrDb_fault (m : option string) e : ErrDb <$> m = Some e → ∃ msg, e = ErrDb msg.
Proof. destruct m; intros [= <-]. by eexists. Qed.

Lemma ErrDb_not_TxDone (m : option string) : ErrDb <$> m ≠ Some ErrTxDone.
Proof. by destruct m. Qed.

Lemma schema_loop_run env queries s r s' acc :
  schema_loop env queries s = (r, s') →
  pending s = Some acc →
  is_Some (pending s')
  ∧ match r with
    | None => trace s' = trace s ++ (sent_ok <$> schema_pieces queries)
    | Some e =>
        ∃ sent query msg,
          (sent ++ [query]) `prefix_of` schema_pieces queries
          ∧ e = ErrDb msg
          ∧ trace s' = trace s ++ (sent_ok <$> sent)
                         ++ [EvDb (TxExec (Sql query)) (Some e)]
    end.
Proof.
  revert s r s' acc.
  induction queries as [|q queries IH]; intros s r s' acc; cbn [schema_loop].
  - intros [= <- <-] Hp. split; [by rewrite Hp|]. cbn. by rewrite app_nil_r.
  - rewrite schema_pieces_cons.
    case_decide as Hlen; [apply IH|].
    unfold bind at 1.
    destruct (tx_Exec env (Sql (TrimSpace q)) s) as [r1 s1] eqn:E1.
    apply tx_Exec_spec in E1 as (Htr1 & _ & _ & _ & Hpend1).
    intros E2 Hp. rewrite Hp in Hpend1. destruct Hpend1 as [Hr1 Hp1].
    destruct r1 as [e1|].
    + injection E2 as <- <-. split; [by rewrite Hp1|].
      symmetry in Hr1. apply ErrDb_fault in Hr1 as [msg ->].
      exists [], (TrimSpace q), msg. split; [|done].
      by apply prefix_cons, prefix_nil.
    + apply (IH _ _ _ (acc ++ [Sql (TrimSpace q)])) in E2 as [Hsome Hr]; [|done].
      split; [done|]. destruct r as [e|].
      * destruct Hr as (sent & query & msg & Hpre & -> & Htr).
        exists (TrimSpace q :: sent), query, msg.
        split; [by apply prefix_cons|]. split; [done|].
        rewrite Htr, Htr1. cbn. by rewrite <- app_assoc.
      * rewrite Hr, Htr1. cbn. by rewrite <- app_assoc.
Qed.

(** [LoadDbSchema], call by call. *)
Lemma LoadDbSchema_run env this s r this' s' :
  LoadDbSchema env this s = ((r, this'), s') →
  ∃ rc sc,
    ensureDbConnected env this (logged (LogText "Load database schema") s)
    = ((rc, this'), sc)
    ∧ match rc with
      | Some e => r = Some e ∧ s' = sc
      | None =>
          ∃ tail, trace s' = trace sc ++ tail ∧ schema_run env this r tail
                  ∧ (pending sc = None → pending s' = None)
      end.
Proof.
  unfold LoadDbSchema. unfold bind at 1, log at 1, emit at 1, modify at 1.
  fold (logged (LogText "Load database schema") s).
  set (sl := logged _ s). unfold bind at 1.
  destruct (ensureDbConnected env this sl) as [[r0 this0] s0] eqn:E0.
  cbn [fst snd].
  destruct r0 as [e0|].
  { intros [= <- <- <-]. by exists (Some e0), s0. }
  unfold bind at 1.
  destruct (db_Begin env s0) as [r1 s1] eqn:E1.
  apply db_Begin_spec in E1 as (Hr1 & Htr1 & _ & Hp1 & _ & _).
  destruct r1 as [e1|].
  { intros [= <- <- <-]. exists None, s0. split; [done|].
    exists [EvDb Begin (Some e1)]. split; [done|]. split; [|by rewrite Hp1].
    symmetry in Hr1. apply ErrDb_fault in Hr1 as [msg ->]. by eapply run_not_begun. }
  unfold bind at 1.
  destruct (tx_Exec env (SetForeignKeyChecks false) s1) as [r2 s2] eqn:E2.
  apply tx_Exec_spec in E2 as (Htr2 & _ & _ & _ & Hpend2).
  rewrite Hp1 in Hpend2. destruct Hpend2 as [Hr2 Hp2].
  destruct r2 as [e2|].
  { unfold bind at 1.
    destruct (tx_Rollback env s2) as [r3 s3] eqn:E3.
    apply tx_Rollback_spec in E3 as (Htr3 & Hp3 & _).
    intros [= <- <- <-]. exists None, s0. split; [done|].
    exists [EvDb Begin None; tx_fk_off (Some e2); EvDb Rollback r3].
    split; [rewrite Htr3, Htr2, Htr1; by rewrite <- !app_assoc|].
    split; [|done].
    symmetry in Hr2. apply ErrDb_fault in Hr2 as [msg ->].
    by eapply run_switch_refused. }
  cbn in Hp2.
  unfold bind at 1, emit at 1, modify at 1.
  set (s2r := set_trace _ s2). unfold bind at 1.
  destruct (env_ReadFile env (schema this)) as [file|msg] eqn:Hfile.
  - unfold bind at 1.
    destruct (schema_loop env (Split file ";"%char) s2r) as [r3 s3] eqn:E3.
    apply (schema_loop_run _ _ _ _ _ [SetForeignKeyChecks false]) in E3
      as [[acc3 Hp3] Hr3]; [|by subst s2r].
    destruct r3 as [e3|].
    + unfold ret at 1. unfold bind at 1.
      destruct (tx_Exec env (SetForeignKeyChecks true) s3) as [r4 s4] eqn:E4.
      apply tx_Exec_spec in E4 as (Htr4 & _ & _ & _ & Hpend4).
      rewrite Hp3 in Hpend4. destruct Hpend4 as [Hr4 _].
      assert (r4 ≠ Some ErrTxDone) as Hlive
        by (rewrite Hr4; apply ErrDb_not_TxDone).
      unfold bind at 1.
      destruct (tx_Rollback env s4) as [r5 s5] eqn:E5.
      apply tx_Rollback_spec in E5 as (Htr5 & Hp5 & _).
      intros [= <- <- <-]. exists None, s0. split; [done|].
      destruct Hr3 as (sent & query & msg & Hpre & -> & Htr3).
      eexists. split; [|split; [by eapply run_statement_refused|done]].
      rewrite Htr5, Htr4, Htr3. subst s2r. cbn. rewrite Htr2, Htr1.
      by rewrite <- !app_assoc.
    + destruct (tx_Commit env s3) as [r4 s4] eqn:E4.
      apply tx_Commit_spec in E4 as (Htr4 & Hp4 & _ & _ & Hc4).
      rewrite Hp3 in Hc4. destruct Hc4 as [Hr4 _].
      unfold bind at 1.
      destruct (tx_Exec env (SetForeignKeyChecks true) s4) as [r5 s5] eqn:E5.
      apply tx_Exec_spec in E5 as (Htr5 & _ & _ & _ & Hpend5).
      rewrite Hp4 in Hpend5. destruct Hpend5 as [-> Hp5].
      unfold bind at 1.
      destruct (tx_Rollback env s5) as [r6 s6] eqn:E6.
      apply tx_Rollback_spec in E6 as (Htr6 & Hp6 & _ & _ & _ & Hr6).
      rewrite (Hr6 Hp5) in Htr6.
      intros [= <- <- <-]. exists None, s0. split; [done|].
      eexists. split; [|split; [eapply (run_commit_reached _ _ _ file); [done|]|done]].
      * rewrite Htr6, Htr5, Htr4, Hr3. subst s2r. cbn. rewrite Htr2, Htr1.
        by rewrite <- !app_assoc.
      * intros e He. rewrite He in Hr4. symmetry in Hr4. by apply ErrDb_fault in Hr4.
  - unfold ret at 1. unfold bind at 1.
    destruct (tx_Exec env (SetForeignKeyChecks true) s2r) as [r4 s4] eqn:E4.
    apply tx_Exec_spec in E4 as (Htr4 & _ & _ & _ & Hpend4).
    assert (r4 ≠ Some ErrTxDone) as Hlive.
    { subst s2r. cbn in Hpend4. rewrite Hp2 in Hpend4. destruct Hpend4 as [-> _].
      apply ErrDb_not_TxDone. }
    unfold bind at 1.
    destruct (tx_Rollback env s4) as [r5 s5] eqn:E5.
    apply tx_Rollback_spec in E5 as (Htr5 & Hp5 & _).
    intros [= <- <- <-]. exists None, s0. split; [done|].
    eexists. split; [|split; [by eapply run_file_unread|done]].
    rewrite Htr5, Htr4. subst s2r. cbn. rewrite Htr2, Htr1.
    by rewrite <- !app_assoc.
Qed.

(** *** The pieces of the schema file *)

Lemma Split_nonempty s sep : Split s sep ≠ [].
Proof.
  destruct s as [|c s]; cbn; [done|].
  destruct (Ascii.eqb c sep); [done|]. by destruct (Split s sep).
Qed.

Lemma Split_no_sep s sep piece :
  piece ∈ Split s sep → sep ∉ list_ascii_of_string piece.
Proof.
  revert piece. induction s as [|c s IH]; intros piece; cbn.
  - intros ->%list_elem_of_singleton. cbn. apply not_elem_of_nil.
  - destruct (Ascii.eqb c sep) eqn:Hc.
    + intros [->|Hin]%elem_of_cons; [cbn; apply not_elem_of_nil|by apply IH].
    + pose proof (Split_nonempty s sep) as Hne.
      destruct (Split s sep) as [|p ps]; [done|].
      intros [->|Hin]%elem_of_cons.
      * cbn. intros [->|Hin]%elem_of_cons.
        { by rewrite Ascii.eqb_refl in Hc. }
        revert Hin. apply IH. by left.
      * apply IH. by right.
Qed.

(** Joining the pieces with the separator gives the text back. *)
Lemma Split_concat s sep :
  String.concat (String sep EmptyString) (Split s sep) = s.
Proof.
  induction s as [|c s IH]; cbn; [done|].
  destruct (Ascii.eqb c sep) eqn:Hc.
  - apply Ascii.eqb_eq in Hc as ->.
    pose proof (Split_nonempty s sep) as Hne.
    destruct (Split s sep) as [|p ps]; [done|]. cbn in *. by rewrite IH.
  - pose proof (Split_nonempty s sep) as Hne.
    destruct (Split s sep) as [|p ps]; [done|]. cbn in *.
    destruct ps; cbn in *; by rewrite <- IH.
Qed.

Section RunesTrimmed.

Variable sp1 : ascii → bool.
Variable sp2 : ascii → ascii → bool.
Variable sp3 : ascii → ascii → ascii → bool.

(** What is left after trimming is the end of the text. *)
Lemma trim_runes_suffix l : ∃ w, l = w ++ trim_runes sp1 sp2 sp3 l.
Proof.
  remember (length l) as n eqn:Hn. revert l Hn.
  induction (lt_wf n) as [n _ IH]. intros l ->.
  destruct l as [|c1 l1]; [by exists []|]. cbn [trim_runes].
  destruct (sp1 c1).
  { destruct (IH (length l1) ltac:(cbn; lia) l1 eq_refl) as [w Hw].
    exists (c1 :: w). cbn. by rewrite <- Hw. }
  destruct l1 as [|c2 l2]; [by exists []|].
  destruct (sp2 c1 c2).
  { destruct (IH (length l2) ltac:(cbn; lia) l2 eq_refl) as [w Hw].
    exists (c1 :: c2 :: w). cbn. by rewrite <- Hw. }
  destruct l2 as [|c3 l3]; [by exists []|].
  destruct (sp3 c1 c2 c3); [|by exists []].
  destruct (IH (length l3) ltac:(cbn; lia) l3 eq_refl) as [w Hw].
  exists (c1 :: c2 :: c3 :: w). cbn. by rewrite <- Hw.
Qed.

(** It does not begin with a white-space rune. *)
Lemma trim_runes_front l : space_front sp1 sp2 sp3 (trim_runes sp1 sp2 sp3 l) = false.
Proof.
  remember (length l) as n eqn:Hn. revert l Hn.
  induction (lt_wf n) as [n _ IH]. intros l ->.
  destruct l as [|c1 l1]; [done|]. cbn [trim_runes].
  destruct (sp1 c1) eqn:H1; [by apply (IH (length l1)); cbn; [lia|]|].
  destruct l1 as [|c2 l2]; [by cbn; rewrite H1|].
  destruct (sp2 c1 c2) eqn:H2; [by apply (IH (length l2)); cbn; [lia|]|].
  destruct l2 as [|c3 l3]; [by cbn; rewrite H1, H2|].
  destruct (sp3 c1 c2 c3) eqn:H3; [by apply (IH (length l3)); cbn; [lia|]|].
  cbn. by rewrite H1, H2, H3.
Qed.

(** A text that begins with a white-space rune does so whatever
    follows. *)
Lemma space_front_app l k :
  space_front sp1 sp2 sp3 l = true → space_front sp1 sp2 sp3 (l ++ k) = true.
Proof.
  destruct l as [|c1 [|c2 [|c3 l]]]; cbn; try done.
  - rewrite orb_false_r. by intros ->.
  - rewrite orb_false_r. intros [->| ->]%orb_true_iff; [done|].
    rewrite orb_true_r. by destruct k; rewrite ?orb_true_r.
Qed.

End RunesTrimmed.

Lemma trim_left_suffix l : ∃ w, l = w ++ trim_left l.
Proof. apply trim_runes_suffix. Qed.

Lemma trim_right_prefix l : ∃ w, l = trim_right l ++ w.
Proof.
  unfold trim_right.
  destruct (trim_runes_suffix is_space (fun c2 c1 => is_space2 c1 c2)
              (fun c3 c2 c1 => is_space3 c1 c2 c3) (rev l)) as [w Hw].
  exists (rev w). by rewrite <- rev_app_distr, <- Hw, rev_involutive.
Qed.

Lemma list_ascii_of_TrimSpace q :
  list_ascii_of_string (TrimSpace q)
  = trim_right (trim_left (list_ascii_of_string q)).
Proof. unfold TrimSpace. apply list_ascii_of_string_of_list_ascii. Qed.

Lemma TrimSpace_chars q c :
  c ∈ list_ascii_of_string (TrimSpace q) → c ∈ list_ascii_of_string q.
Proof.
  rewrite list_ascii_of_TrimSpace. intros Hc.
  destruct (trim_left_suffix (list_ascii_of_string q)) as [w1 H1].
  destruct (trim_right_prefix (trim_left (list_ascii_of_string q))) as [w2 H2].
  rewrite H1, H2, !elem_of_app. auto.
Qed.

Lemma TrimSpace_trimmed q :
  String.length (TrimSpace q) ≠ 0 →
  ";"%char ∉ list_ascii_of_string q →
  trimmed_statement (TrimSpace q).
Proof.
  intros Hlen Hsep. unfold trimmed_statement.
  split; [by intros E; rewrite E in Hlen|].
  split; [by intros ?%TrimSpace_chars|].
  unfold begins_with_space, ends_with_space. rewrite list_ascii_of_TrimSpace.
  split.
  - destruct (trim_right_prefix (trim_left (list_ascii_of_string q))) as [w Hw].
    pose proof (trim_runes_front is_space is_space2 is_space3 (list_ascii_of_string q))
      as Hfront.
    fold (trim_left (list_ascii_of_string q)) in Hfront.
    destruct (space_front _ _ _ (trim_right _)) eqn:E; [|done].
    apply (space_front_app _ _ _ _ w) in E. by rewrite <- Hw, Hfront in E.
  - unfold trim_right. rewrite rev_involutive. apply trim_runes_front.
Qed.

(** White space outside ASCII is taken off as well: a no-break space
    (U+00A0) and a tab in front, a line feed and an ideographic space
    (U+3000) behind; a byte that begins no white-space rune stays. *)
Lemma TrimSpace_unicode_white_space :
  let nbsp := String (ascii_of_nat 194) (String (ascii_of_nat 160) "") in
  let ideographic :=
    String (ascii_of_nat 227) (String (ascii_of_nat 128) (String (ascii_of_nat 128) "")) in
  let tab := String (ascii_of_nat 9) "" in
  let lf := String (ascii_of_nat 10) "" in
  TrimSpace (nbsp ++ tab ++ "SELECT 1" ++ lf ++ ideographic) = "SELECT 1"
  ∧ TrimSpace (String (ascii_of_nat 194) " x ") = String (ascii_of_nat 194) " x".
Proof. split; vm_compute; reflexivity. Qed.

Lemma schema_statements_trimmed file query :
  query ∈ schema_statements file → trimmed_statement query.
Proof.
  unfold schema_statements, schema_pieces.
  intros [Hlen (q & -> & Hin)%list_elem_of_fmap]%list_elem_of_filter.
  apply TrimSpace_trimmed; [done|]. by eapply Split_no_sep.
Qed.

Lemma schema_sent_app evs1 evs2 :
  schema_sent (evs1 ++ evs2) = schema_sent evs1 ++ schema_sent evs2.
Proof. apply omap_app. Qed.

Lemma schema_sent_sent_ok l : schema_sent (sent_ok <$> l) = l.
Proof. induction l as [|q l IH]; cbn; [done|]. by f_equal. Qed.

Lemma schema_sent_connection evs :
  Forall (fun e => connection_event e = true) evs → schema_sent evs = [].
Proof.
  induction 1 as [|e evs He _ IH]; [done|]. cbn.
  by destruct e as [| | | | | |[| | |[]|  |[]| |] ?].
Qed.

(** What [LoadDbSchema] leaves in the trace: its log line, the events of
    connecting (none when the receiver holds a handle), and the run. *)
Lemma LoadDbSchema_events env this s r this' s' :
  LoadDbSchema env this s = ((r, this'), s') →
  ∃ cevs tail,
    events_since s s' = EvLog (LogText "Load database schema") :: cevs ++ tail
    ∧ Forall (fun e => connection_event e = true) cevs
    ∧ Forall (fun e => is_Close e = false) cevs
    ∧ (is_Some (db this) → cevs = [] ∧ this' = this)
    ∧ ((∃ msg, r = Some (ErrDb msg) ∧ tail = [] ∧ db this' = None)
       ∨ (is_Some (db this') ∧ schema_run env this r tail))
    ∧ (pending s = None → pending s' = None).
Proof.
  intros E. apply LoadDbSchema_run in E as (rc & sc & Ec & E).
  pose proof Ec as Ec'.
  apply ensureDbConnected_spec in Ec' as (_ & _ & Hp & _ & _ & _ & _ & _ & _ & Herr).
  apply ensureDbConnected_cases in Ec
    as [(Hdb & -> & -> & ->)|(Hdb & cevs & Htr & Hc)].
  - destruct E as (tail & Htr & Hrun & Hpend).
    exists [], tail. split; [apply events_since_app; by rewrite Htr; cbn; rewrite <- app_assoc|].
    do 2 (split; [done|]). split; [done|]. split; [by right|]. done.
  - exists cevs.
    destruct Hc as [(e & -> & -> & ->)|[(e & -> & -> & ->)|(-> & -> & ->)]].
    + destruct E as [-> ->]. exists []. rewrite app_nil_r.
      split; [apply events_since_app; by rewrite Htr; cbn; rewrite <- app_assoc|].
      split; [by repeat constructor|]. split; [by repeat constructor|].
      split; [by rewrite Hdb; intros [? [=]]|].
      split; [|by rewrite Hp]. left. destruct (Herr _ eq_refl) as [msg ->]. by exists msg.
    + destruct E as [-> ->]. exists []. rewrite app_nil_r.
      split; [apply events_since_app; by rewrite Htr; cbn; rewrite <- app_assoc|].
      split; [by repeat constructor|]. split; [by repeat constructor|].
      split; [by rewrite Hdb; intros [? [=]]|].
      split; [|by rewrite Hp]. left. destruct (Herr _ eq_refl) as [msg ->]. by exists msg.
    + destruct E as (tail & Htr' & Hrun & Hpend). exists tail.
      split; [apply events_since_app; rewrite Htr', Htr; cbn; by rewrite <- !app_assoc|].
      split; [by repeat constructor|]. split; [by repeat constructor|].
      split; [by rewrite Hdb; intros [? [=]]|].
      split; [by right|]. intros Hs. apply Hpend. by rewrite Hp.
Qed.

(** X2.  The statements [LoadDbSchema] sends from the schema file are
    the pieces of the file between semicolons, each with the white space
    at its ends taken off and the empty ones left out, in the order of
    the file: what was sent is always a front part of that list, and the
    whole of it, followed by the commit, when the call returns nil.
    None of them is empty, holds a semicolon, or begins or ends with
    white space.  When the file cannot be read none is sent. *)
Theorem schema_is_sent_piece_by_piece
    (env : Env) (this : Fixturer) (s : State) :
  let out := LoadDbSchema env this s in
  let evs := events_since s (snd out) in
  Forall trimmed_statement (schema_sent evs)
  ∧ match env_ReadFile env (schema this) with
    | inl file =>
        schema_sent evs `prefix_of` schema_statements file
        ∧ (fst (fst out) = None →
           schema_sent evs = schema_statements file
           ∧ In (EvDb Commit None) evs)
    | inr _ => schema_sent evs = [] ∧ is_Some (fst (fst out))
    end.
Proof.
  intros out evs. subst out evs.
  destruct (LoadDbSchema env this s) as [[r this1] s1] eqn:E. cbn [fst snd].
  apply LoadDbSchema_events in E
    as (cevs & tail & -> & Hall & _ & _ & Hrun & _).
  change (EvLog ?l :: cevs ++ tail) with ([EvLog l] ++ cevs ++ tail).
  rewrite !schema_sent_app, (schema_sent_connection cevs Hall). cbn [schema_sent omap app].
  cbn.
  destruct Hrun as [(msg & -> & -> & _)|[_ Hrun]].
  { cbn. split; [done|]. destruct (env_ReadFile _ _); [|done].
    split; [apply prefix_nil|done]. }
  destruct Hrun as [msg ->|msg r2 ->|msg r1 r2 Hf ->|file sent query msg r1 r2 Hf Hpre ->
                   |file Hf Herr].
  - cbn. split; [done|]. destruct (env_ReadFile _ _); [|done].
    split; [apply prefix_nil|done].
  - cbn. split; [done|]. destruct (env_ReadFile _ _); [|done].
    split; [apply prefix_nil|done].
  - rewrite Hf. cbn. done.
  - rewrite Hf. rewrite !schema_sent_app, schema_sent_sent_ok. cbn.
    split; [|split; [done|done]].
    apply Forall_forall. intros q Hq.
    apply (schema_statements_trimmed file).
    destruct Hpre as [k ->]. apply elem_of_app. by left.
  - rewrite Hf. rewrite !schema_sent_app, schema_sent_sent_ok. cbn.
    rewrite app_nil_r.
    split; [apply Forall_forall; intros q; apply schema_statements_trimmed|].
    split; [done|]. intros ->. split; [done|].
    right. in_list.
Qed.

Lemma schema_is_sent_piece_by_piece_witness :
  let s := init_State ∅ in
  let out := LoadDbSchema (schema_env no_fault) fixturer_fx s in
  fst (fst out) = None
  ∧ schema_sent (events_since s (snd out))
    = ["CREATE TABLE users (id INT)"; "CREATE TABLE orders (id INT)"]
  ∧ Forall trimmed_statement
      ["CREATE TABLE users (id INT)"; "CREATE TABLE orders (id INT)"].
Proof.
  intros s out.
  assert (Hsent : schema_sent (events_since s (snd out))
                  = ["CREATE TABLE users (id INT)"; "CREATE TABLE orders (id INT)"])
    by (vm_compute; reflexivity).
  split; [vm_compute; reflexivity|]. split; [exact Hsent|].
  rewrite <- Hsent.
  exact (proj1 (schema_is_sent_piece_by_piece (schema_env no_fault) fixturer_fx s)).
Defined.

(** X3.  A schema statement the server refuses ends the schema load:
    the call returns that error; every statement sent before it was
    accepted; nothing is sent after it but the re-enabling of the
    constraint checks and the rollback, in this order; there is no
    commit. *)
Theorem schema_load_stops_at_the_first_refused_statement
    (env : Env) (this : Fixturer) (s : State) (query : string) (e : error) :
  let out := LoadDbSchema env this s in
  let evs := events_since s (snd out) in
  In (EvDb (TxExec (Sql query)) (Some e)) evs →
  fst (fst out) = Some e
  ∧ List.filter is_Commit evs = []
  ∧ ∃ pre sent r1 r2,
      evs = pre ++ (sent_ok <$> sent)
              ++ [EvDb (TxExec (Sql query)) (Some e); tx_fk_on r1; EvDb Rollback r2]
      ∧ schema_sent pre = [].
Proof.
  intros out evs. subst out evs.
  destruct (LoadDbSchema env this s) as [[r this1] s1] eqn:E. cbn [fst snd].
  apply LoadDbSchema_events in E
    as (cevs & tail & -> & Hall & _ & _ & Hrun & _).
  intros Hin.
  assert (Hc : ∀ l, Forall (fun e => connection_event e = true) l →
               ¬ In (EvDb (TxExec (Sql query)) (Some e)) l).
  { intros l Hl Hq. rewrite Forall_forall in Hl.
    apply list_elem_of_In, Hl in Hq. done. }
  assert (Hs : ∀ l, ¬ In (EvDb (TxExec (Sql query)) (Some e)) (sent_ok <$> l)).
  { intros l Hq. apply list_elem_of_In, list_elem_of_fmap in Hq as (q & [=] & _). }
  destruct Hin as [[=]|Hin]. apply in_app_or in Hin as [Hin|Hin]; [by apply Hc in Hin|].
  destruct Hrun as [(msg & -> & -> & _)|[_ Hrun]]; [done|].
  destruct Hrun as [msg ->|msg r2 ->|msg r1 r2 Hf ->|file sent q msg r1 r2 Hf Hpre ->
                   |file Hf Herr].
  - destruct Hin as [[=]|[]].
  - destruct Hin as [[=]|[[=]|[[=]|[]]]].
  - destruct Hin as [[=]|[[=]|[[=]|[[=]|[[=]|[]]]]]].
  - cbn in Hin. destruct Hin as [[=]|[[=]|[[=]|Hin]]].
    apply in_app_or in Hin as [Hin|Hin]; [by apply Hs in Hin|].
    destruct Hin as [[= -> <-]|[[=]|[[=]|[]]]].
    split; [done|]. split.
    { apply filter_none. constructor; [done|]. apply Forall_app. split.
      { eapply Forall_impl; [done|]. by intros [| | | | | |[]]. }
      apply Forall_app. split; [by repeat constructor|].
      apply Forall_app. split; [|by repeat constructor].
      apply Forall_fmap, Forall_true. done. }
    exists (EvLog (LogText "Load database schema") :: cevs
              ++ [EvDb Begin None; tx_fk_off None; EvReadFile (schema this)]),
           sent, r1, r2.
    split; [cbn; by rewrite <- !app_assoc|].
    change (EvLog ?l :: ?x) with ([EvLog l] ++ x).
    by rewrite !schema_sent_app, (schema_sent_connection cevs Hall).
  - cbn in Hin. destruct Hin as [[=]|[[=]|[[=]|Hin]]].
    apply in_app_or in Hin as [Hin|Hin]; [by apply Hs in Hin|].
    destruct Hin as [[=]|[[=]|[[=]|[]]]].
Qed.

Lemma schema_load_stops_at_the_first_refused_statement_witness :
  let s := init_State ∅ in
  let out := LoadDbSchema (schema_env orders_fault) fixturer_fx s in
  fst (fst out) = Some (ErrDb "table exists")
  ∧ List.filter is_Commit (events_since s (snd out)) = []
  ∧ schema_sent (events_since s (snd out))
    = ["CREATE TABLE users (id INT)"; "CREATE TABLE orders (id INT)"].
Proof.
  intros s out.
  destruct (schema_load_stops_at_the_first_refused_statement
              (schema_env orders_fault) fixturer_fx s
              "CREATE TABLE orders (id INT)" (ErrDb "table exists"))
    as (H1 & H2 & _).
  { vm_compute. do 9 right. left. reflexivity. }
  split; [exact H1|]. split; [exact H2|]. vm_compute. reflexivity.
Defined.

Lemma connection_event_not_ReadFile e : connection_event e = true → is_ReadFile e = false.
Proof. by destruct e as [| | | | | |[]]. Qed.

(** X4.  [LoadDbSchema] reads the schema file at most once, and only
    inside its transaction: right after the transaction is begun and the
    switching-off of the constraint checks is accepted.  When the file
    cannot be read the call returns the error of the read, having sent no
    statement but the re-enabling of the checks, followed by the
    rollback; and an error of reading is returned in no other case. *)
Theorem schema_file_is_read_inside_the_transaction
    (env : Env) (this : Fixturer) (s : State) :
  let out := LoadDbSchema env this s in
  let evs := events_since s (snd out) in
  (List.filter is_ReadFile evs = []
   ∨ ∃ pre post,
       evs = pre ++ [EvDb Begin None; tx_fk_off None; EvReadFile (schema this)] ++ post
       ∧ List.filter is_ReadFile pre = [] ∧ List.filter is_ReadFile post = []
       ∧ ∀ msg, env_ReadFile env (schema this) = inr msg →
                fst (fst out) = Some (ErrIO msg)
                ∧ ∃ r1 r2, post = [tx_fk_on r1; EvDb Rollback r2])
  ∧ (∀ msg, fst (fst out) = Some (ErrIO msg) →
            env_ReadFile env (schema this) = inr msg
            ∧ In (EvReadFile (schema this)) evs).
Proof.
  intros out evs. subst out evs.
  destruct (LoadDbSchema env this s) as [[r this1] s1] eqn:E. cbn [fst snd].
  apply LoadDbSchema_events in E
    as (cevs & tail & -> & Hall & _ & _ & Hrun & _).
  assert (Hcr : List.filter is_ReadFile cevs = []).
  { apply filter_none. eapply Forall_impl; [done|]. apply connection_event_not_ReadFile. }
  assert (Hpre : List.filter is_ReadFile (EvLog (LogText "Load database schema") :: cevs)
                 = []) by (cbn; done).
  assert (Hsent : ∀ l, List.filter is_ReadFile (sent_ok <$> l) = []).
  { intros l. apply filter_none, Forall_fmap, Forall_true. done. }
  destruct Hrun as [(msg & -> & -> & _)|[_ Hrun]].
  { rewrite app_nil_r. split; [by left|]. intros ? [=]. }
  destruct Hrun as [msg ->|msg r2 ->|msg r1 r2 Hf ->|file sent q msg r1 r2 Hf Hp ->
                   |file Hf Herr].
  - split; [left|intros ? [=]].
    change (?a :: cevs ++ ?t) with ((a :: cevs) ++ t).
    by rewrite List.filter_app, Hpre.
  - split; [left|intros ? [=]].
    change (?a :: cevs ++ ?t) with ((a :: cevs) ++ t).
    by rewrite List.filter_app, Hpre.
  - split.
    + right. exists (EvLog (LogText "Load database schema") :: cevs),
                    [tx_fk_on r1; EvDb Rollback r2].
      split; [done|]. split; [done|]. split; [done|].
      intros msg'. rewrite Hf. intros [= <-]. split; [done|]. by eexists _, _.
    + intros ? [= <-]. split; [done|]. right. in_list.
  - split.
    + right. exists (EvLog (LogText "Load database schema") :: cevs). eexists.
      split; [done|]. split; [done|].
      split; [by rewrite List.filter_app, Hsent|].
      intros msg'. by rewrite Hf.
    + intros ? [=].
  - split.
    + right. exists (EvLog (LogText "Load database schema") :: cevs). eexists.
      split; [done|]. split; [done|].
      split; [by rewrite List.filter_app, Hsent|].
      intros msg'. by rewrite Hf.
    + intros msg ->. by destruct (Herr _ eq_refl).
Qed.

Lemma schema_run_not_Close env this r tail :
  schema_run env this r tail → Forall (fun e => is_Close e = false) tail.
Proof.
  intros [msg ->|msg r2 ->|msg r1 r2 Hf ->|file sent q msg r1 r2 Hf Hp ->|file Hf Herr];
    rewrite ?Forall_app, ?Forall_cons, ?Forall_fmap; repeat split;
    try done; by apply Forall_true.
Qed.

(** X5.  [LoadDbSchema] never closes the connection: the handle it
    opened, or found, stays on the receiver whenever the call got as far
    as its transaction, and in particular when it returns nil.  An
    [ImportFixtures] on that receiver works on this handle: it opens
    nothing and pings nothing. *)
Theorem schema_load_keeps_the_connection
    (env : Env) (this : Fixturer) (s : State) :
  let out := LoadDbSchema env this s in
  let this' := snd (fst out) in
  let evs := events_since s (snd out) in
  let again := events_since (snd out) (snd (ImportFixtures env this' (snd out))) in
  List.filter is_Close evs = []
  ∧ (fst (fst out) = None → is_Some (db this'))
  ∧ ((∃ rb, In (EvDb Begin rb) evs) → is_Some (db this'))
  ∧ (is_Some (db this) → this' = this)
  ∧ (is_Some (db this') →
     List.filter is_Open again = [] ∧ ∀ rp, ¬ In (EvDb Ping rp) again).
Proof.
  intros out this' evs again. subst out this' evs again.
  destruct (LoadDbSchema env this s) as [[r this1] s1] eqn:E. cbn [fst snd].
  apply LoadDbSchema_events in E
    as (cevs & tail & -> & Hall & Hcl & Hkeep & Hrun & _).
  split; [|split; [|split; [|split]]].
  - apply filter_none. constructor; [done|]. apply Forall_app. split; [done|].
    destruct Hrun as [(_ & _ & -> & _)|[_ Hrun]]; [done|].
    by eapply schema_run_not_Close.
  - intros ->. by destruct Hrun as [(? & [=] & _)|[? _]].
  - intros [rb Hin]. destruct Hrun as [(_ & _ & -> & _)|[? _]]; [|done].
    rewrite app_nil_r in Hin. destruct Hin as [[=]|Hin].
    rewrite Forall_forall in Hall. by apply list_elem_of_In, Hall in Hin.
  - intros Hdb. by apply Hkeep.
  - intros [h Hdb].
    destruct (ImportFixtures env this1 s1) as [[r2 this2] s2] eqn:E2. cbn [snd].
    apply ImportFixtures_connection in E2.
    destruct (env_ReadDir env (fixturesPathYml this1)) as [entries|msg].
    2:{ destruct E2 as (_ & _ & ->). split; [done|]. intros rp [[=]|[]]. }
    destruct E2 as [_ [(ievs & rc & -> & Hi)|(Hn & _)]]; [|congruence].
    rewrite Hdb. cbn.
    assert (Ho : ∀ e, e ∈ ievs ++ [EvDb Close rc] → is_Open e = false ∧ ∀ rp, e ≠ EvDb Ping rp).
    { intros e [Hin| ->%list_elem_of_singleton]%elem_of_app; [|done].
      rewrite Forall_forall in Hi. apply Hi in Hin.
      by destruct e as [| | | | | |[]]. }
    split.
    + apply filter_none, Forall_forall. intros e He. by apply Ho.
    + intros rp [[=]|Hin]. apply list_elem_of_In, Ho in Hin as [_ Hin]. by eapply Hin.
Qed.

(** ** Recreate *)

(** X6.  [RecreateDatabase] works on a handle of its own, opened on
    [dbConf] alone, and closes it only when it succeeds.  When it returns
    nil it has opened, dropped, created and closed, in this order, and
    the answer to the closing is not looked at.  When it returns an
    error, that is the answer to the first of the three calls that
    failed; the calls before it succeeded, no call follows it, and the
    handle is not closed.  The package variables and the open transaction,
    if any, are as before. *)
Theorem recreate_closes_its_handle_only_on_success
    (env : Env) (this : Fixturer) (s : State) :
  let out := RecreateDatabase env this s in
  let evs := events_since s (snd out) in
  same_process s (snd out) ∧ pending (snd out) = pending s
  ∧ match fst out with
    | None => ∃ rc, evs = recreated this rc
    | Some e =>
        List.filter is_Close evs = []
        ∧ ∃ pre c, evs = pre ++ [EvDb c (Some e)]
                   ∧ (pre ++ [EvDb c None]) `prefix_of` recreated this None
    end.
Proof.
  intros out evs. subst out evs. unfold RecreateDatabase, recreated. run_calls.
  destruct (env_fault env (clock s) (Open (dbConf this))) as [m0|]; cbn.
  { split; [done|]. split; [done|]. erewrite events_since_app; [|done].
    split; [done|]. exists [], (Open (dbConf this)). split; [done|].
    by eexists. }
  destruct (env_fault env (S (clock s)) (Exec (DropDatabaseIfExists (dbName this))))
    as [m1|]; cbn.
  { split; [done|]. split; [done|].
    erewrite events_since_app; [|cbn; by rewrite <- !app_assoc].
    split; [done|]. exists [EvDb (Open (dbConf this)) None;
                             EvLog (LogText ("Drop database " +:+ dbName this))],
                           (Exec (DropDatabaseIfExists (dbName this))).
    split; [done|]. by eexists. }
  destruct (env_fault env (S (S (clock s))) (Exec (CreateDatabase (dbName this))))
    as [m2|]; cbn.
  { split; [done|]. split; [done|].
    erewrite events_since_app; [|cbn; by rewrite <- !app_assoc].
    split; [done|]. exists [EvDb (Open (dbConf this)) None;
                             EvLog (LogText ("Drop database " +:+ dbName this));
                             EvDb (Exec (DropDatabaseIfExists (dbName this))) None;
                             EvLog (LogText ("Create database " +:+ dbName this))],
                           (Exec (CreateDatabase (dbName this))).
    split; [done|]. by eexists. }
  split; [done|]. split; [done|].
  erewrite events_since_app; [|cbn; by rewrite <- !app_assoc].
  by eexists.
Qed.

(** ** Transactions are finished *)

Lemma loadParsedData_pending env this s r s' :
  loadParsedData env this s = (r, s') → pending s = None → pending s' = None.
Proof.
  unfold loadParsedData. unfold bind at 1.
  destruct (db_Exec env (SetForeignKeyChecks false) s) as [r0 s0] eqn:E0.
  apply db_Exec_spec in E0 as (_ & _ & _ & Hp0 & _).
  destruct r0 as [e0|]; [intros [= <- <-] ?; congruence|].
  unfold bind at 1, get at 1. unfold bind at 1.
  destruct (truncate_loop env (finishedTablseNames s0) s0) as [r1 s1] eqn:E1.
  apply truncate_loop_spec in E1 as (tevs & _ & _ & _ & _ & _ & Hp1 & _).
  destruct r1 as [e1|].
  { unfold bind at 1.
    destruct (db_Exec env (SetForeignKeyChecks true) s1) as [r2 s2] eqn:E2.
    apply db_Exec_spec in E2 as (_ & _ & _ & Hp2 & _).
    intros [= <- <-] ?. congruence. }
  unfold bind at 1.
  destruct (db_Begin env s1) as [r2 s2] eqn:E2.
  apply db_Begin_spec in E2 as (_ & _ & _ & Hp2 & _).
  destruct r2 as [e2|].
  { unfold bind at 1.
    destruct (db_Exec env (SetForeignKeyChecks true) s2) as [r3 s3] eqn:E3.
    apply db_Exec_spec in E3 as (_ & _ & _ & Hp3 & _).
    intros [= <- <-] ?. congruence. }
  unfold bind at 1, get at 1. unfold bind at 1, modify at 1. unfold bind at 1.
  set (s2' := set_rng (S (rng s2)) s2).
  destruct (insert_loop env (range_values (env_picks env (rng s2)) (insertMap s2)) s2')
    as [u3 s3] eqn:E3.
  unfold bind at 1.
  destruct (tx_Commit env s3) as [r4 s4] eqn:E4.
  apply tx_Commit_spec in E4 as (_ & Hp4 & _).
  unfold bind at 1.
  destruct (log_if_err r4 s4) as [u5 s5] eqn:E5.
  apply log_if_err_spec in E5 as (_ & _ & Hp5 & _).
  unfold bind at 1.
  destruct (tx_Rollback env s5) as [r6 s6] eqn:E6.
  apply tx_Rollback_spec in E6 as (_ & Hp6 & _).
  unfold bind at 1.
  destruct (db_Exec env (SetForeignKeyChecks true) s6) as [r7 s7] eqn:E7.
  apply db_Exec_spec in E7 as (_ & _ & _ & Hp7 & _).
  intros [= <- <-] _. congruence.
Qed.

Lemma importYmlFixtures_pending env this files s r s' :
  importYmlFixtures env this files s = (r, s') → pending s = None → pending s' = None.
Proof.
  intros E Hp. apply importYmlFixtures_spec in E. cbn zeta in E.
  case_decide as Hin.
  - destruct E as (_ & r0 & E). by apply loadParsedData_pending in E.
  - destruct E as (u & s1 & Ep & E).
    apply pushInsertQueriesFromYmlToChannel_spec in Ep as (_ & (_ & Hp1 & _) & _).
    apply loadParsedData_pending in E; [done|]. cbn. by rewrite Hp1.
Qed.

Lemma ImportFixtures_pending env this s r this' s' :
  ImportFixtures env this s = ((r, this'), s') → pending s = None → pending s' = None.
Proof.
  intros E Hp. apply ImportFixtures_spec in E.
  destruct (env_ReadDir env (fixturesPathYml this)) as [entries|msg];
    [|by destruct E as (_ & _ & ->)].
  destruct E as (rc & thisc & sc & Ec & E).
  apply ensureDbConnected_spec in Ec as (_ & _ & Hpc & _).
  destruct rc as [e|]; [destruct E as (_ & _ & ->); cbn in Hpc; congruence|].
  destruct E as (si & Ei & Ed).
  apply importYmlFixtures_pending in Ei; [|cbn in Hpc; congruence].
  apply ensureDbDisconnected_spec in Ed as (_ & _ & Hpd & _). congruence.
Qed.

Lemma RecreateDatabase_pending env this s :
  pending (snd (RecreateDatabase env this s)) = pending s.
Proof.
  unfold RecreateDatabase. run_calls.
  destruct (env_fault env (clock s) (Open (dbConf this))) as [m0|]; cbn; [done|].
  destruct (env_fault env (S (clock s)) (Exec (DropDatabaseIfExists (dbName this))))
    as [m1|]; cbn; [done|].
  by destruct (env_fault env (S (S (clock s))) (Exec (CreateDatabase (dbName this)))).
Qed.

(** X7.  No exported operation returns with a transaction of its own
    still open: entered without an open transaction, [RecreateDatabase],
    [LoadDbSchema], [ImportFixtures] and the composed operation each
    return without one, whatever failed on the way. *)
Theorem no_transaction_is_left_open
    (env : Env) (this : Fixturer) (s : State) :
  pending s = None →
  pending (snd (RecreateDatabase env this s)) = None
  ∧ pending (snd (LoadDbSchema env this s)) = None
  ∧ pending (snd (ImportFixtures env this s)) = None
  ∧ pending (snd (RecreateDatabaseWithSchemaAndImportFixtures env this s)) = None.
Proof.
  intros Hp.
  assert (Hrec : ∀ s0, pending s0 = None →
                       pending (snd (RecreateDatabase env this s0)) = None).
  { intros s0 H0. by rewrite RecreateDatabase_pending. }
  assert (Hsch : ∀ this0 s0, pending s0 = None →
                             pending (snd (LoadDbSchema env this0 s0)) = None).
  { intros this0 s0 H0.
    destruct (LoadDbSchema env this0 s0) as [[r1 this1] s1] eqn:E.
    apply LoadDbSchema_events in E as (_ & _ & _ & _ & _ & _ & _ & Hpend). by apply Hpend. }
  assert (Himp : ∀ this0 s0, pending s0 = None →
                             pending (snd (ImportFixtures env this0 s0)) = None).
  { intros this0 s0 H0.
    destruct (ImportFixtures env this0 s0) as [[r1 this1] s1] eqn:E.
    by apply ImportFixtures_pending in E. }
  split; [by apply Hrec|]. split; [by apply Hsch|]. split; [by apply Himp|].
  unfold RecreateDatabaseWithSchemaAndImportFixtures.
  destruct (recreateDatabase this); [|by apply Himp].
  unfold bind at 1. specialize (Hrec s Hp).
  destruct (RecreateDatabase env this s) as [r1 s1]. cbn [snd] in Hrec.
  destruct r1 as [e1|]; [done|].
  unfold bind at 1. specialize (Hsch this s1 Hrec).
  destruct (LoadDbSchema env this s1) as [[r2 this2] s2]. cbn [fst snd] in *.
  destruct r2 as [e2|]; [done|]. by apply Himp.
Qed.

Lemma no_transaction_is_left_open_witness :
  let s := init_State one_user in
  pending (snd (RecreateDatabaseWithSchemaAndImportFixtures
                  (schema_env commit_fault) fixturer_recreate s)) = None
  ∧ In (EvDb Begin None)
       (trace (snd (RecreateDatabaseWithSchemaAndImportFixtures
                      (schema_env commit_fault) fixturer_recreate s))).
Proof.
  intros s. split.
  - by apply (no_transaction_is_left_open (schema_env commit_fault) fixturer_recreate s).
  - vm_compute. do 11 right. left. reflexivity.
Defined.

(* ===================================================================== *)
(** ** The import, event by event *)
(* ===================================================================== *)

Lemma insert_loop_run env qs s u s' :
  insert_loop env qs s = (u, s') →
  is_Some (pending s) →
  is_Some (pending s')
  ∧ ∃ rs, length rs = length qs
      ∧ trace s' = trace s ++ concat (zip_with insertion qs rs).
Proof.
  revert s u s'. induction qs as [|qb qs IH]; intros s u s'; cbn [insert_loop].
  - intros [= <- <-] Hp. split; [done|]. exists []. by rewrite app_nil_r.
  - unfold bind at 1.
    destruct (log_if_err (ToSql qb).2 s) as [u1 s1] eqn:E1.
    apply log_if_err_spec in E1 as (Htr1 & _ & Hp1 & _).
    unfold bind at 1.
    destruct (tx_Exec env (ToSql qb).1 s1) as [r2 s2] eqn:E2.
    apply tx_Exec_spec in E2 as (Htr2 & _ & _ & _ & Hpend2).
    unfold bind at 1.
    destruct (log_if_err r2 s2) as [u3 s3] eqn:E3.
    apply log_if_err_spec in E3 as (Htr3 & _ & Hp3 & _).
    intros E4 [acc Hp]. rewrite Hp1, Hp in Hpend2. destruct Hpend2 as [_ Hp2].
    apply IH in E4 as (Hsome & rs & Hlen & Htr); [|by rewrite Hp3, Hp2].
    split; [done|]. exists (r2 :: rs). split; [cbn; by rewrite Hlen|].
    rewrite Htr, Htr3, Htr2, Htr1. cbn. unfold insertion, logged_error.
    by rewrite <- !app_assoc.
Qed.

(** The load from its [Begin] on, call by call. *)
Lemma loadParsedData_run env this s r s' :
  loadParsedData env this s = (r, s') →
  In (EvDb Begin None) (events_since s s') →
  ∃ qs rs r1,
    qs ≡ₚ snd <$> map_to_list (insertMap s)
    ∧ length rs = length qs
    ∧ events_since s s'
      = fk_off :: (ok_truncate <$> finishedTablseNames s)
          ++ EvDb Begin None :: concat (zip_with insertion qs rs)
          ++ EvDb Commit r :: logged_error r
          ++ [EvDb Rollback (Some ErrTxDone); fk_on r1].
Proof.
  unfold loadParsedData, fk_off, fk_on. unfold bind at 1.
  destruct (db_Exec env (SetForeignKeyChecks false) s) as [r0 s0] eqn:E0.
  apply db_Exec_spec in E0 as (Hr0 & Htr0 & _ & Hp0 & _ & _ & Hsame0).
  destruct r0 as [e0|].
  { intros [= <- <-]. rewrite (events_since_app _ _ _ Htr0).
    intros [[=]|[]]. }
  unfold bind at 1, get at 1. unfold bind at 1.
  destruct (truncate_loop env (finishedTablseNames s0) s0) as [r1 s1] eqn:E1.
  apply truncate_loop_spec in E1
    as (tevs & Htr1 & Hall1 & _ & Hok1 & _ & Hp1 & _ & Hsame1).
  assert (Hnames : finishedTablseNames s0 = finishedTablseNames s) by apply Hsame0.
  rewrite Hnames in *.
  destruct r1 as [e1|].
  { unfold bind at 1.
    destruct (db_Exec env (SetForeignKeyChecks true) s1) as [r2 s2] eqn:E2.
    apply db_Exec_spec in E2 as (_ & Htr2 & _).
    intros [= <- <-]. erewrite events_since_app.
    2:{ rewrite Htr2, Htr1, Htr0. by rewrite <- !app_assoc. }
    cbn [app]. intros [[=]|Hin]. apply in_app_or in Hin. destruct Hin as [Hin|[[=]|[]]].
    rewrite Forall_forall in Hall1. apply list_elem_of_In, Hall1 in Hin.
    unfold truncate_or_log in Hin. destruct Hin as [(?&?&H)|(?&H)]; discriminate H. }
  destruct (Hok1 eq_refl) as (-> & _).
  unfold bind at 1.
  destruct (db_Begin env s1) as [r2 s2] eqn:E2.
  apply db_Begin_spec in E2 as (_ & Htr2 & _ & Hp2 & _ & Hsame2).
  destruct r2 as [e2|].
  { unfold bind at 1.
    destruct (db_Exec env (SetForeignKeyChecks true) s2) as [r3 s3] eqn:E3.
    apply db_Exec_spec in E3 as (_ & Htr3 & _).
    intros [= <- <-]. erewrite events_since_app.
    2:{ rewrite Htr3, Htr2, Htr1, Htr0. by rewrite <- !app_assoc. }
    cbn [app]. intros [[=]|Hin]. apply in_app_or in Hin. destruct Hin as [Hin|[[=]|[[=]|[]]]].
    apply list_elem_of_In, list_elem_of_fmap in Hin as (? & [=] & _). }
  unfold bind at 1, get at 1. unfold bind at 1, modify at 1. unfold bind at 1.
  set (s2' := set_rng (S (rng s2)) s2).
  destruct (insert_loop env (range_values (env_picks env (rng s2)) (insertMap s2)) s2')
    as [u3 s3] eqn:E3.
  apply insert_loop_run in E3 as ([acc3 Hp3] & rs & Hlen & Htr3);
    [|by subst s2'; cbn; rewrite Hp2].
  unfold bind at 1.
  destruct (tx_Commit env s3) as [r4 s4] eqn:E4.
  apply tx_Commit_spec in E4 as (Htr4 & Hp4 & _).
  unfold bind at 1.
  destruct (log_if_err r4 s4) as [u5 s5] eqn:E5.
  apply log_if_err_spec in E5 as (Htr5 & _ & Hp5 & _).
  unfold bind at 1.
  destruct (tx_Rollback env s5) as [r6 s6] eqn:E6.
  apply tx_Rollback_spec in E6 as (Htr6 & _ & _ & _ & _ & Hr6).
  rewrite (Hr6 ltac:(congruence)) in Htr6.
  unfold bind at 1.
  destruct (db_Exec env (SetForeignKeyChecks true) s6) as [r7 s7] eqn:E7.
  apply db_Exec_spec in E7 as (_ & Htr7 & _).
  intros [= <- <-] _.
  assert (Hmap : insertMap s2 = insertMap s).
  { transitivity (insertMap s1); [apply Hsame2|].
    transitivity (insertMap s0); [apply Hsame1|apply Hsame0]. }
  exists (range_values (env_picks env (rng s2)) (insertMap s2)), rs, r7.
  split; [unfold range_values; by rewrite shuffle_Permutation, Hmap|].
  split; [done|].
  apply events_since_app.
  rewrite Htr7, Htr6, Htr5, Htr4, Htr3. subst s2'. cbn.
  rewrite Htr2, Htr1, Htr0. unfold logged_error. by rewrite <- !app_assoc.
Qed.

Lemma insertions_refused_logged qs rs q e :
  In (EvDb (TxExec q) (Some e)) (concat (zip_with insertion qs rs)) →
  In (EvLog (LogErr e)) (concat (zip_with insertion qs rs)).
Proof.
  revert rs. induction qs as [|qb qs IH]; intros [|r rs]; cbn; try done.
  rewrite !in_app_iff. intros [Hin|Hin]; [left|right; by apply IH].
  unfold insertion, logged_error in *. rewrite !in_app_iff in *.
  destruct Hin as [Hin|[Hin|Hin]].
  - destruct (ToSql qb).2; [|done]. by destruct Hin as [[=]|[]].
  - destruct Hin as [[= _ ->]|[]]. right. right. by left.
  - destruct r; [|done]. by destruct Hin as [[=]|[]].
Qed.

(** X8.  Once the transaction of a load is begun, every batch of
    [insertMap] is sent to it, each once, in the order the iteration over
    the map yields.  An error of building a statement and a refusal by the
    server are printed and the loop goes on to the next batch; after the
    last one the commit is attempted, and the result of the load is the
    result of the commit alone.  The rollback that follows finds the
    transaction finished. *)
Theorem refused_insertion_does_not_stop_the_load
    (env : Env) (this : Fixturer) (s : State) :
  let out := loadParsedData env this s in
  let evs := events_since s (snd out) in
  In (EvDb Begin None) evs →
  (∃ qs rs r1,
     qs ≡ₚ snd <$> map_to_list (insertMap s)
     ∧ length rs = length qs
     ∧ evs = fk_off :: (ok_truncate <$> finishedTablseNames s)
               ++ EvDb Begin None :: concat (zip_with insertion qs rs)
               ++ EvDb Commit (fst out) :: logged_error (fst out)
               ++ [EvDb Rollback (Some ErrTxDone); fk_on r1])
  ∧ (∀ q e, In (EvDb (TxExec q) (Some e)) evs → In (EvLog (LogErr e)) evs).
Proof.
  intros out evs Hin. subst out evs.
  destruct (loadParsedData env this s) as [r s1] eqn:E. cbn [fst snd] in *.
  destruct (loadParsedData_run _ _ _ _ _ E Hin) as (qs & rs & r1 & Hperm & Hlen & Hevs).
  split; [by exists qs, rs, r1|].
  rewrite Hevs. intros q e Hq.
  assert (Hq' : In (EvDb (TxExec q) (Some e)) (concat (zip_with insertion qs rs))).
  { unfold fk_off, fk_on, logged_error in Hq.
    destruct Hq as [[=]|Hq]. apply in_app_or in Hq. destruct Hq as [Hq|Hq].
    { apply list_elem_of_In, list_elem_of_fmap in Hq as (? & [=] & _). }
    destruct Hq as [[=]|Hq]. apply in_app_or in Hq. destruct Hq as [Hq|Hq]; [done|].
    destruct Hq as [[=]|Hq]. apply in_app_or in Hq. destruct Hq as [Hq|Hq].
    - destruct r; [|done]. by destruct Hq as [[=]|[]].
    - by destruct Hq as [[=]|[[=]|[]]]. }
  apply insertions_refused_logged in Hq'.
  right. apply in_or_app. right. right. apply in_or_app. by left.
Qed.

Lemma refused_insertion_does_not_stop_the_load_witness :
  let env := scenario_env insert_fault in
  let out := loadParsedData env fixturer_fx loaded_state in
  let evs := events_since loaded_state (snd out) in
  fst out = None
  ∧ In (EvDb (TxExec (fst (ToSql (build_batch [] "users" users_yml))))
          (Some (ErrDb "duplicate entry"))) evs
  ∧ In (EvLog (LogErr (ErrDb "duplicate entry"))) evs.
Proof.
  intros env out evs.
  assert (Hq : In (EvDb (TxExec (fst (ToSql (build_batch [] "users" users_yml))))
                     (Some (ErrDb "duplicate entry"))) evs).
  { vm_compute. do 3 right. left. reflexivity. }
  split; [vm_compute; reflexivity|]. split; [exact Hq|].
  refine (proj2 (refused_insertion_does_not_stop_the_load env fixturer_fx loaded_state _)
            _ _ Hq).
  vm_compute. do 2 right. left. reflexivity.
Defined.

(** ** Which directories count as parsed *)

Lemma connection_event_statement_free' e :
  connection_event e = true → statement_free e = true.
Proof. by destruct e as [| | | | | |[]]. Qed.

(** [importYmlFixtures] prints its line first, and has the directory on
    record as parsed when it returns. *)
Lemma importYmlFixtures_dirs env this files s r s' :
  importYmlFixtures env this files s = (r, s') →
  finishedParsedDirs s' = {[fixturesPathYml this]} ∪ finishedParsedDirs s
  ∧ (fixturesPathYml this ∈ finishedParsedDirs s → r = None)
  ∧ ∃ evs, trace s' = trace s ++ EvLog (LogText "Import YML fixtures") :: evs.
Proof.
  intros E. apply importYmlFixtures_spec in E. cbn zeta in E.
  case_decide as Hin.
  - destruct E as (-> & r0 & E).
    apply loadParsedData_spec in E as ((_ & Hd & _) & evs & Htr & _).
    split; [|split; [done|]].
    { rewrite Hd. cbn. symmetry. apply subseteq_union_1_L.
      by apply singleton_subseteq_l. }
    exists evs. rewrite Htr. cbn. by rewrite <- app_assoc.
  - destruct E as (u & s1 & Ep & E).
    apply pushInsertQueriesFromYmlToChannel_spec in Ep
      as (_ & (_ & _ & _ & Hd1) & _ & _ & _ & pevs & Htr1 & _).
    apply loadParsedData_spec in E as ((_ & Hd & _) & evs & Htr & _).
    split; [rewrite Hd; cbn; by rewrite Hd1|]. split; [done|].
    eexists. rewrite Htr. cbn. rewrite Htr1. cbn. by rewrite <- !app_assoc.
Qed.

(** Where an import stopped: at the listing, at the connection, or not
    before [importYmlFixtures]. *)
Lemma ImportFixtures_reach env this s r this' s' :
  ImportFixtures env this s = ((r, this'), s') →
  (is_Some r ∧ finishedParsedDirs s' = finishedParsedDirs s
   ∧ insertMap s' = insertMap s
   ∧ Forall (fun e => statement_free e = true) (events_since s s')
   ∧ ¬ In (EvLog (LogText "Import YML fixtures")) (events_since s s'))
  ∨ (∃ entries thisc sc si,
       env_ReadDir env (fixturesPathYml this) = inl entries
       ∧ fixturesPathYml thisc = fixturesPathYml this
       ∧ finishedParsedDirs sc = finishedParsedDirs s
       ∧ insertMap sc = insertMap s
       ∧ importYmlFixtures env thisc (yml_files entries) sc = (r, si)
       ∧ finishedParsedDirs s' = finishedParsedDirs si
       ∧ insertMap s' = insertMap si
       ∧ In (EvLog (LogText "Import YML fixtures")) (events_since s s')).
Proof.
  intros E. apply ImportFixtures_shape in E as [_ [H|H]].
  - left. destruct H as (e & -> & _ & (_ & Hd & Hm & _) & _ & cevs & Htr & Hall).
    split; [done|]. split; [done|]. split; [done|].
    rewrite (events_since_app _ _ _ Htr). split.
    + constructor; [done|]. eapply Forall_impl; [done|].
      apply connection_event_statement_free'.
    + intros [[=]|Hin]. rewrite Forall_forall in Hall.
      by apply list_elem_of_In, Hall in Hin.
  - right. destruct H as (entries & cevs & thisc & sc & si & rc & Hre & Hp & _
                          & (_ & Hd & Hm & _) & _ & Htr & _ & Ei & Htr' & (_ & Hd' & Hm' & _) & _).
    exists entries, thisc, sc, si. do 7 (split; [done|]).
    pose proof Ei as Ei'. apply importYmlFixtures_dirs in Ei' as (_ & _ & evs & Hti).
    erewrite events_since_app.
    2:{ rewrite Htr', Hti, Htr. by rewrite <- !app_assoc. }
    in_list.
Qed.

(** X9.  A repeat import does not return the error of its load: for
    a directory already on record as parsed, [ImportFixtures] returns an
    error only when the listing or the connection failed, before any
    statement went out; once it has got to [importYmlFixtures] it returns
    nil, whatever the load did. *)
Theorem repeat_import_drops_the_error_of_its_load
    (env : Env) (this : Fixturer) (s : State) :
  let out := ImportFixtures env this s in
  let evs := events_since s (snd out) in
  fixturesPathYml this ∈ finishedParsedDirs s →
  (is_Some (fst (fst out)) → Forall (fun e => statement_free e = true) evs)
  ∧ (In (EvLog (LogText "Import YML fixtures")) evs → fst (fst out) = None).
Proof.
  intros out evs Hin. subst out evs.
  destruct (ImportFixtures env this s) as [[r this1] s1] eqn:E. cbn [fst snd].
  apply ImportFixtures_reach in E as [(Hr & _ & _ & Hall & Hno)|H].
  { split; [done|]. by intros ?. }
  destruct H as (entries & thisc & sc & si & _ & Hp & Hd & _ & Ei & _ & _ & Hlog).
  apply importYmlFixtures_dirs in Ei as (_ & Hnil & _).
  rewrite Hp, Hd in Hnil. rewrite (Hnil Hin). split; [by intros [? [=]]|done].
Qed.

Lemma repeat_import_drops_the_error_of_its_load_witness :
  let env := scenario_env commit_fault in
  let out := ImportFixtures env fixturer_fx loaded_state in
  fst (fst out) = None
  ∧ In (EvDb Commit (Some (ErrDb "deadlock found")))
       (events_since loaded_state (snd out)).
Proof.
  intros env out. split.
  - apply (repeat_import_drops_the_error_of_its_load env fixturer_fx loaded_state).
    + vm_compute. reflexivity.
    + vm_compute. do 5 right. left. reflexivity.
  - vm_compute. do 10 right. left. reflexivity.
Defined.

(** X10.  A directory goes on record as parsed when its parse phase has
    run, before the load and whatever the load does; no other directory
    is added, and none is ever taken off.  So the record holds the
    directory exactly when it held it before or the import got to
    [importYmlFixtures], and in particular after every import that
    returns nil. *)
Theorem directory_is_on_record_once_its_parse_phase_ran
    (env : Env) (this : Fixturer) (s : State) :
  let out := ImportFixtures env this s in
  let s' := snd out in
  let evs := events_since s s' in
  (finishedParsedDirs s' = finishedParsedDirs s
   ∨ finishedParsedDirs s' = {[fixturesPathYml this]} ∪ finishedParsedDirs s)
  ∧ (fixturesPathYml this ∈ finishedParsedDirs s'
     ↔ fixturesPathYml this ∈ finishedParsedDirs s
       ∨ In (EvLog (LogText "Import YML fixtures")) evs)
  ∧ (fst (fst out) = None → fixturesPathYml this ∈ finishedParsedDirs s').
Proof.
  intros out s' evs. subst out s' evs.
  destruct (ImportFixtures env this s) as [[r this1] s1] eqn:E. cbn [fst snd].
  apply ImportFixtures_reach in E as [(Hr & Hd & _ & Hall & Hno)|H].
  { split; [by left|]. rewrite Hd. split; [tauto|]. intros ->. by destruct Hr. }
  destruct H as (entries & thisc & sc & si & _ & Hp & Hd & _ & Ei & Hd' & _ & Hlog).
  apply importYmlFixtures_dirs in Ei as (Hdi & _ & _).
  rewrite Hp, Hd in Hdi. rewrite Hd', Hdi.
  assert (Hhere : fixturesPathYml this ∈ ({[fixturesPathYml this]} ∪ finishedParsedDirs s
                                          : gset string)).
  { apply elem_of_union. left. by apply elem_of_singleton. }
  split; [by right|]. split; [|done]. split; [by right|done].
Qed.

Lemma directory_is_on_record_once_its_parse_phase_ran_witness :
  let env := scenario_env commit_fault in
  let out := ImportFixtures env fixturer_fx (init_State one_user) in
  fst (fst out) = Some (ErrDb "deadlock found")
  ∧ "fx" ∈ finishedParsedDirs (snd out).
Proof.
  intros env out. split; [vm_compute; reflexivity|].
  destruct (directory_is_on_record_once_its_parse_phase_ran env fixturer_fx
              (init_State one_user)) as (_ & H & _).
  apply H. right. vm_compute. do 5 right. left. reflexivity.
Defined.

(** ** The batches of other files *)

Lemma elem_of_yml_files f entries :
  f ∈ yml_files entries
  ↔ f ∈ entries ∧ IsDir f = false ∧ HasSuffix (Name f) ".yml" = true.
Proof.
  unfold yml_files. rewrite list_elem_of_In, filter_In, <- list_elem_of_In.
  destruct (IsDir f), (HasSuffix (Name f) ".yml"); cbn; intuition discriminate.
Qed.

Lemma importYmlFixtures_map env this files s r s' :
  importYmlFixtures env this files s = (r, s') →
  (fixturesPathYml this ∈ finishedParsedDirs s → insertMap s' = insertMap s)
  ∧ (∀ k, (∀ f, f ∈ files → has_yml f = true → Name f ≠ k) →
          insertMap s' !! k = insertMap s !! k)
  ∧ (∀ k, is_Some (insertMap s !! k) → is_Some (insertMap s' !! k)).
Proof.
  intros E. apply importYmlFixtures_spec in E. cbn zeta in E.
  case_decide as Hin.
  - destruct E as (_ & r0 & E).
    apply loadParsedData_spec in E as ((_ & _ & Hm & _) & _).
    rewrite Hm. cbn. done.
  - destruct E as (u & s1 & Ep & E).
    apply pushInsertQueriesFromYmlToChannel_spec in Ep
      as (_ & _ & _ & Hframe & Hnew & _).
    apply loadParsedData_spec in E as ((_ & _ & Hm & _) & _).
    rewrite Hm. cbn. split; [done|]. split; [done|].
    intros k Hk.
    destruct (decide (k ∈ Name <$> List.filter has_yml files)) as [Hin'|Hout].
    + apply list_elem_of_fmap in Hin' as (f & -> & Hf).
      apply list_elem_of_In, filter_In in Hf as [Hf Hy].
      apply list_elem_of_In in Hf.
      destruct (Hnew f Hf Hy) as [picks ->]. done.
    + rewrite Hframe; [done|]. intros f Hf Hy <-. apply Hout.
      apply list_elem_of_fmap. exists f. split; [done|].
      apply list_elem_of_In, filter_In. by rewrite <- list_elem_of_In.
Qed.

(** X11.  An import takes no batch away and touches only the batches of
    the files it parses: every key of [insertMap] is still a key
    afterwards; an entry under a name that is not the name of a .yml file
    (not a directory) of the listed directory is as before; and an import
    that runs no parse phase, because the directory is on record as
    parsed or because it failed before, leaves the map as it is. *)
Theorem import_keeps_the_batches_of_other_files
    (env : Env) (this : Fixturer) (s : State) :
  let out := ImportFixtures env this s in
  let s' := snd out in
  (∀ k, is_Some (insertMap s !! k) → is_Some (insertMap s' !! k))
  ∧ (fixturesPathYml this ∈ finishedParsedDirs s → insertMap s' = insertMap s)
  ∧ (¬ In (EvLog (LogText "Import YML fixtures")) (events_since s s') →
     insertMap s' = insertMap s)
  ∧ match env_ReadDir env (fixturesPathYml this) with
    | inr _ => insertMap s' = insertMap s
    | inl entries =>
        ∀ k, (∀ f, f ∈ entries → IsDir f = false →
                   HasSuffix (Name f) ".yml" = true → Name f ≠ k) →
             insertMap s' !! k = insertMap s !! k
    end.
Proof.
  intros out s'. subst out s'.
  destruct (ImportFixtures env this s) as [[r this1] s1] eqn:E. cbn [fst snd].
  pose proof E as E'. apply ImportFixtures_spec in E'.
  apply ImportFixtures_reach in E as [(Hr & _ & Hm & _ & Hno)|H].
  { rewrite Hm. do 3 (split; [done|]). by destruct (env_ReadDir _ _). }
  destruct H as (entries & thisc & sc & si & Hre & Hp & Hd & Hm & Ei & _ & Hm' & Hlog).
  apply importYmlFixtures_map in Ei as (Hcached & Hframe & Hkeep).
  rewrite Hp, Hd in Hcached. rewrite Hm in *. rewrite Hm'.
  split; [done|]. split; [done|]. split; [done|].
  rewrite Hre. intros k Hk. apply Hframe.
  intros f (Hf & Hdir & Hy)%elem_of_yml_files _. by apply Hk.
Qed.

(** ** The errors that are returned *)

Lemma RecreateDatabase_error env this s e :
  fst (RecreateDatabase env this s) = Some e → ∃ msg, e = ErrDb msg.
Proof.
  unfold RecreateDatabase. run_calls.
  destruct (env_fault env (clock s) (Open (dbConf this))) as [m0|]; cbn.
  { intros [= <-]. by eexists. }
  destruct (env_fault env (S (clock s)) (Exec (DropDatabaseIfExists (dbName this))))
    as [m1|]; cbn.
  { intros [= <-]. by eexists. }
  destruct (env_fault env (S (S (clock s))) (Exec (CreateDatabase (dbName this))))
    as [m2|]; cbn; [|done].
  intros [= <-]. by eexists.
Qed.

Lemma LoadDbSchema_error env this s e this' s' :
  LoadDbSchema env this s = ((Some e, this'), s') →
  (∃ msg, e = ErrDb msg)
  ∨ (∃ msg, e = ErrIO msg ∧ env_ReadFile env (schema this) = inr msg).
Proof.
  intros E. apply LoadDbSchema_events in E as (cevs & tail & _ & _ & _ & _ & Hrun & _).
  destruct Hrun as [(msg & [= ->] & _)|[_ Hrun]]; [left; by eexists|].
  destruct Hrun as [msg [= ->]|msg r2 [= ->]|msg r1 r2 Hf [= ->]
                   |file sent q msg r1 r2 Hf Hp [= ->]|file Hf Herr].
  - left; by eexists.
  - left; by eexists.
  - right; by eexists.
  - left; by eexists.
  - left. by apply Herr.
Qed.

Lemma LoadDbSchema_receiver env this s r this' s' :
  LoadDbSchema env this s = ((r, this'), s') →
  fixturesPathYml this' = fixturesPathYml this ∧ schema this' = schema this.
Proof.
  intros E. apply LoadDbSchema_run in E as (rc & sc & Ec & _).
  apply ensureDbConnected_spec in Ec as (_ & _ & _ & _ & -> & _).
  destruct rc; [done|]. by destruct (db this).
Qed.

Lemma ImportFixtures_error_kind env this s e this' s' :
  ImportFixtures env this s = ((Some e, this'), s') →
  (∃ msg, e = ErrDb msg)
  ∨ (∃ msg, e = ErrIO msg ∧ env_ReadDir env (fixturesPathYml this) = inr msg).
Proof.
  intros E. apply ImportFixtures_spec in E.
  destruct (env_ReadDir env (fixturesPathYml this)) as [entries|msg].
  2:{ destruct E as ([= ->] & _). right. by eexists. }
  destruct E as (rc & thisc & sc & Ec & E).
  apply ensureDbConnected_spec in Ec as (_ & _ & _ & _ & _ & _ & _ & _ & _ & Herr).
  destruct rc as [e0|].
  { destruct E as ([= ->] & _). left. by apply Herr. }
  destruct E as (si & Ei & _). apply importYmlFixtures_spec in Ei. cbn zeta in Ei.
  case_decide; [by destruct Ei as [[=] _]|].
  destruct Ei as (u & s1 & _ & El). left. by eapply loadParsedData_error.
Qed.

(** X12.  The errors the operations return are errors of the database
    (of the driver or the server) and errors of reading: from
    [RecreateDatabase] a database error only; from [LoadDbSchema] a
    database error or the error of reading the schema file; from
    [ImportFixtures] a database error or the error of listing the
    directory; from the composed operation one of these.  An error of
    decoding a fixture, of building a statement, or of using a finished
    transaction is never returned. *)
Theorem only_database_and_reading_errors_are_returned
    (env : Env) (this : Fixturer) (s : State) :
  let schema_unread e :=
    ∃ msg, e = ErrIO msg ∧ env_ReadFile env (schema this) = inr msg in
  let directory_unlisted e :=
    ∃ msg, e = ErrIO msg ∧ env_ReadDir env (fixturesPathYml this) = inr msg in
  let database e := ∃ msg, e = ErrDb msg in
  (∀ e, fst (RecreateDatabase env this s) = Some e → database e)
  ∧ (∀ e, fst (fst (LoadDbSchema env this s)) = Some e →
          database e ∨ schema_unread e)
  ∧ (∀ e, fst (fst (ImportFixtures env this s)) = Some e →
          database e ∨ directory_unlisted e)
  ∧ (∀ e, fst (fst (RecreateDatabaseWithSchemaAndImportFixtures env this s)) = Some e →
          database e ∨ schema_unread e ∨ directory_unlisted e).
Proof.
  intros schema_unread directory_unlisted database.
  subst schema_unread directory_unlisted database. cbn beta.
  split; [apply RecreateDatabase_error|].
  split.
  { intros e. destruct (LoadDbSchema env this s) as [[r this1] s1] eqn:E.
    cbn. intros ->. by eapply LoadDbSchema_error. }
  split.
  { intros e. destruct (ImportFixtures env this s) as [[r this1] s1] eqn:E.
    cbn. intros ->. by eapply ImportFixtures_error_kind. }
  intros e. rewrite composed_unfold.
  destruct (recreateDatabase this).
  2:{ destruct (ImportFixtures env this s) as [[r this1] s1] eqn:E.
      cbn. intros ->. apply ImportFixtures_error_kind in E. tauto. }
  pose proof (RecreateDatabase_error env this s) as Hrec.
  destruct (RecreateDatabase env this s) as [r1 s1]. cbn [fst snd] in *.
  destruct r1 as [e1|]; [cbn; intros [= <-]; left; by apply Hrec|].
  destruct (LoadDbSchema env this s1) as [[r2 this2] s2] eqn:E2. cbn [fst snd].
  destruct r2 as [e2|].
  { cbn. intros [= <-]. apply LoadDbSchema_error in E2. tauto. }
  apply LoadDbSchema_receiver in E2 as [Hp _].
  destruct (ImportFixtures env this2 s2) as [[r3 this3] s3] eqn:E3.
  cbn. intros ->. apply ImportFixtures_error_kind in E3. rewrite Hp in E3. tauto.
Qed.

(** ** The events of the parse phase *)

Lemma run_tasks_events env this order tn s tn' s' :
  run_tasks env this order tn s = (tn', s') →
  trace s' = trace s ++ parse_events env this order.
Proof.
  revert tn s tn' s'. unfold parse_events.
  induction order as [|f order IH]; intros tn s tn' s'; cbn [run_tasks].
  - intros [= <- <-]. cbn. by rewrite app_nil_r.
  - unfold bind at 1.
    destruct (parse_task env this f tn s) as [tn1 s1] eqn:E1.
    apply parse_task_spec in E1. intros E2. apply IH in E2.
    cbn [List.filter]. destruct (has_yml f) eqn:Hyml.
    + destruct E1 as (_ & _ & Htr1 & _). rewrite E2, Htr1. cbn.
      unfold parse_events_of. by rewrite <- !app_assoc.
    + by destruct E1 as [_ ->].
Qed.

Lemma pushInsertQueriesFromYmlToChannel_events env this files s u s' :
  pushInsertQueriesFromYmlToChannel env this files s = (u, s') →
  trace s' = trace s ++ (EvGo ∘ Name <$> files)
               ++ parse_events env this (shuffle (env_sched env (parses s)) files).
Proof.
  unfold pushInsertQueriesFromYmlToChannel. unfold bind at 1.
  destruct (launch files s) as [u0 s0] eqn:E0. apply launch_spec in E0 as ->.
  unfold bind at 1, get at 1. unfold bind at 1, modify at 1. cbn [parses set_trace].
  set (s1 := set_parses _ _). unfold bind at 1.
  destruct (run_tasks env this (shuffle (env_sched env (parses s)) files) [] s1)
    as [tn s2] eqn:E2.
  apply run_tasks_events in E2.
  unfold modify. intros [= <- <-]. cbn. rewrite E2. subst s1. cbn.
  by rewrite <- app_assoc.
Qed.

Lemma parse_events_logs env this order l :
  In (EvLog l) (parse_events env this order) →
  ∃ f msg, f ∈ order ∧ has_yml f = true
           ∧ decode_error env this (Name f) = Some msg
           ∧ l = LogCantRead (Name f) (ErrDecode msg).
Proof.
  unfold parse_events. intros Hin.
  apply in_concat in Hin as (evs & Hevs & Hin).
  apply list_elem_of_In in Hin.
  apply list_elem_of_In, list_elem_of_fmap in Hevs as (f & -> & Hf).
  apply list_elem_of_In, filter_In in Hf as [Hf Hy]. apply list_elem_of_In in Hf.
  unfold parse_events_of in Hin.
  apply elem_of_cons in Hin as [[=]|Hin].
  destruct (decode_error env this (Name f)) as [msg|] eqn:Hd;
    [|by apply elem_of_nil in Hin].
  apply list_elem_of_singleton in Hin as [= ->]. by exists f, msg.
Qed.

(** X13.  A fixture file whose read fails is decoded all the same, from
    the bytes [ioutil.ReadFile] hands back together with its error (the
    front part it had read; nothing when the file could not be opened),
    and the error of the read is dropped: the decoder is given exactly
    those bytes, the table of the file goes on the truncation list, and
    the batch stored for the file is the one built from whatever the
    decoder makes of them.  No line about the file is printed unless the
    decoder itself complains, and the only lines the parse phase prints
    are about decoding errors. *)
Theorem unreadable_fixture_is_decoded_from_the_bytes_read
    (env : Env) (this : Fixturer) (files : list FileInfo) (s : State)
    (f : FileInfo) (msg : string) :
  let s' := snd (pushInsertQueriesFromYmlToChannel env this files s) in
  let evs := events_since s s' in
  let y := env_ReadSoFar env (path_of this (Name f)) in
  f ∈ files → has_yml f = true →
  env_ReadFile env (path_of this (Name f)) = inr msg →
  decoded env this (Name f) = fst (env_Unmarshal env y)
  ∧ table_of (Name f) ∈ finishedTablseNames s'
  ∧ (∃ picks, insertMap s' !! Name f
              = Some (build_batch picks (table_of (Name f))
                        (fst (env_Unmarshal env y))))
  ∧ (snd (env_Unmarshal env y) = None →
     ∀ e, ¬ In (EvLog (LogCantRead (Name f) e)) evs)
  ∧ (∀ l, In (EvLog l) evs → ∃ name m, l = LogCantRead name (ErrDecode m)).
Proof.
  intros s' evs y Hf Hy Hread. subst s' evs y.
  destruct (pushInsertQueriesFromYmlToChannel env this files s) as [u s1] eqn:E.
  cbn [snd].
  assert (Hbytes : bytes_read env (path_of this (Name f))
                   = env_ReadSoFar env (path_of this (Name f))).
  { unfold bytes_read. by rewrite Hread. }
  assert (Hdec : decoded env this (Name f)
                 = fst (env_Unmarshal env (env_ReadSoFar env (path_of this (Name f))))).
  { unfold decoded. fold (path_of this (Name f)). by rewrite Hbytes. }
  assert (Herr : decode_error env this (Name f)
                 = snd (env_Unmarshal env (env_ReadSoFar env (path_of this (Name f))))).
  { unfold decode_error. by rewrite Hbytes. }
  pose proof (pushInsertQueriesFromYmlToChannel_events _ _ _ _ _ _ E) as Htr.
  apply pushInsertQueriesFromYmlToChannel_spec in E
    as (Hnames & _ & _ & _ & Hnew & _).
  rewrite (events_since_app _ _ _ Htr).
  assert (Hlog : ∀ l, In (EvLog l)
                        ((EvGo ∘ Name <$> files)
                           ++ parse_events env this (shuffle (env_sched env (parses s)) files)) →
                      In (EvLog l) (parse_events env this
                                      (shuffle (env_sched env (parses s)) files))).
  { intros l Hin. apply in_app_or in Hin as [Hin|Hin]; [|done].
    apply list_elem_of_In, list_elem_of_fmap in Hin as (? & [=] & _). }
  split; [done|]. split.
  { rewrite Hnames. unfold tables_of_phase. apply list_elem_of_fmap. exists f.
    split; [done|]. apply list_elem_of_In, filter_In. split; [|done].
    apply list_elem_of_In. by apply elem_of_shuffle. }
  split; [destruct (Hnew f Hf Hy) as [picks Hp]; exists picks; by rewrite Hp, Hdec|].
  split.
  - intros Hnone e Hin. apply Hlog, parse_events_logs in Hin
      as (f' & m & _ & _ & Hd & [= Hname ->]).
    rewrite <- Hname, Herr, Hnone in Hd. done.
  - intros l Hin. apply Hlog, parse_events_logs in Hin as (f' & m & _ & _ & _ & ->).
    by eexists _, _.
Qed.

Lemma unreadable_fixture_is_decoded_from_the_bytes_read_witness :
  let files := [mkFileInfo "users.yml" false] in
  let s' := snd (pushInsertQueriesFromYmlToChannel unreadable_env fixturer_fx files
                   (init_State ∅)) in
  finishedTablseNames s' = ["users"]
  ∧ ∃ picks, insertMap s' !! "users.yml"
             = Some (build_batch picks "users" [ {[ "id" := VInt 1 ]} ]).
Proof.
  intros files s'. split; [vm_compute; reflexivity|].
  destruct (unreadable_fixture_is_decoded_from_the_bytes_read
              unreadable_env fixturer_fx files (init_State ∅)
              (mkFileInfo "users.yml" false) "read: input/output error")
    as (_ & _ & H & _).
  - by left.
  - vm_compute. reflexivity.
  - vm_compute. reflexivity.
  - exact H.
Defined.

(** ** The files an import reads *)

Lemma List_filter_Permutation {A} (p : A → bool) (l1 l2 : list A) :
  l1 ≡ₚ l2 → List.filter p l1 ≡ₚ List.filter p l2.
Proof.
  induction 1 as [|x l1 l2 _ IH|x y l|l1 l2 l3 _ IH1 _ IH2]; cbn.
  - done.
  - destruct (p x); [by constructor|done].
  - destruct (p x), (p y); try done. apply perm_swap.
  - by etrans.
Qed.

Lemma filter_all {A} (p : A → bool) (l : list A) :
  Forall (fun x => p x = true) l → List.filter p l = l.
Proof. induction 1 as [|x l Hx _ IH]; cbn; [done|]. by rewrite Hx, IH. Qed.

Lemma parse_events_reads env this order :
  List.filter is_ReadFile (parse_events env this order)
  = EvReadFile ∘ path_of this ∘ Name <$> List.filter has_yml order.
Proof.
  unfold parse_events.
  induction (List.filter has_yml order) as [|f l IH]; cbn; [done|].
  rewrite List.filter_app, IH. f_equal.
  by destruct (decode_error env this (Name f)).
Qed.

Lemma parse_events_no_Go env this order :
  List.filter is_Go (parse_events env this order) = [].
Proof.
  unfold parse_events.
  induction (List.filter has_yml order) as [|f l IH]; cbn; [done|].
  rewrite List.filter_app, IH.
  by destruct (decode_error env this (Name f)).
Qed.

Lemma connection_event_not_file e : connection_event e = true → file_event e = false.
Proof. by destruct e as [| | | | | |[]]. Qed.

Lemma file_event_filters evs :
  List.filter file_event evs = [] →
  List.filter is_ReadDir evs = [] ∧ List.filter is_ReadFile evs = []
  ∧ List.filter is_Go evs = [].
Proof.
  induction evs as [|e evs IH]; cbn; [done|]. unfold file_event at 1.
  destruct (is_ReadDir e) eqn:H1, (is_ReadFile e) eqn:H2, (is_Go e) eqn:H3; cbn;
    try done.
Qed.

(** X14.  An import lists its directory once.  When it parses the
    directory it starts one goroutine for every entry that is not a
    directory and whose name ends in ".yml", in the order of the listing,
    and reads exactly these files, each once and nothing else (the order
    of the reads is the scheduler's).  An import that does not get to its
    parse phase, or finds the directory on record as parsed, reads no
    file and starts no goroutine. *)
Theorem import_reads_the_yml_files_of_the_directory
    (env : Env) (this : Fixturer) (s : State) :
  let out := ImportFixtures env this s in
  let evs := events_since s (snd out) in
  let parses_now :=
    (fixturesPathYml this ∉ finishedParsedDirs s)
    ∧ In (EvLog (LogText "Import YML fixtures")) evs in
  List.filter is_ReadDir evs = [EvReadDir (fixturesPathYml this)]
  ∧ (parses_now →
     ∃ entries,
       env_ReadDir env (fixturesPathYml this) = inl entries
       ∧ List.filter is_Go evs = EvGo ∘ Name <$> yml_files entries
       ∧ List.filter is_ReadFile evs
         ≡ₚ EvReadFile ∘ path_of this ∘ Name <$> yml_files entries
       ∧ ∀ f, f ∈ yml_files entries
              ↔ f ∈ entries ∧ IsDir f = false ∧ HasSuffix (Name f) ".yml" = true)
  ∧ (¬ parses_now → List.filter is_ReadFile evs = [] ∧ List.filter is_Go evs = []).
Proof.
  intros out evs parses_now. subst out evs parses_now.
  destruct (ImportFixtures env this s) as [[r this1] s1] eqn:E. cbn [fst snd].
  destruct (decide (fixturesPathYml this ∈ finishedParsedDirs s)) as [Hin|Hout].
  { apply cached_import in E as (_ & Hfile & _); [|done].
    assert (H : List.filter file_event (events_since s s1)
                = List.filter file_event [EvReadDir (fixturesPathYml this)]) by done.
    clear Hfile.
    assert (Hd : List.filter is_ReadDir (events_since s s1) = [EvReadDir (fixturesPathYml this)]
                 ∧ List.filter is_ReadFile (events_since s s1) = []
                 ∧ List.filter is_Go (events_since s s1) = []).
    { revert H. generalize (events_since s s1) as evs.
      induction evs as [|e evs IH]; cbn; [done|]. unfold file_event at 1.
      destruct e as [p|p|l|n|n|n|c r']; cbn; try apply IH.
      - intros [= -> H]. apply file_event_filters in H as (-> & -> & ->). done.
      - intros [=].
      - intros [=]. }
    destruct Hd as (Hd1 & Hd2 & Hd3).
    split; [done|]. split; [by intros [? _]|done]. }
  apply (fresh_import _ _ _ _ _ _ Hout) in E as [H|H].
  - destruct H as (e & _ & _ & _ & _ & cevs & Htr & Hall).
    rewrite (events_since_app _ _ _ Htr).
    assert (Hf : List.filter file_event cevs = []).
    { apply filter_none. eapply Forall_impl; [done|]. apply connection_event_not_file. }
    apply file_event_filters in Hf as (Hf1 & Hf2 & Hf3).
    cbn. rewrite Hf1, Hf2, Hf3. split; [done|]. split; [|done].
    intros [_ [[=]|Hlog]]. rewrite Forall_forall in Hall.
    by apply list_elem_of_In, Hall in Hlog.
  - destruct H as (entries & cevs & thisc & sc & u & s_p & si & evs & rc & Hre & Hp & _
                   & _ & _ & Htr & Hall & Epush & Hload & Htri & _ & _ & Htr').
    apply pushInsertQueriesFromYmlToChannel_events in Epush. cbn in Epush.
    set (order := shuffle (env_sched env (parses sc)) (yml_files entries)) in *.
    erewrite events_since_app.
    2:{ rewrite Htr', Htri, Epush, Htr. rewrite <- !app_assoc. reflexivity. }
    assert (Hf : List.filter file_event cevs = []).
    { apply filter_none. eapply Forall_impl; [done|]. apply connection_event_not_file. }
    apply file_event_filters in Hf as (Hf1 & Hf2 & Hf3).
    apply load_path_no_file, file_event_filters in Hload as (Hl1 & Hl2 & Hl3).
    assert (Hgo : ∀ p, (p = is_ReadDir ∨ p = is_ReadFile) →
                       List.filter p (EvGo ∘ Name <$> yml_files entries) = []).
    { intros p Hp'. apply filter_none, Forall_fmap, Forall_true.
      intros f. by destruct Hp' as [-> | ->]. }
    assert (Hpd : List.filter is_ReadDir (parse_events env thisc order) = []).
    { apply filter_none, Forall_forall. intros e He.
      apply list_elem_of_In, in_concat in He as (l & Hl & He).
      apply list_elem_of_In, list_elem_of_fmap in Hl as (f & -> & _).
      unfold parse_events_of in He. destruct He as [<-|He]; [done|].
      destruct (decode_error env thisc (Name f)); [|done].
      by destruct He as [<-|[]]. }
    cbn [List.filter is_ReadDir is_ReadFile is_Go app].
    repeat (rewrite List.filter_app; cbn [List.filter is_ReadDir is_ReadFile is_Go app]).
    rewrite Hf1, Hf2, Hf3, Hl1, Hl2, Hl3, Hpd, parse_events_no_Go, parse_events_reads.
    rewrite (Hgo is_ReadDir), (Hgo is_ReadFile) by auto. rewrite !app_nil_r. cbn [app].
    split; [done|]. split; [|by intros []; split; [done|]; in_list].
    intros _. exists entries. split; [done|].
    split.
    { apply filter_all, Forall_fmap, Forall_true. done. }
    split; [|intros f; apply elem_of_yml_files].
    assert (Hpath : path_of thisc = path_of this) by (unfold path_of; by rewrite Hp).
    rewrite Hpath. apply fmap_Permutation.
    transitivity (List.filter has_yml (yml_files entries)).
    { apply List_filter_Permutation, shuffle_Permutation. }
    rewrite filter_all; [done|]. apply Forall_forall. intros f. apply yml_files_has_yml.
Qed.

Lemma import_reads_the_yml_files_of_the_directory_witness :
  let s := init_State ∅ in
  let evs := events_since s (snd (ImportFixtures (scenario_env no_fault) fixturer_fx s)) in
  List.filter is_ReadDir evs = [EvReadDir "fx"]
  ∧ List.filter is_Go evs = [EvGo "users.yml"; EvGo "bad.yml"]
  ∧ List.filter is_ReadFile evs = [EvReadFile "fx/users.yml"; EvReadFile "fx/bad.yml"].
Proof.
  intros s evs.
  destruct (import_reads_the_yml_files_of_the_directory
              (scenario_env no_fault) fixturer_fx s) as (H1 & H2 & _).
  split; [exact H1|].
  destruct H2 as (entries & Hre & Hgo & _).
  { split; [vm_compute; intros H; discriminate H|].
    vm_compute. do 5 right. left. reflexivity. }
  split; [|vm_compute; reflexivity].
  injection Hre as <-. exact Hgo.
Defined.

(* ===================================================================== *)
(** ** The mutex, the counter and the steps of the parse phase *)
(* ===================================================================== *)

Section JoinExclusion.

Variable env : Env.
Variable this : Fixturer.
Variable files : list FileInfo.

(** Induction over the configurations a call can reach. *)
Lemma reachable_induction im fin (P : Config → Prop) :
  P (entry files im fin) →
  (∀ c ch c', reachable env this files im fin c → P c →
              step env this files ch c = Some c' → P c') →
  ∀ c, reachable env this files im fin c → P c.
Proof.
  intros Hentry Hstep c [sched ->]. unfold run.
  induction sched as [|ch sched IH] using rev_ind; [done|].
  rewrite foldl_app. cbn.
  destruct (step env this files ch _) as [c'|] eqn:E; cbn; [|done].
  eapply Hstep; [|exact IH|exact E]. by exists sched.
Qed.

Lemma holders_insert c i pc pc' :
  c_tasks c !! i = Some pc →
  sum_list_with (fun pc => if holds pc then 1 else 0) (<[i := pc']> (c_tasks c))
    + (if holds pc then 1 else 0)
  = sum_list_with (fun pc => if holds pc then 1 else 0) (c_tasks c)
    + (if holds pc' then 1 else 0).
Proof. apply sum_list_with_insert. Qed.

Lemma step_task_exclusion i picks c c' :
  step_task env this files i picks c = Some c' →
  exclusion_inv c → exclusion_inv c'.
Proof.
  unfold step_task, exclusion_inv, holders.
  destruct (files !! i) as [f|]; [|done].
  destruct (c_tasks c !! i) as [pc|] eqn:Hpc; [|done].
  intros Hstep Hinv.
  destruct pc; try done;
    try (destruct (c_mutex c) eqn:Hmu; [done|]);
    try destruct (HasSuffix (Name f) ".yml");
    injection Hstep as <-; cbn;
    match goal with
    | |- context [<[i := ?pc']> (c_tasks c)] =>
        pose proof (holders_insert c i _ pc' Hpc) as Hsum
    end;
    cbn in Hsum; destruct (main_holds (c_main c)), (c_mutex c); lia.
Qed.

Lemma step_main_exclusion c c' :
  step_main files c = Some c' →
  counter_inv files c → exclusion_inv c → exclusion_inv c'.
Proof.
  unfold step_main, exclusion_inv, holders. intros Hstep [Hlen Hmain] Hinv.
  destruct (c_main c) as [|k| | | | |] eqn:Hm.
  - by injection Hstep as <-.
  - destruct Hmain as [_ Hfront].
    destruct (Nat.ltb_spec k (length files)) as [Hlt|Hge]; injection Hstep as <-; cbn;
      [|done].
    pose proof (holders_insert c k _ AtEntry (Hfront k (le_n _) Hlt)) as Hsum.
    cbn in *. lia.
  - destruct (c_wg c =? 0)%Z; [|done]. by injection Hstep as <-.
  - destruct (c_mutex c); [done|]. injection Hstep as <-. cbn in *. lia.
  - by injection Hstep as <-.
  - injection Hstep as <-. cbn in *. destruct (c_mutex c); lia.
  - done.
Qed.

Lemma reachable_exclusion im fin c :
  reachable env this files im fin c → exclusion_inv c.
Proof.
  apply reachable_induction.
  - unfold exclusion_inv, holders, entry. cbn.
    induction (length files) as [|n IH]; cbn; [done|]. by rewrite IH.
  - intros c0 ch c' Hreach Hinv Hstep.
    destruct ch as [|i picks]; cbn in Hstep.
    + eapply step_main_exclusion; [done| |done].
      by apply (reachable_invs env this files im fin).
    + by eapply step_task_exclusion.
Qed.

Lemma holders_two tasks i j pci pcj :
  tasks !! i = Some pci → tasks !! j = Some pcj → i ≠ j →
  holds pci = true → holds pcj = true →
  (2 ≤ sum_list_with (fun pc => if holds pc then 1 else 0) tasks)%nat.
Proof.
  revert i j. induction tasks as [|pc tasks IH]; intros [|i] [|j]; cbn; try done.
  - intros [= ->] Hj _ -> Hhj.
    assert (1 ≤ sum_list_with (fun pc => if holds pc then 1 else 0) tasks)%nat; [|lia].
    clear IH. revert j Hj. induction tasks as [|pc tasks IH]; intros [|j]; cbn; try done.
    + intros [= ->]. rewrite Hhj. lia.
    + intros Hj. specialize (IH _ Hj). lia.
  - intros Hi [= ->] _ Hhi ->.
    assert (1 ≤ sum_list_with (fun pc => if holds pc then 1 else 0) tasks)%nat; [|lia].
    clear IH. revert i Hi. induction tasks as [|pc tasks IH]; intros [|i]; cbn; try done.
    + intros [= ->]. rewrite Hhi. lia.
    + intros Hi. specialize (IH _ Hi). lia.
  - intros Hi Hj Hne Hhi Hhj.
    assert (2 ≤ sum_list_with (fun pc => if holds pc then 1 else 0) tasks)%nat; [|lia].
    eapply (IH i j); eauto.
Qed.

Lemma holders_one tasks i pc :
  tasks !! i = Some pc → holds pc = true →
  (1 ≤ sum_list_with (fun pc => if holds pc then 1 else 0) tasks)%nat.
Proof.
  revert i. induction tasks as [|pc0 tasks IH]; intros [|i]; cbn; try done.
  - intros [= ->] ->. lia.
  - intros Hi Hh. specialize (IH _ Hi Hh). lia.
Qed.

End JoinExclusion.

(** X15.  The critical sections of the parse phase exclude each other.
    In every configuration an interleaving of the caller and the
    goroutines can reach, at most one of them stands between a
    [mutex.Lock()] and its [mutex.Unlock()], where the appends to
    [tablesNames], the stores into [insertMap] and the assignment to
    [finishedTablseNames] are made: no two goroutines are inside
    at once, the caller is inside only when no goroutine is, and when
    the mutex is free nobody is inside. *)
Theorem critical_sections_exclude_each_other
    (env : Env) (this : Fixturer) (files : list FileInfo)
    (im : gmap string InsertBuilder) (fin : list string) (c : Config) :
  reachable env this files im fin c →
  (∀ i j pci pcj, c_tasks c !! i = Some pci → c_tasks c !! j = Some pcj →
                  holds pci = true → holds pcj = true → i = j)
  ∧ (main_holds (c_main c) = true →
     ∀ i pc, c_tasks c !! i = Some pc → holds pc = false)
  ∧ (c_mutex c = false →
     main_holds (c_main c) = false
     ∧ ∀ i pc, c_tasks c !! i = Some pc → holds pc = false)
  ∧ (c_mutex c = true → holders c = 1).
Proof.
  intros Hreach. apply reachable_exclusion in Hreach.
  unfold exclusion_inv, holders in *.
  split; [|split; [|split]].
  - intros i j pci pcj Hi Hj Hhi Hhj. destruct (decide (i = j)) as [|Hne]; [done|].
    pose proof (holders_two _ _ _ _ _ Hi Hj Hne Hhi Hhj).
    destruct (main_holds (c_main c)), (c_mutex c); lia.
  - intros Hm i pc Hi. destruct (holds pc) eqn:Hh; [|done].
    pose proof (holders_one _ _ _ Hi Hh). rewrite Hm in Hreach.
    destruct (c_mutex c); lia.
  - intros Hmu. rewrite Hmu in Hreach. split.
    + destruct (main_holds (c_main c)); [lia|done].
    + intros i pc Hi. destruct (holds pc) eqn:Hh; [|done].
      pose proof (holders_one _ _ _ Hi Hh). lia.
  - intros Hmu. by rewrite Hmu in Hreach.
Qed.

Lemma critical_sections_exclude_each_other_witness :
  let files := [mkFileInfo "users.yml" false; mkFileInfo "bad.yml" false] in
  let c := run (scenario_env no_fault) fixturer_fx files
               (replicate 4 Caller ++ replicate 3 (Goroutine 0 [1])
                  ++ replicate 3 (Goroutine 1 [])) (entry files ∅ []) in
  c_mutex c = true
  ∧ (∃ data, c_tasks c !! 0 = Some (AtAppend data))
  ∧ (∃ data, c_tasks c !! 1 = Some (AtLock1 data))
  ∧ holders c = 1.
Proof.
  intros files c.
  assert (Hmu : c_mutex c = true) by (vm_compute; reflexivity).
  split; [exact Hmu|]. split; [eexists; vm_compute; reflexivity|].
  split; [eexists; vm_compute; reflexivity|].
  refine (proj2 (proj2 (proj2 (critical_sections_exclude_each_other
            (scenario_env no_fault) fixturer_fx files ∅ [] c _))) Hmu).
  by eexists.
Defined.

Section JoinCounter.

Variable env : Env.
Variable this : Fixturer.
Variable files : list FileInfo.

Lemma unfinished_le tasks : (unfinished tasks ≤ length tasks)%nat.
Proof.
  unfold unfinished. induction tasks as [|pc tasks IH]; cbn; [done|].
  destruct (decide (pc = Finished)); lia.
Qed.

Lemma unfinished_all_finished tasks :
  Forall (fun pc => pc = Finished) tasks → unfinished tasks = 0.
Proof.
  unfold unfinished. induction 1 as [|pc tasks -> _ IH]; cbn; [done|]. exact IH.
Qed.

Lemma reachable_wg im fin c :
  reachable env this files im fin c → wg_inv c.
Proof.
  apply reachable_induction.
  - done.
  - intros c0 ch c' Hreach Hinv Hstep.
    pose proof (reachable_invs env this files im fin c0 Hreach) as ([Hlen Hmain] & _ & _).
    unfold wg_inv in *.
    destruct ch as [|i picks]; cbn in Hstep.
    + unfold step_main in Hstep.
      destruct (c_main c0) as [|k| | | | |] eqn:Hm.
      * injection Hstep as <-. cbn. destruct Hmain as [_ Hall].
        rewrite (unfinished_not_launched _ Hall), Hlen, Hinv. lia.
      * destruct Hmain as [_ Hfront].
        destruct (Nat.ltb_spec k (length files)) as [Hlt|Hge];
          injection Hstep as <-; cbn; [|done].
        pose proof (unfinished_insert _ _ _ AtEntry (Hfront k (le_n _) Hlt)) as Hu.
        repeat case_decide; try done. rewrite Hinv. lia.
      * destruct (c_wg c0 =? 0)%Z; [|done]. by injection Hstep as <-.
      * destruct (c_mutex c0); [done|]. by injection Hstep as <-.
      * by injection Hstep as <-.
      * by injection Hstep as <-.
      * done.
    + apply step_task_effect in Hstep
        as (f & pc & pc' & Hf & Hpc & Hnl & Hnf & _ & Htasks & Hm & _ & Hwg & _).
      rewrite Hm, Htasks, Hwg.
      pose proof (unfinished_insert _ _ _ pc' Hpc) as Hu.
      assert (Hpos : (1 ≤ unfinished (c_tasks c0))%nat).
      { clear -Hpc Hnf. unfold unfinished. revert i Hpc.
        induction (c_tasks c0) as [|pc0 tasks IH]; intros [|i]; cbn; try done.
        - intros [= ->]. case_decide; [done|lia].
        - intros Hi. specialize (IH _ Hi). lia. }
      destruct (c_main c0) as [|k| | | | |] eqn:Hm0;
        try (repeat case_decide; try done; lia).
      destruct Hmain as [_ Hall]. rewrite Forall_forall in Hall.
      destruct Hnl. apply Hall. by eapply list_elem_of_lookup_2.
Qed.

End JoinCounter.

(** X16.  The counter of the WaitGroup never goes below zero.  In every
    configuration the parse phase can reach, once [wg.Add(len(files))]
    has run the counter is the number of goroutines that have not yet
    run their deferred [wg.Done()], those not yet started among them; so
    it lies between 0 and the number of files, and it is 0 whenever the
    caller is past [wg.Wait()]. *)
Theorem waitgroup_counter_counts_the_unfinished_goroutines
    (env : Env) (this : Fixturer) (files : list FileInfo)
    (im : gmap string InsertBuilder) (fin : list string) (c : Config) :
  reachable env this files im fin c →
  (0 ≤ c_wg c ≤ Z.of_nat (length files))%Z
  ∧ (c_main c ≠ MAdd → c_wg c = Z.of_nat (unfinished (c_tasks c)))
  ∧ (past_wait (c_main c) = true → c_wg c = 0%Z).
Proof.
  intros Hreach.
  pose proof (reachable_invs env this files im fin c Hreach) as ([Hlen Hmain] & _ & _).
  apply reachable_wg in Hreach. unfold wg_inv in Hreach.
  pose proof (unfinished_le (c_tasks c)) as Hle.
  destruct (c_main c) as [|k| | | | |] eqn:Hm; cbn;
    try rewrite (unfinished_all_finished _ Hmain) in *;
    (split; [lia|]); (split; [done|]); try done; intros _; lia.
Qed.

Lemma waitgroup_counter_counts_the_unfinished_goroutines_witness :
  let files := [mkFileInfo "users.yml" false; mkFileInfo "bad.yml" false] in
  let c := run (scenario_env no_fault) fixturer_fx files
               (replicate 4 Caller ++ replicate 10 (Goroutine 1 []))
               (entry files ∅ []) in
  c_tasks c = [AtEntry; Finished] ∧ c_wg c = 1%Z.
Proof.
  intros files c.
  assert (Ht : c_tasks c = [AtEntry; Finished]) by (vm_compute; reflexivity).
  split; [exact Ht|].
  destruct (waitgroup_counter_counts_the_unfinished_goroutines
              (scenario_env no_fault) fixturer_fx files ∅ [] c) as (_ & H & _).
  { by eexists. }
  rewrite H; [by rewrite Ht|]. vm_compute. intros E. discriminate E.
Defined.

Section JoinBound.

Variable env : Env.
Variable this : Fixturer.
Variable files : list FileInfo.

Lemma step_uses_up im fin c ch c' :
  reachable env this files im fin c →
  step env this files ch c = Some c' →
  (steps_left (length files) c' < steps_left (length files) c)%nat.
Proof.
  intros Hreach Hstep.
  pose proof (reachable_invs env this files im fin c Hreach) as (Hc & _ & _).
  pose proof (reachable_ctrl_invs env this files im fin c Hreach) as [Hmx Hl].
  destruct ch as [|i picks]; cbn in Hstep.
  - by apply step_main_mutex in Hstep as (_ & _ & ?).
  - by apply (step_task_mutex env this) in Hstep as (_ & _ & ?).
Qed.

Lemma moves_bound im fin sched c :
  reachable env this files im fin c →
  (moves env this files sched c + steps_left (length files) (run env this files sched c)
   ≤ steps_left (length files) c)%nat.
Proof.
  revert c. induction sched as [|ch sched IH]; intros c Hreach; cbn.
  - unfold run. cbn. lia.
  - unfold run in *. cbn.
    destruct (step env this files ch c) as [c'|] eqn:Hstep; cbn.
    + pose proof (step_uses_up _ _ _ _ _ Hreach Hstep).
      pose proof (IH c' (reachable_step env this files im fin c ch c' Hreach Hstep)).
      lia.
    + by apply IH.
Qed.

Lemma steps_left_entry im fin :
  steps_left (length files) (entry files im fin) = 12 * length files + 6.
Proof.
  unfold steps_left, entry. cbn [c_main c_tasks main_left].
  assert (H : ∀ n, sum_list_with task_left (replicate n NotLaunched) = 11 * n).
  { induction n as [|n IH]; cbn [replicate sum_list_with task_left]; [done|].
    rewrite IH. lia. }
  rewrite H. lia.
Qed.

End JoinBound.

(** X17.  The parse phase cannot get stuck and cannot run on for ever.
    In every configuration an interleaving can reach, as long as the
    caller has not returned somebody can move (a goroutine waiting for the
    mutex, or the caller waiting in [wg.Wait()], is never the only one
    left); every step uses up one of finitely many, so under any
    scheduler the number of steps taken from there is bounded, by 12 per
    file and 6 for the caller from the entry of the call; and some
    schedule brings the caller to its return. *)
Theorem parse_phase_neither_deadlocks_nor_diverges
    (env : Env) (this : Fixturer) (files : list FileInfo)
    (im : gmap string InsertBuilder) (fin : list string) (c : Config) :
  reachable env this files im fin c →
  (c_main c ≠ MReturned → ∃ ch c', step env this files ch c = Some c')
  ∧ (∀ sched, (moves env this files sched c ≤ steps_left (length files) c)%nat
              ∧ (steps_left (length files) c ≤ 12 * length files + 6)%nat)
  ∧ (∃ sched, c_main (run env this files sched c) = MReturned).
Proof.
  intros Hreach.
  pose proof (reachable_invs env this files im fin c Hreach) as (Hc & _ & _).
  pose proof (reachable_ctrl_invs env this files im fin c Hreach) as [Hmx Hl].
  split; [by apply join_progress|]. split; [|by eapply join_returns].
  intros sched. split.
  - pose proof (moves_bound env this files im fin sched c Hreach). lia.
  - destruct Hreach as [sched0 ->].
    pose proof (moves_bound env this files im fin sched0 (entry files im fin)) as Hb.
    rewrite steps_left_entry in Hb. etrans; [|apply Hb; by exists []]. lia.
Qed.

Lemma parse_phase_neither_deadlocks_nor_diverges_witness :
  let files := [mkFileInfo "users.yml" false; mkFileInfo "bad.yml" false] in
  let c := entry files ∅ [] in
  moves (scenario_env no_fault) fixturer_fx files join_schedule c = 28
  ∧ c_main (run (scenario_env no_fault) fixturer_fx files join_schedule c) = MReturned
  ∧ (moves (scenario_env no_fault) fixturer_fx files join_schedule c ≤ 12 * 2 + 6)%nat.
Proof.
  intros files c. split; [vm_compute; reflexivity|]. split; [vm_compute; reflexivity|].
  destruct (parse_phase_neither_deadlocks_nor_diverges
              (scenario_env no_fault) fixturer_fx files ∅ [] c) as (_ & H & _).
  { by exists []. }
  destruct (H join_schedule) as [H1 H2]. etrans; [exact H1|exact H2].
Defined.

Lemma allKeys_of_Permutation picks1 picks2 data :
  allKeys_of picks1 data ≡ₚ allKeys_of picks2 data.
Proof.
  apply NoDup_Permutation; [apply allKeys_of_NoDup..|].
  intros k. by rewrite !elem_of_allKeys_of.
Qed.

(** X18.  What the parse phase leaves behind does not depend on the
    interleaving, up to order.  Any two runs of the call from the same
    package variables that have returned hold the same table names in
    [finishedTablseNames], in some order; the same entries of
    [insertMap] under every name that is not the name of a .yml file of
    the phase; and under the name of each .yml file a batch built from
    the records of that file, the two differing at most in the iteration
    order over the keys, their column lists being permutations of each
    other. *)
Theorem parse_phase_result_does_not_depend_on_the_interleaving
    (env : Env) (this : Fixturer) (files : list FileInfo)
    (im : gmap string InsertBuilder) (fin : list string) (c1 c2 : Config) :
  reachable env this files im fin c1 →
  reachable env this files im fin c2 →
  c_main c1 = MReturned → c_main c2 = MReturned →
  c_finished c1 ≡ₚ c_finished c2
  ∧ (∀ k, (∀ f, f ∈ files → has_yml f = true → Name f ≠ k) →
          c_insertMap c1 !! k = c_insertMap c2 !! k)
  ∧ (∀ f, f ∈ files → has_yml f = true →
          ∃ picks1 picks2,
            let qb1 := build_batch picks1 (table_of (Name f)) (decoded env this (Name f)) in
            let qb2 := build_batch picks2 (table_of (Name f)) (decoded env this (Name f)) in
            c_insertMap c1 !! Name f = Some qb1
            ∧ c_insertMap c2 !! Name f = Some qb2
            ∧ ib_columns qb1 ≡ₚ ib_columns qb2).
Proof.
  intros Hr1 Hr2 Hm1 Hm2.
  set (s := mkState fin ∅ im ∅ None 0 0 0 []).
  destruct (sequential_reading_agrees_with_interleavings env this files s c1 Hr1 Hm1)
    as (Hf1 & Hb1 & Ho1).
  destruct (sequential_reading_agrees_with_interleavings env this files s c2 Hr2 Hm2)
    as (Hf2 & Hb2 & Ho2).
  split; [by rewrite Hf1, Hf2|].
  split; [intros k Hk; by rewrite Ho1, Ho2|].
  intros f Hf Hy.
  destruct (Hb1 f Hf Hy) as (picks1 & _ & H1 & _).
  destruct (Hb2 f Hf Hy) as (picks2 & _ & H2 & _).
  exists picks1, picks2. cbn zeta. split; [done|]. split; [done|].
  rewrite !build_batch_unfold. cbn. apply allKeys_of_Permutation.
Qed.

Lemma parse_phase_result_does_not_depend_on_the_interleaving_witness :
  let env := scenario_env no_fault in
  let files := [mkFileInfo "users.yml" false; mkFileInfo "bad.yml" false] in
  let c1 := run env fixturer_fx files join_schedule (entry files ∅ []) in
  let c2 := run env fixturer_fx files sequential_schedule (entry files ∅ []) in
  c_finished c1 = ["bad"; "users"] ∧ c_finished c2 = ["users"; "bad"]
  ∧ c_finished c1 ≡ₚ c_finished c2.
Proof.
  intros env files c1 c2.
  split; [vm_compute; reflexivity|]. split; [vm_compute; reflexivity|].
  apply (parse_phase_result_does_not_depend_on_the_interleaving
           env fixturer_fx files ∅ [] c1 c2).
  - by eexists.
  - by eexists.
  - vm_compute. reflexivity.
  - vm_compute. reflexivity.
Defined.

(* ===================================================================== *)
(** ** The first generation of the package *)
(* ===================================================================== *)

(** Stepping through a call of the first generation. *)
Lemma lbind_Returned {A B} (m : Legacy.L A) (k : A → Legacy.L B) s a s' :
  m s = (Returned a, s') → Legacy.lbind m k s = k a s'.
Proof. unfold Legacy.lbind. by intros ->. Qed.

Lemma lemit_run c s :
  Legacy.lemit c s
  = (Returned tt, Legacy.mkLState (Legacy.l_clock s) (Legacy.l_rng s)
                                  (Legacy.l_trace s ++ [c])).
Proof. done. Qed.

Lemma legacy_db_Exec_run env this q s :
  Legacy.db this = true →
  ∃ r s', Legacy.db_Exec env this q s = (Returned r, s')
          ∧ r = ErrDb <$> env_fault env (Legacy.l_clock s) (Exec q)
          ∧ Legacy.l_trace s' = Legacy.l_trace s ++ [Legacy.CDb (Exec q) r]
          ∧ Legacy.l_rng s' = Legacy.l_rng s
          ∧ Legacy.l_clock s' = S (Legacy.l_clock s).
Proof. unfold Legacy.db_Exec. intros ->. by eexists _, _. Qed.

Lemma calls_since_app s s' tr :
  Legacy.l_trace s' = Legacy.l_trace s ++ tr → calls_since s s' = tr.
Proof. unfold calls_since. intros ->. by rewrite drop_app_length. Qed.

Lemma executed_app tr1 tr2 : executed (tr1 ++ tr2) = executed tr1 ++ executed tr2.
Proof. apply omap_app. Qed.

Lemma stops_at_first_refusal_cons q qs r ex :
  stops_at_first_refusal qs r ex →
  stops_at_first_refusal (q :: qs) r ((q, None) :: ex).
Proof.
  unfold stops_at_first_refusal. destruct r as [e|]; cbn.
  - intros (sent & q' & Hpre & ->). exists (q :: sent), q'.
    split; [by apply prefix_cons|done].
  - by intros ->.
Qed.

Lemma stops_at_first_refusal_first q qs e :
  stops_at_first_refusal (q :: qs) (Some e) [(q, Some e)].
Proof. exists [], q. split; [|done]. apply prefix_cons, prefix_nil. Qed.

(** The loop of [LoadCsvFixtures]. *)
Lemma load_loop_run env this dir files s :
  Legacy.db this = true →
  ∃ r s' tr,
    Legacy.load_loop env this dir files s = (Returned r, s')
    ∧ Legacy.l_trace s' = Legacy.l_trace s ++ tr
    ∧ stops_at_first_refusal (csv_statements dir files) r (executed tr)
    ∧ (∀ e, r = Some e → In (Legacy.CPrintErr e) tr).
Proof.
  intros Hdb. revert s. induction files as [|f files IH]; intros s.
  - exists None, s, []. split; [done|]. by rewrite app_nil_r.
  - cbn [Legacy.load_loop]. unfold csv_statements. cbn [List.filter].
    fold (has_csv f). destruct (has_csv f) eqn:Hcsv; cbn [negb]; [|apply IH].
    destruct (legacy_db_Exec_run env this (Truncate (TrimSuffix (Name f) ".csv")) s Hdb)
      as (r1 & s1 & E1 & Hr1 & Htr1 & _).
    rewrite (lbind_Returned _ _ _ _ _ E1).
    destruct r1 as [e1|].
    { rewrite (lbind_Returned _ _ _ _ _ (lemit_run _ _)).
      eexists _, _, _. split; [done|]. cbn. split; [by rewrite Htr1, <- app_assoc|].
      split; [apply stops_at_first_refusal_first|].
      intros e [= <-]. right. by left. }
    destruct (legacy_db_Exec_run env this
                (Sql ("LOAD DATA INFILE '" +:+ dir +:+ "/" +:+ Name f
                        +:+ "' INTO TABLE " +:+ TrimSuffix (Name f) ".csv")) s1 Hdb)
      as (r2 & s2 & E2 & Hr2 & Htr2 & _).
    rewrite (lbind_Returned _ _ _ _ _ E2).
    destruct r2 as [e2|].
    { rewrite (lbind_Returned _ _ _ _ _ (lemit_run _ _)).
      eexists _, _, _. split; [done|]. cbn.
      split; [by rewrite Htr2, Htr1, <- !app_assoc|].
      split; [apply stops_at_first_refusal_cons, stops_at_first_refusal_first|].
      intros e [= <-]. right. right. by left. }
    destruct (IH s2) as (r & s' & tr & E & Htr & Hrun & Hlog).
    exists r, s', (Legacy.CDb (Exec (Truncate (TrimSuffix (Name f) ".csv"))) None
                     :: Legacy.CDb (Exec (Sql ("LOAD DATA INFILE '" +:+ dir +:+ "/"
                            +:+ Name f +:+ "' INTO TABLE "
                            +:+ TrimSuffix (Name f) ".csv"))) None :: tr).
    split; [done|]. split; [by rewrite Htr, Htr2, Htr1, <- !app_assoc|].
    split; [cbn; by do 2 apply stops_at_first_refusal_cons|].
    intros e He. right. right. by apply Hlog.
Qed.

Lemma consoleLog_run param colorNum s :
  (0 ≤ colorNum < 11)%Z →
  ∃ text, Legacy.consoleLog param colorNum s
          = (Returned tt, Legacy.mkLState (Legacy.l_clock s) (Legacy.l_rng s)
                            (Legacy.l_trace s ++ [Legacy.CPrint text])).
Proof.
  intros Hrange. unfold Legacy.consoleLog.
  destruct (Z.leb_spec 0 colorNum) as [_|]; [|lia].
  destruct (Legacy.color !! Z.to_nat colorNum) as [c|] eqn:Hc; [by eexists|].
  apply lookup_ge_None in Hc. cbn in Hc. lia.
Qed.

(** X19.  [LoadCsvFixtures] of the first generation works through the
    .csv files of its directory in the order of the listing: for each it
    truncates the table named by the file and then loads the file into
    it, and it stops at the first statement the server refuses, printing
    and returning the error, so that a table whose load is refused stays
    truncated.  Entries without the suffix are passed over.  The
    constraint checks are switched off first and, when that was accepted,
    switched on again on every way out; when it is refused nothing else
    is sent.  A directory that cannot be listed counts as empty: the
    call returns nil.  On a fixturer whose handle is nil the first
    statement panics. *)
Theorem csv_load_truncates_then_loads_each_file
    (env : Env) (sys : Legacy.Sys) (this : Legacy.Fixturer) (s : Legacy.LState) :
  let out := Legacy.LoadCsvFixtures env sys this s in
  let tr := calls_since s (snd out) in
  let dir := csv_dir this in
  if Legacy.db this then
    ∃ r, fst out = Returned r
      ∧ ((∃ e, r = Some e ∧ executed tr = [(SetForeignKeyChecks false, Some e)])
         ∨ (∃ ex r1,
              executed tr = (SetForeignKeyChecks false, None) :: ex
                              ++ [(SetForeignKeyChecks true, r1)]
              ∧ stops_at_first_refusal
                  (csv_statements dir (Legacy.listing env dir)) r ex
              ∧ (∀ e, r = Some e → In (Legacy.CPrintErr e) tr)
              ∧ (∀ msg, env_ReadDir env dir = inr msg → r = None ∧ ex = [])))
  else (∃ msg, fst out = Panicked msg) ∧ executed tr = [].
Proof.
  intros out tr dir. subst out tr dir. unfold Legacy.LoadCsvFixtures.
  destruct (consoleLog_run "LoadCsvFixtures" 4 s ltac:(lia)) as [text0 E0].
  rewrite (lbind_Returned _ _ _ _ _ E0). set (s0 := Legacy.mkLState _ _ _).
  destruct (Legacy.db this) eqn:Hdb.
  2:{ unfold Legacy.db_Exec. rewrite Hdb. unfold Legacy.lbind, Legacy.lpanic. cbn.
      split; [by eexists|].
      erewrite calls_since_app; [|subst s0; cbn; reflexivity]. done. }
  destruct (legacy_db_Exec_run env this (SetForeignKeyChecks false) s0 Hdb)
    as (r1 & s1 & E1 & Hr1 & Htr1 & _).
  rewrite (lbind_Returned _ _ _ _ _ E1).
  destruct r1 as [e1|].
  { exists (Some e1). split; [done|]. left. exists e1. split; [done|].
    erewrite calls_since_app; [|cbn; rewrite Htr1; subst s0; cbn;
                                 rewrite <- app_assoc; reflexivity].
    done. }
  fold (csv_dir this).
  rewrite (lbind_Returned _ _ _ _ _ (lemit_run _ _)). set (s2 := Legacy.mkLState _ _ _).
  assert (∃ s3 tr3, (if decide (Legacy.listing_cap env sys (csv_dir this) = 0)
                     then Legacy.consoleLog "Csv Fixtures not load !!!!" 5
                     else Legacy.lret tt) s2 = (Returned tt, s3)
                    ∧ Legacy.l_trace s3 = Legacy.l_trace s2 ++ tr3
                    ∧ executed tr3 = []) as (s3 & tr3 & E3 & Htr3 & Hex3).
  { case_decide.
    - destruct (consoleLog_run "Csv Fixtures not load !!!!" 5 s2 ltac:(lia)) as [text E].
      eexists _, [_]. split; [exact E|]. done.
    - exists s2, []. split; [done|]. by rewrite app_nil_r. }
  rewrite (lbind_Returned _ _ _ _ _ E3).
  destruct (load_loop_run env this (csv_dir this) (Legacy.listing env (csv_dir this))
              s3 Hdb) as (r & s4 & tr4 & E4 & Htr4 & Hrun & Hlog).
  rewrite (lbind_Returned _ _ _ _ _ E4).
  destruct (legacy_db_Exec_run env this (SetForeignKeyChecks true) s4 Hdb)
    as (r5 & s5 & E5 & Hr5 & Htr5 & _).
  rewrite (lbind_Returned _ _ _ _ _ E5). cbn [fst snd Legacy.lret].
  exists r. split; [done|]. right. exists (executed tr4), r5.
  erewrite calls_since_app.
  2:{ rewrite Htr5, Htr4, Htr3. subst s2. cbn. rewrite Htr1. subst s0. cbn.
      rewrite <- !app_assoc. reflexivity. }
  split.
  { rewrite !executed_app, Hex3. cbn. done. }
  split; [done|]. split.
  { intros e He. apply Hlog in He. in_list. }
  intros msg Hmsg. unfold Legacy.listing in Hrun. rewrite Hmsg in Hrun.
  unfold stops_at_first_refusal, csv_statements in Hrun. cbn in Hrun.
  destruct r as [e|]; [|done].
  destruct Hrun as (sent & q & Hpre & _).
  apply prefix_nil_inv in Hpre. by destruct sent.
Qed.

Lemma csv_load_truncates_then_loads_each_file_witness :
  let out := Legacy.LoadCsvFixtures (legacy_env load_fault) plain_sys legacy_fixturer
               Legacy.start in
  fst out = Returned (Some (ErrDb "file not found"))
  ∧ executed (calls_since Legacy.start (snd out))
    = [(SetForeignKeyChecks false, None);
       (Truncate "bad", None);
       (Sql "LOAD DATA INFILE 'csv/suite/bad.csv' INTO TABLE bad", None);
       (Truncate "users", None);
       (Sql "LOAD DATA INFILE 'csv/suite/users.csv' INTO TABLE users",
        Some (ErrDb "file not found"));
       (SetForeignKeyChecks true, None)].
Proof.
  intros out.
  assert (Hex : executed (calls_since Legacy.start (snd out))
                = [(SetForeignKeyChecks false, None);
                   (Truncate "bad", None);
                   (Sql "LOAD DATA INFILE 'csv/suite/bad.csv' INTO TABLE bad", None);
                   (Truncate "users", None);
                   (Sql "LOAD DATA INFILE 'csv/suite/users.csv' INTO TABLE users",
                    Some (ErrDb "file not found"));
                   (SetForeignKeyChecks true, None)]) by (vm_compute; reflexivity).
  split; [|exact Hex].
  destruct (csv_load_truncates_then_loads_each_file
              (legacy_env load_fault) plain_sys legacy_fixturer Legacy.start)
    as (r & Hr & [(e & -> & H)|(ex & r1 & H & Hrun & _)]).
  - fold out in H. rewrite Hex in H. discriminate H.
  - fold out in Hr, H. rewrite Hr. f_equal. rewrite Hex in H.
    injection H as H.
    destruct ex as [|x1 [|x2 [|x3 [|x4 [|x5 ex]]]]]; try discriminate H.
    + injection H as <- <- <- <- _.
      unfold stops_at_first_refusal in Hrun. destruct r as [e|].
      * destruct Hrun as (sent & q & _ & Hrun).
        destruct sent as [|? [|? [|? [|? [|? sent]]]]]; try discriminate Hrun.
        cbn in Hrun. congruence.
      * discriminate Hrun.
    + injection H as _ _ _ _ H. by destruct ex.
Defined.

(** ** Suffixes *)

Lemma append_cons (c : ascii) (s t : string) :
  String c s +:+ t = String c (s +:+ t).
Proof. done. Qed.

Lemma length_append_string (s t : string) :
  String.length (s +:+ t) = String.length s + String.length t.
Proof.
  induction s as [|c s IH]; [done|]. rewrite append_cons. cbn. by rewrite IH.
Qed.

Lemma substring_whole (t : string) : String.substring 0 (String.length t) t = t.
Proof. induction t as [|c t IH]; cbn; [done|]. by rewrite IH. Qed.

Lemma substring_skip (s t : string) :
  String.substring (String.length s) (String.length t) (s +:+ t) = t.
Proof.
  induction s as [|c s IH]; [apply substring_whole|]. rewrite append_cons. exact IH.
Qed.

Lemma substring_front (s t : string) :
  String.substring 0 (String.length s) (s +:+ t) = s.
Proof.
  induction s as [|c s IH]; [by destruct t|]. rewrite append_cons. cbn. by rewrite IH.
Qed.

Lemma HasSuffix_append s suffix : HasSuffix (s +:+ suffix) suffix = true.
Proof.
  unfold HasSuffix. rewrite length_append_string.
  destruct (Nat.leb_spec (String.length suffix) (String.length s + String.length suffix));
    [|lia].
  replace (String.length s + String.length suffix - String.length suffix)
    with (String.length s) by lia.
  rewrite substring_skip. apply String.eqb_refl.
Qed.

Lemma TrimSuffix_append s suffix : TrimSuffix (s +:+ suffix) suffix = s.
Proof.
  unfold TrimSuffix. rewrite HasSuffix_append, length_append_string.
  replace (String.length s + String.length suffix - String.length suffix)
    with (String.length s) by lia.
  apply substring_front.
Qed.


(** The loop of [generateCsvFixtures]. *)
Lemma generate_loop_run env this dir files s :
  Legacy.db this = true →
  ∃ r s' tr,
    Legacy.generate_loop env this dir files s = (Returned r, s')
    ∧ Legacy.l_trace s' = Legacy.l_trace s ++ tr
    ∧ stops_at_first_refusal (select_statement dir <$> files) r (executed tr)
    ∧ (∀ c, In c tr → ∃ q res, c = Legacy.CDb (Exec q) res).
Proof.
  intros Hdb. revert s. induction files as [|f files IH]; intros s.
  - exists None, s, []. split; [done|]. split; [by rewrite app_nil_r|].
    split; [done|]. by intros c [].
  - cbn [Legacy.generate_loop fmap list_fmap].
    destruct (legacy_db_Exec_run env this (select_statement dir f) s Hdb)
      as (r1 & s1 & E1 & Hr1 & Htr1 & _).
    unfold select_statement, csv_name in E1.
    rewrite (lbind_Returned _ _ _ _ _ E1).
    destruct r1 as [e1|].
    { eexists _, _, _. split; [done|]. split; [exact Htr1|].
      split; [apply stops_at_first_refusal_first|].
      intros c [<-|[]]. by eexists _, _. }
    destruct (IH s1) as (r & s' & tr & E & Htr & Hrun & Honly).
    exists r, s', (Legacy.CDb (Exec (select_statement dir f)) None :: tr).
    split; [done|]. split; [by rewrite Htr, Htr1, <- !app_assoc|].
    split; [by apply stops_at_first_refusal_cons|].
    intros c [<-|Hin]; [by eexists _, _|by apply Honly].
Qed.

(** [generateCsvFixtures], call by call. *)
Lemma generateCsvFixtures_run env sys this s :
  Legacy.db this = true →
  ∃ r s' tr,
    Legacy.generateCsvFixtures env sys this s = (Returned r, s')
    ∧ Legacy.l_trace s' = Legacy.l_trace s ++ tr
    ∧ (In (Legacy.CRemoveAll (csv_dir this)) tr
       ↔ Legacy.sys_stat sys (csv_dir this) = true)
    ∧ match Legacy.sys_mkdir sys (csv_dir this), Legacy.sys_chmod sys (csv_dir this) with
      | Some msg, _ => r = Some (ErrIO msg) ∧ executed tr = []
      | None, Some msg => r = Some (ErrIO msg) ∧ executed tr = []
      | None, None =>
          stops_at_first_refusal
            (select_statement (csv_dir this)
               <$> Legacy.listing env (Legacy.fixturesPathYml this))
            r (executed tr)
      end.
Proof.
  intros Hdb. unfold Legacy.generateCsvFixtures. fold (csv_dir this).
  destruct (consoleLog_run "generateCsvFixtures" 3 s ltac:(lia)) as [text0 E0].
  rewrite (lbind_Returned _ _ _ _ _ E0). set (s0 := Legacy.mkLState _ _ _).
  rewrite (lbind_Returned _ _ _ _ _ (lemit_run _ _)). set (s1 := Legacy.mkLState _ _ _).
  assert (∃ s2 tr2, (if Legacy.sys_stat sys (csv_dir this)
                     then Legacy.lemit (Legacy.CRemoveAll (csv_dir this))
                     else Legacy.lret tt) s1 = (Returned tt, s2)
                    ∧ Legacy.l_trace s2 = Legacy.l_trace s1 ++ tr2
                    ∧ executed tr2 = []
                    ∧ (In (Legacy.CRemoveAll (csv_dir this)) tr2
                       ↔ Legacy.sys_stat sys (csv_dir this) = true))
    as (s2 & tr2 & E2 & Htr2 & Hex2 & Hrm).
  { destruct (Legacy.sys_stat sys (csv_dir this)).
    - eexists _, [_]. split; [apply lemit_run|]. split; [done|]. split; [done|].
      split; [done|by left].
    - exists s1, []. split; [done|]. split; [by rewrite app_nil_r|]. split; [done|].
      split; [intros []|done]. }
  rewrite (lbind_Returned _ _ _ _ _ E2).
  rewrite (lbind_Returned _ _ _ _ _ (lemit_run _ _)). set (s3 := Legacy.mkLState _ _ _).
  assert (Hrm' : ∀ rest, (∀ c, In c rest → c ≠ Legacy.CRemoveAll (csv_dir this)) →
            In (Legacy.CRemoveAll (csv_dir this))
               ([Legacy.CPrint text0; Legacy.CStat (csv_dir this)] ++ tr2 ++ rest)
            ↔ Legacy.sys_stat sys (csv_dir this) = true).
  { intros rest Hrest. rewrite <- Hrm. split.
    - intros [[=]|[[=]|Hin]]. cbn [app] in Hin.
      apply in_app_or in Hin. destruct Hin as [Hin|Hin]; [done|].
      by apply Hrest in Hin.
    - intros Hin. right. right. cbn [app]. apply in_or_app. by left. }
  destruct (Legacy.sys_mkdir sys (csv_dir this)) as [m1|] eqn:Hmk;
    cbn [fmap option_fmap option_map].
  { eexists _, _, _. split; [reflexivity|]. split.
    { subst s3. cbn. rewrite Htr2. subst s1 s0. cbn. rewrite <- !app_assoc.
      reflexivity. }
    split.
    - apply Hrm'. by intros c [<-|[]].
    - split; [done|]. rewrite !executed_app, Hex2. done. }
  rewrite (lbind_Returned _ _ _ _ _ (lemit_run _ _)). set (s4 := Legacy.mkLState _ _ _).
  destruct (Legacy.sys_chmod sys (csv_dir this)) as [m2|] eqn:Hch;
    cbn [fmap option_fmap option_map].
  { eexists _, _, _. split; [reflexivity|]. split.
    { subst s4 s3. cbn. rewrite Htr2. subst s1 s0. cbn. rewrite <- !app_assoc.
      reflexivity. }
    split.
    - apply Hrm'. by intros c [<-|[<-|[]]].
    - split; [done|]. rewrite !executed_app, Hex2. done. }
  rewrite (lbind_Returned _ _ _ _ _ (lemit_run _ _)). set (s5 := Legacy.mkLState _ _ _).
  destruct (generate_loop_run env this (csv_dir this)
              (Legacy.listing env (Legacy.fixturesPathYml this)) s5 Hdb)
    as (r & s6 & tr6 & E6 & Htr6 & Hrun & Honly).
  rewrite E6. eexists _, _, _. split; [reflexivity|]. split.
  { rewrite Htr6. subst s5 s4 s3. cbn. rewrite Htr2. subst s1 s0. cbn.
    rewrite <- !app_assoc. reflexivity. }
  split.
  - apply Hrm'. intros c Hin Hc. subst c.
    destruct Hin as [[=]|[[=]|[[=]|Hin]]].
    by destruct (Honly _ Hin) as (q & res & [=]).
  - rewrite !executed_app, Hex2. done.
Qed.

(** X20.  [generateCsvFixtures] of the first generation prepares the
    output directory before it sends anything: the directory is removed
    when [os.Stat] finds it, made, and its mode set, and an error of
    making it or of setting the mode is returned with no statement sent.
    Then every entry of the fixture directory, whatever its name and
    kind, is taken for a table: one SELECT ... INTO OUTFILE per entry, in
    the order of the listing, up to the first one refused, whose error
    is returned.  The file written for an entry is one [LoadCsvFixtures]
    takes, and for the same table: its name ends in ".csv", and with the
    suffix taken off it is the entry's name without ".yml". *)
Theorem csv_files_are_written_for_every_entry
    (env : Env) (sys : Legacy.Sys) (this : Legacy.Fixturer) (s : Legacy.LState) :
  let out := Legacy.generateCsvFixtures env sys this s in
  let tr := calls_since s (snd out) in
  let dir := csv_dir this in
  (Legacy.db this = true →
   ∃ r, fst out = Returned r
     ∧ (In (Legacy.CRemoveAll dir) tr ↔ Legacy.sys_stat sys dir = true)
     ∧ match Legacy.sys_mkdir sys dir, Legacy.sys_chmod sys dir with
       | Some msg, _ => r = Some (ErrIO msg) ∧ executed tr = []
       | None, Some msg => r = Some (ErrIO msg) ∧ executed tr = []
       | None, None =>
           stops_at_first_refusal
             (select_statement dir <$> Legacy.listing env (Legacy.fixturesPathYml this))
             r (executed tr)
       end)
  ∧ (∀ f, has_csv (mkFileInfo (csv_name f) false) = true
          ∧ TrimSuffix (csv_name f) ".csv" = TrimSuffix (Name f) ".yml"
          ∧ csv_statements dir [mkFileInfo (csv_name f) false]
            = [Truncate (TrimSuffix (Name f) ".yml");
               Sql ("LOAD DATA INFILE '" +:+ dir +:+ "/" +:+ csv_name f
                      +:+ "' INTO TABLE " +:+ TrimSuffix (Name f) ".yml")]).
Proof.
  intros out tr dir. subst out tr dir. split.
  2:{ intros f. unfold has_csv, csv_name, csv_statements. cbn [Name List.filter].
      fold (has_csv (mkFileInfo (TrimSuffix (Name f) ".yml" +:+ ".csv") false)).
      unfold has_csv. cbn [Name].
      rewrite HasSuffix_append, TrimSuffix_append. split; [done|]. split; [done|].
      cbn. unfold csv_pair. by rewrite TrimSuffix_append. }
  intros Hdb.
  destruct (generateCsvFixtures_run env sys this s Hdb)
    as (r & s' & tr & E & Htr & Hrm & Hrun).
  rewrite E. cbn [fst snd]. rewrite (calls_since_app _ _ _ Htr). by exists r.
Qed.

Lemma csv_files_are_written_for_every_entry_witness :
  let out := Legacy.generateCsvFixtures (legacy_env no_fault) plain_sys legacy_fixturer
               Legacy.start in
  let tr := calls_since Legacy.start (snd out) in
  In (Legacy.CRemoveAll "csv/suite") tr
  ∧ ∃ r, fst out = Returned r
      ∧ stops_at_first_refusal
          [Sql "SELECT * FROM users INTO OUTFILE 'csv/suite/users.csv'";
           Sql "SELECT * FROM more INTO OUTFILE 'csv/suite/more.csv'";
           Sql "SELECT * FROM readme.txt INTO OUTFILE 'csv/suite/readme.txt.csv'";
           Sql "SELECT * FROM bad INTO OUTFILE 'csv/suite/bad.csv'"]
          r (executed tr).
Proof.
  intros out tr.
  destruct (proj1 (csv_files_are_written_for_every_entry
                     (legacy_env no_fault) plain_sys legacy_fixturer Legacy.start)
                  eq_refl)
    as (r & Hr & Hrm & Hrun).
  split; [by apply Hrm|]. exists r. split; [exact Hr|]. exact Hrun.
Defined.

(** The loop of [createTables]. *)
Lemma createTables_loop_run env this queries s :
  Legacy.db this = true →
  ∃ r s' tr,
    Legacy.createTables_loop env this queries s = (Returned r, s')
    ∧ Legacy.l_trace s' = Legacy.l_trace s ++ tr
    ∧ stops_at_first_refusal (Sql <$> schema_pieces queries) r (executed tr)
    ∧ only_Exec tr.
Proof.
  intros Hdb. revert s. induction queries as [|q queries IH]; intros s.
  - exists None, s, []. split; [done|]. split; [by rewrite app_nil_r|].
    split; [done|]. by intros c res [].
  - cbn [Legacy.createTables_loop]. rewrite schema_pieces_cons.
    destruct (decide (String.length (TrimSpace q) = 0)); [apply IH|].
    destruct (legacy_db_Exec_run env this (Sql (TrimSpace q)) s Hdb)
      as (r1 & s1 & E1 & Hr1 & Htr1 & _).
    rewrite (lbind_Returned _ _ _ _ _ E1).
    destruct r1 as [e1|].
    { rewrite (lbind_Returned _ _ _ _ _ (lemit_run _ _)).
      eexists _, _, _. split; [done|]. cbn. split; [by rewrite Htr1, <- app_assoc|].
      split; [apply stops_at_first_refusal_first|].
      intros c res [[= <- <-]|[[=]|[]]]. by eexists. }
    destruct (IH s1) as (r & s' & tr & E & Htr & Hrun & Honly).
    exists r, s', (Legacy.CDb (Exec (Sql (TrimSpace q))) None :: tr).
    split; [done|]. split; [by rewrite Htr, Htr1, <- !app_assoc|].
    split; [rewrite fmap_cons; by apply stops_at_first_refusal_cons|].
    intros c res [[= <- <-]|Hin]; [by eexists|by eapply Honly].
Qed.

(** [createTables], call by call. *)
Lemma createTables_run env this s :
  Legacy.db this = true →
  ∃ r s' tr,
    Legacy.createTables env this s = (Returned r, s')
    ∧ Legacy.l_trace s' = Legacy.l_trace s ++ tr
    ∧ only_Exec tr
    ∧ match env_ReadFile env (Legacy.schema this) with
      | inl file =>
          stops_at_first_refusal (Sql <$> schema_statements file) r (executed tr)
      | inr msg => r = Some (ErrIO msg) ∧ executed tr = []
      end.
Proof.
  intros Hdb. unfold Legacy.createTables.
  destruct (consoleLog_run "createTables" 1 s ltac:(lia)) as [text0 E0].
  rewrite (lbind_Returned _ _ _ _ _ E0). set (s0 := Legacy.mkLState _ _ _).
  rewrite (lbind_Returned _ _ _ _ _ (lemit_run _ _)). set (s1 := Legacy.mkLState _ _ _).
  destruct (env_ReadFile env (Legacy.schema this)) as [file|msg].
  - destruct (createTables_loop_run env this (Split file ";"%char) s1 Hdb)
      as (r & s2 & tr & E & Htr & Hrun & Honly).
    rewrite E. eexists _, _, _. split; [reflexivity|]. split.
    { rewrite Htr. subst s1 s0. cbn. rewrite <- !app_assoc. reflexivity. }
    split.
    + intros c res [[=]|[[=]|Hin]]. by eapply Honly.
    + done.
  - eexists _, _, _. split; [reflexivity|]. split.
    { subst s1 s0. cbn. rewrite <- !app_assoc. reflexivity. }
    split; [|done]. by intros c res [[=]|[[=]|[]]].
Qed.

(** X21.  [createTables] of the first generation sends the statements
    [LoadDbSchema] of the second makes of the same schema file, the
    trimmed pieces between semicolons that are not empty, in the order
    of the file, but each on its own through [db.Exec]: no transaction is
    begun and nothing is rolled back, so that the statements accepted
    before a refused one stay in force.  It stops at the first statement
    refused and returns its error.  A schema file that cannot be read
    gives the error of reading it and no statement. *)
Theorem schema_is_created_statement_by_statement
    (env : Env) (this : Legacy.Fixturer) (s : Legacy.LState) :
  Legacy.db this = true →
  let out := Legacy.createTables env this s in
  let tr := calls_since s (snd out) in
  ∃ r, fst out = Returned r
    ∧ only_Exec tr
    ∧ match env_ReadFile env (Legacy.schema this) with
      | inl file =>
          stops_at_first_refusal (Sql <$> schema_statements file) r (executed tr)
      | inr msg => r = Some (ErrIO msg) ∧ executed tr = []
      end.
Proof.
  intros Hdb out tr. subst out tr.
  destruct (createTables_run env this s Hdb) as (r & s' & tr & E & Htr & Honly & Hrun).
  rewrite E. cbn [fst snd]. rewrite (calls_since_app _ _ _ Htr). by exists r.
Qed.

Lemma schema_is_created_statement_by_statement_witness :
  let out := Legacy.createTables (legacy_env table_fault) legacy_fixturer Legacy.start in
  let tr := calls_since Legacy.start (snd out) in
  fst out = Returned (Some (ErrDb "table exists"))
  ∧ executed tr = [(Sql "CREATE TABLE users (id INT)", None);
                   (Sql "CREATE TABLE orders (id INT)", Some (ErrDb "table exists"))]
  ∧ only_Exec tr.
Proof.
  intros out tr.
  destruct (schema_is_created_statement_by_statement
              (legacy_env table_fault) legacy_fixturer Legacy.start eq_refl)
    as (r & Hr & Honly & _).
  split; [by vm_compute|]. split; [by vm_compute|]. exact Honly.
Defined.

Lemma record_query_insert picks tableName it :
  one_record_insert tableName it (fst (ToSql (Legacy.record_query picks tableName it)))
  ∧ (tableName ≠ "" → snd (ToSql (Legacy.record_query picks tableName it)) = None).
Proof.
  unfold one_record_insert, ToSql, Legacy.record_query, Legacy.Values, Columns, Insert.
  cbn [ib_table ib_rows ib_columns app].
  destruct (decide (tableName = "")) as [->|Hne]; [done|].
  destruct (decide (_ = [])) as [[=]|_]. cbn [fst snd]. split; [|done].
  eexists _, _. split; [done|]. rewrite !length_fmap. split; [done|].
  rewrite zip_fst_snd. apply shuffle_Permutation.
Qed.

(** The loop of [loadYmlFixtures]. *)
Lemma loadYmlFixtures_loop_run env this tableName data s :
  Legacy.db this = true →
  ∃ r s' tr qs,
    Legacy.loadYmlFixtures_loop env this tableName data s = (Returned r, s')
    ∧ Legacy.l_trace s' = Legacy.l_trace s ++ tr
    ∧ Forall2 (one_record_insert tableName) data qs
    ∧ stops_at_first_refusal qs r (executed tr)
    ∧ only_Exec tr.
Proof.
  intros Hdb. revert s. induction data as [|it data IH]; intros s.
  - exists None, s, [], []. split; [done|]. split; [by rewrite app_nil_r|].
    split; [constructor|]. split; [done|]. by intros c res [].
  - cbn [Legacy.loadYmlFixtures_loop].
    set (qb := Legacy.record_query (env_picks env (Legacy.l_rng s)) tableName it).
    set (s0 := Legacy.mkLState _ _ _).
    destruct (record_query_insert (env_picks env (Legacy.l_rng s)) tableName it)
      as [Hq _]. fold qb in Hq.
    assert (∃ s1 tr1, match (ToSql qb).2 with
                      | Some e => Legacy.lemit (Legacy.CPrintErr e)
                      | None => Legacy.lret tt
                      end s0 = (Returned tt, s1)
                      ∧ Legacy.l_trace s1 = Legacy.l_trace s ++ tr1
                      ∧ executed tr1 = [] ∧ only_Exec tr1)
      as (s1 & tr1 & E1 & Htr1 & Hex1 & Honly1).
    { destruct (ToSql qb).2 as [e|].
      - eexists _, [_]. split; [apply lemit_run|]. split; [done|]. split; [done|].
        by intros c res [[=]|[]].
      - exists s0, []. split; [done|]. split; [by rewrite app_nil_r|]. split; [done|].
        by intros c res []. }
    rewrite (lbind_Returned _ _ _ _ _ E1).
    destruct (legacy_db_Exec_run env this (ToSql qb).1 s1 Hdb)
      as (r2 & s2 & E2 & Hr2 & Htr2 & _).
    rewrite (lbind_Returned _ _ _ _ _ E2).
    destruct r2 as [e2|].
    { exists (Some e2), s2, (tr1 ++ [Legacy.CDb (Exec (ToSql qb).1) (Some e2)]).
      destruct (IH s2) as (_ & _ & _ & qs & _ & _ & Hqs & _).
      exists ((ToSql qb).1 :: qs). split; [done|].
      split; [by rewrite Htr2, Htr1, <- app_assoc|].
      split; [by constructor|]. rewrite executed_app, Hex1.
      split; [apply stops_at_first_refusal_first|].
      intros c res [Hin|[[= <- <-]|[]]]%in_app_or; [by eapply Honly1|by eexists]. }
    destruct (IH s2) as (r & s' & tr & qs & E & Htr & Hqs & Hrun & Honly).
    exists r, s', (tr1 ++ Legacy.CDb (Exec (ToSql qb).1) None :: tr), ((ToSql qb).1 :: qs).
    split; [done|]. split.
    { rewrite Htr, Htr2, Htr1, <- !app_assoc. done. }
    split; [by constructor|]. rewrite executed_app, Hex1.
    split; [by apply stops_at_first_refusal_cons|].
    intros c res [Hin|[[= <- <-]|Hin]]%in_app_or;
      [by eapply Honly1|by eexists|by eapply Honly].
Qed.

(** X22.  [loadYmlFixtures] of the first generation loads one fixture
    file record by record: one INSERT of one row for each record, in the
    order of the file, into the table named by the file without ".yml",
    and the columns of the statement paired with its values are the
    record, whatever order the iteration over the record took.  It stops
    at the first INSERT refused and returns its error; the rows before
    it stay, nothing is rolled back.  An error of decoding is returned
    and nothing is sent; an error of reading the file is not looked at. *)
Theorem yml_file_is_loaded_record_by_record
    (env : Env) (this : Legacy.Fixturer) (filename : string) (s : Legacy.LState) :
  Legacy.db this = true →
  let out := Legacy.loadYmlFixtures env this filename s in
  let tr := calls_since s (snd out) in
  ∃ r, fst out = Returned r
    ∧ only_Exec tr
    ∧ match legacy_decoded env this filename with
      | (_, Some msg) => r = Some (ErrDecode msg) ∧ executed tr = []
      | (data, None) =>
          ∃ qs, Forall2 (one_record_insert (TrimSuffix filename ".yml")) data qs
                ∧ stops_at_first_refusal qs r (executed tr)
      end.
Proof.
  intros Hdb out tr. subst out tr. unfold Legacy.loadYmlFixtures, legacy_decoded.
  rewrite (lbind_Returned _ _ _ _ _ (lemit_run _ _)). set (s0 := Legacy.mkLState _ _ _).
  destruct (env_Unmarshal env _) as [data [msg|]].
  - rewrite (lbind_Returned _ _ _ _ _ (lemit_run _ _)). cbn. eexists. split; [done|].
    erewrite calls_since_app.
    2:{ subst s0. cbn. rewrite <- !app_assoc. reflexivity. }
    split; [|done]. by intros c res [[=]|[[=]|[]]].
  - destruct (loadYmlFixtures_loop_run env this (TrimSuffix filename ".yml") data s0 Hdb)
      as (r & s' & tr & qs & E & Htr & Hqs & Hrun & Honly).
    rewrite E. cbn [fst snd]. exists r. split; [done|].
    erewrite calls_since_app.
    2:{ rewrite Htr. subst s0. cbn. rewrite <- !app_assoc. reflexivity. }
    split; [|by exists qs].
    intros c res [[=]|Hin]. by eapply Honly.
Qed.

Lemma yml_file_is_loaded_record_by_record_witness :
  let out := Legacy.loadYmlFixtures (legacy_env record_fault) legacy_fixturer "users.yml"
               Legacy.start in
  let tr := calls_since Legacy.start (snd out) in
  fst out = Returned (Some (ErrDb "duplicate"))
  ∧ executed tr
    = [(InsertInto "users" ["id"; "name"] [[VInt 1; VStr "a"]], None);
       (InsertInto "users" ["id"; "note"; "name"] [[VInt 2; VStr "x"; VStr "a"]],
        Some (ErrDb "duplicate"))]
  ∧ only_Exec tr.
Proof.
  intros out tr.
  destruct (yml_file_is_loaded_record_by_record
              (legacy_env record_fault) legacy_fixturer "users.yml" Legacy.start eq_refl)
    as (r & Hr & Honly & _).
  split; [by vm_compute|]. split; [by vm_compute|]. exact Honly.
Defined.

(** ** The collecting loop of the first generation *)

Lemma sum_list_with_alter {A} (g : A → nat) (h : A → A) i l x :
  l !! i = Some x →
  (sum_list_with g (alter h i l) + g x = sum_list_with g l + g (h x))%nat.
Proof.
  revert i. induction l as [|y l IH]; intros [|i]; cbn; try done.
  - intros [= ->]. lia.
  - intros H. specialize (IH _ H). lia.
Qed.

Lemma sum_list_with_fmap {A B} (g : B → nat) (h : A → B) l :
  sum_list_with g (h <$> l) = sum_list_with (g ∘ h) l.
Proof. induction l as [|x l IH]; cbn; [done|]. by rewrite IH. Qed.

Lemma alter_pc_fst (pc : Legacy.gather_pc) i (l : list (FileInfo * Legacy.gather_pc)) :
  (alter (fun t => (t.1, pc)) i l).*1 = l.*1.
Proof.
  revert i. induction l as [|y l IH]; intros [|i]; cbn; try done.
  f_equal. apply IH.
Qed.

Lemma to_collect_to_send env this f queries :
  to_collect env this (f, Legacy.to_send queries) = length queries.
Proof. by destruct queries. Qed.

Lemma sum_list_with_short {A} (g : A → nat) l :
  (∀ x, g x ≤ 1)%nat → (sum_list_with g l < length l)%nat →
  ∃ j x, l !! j = Some x ∧ g x = 0%nat.
Proof.
  intros Hg. induction l as [|y l IH]; cbn; [lia|]. intros Hlt.
  destruct (decide (g y = 0%nat)) as [Hy|Hy]; [by exists 0%nat, y|].
  specialize (Hg y). destruct IH as (j & x & Hj & Hx); [lia|]. by exists (S j), x.
Qed.

Lemma sum_list_with_full {A} (g : A → nat) l :
  (∀ x, g x ≤ 1)%nat → (length l ≤ sum_list_with g l)%nat → Forall (fun x => g x = 1%nat) l.
Proof.
  intros Hg.
  assert (∀ l, sum_list_with g l ≤ length l)%nat as Hub.
  { clear -Hg. induction l as [|z l IH]; cbn; [lia|]. specialize (Hg z). lia. }
  induction l as [|y l IH]; [constructor|].
  change (sum_list_with g (y :: l)) with (g y + sum_list_with g l)%nat.
  cbn [length]. intros Hle. specialize (Hub l). specialize (Hg y).
  constructor; [lia|]. apply IH. lia.
Qed.

Lemma finished_yml_le t : (finished_yml t ≤ 1)%nat.
Proof. destruct t as [f []]; cbn; try lia. destruct (has_yml f); lia. Qed.

Lemma finished_yml_to_send f queries : finished_yml (f, Legacy.to_send queries) = 0%nat.
Proof. by destruct queries. Qed.

Section Gathering.

Variable env : Env.
Variable sys : Legacy.Sys.
Variable this : Legacy.Fixturer.

Lemma filesCount_ge :
  (length (Legacy.files env this) ≤ Legacy.filesCount env sys this)%nat.
Proof.
  unfold Legacy.files, Legacy.filesCount, Legacy.listing, Legacy.listing_cap.
  destruct (env_ReadDir env _); cbn; lia.
Qed.

Lemma gather_entry_inv : gather_inv env sys this (Legacy.gather_entry env this).
Proof.
  unfold Legacy.gather_entry. constructor; cbn.
  - induction (Legacy.files env this) as [|f l IH]; cbn; [done|]. by rewrite IH.
  - intros j f pc. rewrite list_lookup_fmap.
    destruct (Legacy.files env this !! j); cbn; [|done]. intros [= <- <-].
    split; [|done]. split; [|done]. intros _. exists 0%nat. split; [done|lia].
  - induction (Legacy.files env this) as [|f l IH]; cbn; [done|]. by rewrite <- IH.
  - done.
  - done.
  - done.
  - induction (Legacy.files env this) as [|f l IH]; cbn; [done|].
    cbn in IH. by rewrite IH.
  - by intros c0 res [].
Qed.

Lemma gather_step_inv ch c c' :
  gather_inv env sys this c →
  Legacy.gather_step env sys this ch c = Some c' →
  gather_inv env sys this c'.
Proof.
  intros [Hf Ht Hc Hl Hr Hs Hq Hquiet] Hstep. destruct ch as [|i picks|i]; cbn in Hstep.
  - unfold Legacy.step_collector in Hstep.
    destruct (Legacy.g_main c) as [k| |] eqn:Hm; try done.
    destruct (Nat.ltb_spec k (length (Legacy.files env this))) as [Hk|Hk];
      injection Hstep as <-.
    + assert (∃ f, Legacy.g_tasks c !! k = Some (f, Legacy.GNotLaunched)) as [f Hk'].
      { rewrite <- Hf, length_fmap in Hk. apply lookup_lt_is_Some in Hk as [[f pc] Hk'].
        exists f. rewrite Hk'. do 2 f_equal. apply (Ht _ _ _ Hk').
        exists k. split; [done|lia]. }
      pose proof (sum_list_with_alter finished_yml
                    (fun t => (t.1, Legacy.GAtEntry)) _ _ _ Hk') as Hsum1.
      pose proof (sum_list_with_alter (to_collect env this)
                    (fun t => (t.1, Legacy.GAtEntry)) _ _ _ Hk') as Hsum2.
      cbn in Hsum1, Hsum2.
      constructor; cbn.
      * by rewrite alter_pc_fst.
      * intros j f' pc'. rewrite list_lookup_alter. case_decide as Hij.
        -- subst j. rewrite Hk'. cbn. intros [= <- <-]. split; [|done].
           split; [done|]. intros (k' & [= <-] & Hle). lia.
        -- intros Hj. destruct (Ht _ _ _ Hj) as [Hnl Hy]. split; [|done].
           rewrite Hnl. split.
           ++ intros (k' & [= <-] & Hle). exists (S k). split; [done|lia].
           ++ intros (k' & [= <-] & Hle). exists k. split; [done|lia].
      * lia.
      * intros _ _. by eapply Hl.
      * done.
      * done.
      * lia.
      * done.
    + constructor; cbn; try done.
      * intros j f pc Hj. destruct (Ht _ _ _ Hj) as [Hnl Hy]. split; [|done]. split.
        -- intros Hpc. apply Hnl in Hpc as (k' & [= <-] & Hle).
           apply lookup_lt_Some in Hj. rewrite <- Hf, length_fmap in Hk. lia.
        -- by intros (k' & [=] & _).
      * intros _ Hcnt. rewrite (Hl k eq_refl). done.
  - unfold Legacy.step_goroutine in Hstep.
    destruct (Legacy.g_tasks c !! i) as [[f pc]|] eqn:Hi; [|done].
    destruct (Ht _ _ _ Hi) as [Hnl Hy].
    destruct pc; try done; injection Hstep as <-.
    + set (pc' := if HasSuffix (Name f) ".yml" then Legacy.GAtRead else Legacy.GFinished).
      pose proof (sum_list_with_alter finished_yml (fun t => (t.1, pc')) _ _ _ Hi) as Hsum1.
      pose proof (sum_list_with_alter (to_collect env this)
                    (fun t => (t.1, pc')) _ _ _ Hi) as Hsum2.
      assert (finished_yml (f, pc') = 0%nat) as H1.
      { subst pc'. unfold finished_yml, has_yml. cbn. by destruct (HasSuffix _ _) eqn:E; cbn; rewrite ?E. }
      assert (to_collect env this (f, pc') = records_of env this f) as H2.
      { subst pc'. unfold to_collect, records_of, has_yml. cbn. by destruct (HasSuffix _ _). }
      cbn in Hsum1, Hsum2. rewrite H1 in Hsum1. rewrite H2 in Hsum2.
      constructor; cbn; try done.
      * by rewrite alter_pc_fst.
      * intros j f' pc''. rewrite list_lookup_alter. case_decide as Hij; [|apply Ht].
        subst j. rewrite Hi. cbn. intros [= <- <-]. split.
        -- split; [by subst pc'; destruct (HasSuffix _ _)|].
           intros H. by apply Hnl in H.
        -- subst pc'. unfold has_yml. by destruct (HasSuffix _ _) eqn:E.
      * lia.
      * lia.
    + set (queries := imap _ _).
      pose proof (sum_list_with_alter finished_yml
                    (fun t => (t.1, Legacy.to_send queries)) _ _ _ Hi) as Hsum1.
      pose proof (sum_list_with_alter (to_collect env this)
                    (fun t => (t.1, Legacy.to_send queries)) _ _ _ Hi) as Hsum2.
      cbn [fst] in Hsum1, Hsum2.
      rewrite finished_yml_to_send in Hsum1. rewrite to_collect_to_send in Hsum2.
      assert (length queries = length (Legacy.decoded env this (Name f))) as Hlen.
      { subst queries. apply length_imap. }
      cbn in Hsum1, Hsum2.
      constructor; cbn; try done.
      * by rewrite alter_pc_fst.
      * intros j f' pc''. rewrite list_lookup_alter. case_decide as Hij; [|apply Ht].
        subst j. rewrite Hi. cbn. intros [= <- <-]. split.
        -- split; [by destruct queries|]. intros H. by apply Hnl in H.
        -- by destruct queries.
      * lia.
      * lia.
      * intros c0 res [Hin|Hin]%in_app_or; [by eapply Hquiet|].
        destruct Hin as [[=]|Hin]. destruct (Legacy.undecoded _ _ _); [|done].
        by destruct Hin as [[=]|[[=]|[]]].
  - unfold Legacy.step_receive in Hstep.
    destruct (Legacy.g_main c) eqn:Hm; try done.
    destruct (Legacy.g_tasks c !! i) as [[f pc]|] eqn:Hi; [|done].
    destruct (Ht _ _ _ Hi) as [Hnl Hy].
    destruct pc as [| | |[|qb rest]| |]; try done; injection Hstep as <-.
    + pose proof (sum_list_with_alter finished_yml
                    (fun t => (t.1, Legacy.to_send rest)) _ _ _ Hi) as Hsum1.
      pose proof (sum_list_with_alter (to_collect env this)
                    (fun t => (t.1, Legacy.to_send rest)) _ _ _ Hi) as Hsum2.
      cbn [fst] in Hsum1, Hsum2.
      rewrite finished_yml_to_send in Hsum1. rewrite to_collect_to_send in Hsum2.
      cbn in Hsum1, Hsum2.
      constructor; cbn; try done.
      * by rewrite alter_pc_fst.
      * intros j f' pc''. rewrite list_lookup_alter. case_decide as Hij.
        2:{ intros Hj. destruct (Ht _ _ _ Hj) as [Hnl' Hy']. split; [|done].
            done. }
        subst j. rewrite Hi. cbn. intros [= <- <-]. split.
        -- split; [by destruct rest|]. by intros (k' & [=] & _).
        -- destruct Hy as [Hy _]. by destruct rest.
      * lia.
      * rewrite length_app. cbn. lia.
    + pose proof (sum_list_with_alter finished_yml
                    (fun t => (t.1, Legacy.GFinished)) _ _ _ Hi) as Hsum1.
      pose proof (sum_list_with_alter (to_collect env this)
                    (fun t => (t.1, Legacy.GFinished)) _ _ _ Hi) as Hsum2.
      assert (finished_yml (f, Legacy.GFinished) = 1%nat) as H1
        by (unfold finished_yml; cbn; by rewrite Hy).
      cbn [fst] in Hsum1, Hsum2. rewrite H1 in Hsum1. cbn in Hsum1, Hsum2.
      constructor; cbn.
      * by rewrite alter_pc_fst.
      * intros j f' pc''. rewrite list_lookup_alter.
        assert (∀ P : nat → Prop,
                  (∃ k, (if decide (S (Legacy.g_i c) = Legacy.filesCount env sys this)
                         then Legacy.GReturned else Legacy.GSelect) = Legacy.GLaunch k
                        ∧ P k) → False) as Hno.
        { intros P (k' & H & _). by case_decide. }
        destruct (decide (i = j)) as [Hij|Hij].
        2:{ intros Hj. destruct (Ht _ _ _ Hj) as [Hnl' Hy']. split; [|done].
            rewrite Hnl'. split; [by intros (k' & [=] & _)|].
            intros H. by apply Hno in H. }
        subst j. rewrite Hi. cbn. intros [= <- <-]. split; [|done].
        split; [done|]. intros H. by apply Hno in H.
      * lia.
      * intros k. by case_decide.
      * case_decide; [|done]. intros _. split; [done|lia].
      * case_decide; [done|]. done.
      * lia.
      * done.
Qed.

Lemma gather_run_snoc sched ch c :
  Legacy.gather_run env sys this (sched ++ [ch]) c
  = default (Legacy.gather_run env sys this sched c)
            (Legacy.gather_step env sys this ch (Legacy.gather_run env sys this sched c)).
Proof. unfold Legacy.gather_run. by rewrite foldl_app. Qed.

Lemma gather_run_inv sched c :
  gather_inv env sys this c →
  gather_inv env sys this (Legacy.gather_run env sys this sched c).
Proof.
  intros Hc. induction sched as [|ch sched IH] using rev_ind; [done|].
  rewrite gather_run_snoc.
  destruct (Legacy.gather_step env sys this ch _) as [c'|] eqn:E; [|done].
  cbn. by eapply gather_step_inv.
Qed.

Lemma gather_reachable_inv c :
  Legacy.gather_reachable env sys this c → gather_inv env sys this c.
Proof. intros [sched ->]. apply gather_run_inv, gather_entry_inv. Qed.

End Gathering.

Lemma sum_list_with_le_length {A} (g : A → nat) l :
  (∀ x, g x ≤ 1)%nat → (sum_list_with g l ≤ length l)%nat.
Proof.
  intros Hg. induction l as [|z l IH]; cbn; [lia|]. specialize (Hg z). lia.
Qed.

Lemma finished_yml_1 t :
  finished_yml t = 1%nat → t.2 = Legacy.GFinished ∧ has_yml t.1 = true.
Proof. destruct t as [f []]; cbn; try done. by destruct (has_yml f). Qed.

(** When the collecting loop has returned every goroutine has reported
    its end, and the listing has as many entries as capacity. *)
Lemma gather_returned_all
    (env : Env) (sys : Legacy.Sys) (this : Legacy.Fixturer) (c : Legacy.Gather) :
  gather_inv env sys this c →
  Legacy.g_main c = Legacy.GReturned →
  Forall (fun t => finished_yml t = 1%nat) (Legacy.g_tasks c)
  ∧ Legacy.filesCount env sys this = length (Legacy.files env this)
  ∧ Legacy.g_i c = length (Legacy.files env this)
  ∧ (0 < length (Legacy.files env this))%nat.
Proof.
  intros [Hf Ht Hc Hl Hr Hs Hq Hquiet] Hm.
  destruct (Hr Hm) as [Hcnt Hpos].
  pose proof (filesCount_ge env sys this) as Hge.
  pose proof (sum_list_with_le_length finished_yml (Legacy.g_tasks c) finished_yml_le)
    as Hub.
  assert (length (Legacy.g_tasks c) = length (Legacy.files env this)) as Hlen
    by (by rewrite <- Hf, length_fmap).
  split; [|lia].
  apply sum_list_with_full; [apply finished_yml_le|]. lia.
Qed.

(** What holds when the collecting loop has returned. *)
Lemma gather_returned
    (env : Env) (sys : Legacy.Sys) (this : Legacy.Fixturer) (c : Legacy.Gather) :
  Legacy.gather_reachable env sys this c →
  Legacy.g_main c = Legacy.GReturned →
  collectable env sys this
  ∧ length (Legacy.g_insertQueries c)
    = sum_list_with (fun f => length (Legacy.decoded env this (Name f)))
                    (Legacy.files env this).
Proof.
  intros Hinv%gather_reachable_inv Hm.
  destruct (gather_returned_all env sys this c Hinv Hm) as (Hall & Hcnt & _ & Hpos).
  destruct Hinv as [Hf Ht Hc Hl Hr Hs Hq Hquiet].
  assert (Forall (fun f => has_yml f = true) (Legacy.files env this)) as Hyml.
  { rewrite <- Hf. apply Forall_fmap. eapply Forall_impl; [exact Hall|].
    intros t Ht1. by apply finished_yml_1 in Ht1 as [_ ?]. }
  split.
  - split; [|by split]. intros Hnil. rewrite Hnil in Hpos. cbn in Hpos. lia.
  - assert (sum_list_with (to_collect env this) (Legacy.g_tasks c) = 0%nat) as H0.
    { clear -Hall. induction Hall as [|t l H1 _ IH]; cbn; [done|].
      apply finished_yml_1 in H1 as [H1 _]. rewrite IH.
      unfold to_collect. by rewrite H1. }
    rewrite H0 in Hq. rewrite Nat.add_0_r in Hq. rewrite Hq.
    clear -Hyml. induction Hyml as [|f l H1 _ IH]; cbn; [done|].
    rewrite IH. unfold records_of. by rewrite H1.
Qed.

(** X23.  [getInsertQueriesFromYml] of the first generation waits for
    as many goroutines to report their end as the listing of the
    fixture directory has capacity, and only the goroutines of .yml
    files report.  In whatever order the goroutines and the caller take
    their steps, the call can have returned only if the directory is
    not empty, every entry of it ends in ".yml" and the slice of the
    listing is filled to its capacity; with an empty or unreadable
    directory, or one entry of another name, the caller does not get
    out of its [select].  When the call has returned every goroutine has
    finished, [i] is the number of the files, and one builder was
    collected for every record of every file. *)
Theorem collecting_returns_only_from_a_directory_of_yml_files
    (env : Env) (sys : Legacy.Sys) (this : Legacy.Fixturer) (c : Legacy.Gather) :
  Legacy.gather_reachable env sys this c →
  Legacy.g_main c = Legacy.GReturned →
  collectable env sys this
  ∧ Forall (fun t => t.2 = Legacy.GFinished) (Legacy.g_tasks c)
  ∧ Legacy.g_i c = length (Legacy.files env this)
  ∧ length (Legacy.g_insertQueries c)
    = sum_list_with (fun f => length (Legacy.decoded env this (Name f)))
                    (Legacy.files env this).
Proof.
  intros Hreach Hm.
  destruct (gather_returned env sys this c Hreach Hm) as [Hcol Hlen].
  destruct (gather_returned_all env sys this c
              (gather_reachable_inv env sys this c Hreach) Hm) as (Hall & _ & Hi & _).
  split; [exact Hcol|]. split; [|by split].
  eapply Forall_impl; [exact Hall|].
  intros t Ht. by apply finished_yml_1 in Ht as [? _].
Qed.

Lemma collecting_returns_only_from_a_directory_of_yml_files_witness :
  let c := Legacy.gather_run (scenario_env no_fault) plain_sys legacy_fixturer_fy
             collecting_schedule
             (Legacy.gather_entry (scenario_env no_fault) legacy_fixturer_fy) in
  Legacy.g_main c = Legacy.GReturned
  ∧ Legacy.g_i c = 1%nat
  ∧ length (Legacy.g_insertQueries c) = 1%nat.
Proof.
  intros c.
  destruct (collecting_returns_only_from_a_directory_of_yml_files
              (scenario_env no_fault) plain_sys legacy_fixturer_fy c)
    as (_ & _ & Hi & Hq).
  - by exists collecting_schedule.
  - by vm_compute.
  - split; [by vm_compute|]. split; [exact Hi|exact Hq].
Defined.

Lemma gather_task_left_to_send env this f queries :
  gather_task_left env this (f, Legacy.to_send queries) = (length queries + 1)%nat.
Proof. by destruct queries. Qed.

Section GatheringEnds.

Variable env : Env.
Variable sys : Legacy.Sys.
Variable this : Legacy.Fixturer.

(** Every step uses up one of the steps left. *)
Lemma gather_step_uses_up ch c c' :
  gather_inv env sys this c →
  Legacy.gather_step env sys this ch c = Some c' →
  (gather_left env this c' < gather_left env this c)%nat.
Proof.
  intros [Hf Ht Hc Hl Hr Hs Hq Hquiet] Hstep. unfold gather_left.
  destruct ch as [|i picks|i]; cbn in Hstep.
  - unfold Legacy.step_collector in Hstep.
    destruct (Legacy.g_main c) as [k| |] eqn:Hm; try done.
    destruct (Nat.ltb_spec k (length (Legacy.files env this))) as [Hk|Hk];
      injection Hstep as <-; cbn; [|lia].
    assert (∃ f, Legacy.g_tasks c !! k = Some (f, Legacy.GNotLaunched)) as [f Hk'].
    { pose proof Hk as Hk2.
      rewrite <- Hf, length_fmap in Hk2. apply lookup_lt_is_Some in Hk2 as [[f pc] Hk'].
      exists f. rewrite Hk'. do 2 f_equal. apply (Ht _ _ _ Hk').
      exists k. split; [done|lia]. }
    pose proof (sum_list_with_alter (gather_task_left env this)
                  (fun t => (t.1, Legacy.GAtEntry)) _ _ _ Hk') as Hsum.
    cbn in Hsum. lia.
  - unfold Legacy.step_goroutine in Hstep.
    destruct (Legacy.g_tasks c !! i) as [[f pc]|] eqn:Hi; [|done].
    destruct pc; try done; injection Hstep as <-; cbn.
    + set (pc' := if HasSuffix (Name f) ".yml" then Legacy.GAtRead else Legacy.GFinished).
      pose proof (sum_list_with_alter (gather_task_left env this)
                    (fun t => (t.1, pc')) _ _ _ Hi) as Hsum.
      assert (gather_task_left env this (f, pc')
              < gather_task_left env this (f, Legacy.GAtEntry))%nat as Hlt.
      { subst pc'. unfold gather_task_left. cbn. destruct (HasSuffix _ _); lia. }
      cbn [fst] in Hsum. lia.
    + set (queries := imap _ _).
      pose proof (sum_list_with_alter (gather_task_left env this)
                    (fun t => (t.1, Legacy.to_send queries)) _ _ _ Hi) as Hsum.
      cbn [fst] in Hsum. rewrite gather_task_left_to_send in Hsum.
      assert (length queries = length (Legacy.decoded env this (Name f))) as Hlen.
      { subst queries. apply length_imap. }
      cbn in Hsum. lia.
  - unfold Legacy.step_receive in Hstep.
    destruct (Legacy.g_main c) eqn:Hm; try done.
    destruct (Legacy.g_tasks c !! i) as [[f pc]|] eqn:Hi; [|done].
    destruct pc as [| | |[|qb rest]| |]; try done; injection Hstep as <-; cbn.
    + pose proof (sum_list_with_alter (gather_task_left env this)
                    (fun t => (t.1, Legacy.to_send rest)) _ _ _ Hi) as Hsum.
      cbn [fst] in Hsum. rewrite gather_task_left_to_send in Hsum.
      cbn in Hsum. lia.
    + pose proof (sum_list_with_alter (gather_task_left env this)
                    (fun t => (t.1, Legacy.GFinished)) _ _ _ Hi) as Hsum.
      cbn in Hsum. case_decide; cbn; lia.
Qed.

Lemma gather_moves_bound sched c :
  gather_inv env sys this c →
  (gather_moves env sys this sched c ≤ gather_left env this c)%nat.
Proof.
  revert c. induction sched as [|ch sched IH]; intros c Hc; cbn; [lia|].
  destruct (Legacy.gather_step env sys this ch c) as [c'|] eqn:E; [|by apply IH].
  pose proof (gather_step_uses_up _ _ _ Hc E).
  pose proof (IH c' (gather_step_inv env sys this _ _ _ Hc E)). lia.
Qed.

(** On a collectable directory somebody can move as long as the caller
    has not returned. *)
Lemma gather_progress c :
  collectable env sys this →
  gather_inv env sys this c →
  Legacy.g_main c ≠ Legacy.GReturned →
  ∃ ch c', Legacy.gather_step env sys this ch c = Some c'.
Proof.
  intros (Hne & Hyml & Hcnt) [Hf Ht Hc Hl Hr Hs Hq Hquiet] Hm.
  destruct (Legacy.g_main c) as [k| |] eqn:Hmain; [| |done].
  { exists Legacy.GCaller. cbn. unfold Legacy.step_collector. rewrite Hmain.
    destruct (_ <? _)%nat; by eexists. }
  assert (length (Legacy.g_tasks c) = length (Legacy.files env this)) as Hlen
    by (by rewrite <- Hf, length_fmap).
  assert (Legacy.filesCount env sys this ≠ 0%nat) as Hpos.
  { rewrite Hcnt. by destruct (Legacy.files env this). }
  specialize (Hs eq_refl Hpos).
  pose proof (sum_list_with_le_length finished_yml (Legacy.g_tasks c) finished_yml_le)
    as Hub.
  destruct (sum_list_with_short finished_yml (Legacy.g_tasks c) finished_yml_le)
    as (j & [f pc] & Hj & Hz); [lia|].
  assert (has_yml f = true) as Hy.
  { rewrite Forall_forall in Hyml. apply Hyml. rewrite <- Hf.
    apply list_elem_of_fmap. exists (f, pc). split; [done|].
    by eapply list_elem_of_lookup_2. }
  destruct (Ht _ _ _ Hj) as [Hnl Hsend].
  destruct pc as [| | |[|qb rest]| |].
  - destruct (proj1 Hnl eq_refl) as (k & [=] & _).
  - exists (Legacy.GGoroutine j (fun _ => [])). cbn. unfold Legacy.step_goroutine.
    rewrite Hj. by eexists.
  - exists (Legacy.GGoroutine j (fun _ => [])). cbn. unfold Legacy.step_goroutine.
    rewrite Hj. by eexists.
  - by destruct Hsend as [_ []].
  - exists (Legacy.GReceive j). cbn. unfold Legacy.step_receive.
    rewrite Hmain, Hj. by eexists.
  - exists (Legacy.GReceive j). cbn. unfold Legacy.step_receive.
    rewrite Hmain, Hj. by eexists.
  - unfold finished_yml in Hz. cbn in Hz. by rewrite Hy in Hz.
Qed.

Lemma gather_returns c :
  collectable env sys this →
  gather_inv env sys this c →
  ∃ sched, Legacy.g_main (Legacy.gather_run env sys this sched c) = Legacy.GReturned.
Proof.
  intros Hcol. remember (gather_left env this c) as n eqn:Hn.
  revert c Hn. induction (lt_wf n) as [n _ IH]. intros c -> Hc.
  destruct (decide (Legacy.g_main c = Legacy.GReturned)) as [Hm|Hm]; [by exists []|].
  destruct (gather_progress c Hcol Hc Hm) as (ch & c' & E).
  destruct (IH _ (gather_step_uses_up _ _ _ Hc E) c' eq_refl
               (gather_step_inv env sys this _ _ _ Hc E)) as [sched Hs].
  exists (ch :: sched). cbn. by rewrite E.
Qed.

Lemma gather_left_entry :
  gather_left env this (Legacy.gather_entry env this)
  = (length (Legacy.files env this) + 1
     + sum_list_with (fun f => length (Legacy.decoded env this (Name f)) + 3)
                     (Legacy.files env this))%nat.
Proof.
  unfold gather_left, Legacy.gather_entry. cbn. rewrite Nat.sub_0_r. f_equal.
  induction (Legacy.files env this) as [|f l IH]; cbn; [done|]. by rewrite IH.
Qed.

End GatheringEnds.

(** X24.  On a directory it can come back from (not empty, nothing but
    .yml entries, the listing filled to its capacity)
    [getInsertQueriesFromYml] does come back, whatever the order of the
    steps: in every configuration a run can reach, as long as the caller
    has not returned, a goroutine or the caller can move; every step
    uses up one of finitely many, so that the number of steps taken
    under any scheduler is bounded; and some schedule brings the caller
    to its return. *)
Theorem collecting_ends_on_a_directory_of_yml_files
    (env : Env) (sys : Legacy.Sys) (this : Legacy.Fixturer) (c : Legacy.Gather) :
  collectable env sys this →
  Legacy.gather_reachable env sys this c →
  (Legacy.g_main c ≠ Legacy.GReturned →
   ∃ ch c', Legacy.gather_step env sys this ch c = Some c')
  ∧ (∀ sched, (gather_moves env sys this sched c ≤ gather_left env this c)%nat
              ∧ (gather_left env this c
                 ≤ gather_left env this (Legacy.gather_entry env this))%nat)
  ∧ (∃ sched,
       Legacy.g_main (Legacy.gather_run env sys this sched c) = Legacy.GReturned).
Proof.
  intros Hcol Hreach. pose proof (gather_reachable_inv env sys this c Hreach) as Hc.
  split; [by apply gather_progress|]. split; [|by apply gather_returns].
  intros sched. split; [by apply gather_moves_bound|].
  destruct Hreach as [sched0 ->]. clear Hc.
  induction sched0 as [|ch sched0 IH] using rev_ind; [done|].
  rewrite gather_run_snoc.
  destruct (Legacy.gather_step env sys this ch _) as [c'|] eqn:E; [|done].
  change (default ?x (Some c')) with c'.
  pose proof (gather_step_uses_up env sys this _ _ _
                     (gather_run_inv env sys this sched0 _ (gather_entry_inv env sys this)) E).
  lia.
Qed.

Lemma collecting_ends_on_a_directory_of_yml_files_witness :
  let env := scenario_env no_fault in
  let c := Legacy.gather_entry env legacy_fixturer_fy in
  (gather_moves env plain_sys legacy_fixturer_fy collecting_schedule c
   ≤ gather_left env legacy_fixturer_fy c)%nat
  ∧ gather_left env legacy_fixturer_fy c = 6%nat
  ∧ Legacy.g_main (Legacy.gather_run env plain_sys legacy_fixturer_fy
                     collecting_schedule c) = Legacy.GReturned.
Proof.
  intros env c.
  destruct (collecting_ends_on_a_directory_of_yml_files env plain_sys legacy_fixturer_fy c)
    as (_ & H & _).
  - unfold collectable. split; [by vm_compute|]. split; [|by vm_compute].
    vm_compute. by repeat constructor.
  - by exists [].
  - split; [exact (proj1 (H collecting_schedule))|]. split; by vm_compute.
Defined.

Lemma createTables_loop_nil_handle env this queries s :
  Legacy.db this = false →
  if decide (schema_pieces queries = [])
  then Legacy.createTables_loop env this queries s = (Returned None, s)
  else ∃ msg, Legacy.createTables_loop env this queries s = (Panicked msg, s).
Proof.
  intros Hdb. induction queries as [|q queries IH]; [done|].
  cbn [Legacy.createTables_loop]. rewrite schema_pieces_cons.
  destruct (decide (String.length (TrimSpace q) = 0)); [done|].
  rewrite decide_False by done.
  unfold Legacy.db_Exec. rewrite Hdb. by eexists.
Qed.

(** X25.  [NewFixturer] of the first generation never reports the
    error of [sql.Open]: it prints it and hands out a fixturer all the
    same, with the paths it was given.  On such a fixturer
    [recreateDatabase] and [LoadCsvFixtures] panic before any statement
    is sent, [createTables] panics as soon as the schema file holds a
    statement (an unreadable file still gives its error, a file without
    statements nil), and [generateCsvFixtures] has removed and made the
    directory of the CSV files anew before it panics at the first entry
    of the fixture directory. *)
Theorem failed_open_gives_a_fixturer_that_panics
    (env : Env) (sys : Legacy.Sys)
    (dbConf schema fixturesPathYml fixturesPathCsv databaseSuffix : string)
    (s : Legacy.LState) :
  let out := Legacy.NewFixturer env dbConf schema fixturesPathYml fixturesPathCsv
               databaseSuffix s in
  ∃ this, fst out = Returned this
    ∧ (Legacy.schema this, Legacy.fixturesPathYml this,
       Legacy.fixturesPathCsv this, Legacy.databaseSuffix this)
      = (schema, fixturesPathYml, fixturesPathCsv, databaseSuffix)
    ∧ match env_fault env (Legacy.l_clock s) (Open dbConf) with
      | None =>
          Legacy.db this = true
          ∧ calls_since s (snd out) = [Legacy.CDb (Open dbConf) None]
      | Some msg =>
          Legacy.db this = false
          ∧ calls_since s (snd out)
            = [Legacy.CDb (Open dbConf) (Some (ErrDb msg)); Legacy.CPrintErr (ErrDb msg)]
          ∧ ∀ s',
              (panicked (Legacy.recreateDatabase env sys this s')
               ∧ calls_since s' (snd (Legacy.recreateDatabase env sys this s')) = [])
              ∧ (panicked (Legacy.LoadCsvFixtures env sys this s')
                 ∧ executed (calls_since s' (snd (Legacy.LoadCsvFixtures env sys this s')))
                   = [])
              ∧ match env_ReadFile env schema with
                | inl file =>
                    if decide (schema_statements file = [])
                    then fst (Legacy.createTables env this s') = Returned None
                    else panicked (Legacy.createTables env this s')
                | inr e => fst (Legacy.createTables env this s') = Returned (Some (ErrIO e))
                end
              ∧ (Legacy.sys_mkdir sys (csv_dir this) = None →
                 Legacy.sys_chmod sys (csv_dir this) = None →
                 Legacy.listing env fixturesPathYml ≠ [] →
                 panicked (Legacy.generateCsvFixtures env sys this s')
                 ∧ In (Legacy.CMkdirAll (csv_dir this) None)
                      (calls_since s' (snd (Legacy.generateCsvFixtures env sys this s')))
                 ∧ (Legacy.sys_stat sys (csv_dir this) = true →
                    In (Legacy.CRemoveAll (csv_dir this))
                       (calls_since s' (snd (Legacy.generateCsvFixtures env sys this s')))))
      end.
Proof.
  intros out. subst out. unfold Legacy.NewFixturer. cbn [fst snd].
  eexists. split; [done|]. split; [done|].
  destruct (env_fault env (Legacy.l_clock s) (Open dbConf)) as [msg|];
    cbn [fmap option_fmap option_map Legacy.db].
  2:{ split; [done|]. by apply calls_since_app. }
  split; [done|]. split; [apply calls_since_app; cbn; by rewrite <- app_assoc|].
  set (this := Legacy.mkFixturer false _ _ _ _). intros s'.
  split; [|split; [|split]].
  - unfold Legacy.recreateDatabase, Legacy.query_database, Legacy.lbind, Legacy.lpanic.
    cbn. split; [by eexists|]. apply calls_since_app. by rewrite app_nil_r.
  - unfold Legacy.LoadCsvFixtures.
    destruct (consoleLog_run "LoadCsvFixtures" 4 s' ltac:(lia)) as [text0 E0].
    rewrite (lbind_Returned _ _ _ _ _ E0).
    unfold Legacy.db_Exec, Legacy.lbind, Legacy.lpanic. cbn.
    split; [by eexists|]. erewrite calls_since_app; [|reflexivity]. done.
  - unfold Legacy.createTables.
    destruct (consoleLog_run "createTables" 1 s' ltac:(lia)) as [text0 E0].
    rewrite (lbind_Returned _ _ _ _ _ E0).
    rewrite (lbind_Returned _ _ _ _ _ (lemit_run _ _)). cbn [Legacy.schema this].
    destruct (env_ReadFile env schema) as [file|e]; [|done].
    pose proof (createTables_loop_nil_handle env this (Split file ";"%char)
                  (Legacy.mkLState (Legacy.l_clock s') (Legacy.l_rng s')
                     ((Legacy.l_trace s' ++ [Legacy.CPrint text0])
                        ++ [Legacy.CReadFile schema])) eq_refl) as H.
    unfold schema_statements. destruct (decide (schema_pieces _ = [])).
    + cbn in H |- *. by rewrite H.
    + destruct H as [m H]. exists m. cbn in H |- *. by rewrite H.
  - intros Hmk Hch Hfiles. unfold Legacy.generateCsvFixtures. fold (csv_dir this).
    destruct (consoleLog_run "generateCsvFixtures" 3 s' ltac:(lia)) as [text0 E0].
    rewrite (lbind_Returned _ _ _ _ _ E0). set (s0 := Legacy.mkLState _ _ _).
    rewrite (lbind_Returned _ _ _ _ _ (lemit_run _ _)). set (s1 := Legacy.mkLState _ _ _).
    assert (∃ s2 tr2, (if Legacy.sys_stat sys (csv_dir this)
                       then Legacy.lemit (Legacy.CRemoveAll (csv_dir this))
                       else Legacy.lret tt) s1 = (Returned tt, s2)
                      ∧ Legacy.l_trace s2 = Legacy.l_trace s1 ++ tr2
                      ∧ (Legacy.sys_stat sys (csv_dir this) = true →
                         In (Legacy.CRemoveAll (csv_dir this)) tr2))
      as (s2 & tr2 & E2 & Htr2 & Hrm).
    { destruct (Legacy.sys_stat sys (csv_dir this)).
      - eexists _, [_]. split; [apply lemit_run|]. split; [done|]. intros _. by left.
      - exists s1, []. split; [done|]. split; [by rewrite app_nil_r|]. done. }
    rewrite (lbind_Returned _ _ _ _ _ E2). rewrite Hmk, Hch.
    cbn [fmap option_fmap option_map].
    rewrite (lbind_Returned _ _ _ _ _ (lemit_run _ _)). set (s3 := Legacy.mkLState _ _ _).
    rewrite (lbind_Returned _ _ _ _ _ (lemit_run _ _)). set (s4 := Legacy.mkLState _ _ _).
    rewrite (lbind_Returned _ _ _ _ _ (lemit_run _ _)). set (s5 := Legacy.mkLState _ _ _).
    cbn [Legacy.fixturesPathYml this] in *.
    destruct (Legacy.listing env fixturesPathYml) as [|f files] eqn:Hl; [done|].
    cbn [Legacy.generate_loop]. unfold Legacy.db_Exec. cbn [Legacy.db this].
    unfold Legacy.lbind, Legacy.lpanic. cbn [fst snd].
    split; [by eexists|].
    erewrite calls_since_app.
    2:{ subst s5 s4 s3. cbn. rewrite Htr2. subst s1 s0. cbn. rewrite <- !app_assoc.
        reflexivity. }
    rewrite !in_app_iff. cbn [In]. split; [tauto|]. intros Hst. specialize (Hrm Hst). tauto.
Qed.

Lemma failed_open_gives_a_fixturer_that_panics_witness :
  let env := legacy_env open_fault in
  let out := Legacy.NewFixturer env "user@/testdb" "schema.sql" "fx" "csv" "suite"
               Legacy.start in
  ∃ this, fst out = Returned this
    ∧ Legacy.db this = false
    ∧ panicked (Legacy.generateCsvFixtures env plain_sys this (snd out))
    ∧ In (Legacy.CRemoveAll "csv/suite")
         (calls_since (snd out) (snd (Legacy.generateCsvFixtures env plain_sys this (snd out)))).
Proof.
  intros env out.
  destruct (failed_open_gives_a_fixturer_that_panics
              env plain_sys "user@/testdb" "schema.sql" "fx" "csv" "suite" Legacy.start)
    as (this & Hthis & _ & Hdb & _ & H).
  exists this. split; [exact Hthis|]. split; [exact Hdb|].
  injection Hthis as <-.
  destruct (H (snd out)) as (_ & _ & _ & Hgen).
  destruct Hgen as (Hp & _ & Hrm); [done|done|by vm_compute|].
  split; [exact Hp|]. by apply Hrm.
Defined.

Lemma query_database_run sys this s :
  Legacy.db this = true →
  Legacy.query_database sys this s
  = (Returned match Legacy.sys_database sys (Legacy.l_clock s) with
              | inl name => inl name
              | inr msg => inr (ErrDb msg)
              end,
     Legacy.mkLState (S (Legacy.l_clock s)) (Legacy.l_rng s)
       (Legacy.l_trace s
          ++ [Legacy.CQueryDatabase match Legacy.sys_database sys (Legacy.l_clock s) with
                                    | inl name => inl name
                                    | inr msg => inr (ErrDb msg)
                                    end])).
Proof. unfold Legacy.query_database. by intros ->. Qed.

(** [recreateDatabase], call by call. *)
Lemma recreateDatabase_run env sys this s :
  Legacy.db this = true →
  ∃ r s' tr,
    Legacy.recreateDatabase env sys this s = (Returned r, s')
    ∧ Legacy.l_trace s' = Legacy.l_trace s ++ tr
    ∧ only_Exec tr
    ∧ match Legacy.sys_database sys (Legacy.l_clock s) with
      | inl dbName => stops_at_first_refusal (recreate_statements dbName) r (executed tr)
      | inr msg => r = Some (ErrDb msg) ∧ executed tr = []
      end.
Proof.
  intros Hdb. unfold Legacy.recreateDatabase.
  rewrite (lbind_Returned _ _ _ _ _ (query_database_run sys this s Hdb)).
  destruct (Legacy.sys_database sys (Legacy.l_clock s)) as [dbName|msg].
  2:{ eexists _, _, _. split; [reflexivity|]. split; [reflexivity|]. split; [|done].
      by intros c res [[=]|[]]. }
  set (s0 := Legacy.mkLState _ _ _).
  rewrite (lbind_Returned _ _ _ _ _ (lemit_run _ _)). set (s1 := Legacy.mkLState _ _ _).
  destruct (legacy_db_Exec_run env this (DropDatabaseIfExists dbName) s1 Hdb)
    as (r1 & s2 & E1 & _ & Htr1 & _).
  rewrite (lbind_Returned _ _ _ _ _ E1).
  destruct r1 as [e1|].
  { eexists _, _, _. split; [reflexivity|]. split.
    { rewrite Htr1. subst s1 s0. cbn. rewrite <- !app_assoc. reflexivity. }
    split; [|apply stops_at_first_refusal_first].
    intros c res [[=]|[[=]|[[= <- <-]|[]]]]. by eexists. }
  rewrite (lbind_Returned _ _ _ _ _ (lemit_run _ _)). set (s3 := Legacy.mkLState _ _ _).
  destruct (legacy_db_Exec_run env this
              (Sql ("CREATE DATABASE IF NOT EXISTS " +:+ dbName)) s3 Hdb)
    as (r2 & s4 & E2 & _ & Htr2 & _).
  rewrite (lbind_Returned _ _ _ _ _ E2).
  destruct r2 as [e2|].
  { eexists _, _, _. split; [reflexivity|]. split.
    { rewrite Htr2. subst s3. cbn. rewrite Htr1. subst s1 s0. cbn.
      rewrite <- !app_assoc. reflexivity. }
    split; [|apply stops_at_first_refusal_cons, stops_at_first_refusal_first].
    intros c res [[=]|[[=]|[[= <- <-]|[[=]|[[= <- <-]|[]]]]]]; by eexists. }
  rewrite (lbind_Returned _ _ _ _ _ (lemit_run _ _)). set (s5 := Legacy.mkLState _ _ _).
  destruct (legacy_db_Exec_run env this (Sql ("USE " +:+ dbName)) s5 Hdb)
    as (r3 & s6 & E3 & _ & Htr3 & _).
  rewrite (lbind_Returned _ _ _ _ _ E3).
  exists r3, s6,
    [Legacy.CQueryDatabase (inl dbName);
     Legacy.CPrint ("Drop " +:+ dbName);
     Legacy.CDb (Exec (DropDatabaseIfExists dbName)) None;
     Legacy.CPrint ("Create " +:+ dbName);
     Legacy.CDb (Exec (Sql ("CREATE DATABASE IF NOT EXISTS " +:+ dbName))) None;
     Legacy.CPrint ("Use " +:+ dbName);
     Legacy.CDb (Exec (Sql ("USE " +:+ dbName))) r3].
  split; [by destruct r3|]. split.
  { rewrite Htr3. subst s5. cbn. rewrite Htr2. subst s3. cbn.
    rewrite Htr1. subst s1 s0. cbn. by rewrite <- !app_assoc. }
  split.
  - intros c res [[=]|[[=]|[[= <- <-]|[[=]|[[= <- <-]|[[=]|[[= <- <-]|[]]]]]]]];
      by eexists.
  - cbn. destruct r3 as [e3|].
    + by do 2 apply stops_at_first_refusal_cons; apply stops_at_first_refusal_first.
    + done.
Qed.

(** X26.  [recreateDatabase] of the first generation takes the name of
    the database from the server, not from the fixturer: it asks
    "select database()" and sends DROP DATABASE IF EXISTS, CREATE
    DATABASE IF NOT EXISTS and USE for the name it is told, in that
    order and each only when the one before was accepted, returning the
    first error.  When the question fails its error is returned and
    nothing is sent.  Two fixturers with a handle do the same, whatever
    their schema, paths and suffix. *)
Theorem recreate_takes_the_name_from_the_server
    (env : Env) (sys : Legacy.Sys) (this : Legacy.Fixturer) (s : Legacy.LState) :
  Legacy.db this = true →
  let out := Legacy.recreateDatabase env sys this s in
  let tr := calls_since s (snd out) in
  (∃ r, fst out = Returned r
     ∧ only_Exec tr
     ∧ match Legacy.sys_database sys (Legacy.l_clock s) with
       | inl dbName => stops_at_first_refusal (recreate_statements dbName) r (executed tr)
       | inr msg => r = Some (ErrDb msg) ∧ executed tr = []
       end)
  ∧ (∀ this', Legacy.db this' = true → Legacy.recreateDatabase env sys this' s = out).
Proof.
  intros Hdb out tr. subst out tr. split.
  2:{ intros this' Hdb'. unfold Legacy.recreateDatabase, Legacy.query_database,
        Legacy.db_Exec. by rewrite Hdb, Hdb'. }
  destruct (recreateDatabase_run env sys this s Hdb)
    as (r & s' & tr & E & Htr & Honly & Hrun).
  rewrite E. cbn [fst snd]. rewrite (calls_since_app _ _ _ Htr). by exists r.
Qed.

Lemma recreate_takes_the_name_from_the_server_witness :
  let out := Legacy.recreateDatabase (legacy_env create_if_fault) plain_sys legacy_fixturer
               Legacy.start in
  fst out = Returned (Some (ErrDb "access denied"))
  ∧ executed (calls_since Legacy.start (snd out))
    = [(DropDatabaseIfExists "testdb", None);
       (Sql "CREATE DATABASE IF NOT EXISTS testdb", Some (ErrDb "access denied"))]
  ∧ Legacy.recreateDatabase (legacy_env create_if_fault) plain_sys legacy_fixturer_fy
      Legacy.start = out.
Proof.
  intros out.
  destruct (recreate_takes_the_name_from_the_server
              (legacy_env create_if_fault) plain_sys legacy_fixturer Legacy.start eq_refl)
    as [_ Hsame].
  split; [by vm_compute|]. split; [by vm_compute|]. by apply Hsame.
Defined.

(** ** [InitFixtures] *)

Lemma executed_quiet tr :
  (∀ c res, ¬ In (Legacy.CDb c res) tr) → executed tr = [].
Proof.
  induction tr as [|c tr IH]; [done|]. intros Hq.
  assert (executed tr = []) as Htr.
  { apply IH. intros c0 res Hin. apply (Hq c0 res). by right. }
  unfold executed in *. cbn. destruct c as [| | | |c res| | | | | | |]; try done.
  destruct c; try done. exfalso. apply (Hq (Exec q) res). by left.
Qed.

Lemma accepted_all_app qs1 qs2 :
  accepted_all (qs1 ++ qs2) = accepted_all qs1 ++ accepted_all qs2.
Proof. apply fmap_app. Qed.

Lemma stops_at_first_refusal_None qs ex :
  stops_at_first_refusal qs None ex → ex = accepted_all qs.
Proof. done. Qed.

Lemma initYmlFixtures_loop_run env this insertQueries s :
  Legacy.db this = true →
  ∃ r s' tr,
    Legacy.initYmlFixtures_loop env this insertQueries s = (Returned r, s')
    ∧ Legacy.l_trace s' = Legacy.l_trace s ++ tr
    ∧ stops_at_first_refusal (insert_statements insertQueries) r (executed tr).
Proof.
  intros Hdb. revert s. induction insertQueries as [|qb rest IH]; intros s.
  - exists None, s, []. split; [done|]. split; [by rewrite app_nil_r|done].
  - cbn [Legacy.initYmlFixtures_loop].
    assert (∃ s1 tr1, match (ToSql qb).2 with
                      | Some e => Legacy.lemit (Legacy.CPrintErr e)
                      | None => Legacy.lret tt
                      end s = (Returned tt, s1)
                      ∧ Legacy.l_trace s1 = Legacy.l_trace s ++ tr1
                      ∧ executed tr1 = [])
      as (s1 & tr1 & E1 & Htr1 & Hex1).
    { destruct (ToSql qb).2 as [e|].
      - eexists _, [_]. split; [apply lemit_run|]. split; [done|]. done.
      - exists s, []. split; [done|]. split; [by rewrite app_nil_r|]. done. }
    rewrite (lbind_Returned _ _ _ _ _ E1).
    destruct (legacy_db_Exec_run env this (ToSql qb).1 s1 Hdb)
      as (r2 & s2 & E2 & Hr2 & Htr2 & _).
    rewrite (lbind_Returned _ _ _ _ _ E2).
    destruct r2 as [e2|].
    { exists (Some e2), s2, (tr1 ++ [Legacy.CDb (Exec (ToSql qb).1) (Some e2)]).
      split; [done|]. split; [by rewrite Htr2, Htr1, <- app_assoc|].
      rewrite executed_app, Hex1. apply stops_at_first_refusal_first. }
    destruct (IH s2) as (r & s' & tr & E & Htr & Hrun).
    exists r, s', (tr1 ++ Legacy.CDb (Exec (ToSql qb).1) None :: tr).
    split; [done|]. split.
    { rewrite Htr, Htr2, Htr1, <- !app_assoc. done. }
    rewrite executed_app, Hex1. by apply stops_at_first_refusal_cons.
Qed.

Lemma initYmlFixtures_run env sys this sched s :
  Legacy.db this = true →
  ∃ v s' tr,
    Legacy.initYmlFixtures env sys this sched s = (Returned v, s')
    ∧ Legacy.l_trace s' = Legacy.l_trace s ++ tr
    ∧ match v with
      | Legacy.Waiting =>
          Legacy.g_main (collected env sys this sched) ≠ Legacy.GReturned
          ∧ executed tr = [(SetForeignKeyChecks false, None)]
      | Legacy.Done r =>
          (∃ e, r = Some e ∧ executed tr = [(SetForeignKeyChecks false, Some e)])
          ∨ (Legacy.g_main (collected env sys this sched) = Legacy.GReturned
             ∧ ∃ exI r1,
                 stops_at_first_refusal
                   (insert_statements
                      (Legacy.g_insertQueries (collected env sys this sched))) r exI
                 ∧ executed tr = (SetForeignKeyChecks false, None) :: exI
                                   ++ [(SetForeignKeyChecks true, r1)])
      end.
Proof.
  intros Hdb. unfold Legacy.initYmlFixtures.
  destruct (legacy_db_Exec_run env this (SetForeignKeyChecks false) s Hdb)
    as (r1 & s1 & E1 & _ & Htr1 & _).
  rewrite (lbind_Returned _ _ _ _ _ E1).
  destruct r1 as [e1|].
  { rewrite (lbind_Returned _ _ _ _ _ (lemit_run _ _)).
    eexists _, _, _. split; [reflexivity|]. split.
    { cbn. rewrite Htr1, <- app_assoc. reflexivity. }
    left. by exists e1. }
  unfold Legacy.getInsertQueriesFromYml. unfold Legacy.lbind at 1.
  fold (collected env sys this sched).
  pose proof (gi_quiet _ _ _ _ (gather_reachable_inv env sys this
                (collected env sys this sched) (ex_intro _ sched eq_refl))) as Hquiet.
  apply executed_quiet in Hquiet.
  set (s2 := Legacy.mkLState _ _ _).
  assert (Legacy.l_trace s2
          = Legacy.l_trace s
              ++ Legacy.CDb (Exec (SetForeignKeyChecks false)) None
                   :: Legacy.CReadDir (Legacy.fixturesPathYml this)
                   :: Legacy.g_trace (collected env sys this sched)) as Htr2.
  { subst s2. cbn. by rewrite Htr1, <- app_assoc. }
  assert (executed (Legacy.CDb (Exec (SetForeignKeyChecks false)) None
                      :: Legacy.CReadDir (Legacy.fixturesPathYml this)
                      :: Legacy.g_trace (collected env sys this sched))
          = [(SetForeignKeyChecks false, None)]) as Hex2.
  { change (executed (?a :: ?b :: ?l)) with (executed [a; b] ++ executed l).
    by rewrite Hquiet. }
  destruct (decide (Legacy.g_main (collected env sys this sched) = Legacy.GReturned))
    as [Hm|Hm].
  2:{ exists Legacy.Waiting, s2. eexists. split.
      { by destruct (Legacy.g_main (collected env sys this sched)). }
      split; [exact Htr2|]. by split. }
  rewrite Hm.
  destruct (initYmlFixtures_loop_run env this
              (Legacy.g_insertQueries (collected env sys this sched)) s2 Hdb)
    as (r & s3 & tr3 & E3 & Htr3 & Hrun).
  rewrite (lbind_Returned _ _ _ _ _ E3).
  destruct (legacy_db_Exec_run env this (SetForeignKeyChecks true) s3 Hdb)
    as (r4 & s4 & E4 & _ & Htr4 & _).
  rewrite (lbind_Returned _ _ _ _ _ E4).
  exists (Legacy.Done r), s4. eexists. split; [reflexivity|]. split.
  { rewrite Htr4, Htr3, Htr2, <- !app_assoc. reflexivity. }
  right. split; [done|]. exists (executed tr3), r4. split; [done|].
  rewrite !executed_app, Hex2. done.
Qed.

(** [InitFixtures], statement by statement. *)
Lemma InitFixtures_run env sys this sched s :
  Legacy.db this = true →
  ∃ v s' tr,
    Legacy.InitFixtures env sys this sched s = (Returned v, s')
    ∧ Legacy.l_trace s' = Legacy.l_trace s ++ tr
    ∧ ((∃ e, v = Legacy.Done (Some e)
             ∧ executed tr = [(SetForeignKeyChecks false, Some e)])
       ∨ (∃ exB r2,
            init_body env sys this sched (S (Legacy.l_clock s)) v exB
            ∧ executed tr
              = (SetForeignKeyChecks false, None) :: exB
                  ++ match v with
                     | Legacy.Done _ => [(SetForeignKeyChecks true, r2)]
                     | Legacy.Waiting => []
                     end)).
Proof.
  intros Hdb. unfold Legacy.InitFixtures.
  destruct (consoleLog_run "InitFixtures" 0 s ltac:(lia)) as [text0 E0].
  rewrite (lbind_Returned _ _ _ _ _ E0). set (s0 := Legacy.mkLState _ _ _).
  destruct (legacy_db_Exec_run env this (SetForeignKeyChecks false) s0 Hdb)
    as (r1 & s1 & E1 & _ & Htr1 & _ & Hclock).
  rewrite (lbind_Returned _ _ _ _ _ E1).
  destruct r1 as [e1|].
  { eexists _, _, _. split; [reflexivity|]. split.
    { rewrite Htr1. subst s0. cbn. rewrite <- !app_assoc. reflexivity. }
    left. by exists e1. }
  change (Legacy.l_clock s0) with (Legacy.l_clock s) in Hclock.
  set (body := Legacy.lbind (Legacy.recreateDatabase env sys this) _).
  assert (∃ v s2 trB,
            body s1 = (Returned v, s2)
            ∧ Legacy.l_trace s2 = Legacy.l_trace s1 ++ trB
            ∧ init_body env sys this sched (S (Legacy.l_clock s)) v (executed trB))
    as (v & s2 & trB & EB & HtrB & HB).
  { subst body. rewrite <- Hclock.
    destruct (recreateDatabase_run env sys this s1 Hdb)
      as (rR & sR & trR & ER & HtrR & _ & HR).
    rewrite (lbind_Returned _ _ _ _ _ ER).
    destruct rR as [eR|].
    { eexists _, _, _. split; [reflexivity|]. split; [exact HtrR|].
      apply body_recreate_failed.
      destruct (Legacy.sys_database sys (Legacy.l_clock s1)); [done|].
      destruct HR as [[= ->] ->]. done. }
    destruct (Legacy.sys_database sys (Legacy.l_clock s1)) as [dbName|msg] eqn:Hname;
      [|by destruct HR].
    apply stops_at_first_refusal_None in HR.
    destruct (createTables_run env this sR Hdb) as (rC & sC & trC & EC & HtrC & _ & HC).
    rewrite (lbind_Returned _ _ _ _ _ EC).
    destruct rC as [eC|].
    { eexists _, _, _. split; [reflexivity|]. split.
      { rewrite HtrC, HtrR, <- app_assoc. reflexivity. }
      rewrite executed_app, HR. apply body_schema_failed; [done|].
      destruct (env_ReadFile env (Legacy.schema this)); [done|].
      destruct HC as [[= ->] ->]. done. }
    destruct (env_ReadFile env (Legacy.schema this)) as [file|msg] eqn:Hfile;
      [|by destruct HC].
    apply stops_at_first_refusal_None in HC.
    destruct (initYmlFixtures_run env sys this sched sC Hdb)
      as (vY & sY & trY & EY & HtrY & HY).
    rewrite (lbind_Returned _ _ _ _ _ EY).
    destruct vY as [rY|].
    2:{ destruct HY as [Hm HexY].
        eexists _, _, _. split; [reflexivity|]. split.
        { rewrite HtrY, HtrC, HtrR, <- !app_assoc. reflexivity. }
        rewrite !executed_app, HR, HC, HexY.
        replace (accepted_all (recreate_statements dbName)
                   ++ accepted_all (Sql <$> schema_statements file)
                   ++ [(SetForeignKeyChecks false, None)])
          with (accepted_all (init_prologue dbName file))
          by (unfold init_prologue; by rewrite !accepted_all_app).
        by apply body_waiting. }
    destruct HY as [(eY & -> & HexY)|(Hm & exI & r1 & HI & HexY)].
    { eexists _, _, _. split; [reflexivity|]. split.
      { rewrite HtrY, HtrC, HtrR, <- !app_assoc. reflexivity. }
      rewrite !executed_app, HR, HC, HexY, app_assoc, <- accepted_all_app.
      by apply body_switch_refused. }
    assert (accepted_all (recreate_statements dbName)
              ++ accepted_all (Sql <$> schema_statements file)
              ++ (SetForeignKeyChecks false, None) :: exI ++ [(SetForeignKeyChecks true, r1)]
            = accepted_all (init_prologue dbName file) ++ exI
                ++ [(SetForeignKeyChecks true, r1)]) as Hshape.
    { unfold init_prologue. rewrite !accepted_all_app, <- !app_assoc. done. }
    destruct rY as [eY|].
    { eexists _, _, _. split; [reflexivity|]. split.
      { rewrite HtrY, HtrC, HtrR, <- !app_assoc. reflexivity. }
      rewrite !executed_app, HR, HC, HexY, Hshape.
      by apply body_insert_refused. }
    apply stops_at_first_refusal_None in HI. subst exI.
    destruct (generateCsvFixtures_run env sys this sY Hdb)
      as (rG & sG & trG & EG & HtrG & _ & HG).
    rewrite (lbind_Returned _ _ _ _ _ EG).
    eexists _, _, _. split; [reflexivity|]. split.
    { cbn. rewrite HtrG, HtrY, HtrC, HtrR, <- !app_assoc. reflexivity. }
    rewrite !executed_app, HR, HC, HexY.
    replace (accepted_all (recreate_statements dbName)
               ++ accepted_all (Sql <$> schema_statements file)
               ++ ((SetForeignKeyChecks false, None)
                     :: accepted_all (insert_statements
                          (Legacy.g_insertQueries (collected env sys this sched)))
                     ++ [(SetForeignKeyChecks true, r1)]) ++ executed trG)
      with (accepted_all
              (init_prologue dbName file
                 ++ insert_statements
                      (Legacy.g_insertQueries (collected env sys this sched)))
              ++ [(SetForeignKeyChecks true, r1)] ++ executed trG).
    2:{ unfold init_prologue. rewrite !accepted_all_app, <- !app_assoc.
        cbn [accepted_all fmap list_fmap app]. by rewrite <- !app_assoc. }
    by apply body_generated. }
  rewrite (lbind_Returned _ _ _ _ _ EB).
  destruct v as [r|].
  - destruct (legacy_db_Exec_run env this (SetForeignKeyChecks true) s2 Hdb)
      as (r2 & s3 & E3 & _ & Htr3 & _).
    rewrite (lbind_Returned _ _ _ _ _ E3).
    eexists _, _, _. split; [reflexivity|]. split.
    { cbn. rewrite Htr3, HtrB, Htr1. subst s0. cbn. rewrite <- !app_assoc. reflexivity. }
    right. exists (executed trB), r2. split; [done|].
    change (executed ([Legacy.CPrint text0]
                        ++ [Legacy.CDb (Exec (SetForeignKeyChecks false)) None]
                        ++ trB ++ [Legacy.CDb (Exec (SetForeignKeyChecks true)) r2]))
      with ((SetForeignKeyChecks false, None)
              :: executed (trB ++ [Legacy.CDb (Exec (SetForeignKeyChecks true)) r2])).
    by rewrite executed_app.
  - eexists _, _, _. split; [reflexivity|]. split.
    { cbn. rewrite HtrB, Htr1. subst s0. cbn. rewrite <- !app_assoc. reflexivity. }
    right. exists (executed trB), None. split; [done|].
    change (executed ([Legacy.CPrint text0]
                        ++ [Legacy.CDb (Exec (SetForeignKeyChecks false)) None] ++ trB))
      with ((SetForeignKeyChecks false, None) :: executed trB).
    by rewrite app_nil_r.
Qed.

Lemma collected_app env sys this sched more :
  collected env sys this (sched ++ more)
  = Legacy.gather_run env sys this more (collected env sys this sched).
Proof. unfold collected, Legacy.gather_run. by rewrite foldl_app. Qed.

(** X27.  [InitFixtures] of the first generation does not return nil
    from a fixture directory its collecting loop cannot come back from
    (an empty or unreadable one, one with an entry that does not end in
    ".yml", or a listing with spare capacity): whatever the goroutines
    do, it returns an error of an earlier step or its caller stays in
    the collecting loop.  When the caller is in the loop the database
    has been dropped, created and selected again under the name the
    server gave, the tables of the schema file have been created, and
    the constraint checks have been switched off twice and not on
    again; no row has been inserted.  On a directory the loop can come
    back from, every run that waits can be continued to one in which the
    call returns. *)
Theorem init_waits_on_a_directory_it_cannot_collect
    (env : Env) (sys : Legacy.Sys) (this : Legacy.Fixturer)
    (sched : list Legacy.gather_choice) (s : Legacy.LState) :
  Legacy.db this = true →
  let out := Legacy.InitFixtures env sys this sched s in
  let ex := executed (calls_since s (snd out)) in
  ∃ v, fst out = Returned v
    ∧ (¬ collectable env sys this → v ≠ Legacy.Done None)
    ∧ (v = Legacy.Waiting →
       Legacy.g_main (collected env sys this sched) ≠ Legacy.GReturned
       ∧ ∃ dbName file,
           Legacy.sys_database sys (S (Legacy.l_clock s)) = inl dbName
           ∧ env_ReadFile env (Legacy.schema this) = inl file
           ∧ ex = accepted_all (SetForeignKeyChecks false :: init_prologue dbName file))
    ∧ (collectable env sys this →
       ∃ more r,
         fst (Legacy.InitFixtures env sys this (sched ++ more) s)
         = Returned (Legacy.Done r)).
Proof.
  intros Hdb out ex. subst out ex.
  destruct (InitFixtures_run env sys this sched s Hdb) as (v & s' & tr & E & Htr & Hrun).
  rewrite E. cbn [fst snd]. rewrite (calls_since_app _ _ _ Htr).
  exists v. split; [done|]. split; [|split].
  - intros Hno ->. destruct Hrun as [(e & [=] & _)|(exB & r2 & HB & _)].
    inversion HB as [| | | | |dbName file r exG r1 Hname Hfile Hm HG]; subst.
    apply Hno.
    by destruct (gather_returned env sys this _ (ex_intro _ sched eq_refl) Hm) as [? _].
  - intros ->. destruct Hrun as [(e & [=] & _)|(exB & r2 & HB & Hex)].
    inversion HB as [| | |dbName file Hname Hfile Hm| |]; subst.
    split; [done|]. exists dbName, file. split; [done|]. split; [done|].
    by rewrite Hex, app_nil_r.
  - intros Hcol.
    destruct (gather_returns env sys this (collected env sys this sched) Hcol)
      as [more Hmore].
    { apply gather_reachable_inv. by exists sched. }
    exists more.
    destruct (InitFixtures_run env sys this (sched ++ more) s Hdb)
      as (v' & s'' & tr' & E' & _ & Hrun').
    rewrite E'. cbn [fst]. destruct v' as [r|]; [by exists r|].
    destruct Hrun' as [(e & [=] & _)|(exB & r2 & HB & _)].
    inversion HB as [| | |dbName file Hname Hfile Hm| |]; subst.
    by rewrite collected_app in Hm.
Qed.

Lemma init_waits_on_a_directory_it_cannot_collect_witness :
  let out := Legacy.InitFixtures (legacy_env no_fault) plain_sys legacy_fixturer
               collecting_schedule Legacy.start in
  fst out = Returned Legacy.Waiting
  ∧ ∃ dbName file,
      executed (calls_since Legacy.start (snd out))
      = accepted_all (SetForeignKeyChecks false :: init_prologue dbName file).
Proof.
  intros out.
  destruct (init_waits_on_a_directory_it_cannot_collect
              (legacy_env no_fault) plain_sys legacy_fixturer collecting_schedule
              Legacy.start eq_refl)
    as (v & Hv & _ & Hw & _).
  assert (fst out = Returned Legacy.Waiting) as Hout by (by vm_compute).
  split; [exact Hout|].
  fold out in Hv. rewrite Hout in Hv. injection Hv as <-.
  destruct (Hw eq_refl) as (_ & dbName & file & _ & _ & Hex).
  by exists dbName, file.
Defined.

(** X28.  When [InitFixtures] of the first generation returns nil, the
    fixture directory is one its collecting loop can come back from,
    and the statements went out in this order, each accepted: the
    constraint checks off, the database dropped, created and selected,
    the tables of the schema, the constraint checks off once more, one
    INSERT for every record of every fixture file, the constraint
    checks on, one SELECT ... INTO OUTFILE for every fixture file, the
    constraint checks on.  Whenever the call returns after its first
    statement was accepted, whatever it returns, the last statement it
    sent switches the constraint checks on again. *)
Theorem init_returning_nil_has_loaded_every_record
    (env : Env) (sys : Legacy.Sys) (this : Legacy.Fixturer)
    (sched : list Legacy.gather_choice) (s : Legacy.LState) :
  Legacy.db this = true →
  let out := Legacy.InitFixtures env sys this sched s in
  let ex := executed (calls_since s (snd out)) in
  let insertQueries := Legacy.g_insertQueries (collected env sys this sched) in
  (fst out = Returned (Legacy.Done None) →
   collectable env sys this
   ∧ length insertQueries
     = sum_list_with (fun f => length (Legacy.decoded env this (Name f)))
                     (Legacy.files env this)
   ∧ ∃ dbName file r1 r2,
       Legacy.sys_database sys (S (Legacy.l_clock s)) = inl dbName
       ∧ env_ReadFile env (Legacy.schema this) = inl file
       ∧ ex = accepted_all (SetForeignKeyChecks false :: init_prologue dbName file
                              ++ insert_statements insertQueries)
              ++ [(SetForeignKeyChecks true, r1)]
              ++ accepted_all (select_statement (csv_dir this) <$> Legacy.files env this)
              ++ [(SetForeignKeyChecks true, r2)])
  ∧ (∀ r, fst out = Returned (Legacy.Done r) →
          (∃ e, r = Some e ∧ ex = [(SetForeignKeyChecks false, Some e)])
          ∨ (∃ ex' r2, ex = (SetForeignKeyChecks false, None) :: ex'
                              ++ [(SetForeignKeyChecks true, r2)])).
Proof.
  intros Hdb out ex insertQueries. subst out ex insertQueries.
  destruct (InitFixtures_run env sys this sched s Hdb) as (v & s' & tr & E & Htr & Hrun).
  rewrite E. cbn [fst snd]. rewrite (calls_since_app _ _ _ Htr). split.
  - intros [= ->]. destruct Hrun as [(e & [=] & _)|(exB & r2 & HB & Hex)].
    inversion HB as [| | | | |dbName file r exG r1 Hname Hfile Hm HG]; subst.
    destruct (gather_returned env sys this _ (ex_intro _ sched eq_refl) Hm)
      as [Hcol Hlen].
    split; [done|]. split; [exact Hlen|].
    exists dbName, file, r1, r2. split; [done|]. split; [done|].
    rewrite Hex. unfold generated in HG.
    destruct (Legacy.sys_mkdir sys (csv_dir this)); [by destruct HG|].
    destruct (Legacy.sys_chmod sys (csv_dir this)); [by destruct HG|].
    apply stops_at_first_refusal_None in HG. rewrite HG.
    cbn [accepted_all fmap list_fmap app]. by rewrite <- !app_assoc.
  - intros r [= ->]. destruct Hrun as [(e & [= ->] & Hex)|(exB & r2 & HB & Hex)].
    + left. by exists e.
    + right. by exists exB, r2.
Qed.

Lemma init_returning_nil_has_loaded_every_record_witness :
  let out := Legacy.InitFixtures (legacy_env no_fault) plain_sys legacy_fixturer_fy
               collecting_schedule Legacy.start in
  fst out = Returned (Legacy.Done None)
  ∧ executed (calls_since Legacy.start (snd out))
    = accepted_all
        [SetForeignKeyChecks false;
         DropDatabaseIfExists "testdb";
         Sql "CREATE DATABASE IF NOT EXISTS testdb";
         Sql "USE testdb";
         Sql "CREATE TABLE users (id INT)";
         Sql "CREATE TABLE orders (id INT)";
         SetForeignKeyChecks false;
         InsertInto "orders" ["id"] [[VInt 7]];
         SetForeignKeyChecks true;
         Sql "SELECT * FROM orders INTO OUTFILE 'csv/suite/orders.csv'";
         SetForeignKeyChecks true]
  ∧ collectable (legacy_env no_fault) plain_sys legacy_fixturer_fy.
Proof.
  intros out.
  assert (fst out = Returned (Legacy.Done None)) as Hout by (by vm_compute).
  destruct (init_returning_nil_has_loaded_every_record
              (legacy_env no_fault) plain_sys legacy_fixturer_fy collecting_schedule
              Legacy.start eq_refl)
    as [H _].
  destruct (H Hout) as (Hcol & _).
  split; [exact Hout|]. split; [by vm_compute|exact Hcol].
Defined.

(* ===================================================================== *)
(** ** Constraint checking is switched back on, path by path *)
(* ===================================================================== *)

(** C8 (as amended).  In [loadParsedData] the statement that switches
    constraint checking back on goes out, through the handle, on every
    way out that comes after the switching-off statement succeeded, and
    on no other: the [defer] is registered only then.  In [LoadDbSchema]
    it goes out on no way out on which the switching-off statement did
    not succeed; and on every way out after it succeeded on which the
    call fails before it comes to its commit (the schema file cannot be
    read, a statement is refused) it goes to the transaction while that
    is still open, so that the server gets it. *)
Theorem reenable_issued_after_disable_succeeded
    (env : Env) (this : Fixturer) (s : State) :
  (let s' := snd (loadParsedData env this s) in
   issued (SetForeignKeyChecks true) (events_since s s')
   ↔ In fk_off (events_since s s'))
  ∧ (let out := LoadDbSchema env this s in
     let evs := events_since s (snd out) in
     (issued_tx (SetForeignKeyChecks true) evs → In (tx_fk_off None) evs)
     ∧ (In (tx_fk_off None) evs →
        (∀ r, ¬ In (EvDb Commit r) evs) →
        is_Some (fst (fst out))
        ∧ ∃ r1, In (tx_fk_on r1) evs ∧ r1 ≠ Some ErrTxDone)).
Proof.
  split.
  - destruct (loadParsedData env this s) as [r s'] eqn:E. cbn.
    apply loadParsedData_spec in E as (_ & evs & Htr & Hpath).
    rewrite (events_since_app _ _ _ Htr). by eapply load_path_switch.
  - destruct (LoadDbSchema env this s) as [[r this'] s'] eqn:E. cbn.
    apply LoadDbSchema_events in E as (cevs & tail & -> & Hc & _ & _ & Hrun & _).
    assert (Hno : ∀ q r', In (EvDb (TxExec q) r')
                            (EvLog (LogText "Load database schema") :: cevs ++ tail)
                          → In (EvDb (TxExec q) r') tail).
    { intros q r' [[=]|Hin]. apply in_app_or in Hin as [Hin|Hin]; [|done].
      by apply connection_event_not_tx in Hin. }
    destruct Hrun as [(msg & _ & -> & _)|[_ Hrun]].
    { split.
      - intros [r' Hin]. by apply Hno in Hin.
      - intros Hin. by apply Hno in Hin. }
    destruct Hrun as [msg ->|msg r2 ->|msg r1 r2 Hf -> Hlive
                     |file sent query msg r1 r2 Hf Hpre -> Hlive|file Hf Herr].
    + split.
      * intros [r' Hin]. apply Hno in Hin as [[=]|[]].
      * intros Hin. apply Hno in Hin as [[=]|[]].
    + split.
      * intros [r' Hin]. apply Hno in Hin as [[=]|[[=]|[[=]|[]]]].
      * intros Hin. apply Hno in Hin as [[=]|[[=]|[[=]|[]]]].
    + split; [intros _; in_list|]. intros _ _. split; [done|].
      exists r1. split; [in_list|done].
    + split; [intros _; in_list|]. intros _ _. split; [done|].
      exists r1. split; [in_list|done].
    + split; [intros _; in_list|]. intros _ Hnone. exfalso.
      apply (Hnone r). in_list.
Qed.

Lemma reenable_issued_after_disable_succeeded_witness :
  let s := init_State ∅ in
  let out := LoadDbSchema (schema_env orders_fault) fixturer_fx s in
  let evs := events_since s (snd out) in
  fst (fst out) = Some (ErrDb "table exists")
  ∧ ∃ r1, In (tx_fk_on r1) evs ∧ r1 ≠ Some ErrTxDone.
Proof.
  assert (Hevs : events_since (init_State ∅)
                   (snd (LoadDbSchema (schema_env orders_fault) fixturer_fx (init_State ∅)))
                 = [EvLog (LogText "Load database schema");
                    EvDb (Open "root@tcp(127.0.0.1:3306)/testdb") None;
                    EvSetMaxOpenConns 20; EvSetMaxIdleConns 20;
                    EvDb Ping None; EvDb Begin None;
                    EvDb (TxExec (SetForeignKeyChecks false)) None;
                    EvReadFile "schema.sql";
                    EvDb (TxExec (Sql "CREATE TABLE users (id INT)")) None;
                    EvDb (TxExec (Sql "CREATE TABLE orders (id INT)"))
                      (Some (ErrDb "table exists"));
                    EvDb (TxExec (SetForeignKeyChecks true)) None;
                    EvDb Rollback None])
    by (vm_compute; reflexivity).
  cbv zeta. split; [vm_compute; reflexivity|].
  destruct (reenable_issued_after_disable_succeeded
              (schema_env orders_fault) fixturer_fx (init_State ∅)) as [_ [_ H]].
  cbv zeta in H. rewrite Hevs in H |- *.
  destruct H as [_ H]; [| |exact H].
  - unfold tx_fk_off. in_list.
  - intros r Hin. repeat (destruct Hin as [Hin|Hin]; [discriminate Hin|]). exact Hin.
Defined.
